(** * MQTT dashboard: topic matcher, message store and MQTT bridge

    A shallow embedding of the parts of the dashboard,
      - the topic matcher of the browser-side MQTT client
        (class MQTTClient, method matchTopic),
      - the in-memory store of the server (server/storage.ts,
        class MemStorage),
      - the server-side MQTT bridge (server/mqtt-client.ts,
        class MQTTServerClient),
    together with the properties their specification states, and of
      - the routes of the server (server/routes.ts),
      - the listeners and the message handler of the browser-side MQTT
        client, and the WebSocket client of the browser,
      - the data of a chart (client/src/lib/chartUtils.ts),
    with further properties that the code shows.

    JavaScript strings are sequences of UTF-16 code units; a code unit is
    modelled as a number of type [N].  Numbers that only ever hold integers
    (lengths, ids, millisecond time values) are modelled as [nat] or [Z]. *)

From Stdlib Require Import Ascii String List NArith ZArith Bool Lia.
From Stdlib Require Import Sorted Permutation.
Import ListNotations.

Set Warnings "-register-all,-abstract-large-number".

(* ================================================================== *)
(** * JavaScript strings *)
(* ================================================================== *)

Module JS.

(** A string is the list of its code units. *)
Definition jsstring := list N.

(** The code units of an ASCII literal. *)
Definition js (s : string) : jsstring :=
  List.map N_of_ascii (list_ascii_of_string s).

(** A string between double quotes. *)
Definition quoted (s : jsstring) : jsstring := 34%N :: s ++ [34%N].

(** Strict equality [===] on strings. *)
Fixpoint str_eqb (a b : jsstring) : bool :=
  match a, b with
  | [], [] => true
  | x :: a', y :: b' => N.eqb x y && str_eqb a' b'
  | _, _ => false
  end.

(** ECMAScript LineTerminator: LF, CR, LS (U+2028) and PS (U+2029). *)
Definition is_line_terminator (c : N) : bool :=
  (N.eqb c 10 || N.eqb c 13 || N.eqb c 8232 || N.eqb c 8233)%bool.

(** What a call can do: return a value, throw, or leave the part of the
    language this development gives a meaning to. *)
Inductive result (A : Type) : Type :=
| Ok (a : A)
| SyntaxError
| OutsideFragment.

Arguments Ok {A} a.
Arguments SyntaxError {A}.
Arguments OutsideFragment {A}.

End JS.

Import JS.

(* ================================================================== *)
(** * The RegExp built-in (the fragment matchTopic can produce) *)
(* ================================================================== *)

(** [new RegExp(source)] without flags, and [RegExp.prototype.test].
    The fragment covers pattern characters, [.], [^], [$], [|], capturing
    and [(?:] groups, the quantifiers [*], [+], [?] (greedy and lazy),
    character classes made of characters and ranges, and a backslash before
    a syntax character.  Any other construct (braces, look-around, named
    groups, letter and digit escapes, a backslash inside a class) is
    reported as [OutsideFragment]. *)

Module RegExp.

Inductive regex : Type :=
| Empty
| Chr (c : N)
| Any
| Class (neg : bool) (ranges : list (N * N))
| Bol
| Eol
| Seq (r1 r2 : regex)
| Alt (r1 r2 : regex)
| Star (r : regex)
| Plus (r : regex)
| Opt (r : regex).

(** ** Parsing the pattern text *)

Inductive ckind : Type :=
| KCaret | KDollar | KBackslash | KDot | KStar | KPlus | KQuest
| KLParen | KRParen | KLBrack | KLBrace | KPipe | KLit.

Definition kind (c : N) : ckind :=
  if N.eqb c 94 then KCaret          (* ^ *)
  else if N.eqb c 36 then KDollar    (* $ *)
  else if N.eqb c 92 then KBackslash (* \ *)
  else if N.eqb c 46 then KDot       (* . *)
  else if N.eqb c 42 then KStar      (* * *)
  else if N.eqb c 43 then KPlus      (* + *)
  else if N.eqb c 63 then KQuest     (* ? *)
  else if N.eqb c 40 then KLParen    (* ( *)
  else if N.eqb c 41 then KRParen    (* ) *)
  else if N.eqb c 91 then KLBrack    (* [ *)
  else if N.eqb c 123 then KLBrace   (* { *)
  else if N.eqb c 124 then KPipe     (* | *)
  else KLit.

(** Whether the last term of the alternative being read can still take a
    quantifier. *)
Inductive qstate : Type :=
| QNone    (* nothing to repeat: start of an alternative, or an assertion *)
| QAtom    (* an atom: any quantifier may follow *)
| QQuant   (* a quantified atom: only the lazy mark [?] may follow *)
| QLazy.   (* a lazily quantified atom: no quantifier may follow *)

(** A group that is still open: the alternatives already closed by [|],
    the terms of the current alternative but the last, and the last term. *)
Record frame : Type := mkFrame {
  alts : option regex;
  done : regex;
  last : regex;
  rep : qstate
}.

Definition empty_frame : frame := mkFrame None Empty Empty QNone.

Definition push_atom (f : frame) (a : regex) (q : qstate) : frame :=
  mkFrame (alts f) (Seq (done f) (last f)) a q.

Definition close (f : frame) : regex :=
  let cur := Seq (done f) (last f) in
  match alts f with
  | None => cur
  | Some a => Alt a cur
  end.

Definition bar (f : frame) : frame :=
  mkFrame (Some (close f)) Empty Empty QNone.

Inductive mode : Type :=
| MNormal
| MEscape                                   (* after a backslash *)
| MOpen                                     (* after ( *)
| MOpenQ                                    (* after (? *)
| MClassStart                               (* after [ *)
| MClass (neg : bool) (acc : list N).       (* inside [...], newest first *)

Record pstate : Type := mkP {
  stack : list frame;
  top : frame;
  md : mode
}.

Definition init : pstate := mkP [] empty_frame MNormal.

Definition with_top (st : pstate) (f : frame) : pstate :=
  mkP (stack st) f MNormal.

Definition open_group (st : pstate) : pstate :=
  mkP (top st :: stack st) empty_frame MNormal.

(** ClassRanges: [a-b] is a range when both ends are present, any other
    character, [-] included, stands for itself. *)
Fixpoint class_ranges (l : list N) : option (list (N * N)) :=
  match l with
  | [] => Some []
  | a :: l1 =>
      match l1 with
      | d :: b :: l2 =>
          if N.eqb d 45 then
            if N.leb a b then option_map (cons (a, b)) (class_ranges l2)
            else None
          else option_map (cons (a, a)) (class_ranges l1)
      | _ => option_map (cons (a, a)) (class_ranges l1)
      end
  end.

Definition quantify (q : regex -> regex) (st : pstate) : result pstate :=
  match rep (top st) with
  | QAtom =>
      Ok (with_top st
            (mkFrame (alts (top st)) (done (top st)) (q (last (top st))) QQuant))
  | _ => SyntaxError
  end.

Definition normal_step (st : pstate) (c : N) : result pstate :=
  match kind c with
  | KLit => Ok (with_top st (push_atom (top st) (Chr c) QAtom))
  | KDot => Ok (with_top st (push_atom (top st) Any QAtom))
  | KCaret => Ok (with_top st (push_atom (top st) Bol QNone))
  | KDollar => Ok (with_top st (push_atom (top st) Eol QNone))
  | KStar => quantify Star st
  | KPlus => quantify Plus st
  | KQuest =>
      match rep (top st) with
      | QQuant =>
          Ok (with_top st
                (mkFrame (alts (top st)) (done (top st)) (last (top st)) QLazy))
      | _ => quantify Opt st
      end
  | KPipe => Ok (with_top st (bar (top st)))
  | KLParen => Ok (mkP (stack st) (top st) MOpen)
  | KRParen =>
      match stack st with
      | [] => SyntaxError
      | f :: rest => Ok (mkP rest (push_atom f (close (top st)) QAtom) MNormal)
      end
  | KLBrack => Ok (mkP (stack st) (top st) MClassStart)
  | KLBrace => OutsideFragment
  | KBackslash => Ok (mkP (stack st) (top st) MEscape)
  end.

Definition class_step (st : pstate) (neg : bool) (acc : list N) (c : N)
  : result pstate :=
  if N.eqb c 93 then                               (* ] *)
    match class_ranges (rev acc) with
    | Some rs => Ok (with_top st (push_atom (top st) (Class neg rs) QAtom))
    | None => SyntaxError
    end
  else if N.eqb c 92 then OutsideFragment          (* \ *)
  else Ok (mkP (stack st) (top st) (MClass neg (c :: acc))).

(** A backslash makes a syntax character (or [/]) stand for itself. *)
Definition is_syntax_char (c : N) : bool :=
  match kind c with
  | KLit => (N.eqb c 93 || N.eqb c 125 || N.eqb c 47)%bool   (* ] } / *)
  | _ => true
  end.

Definition step (st : pstate) (c : N) : result pstate :=
  match md st with
  | MNormal => normal_step st c
  | MEscape =>
      if is_syntax_char c
      then Ok (with_top st (push_atom (top st) (Chr c) QAtom))
      else OutsideFragment
  | MOpen =>
      if N.eqb c 63 then Ok (mkP (stack st) (top st) MOpenQ)   (* ? *)
      else normal_step (open_group st) c
  | MOpenQ =>
      if N.eqb c 58 then Ok (open_group st)                    (* : *)
      else OutsideFragment
  | MClassStart =>
      if N.eqb c 94 then Ok (mkP (stack st) (top st) (MClass true []))
      else class_step st false [] c
  | MClass neg acc => class_step st neg acc c
  end.

Fixpoint run (st : pstate) (s : jsstring) : result pstate :=
  match s with
  | [] => Ok st
  | c :: s' =>
      match step st c with
      | Ok st' => run st' s'
      | SyntaxError => SyntaxError
      | OutsideFragment => OutsideFragment
      end
  end.

Definition finish (st : pstate) : result regex :=
  match md st, stack st with
  | MNormal, [] => Ok (close (top st))
  | _, _ => SyntaxError
  end.

(** [new RegExp(source)] *)
Definition compile (source : jsstring) : result regex :=
  match run init source with
  | Ok st => finish st
  | SyntaxError => SyntaxError
  | OutsideFragment => OutsideFragment
  end.

(** ** Matching *)

Definition in_class (neg : bool) (ranges : list (N * N)) (c : N) : bool :=
  xorb neg (existsb (fun r => N.leb (fst r) c && N.leb c (snd r))%bool ranges).

(** Backtracking matcher in continuation style.  [total] is the length of
    the whole input, so that a remaining input of that length is at index
    0.  An iteration of [*] that consumes nothing is rejected, as the
    language's RepeatMatcher does. *)
Fixpoint m (total : nat) (r : regex) (k : jsstring -> bool) (s : jsstring)
  : bool :=
  match r with
  | Empty => k s
  | Chr c =>
      match s with
      | x :: s' => N.eqb x c && k s'
      | [] => false
      end
  | Any =>
      match s with
      | x :: s' => negb (is_line_terminator x) && k s'
      | [] => false
      end
  | Class neg ranges =>
      match s with
      | x :: s' => in_class neg ranges x && k s'
      | [] => false
      end
  | Bol => Nat.eqb (length s) total && k s
  | Eol =>
      match s with
      | [] => k s
      | _ :: _ => false
      end
  | Seq r1 r2 => m total r1 (m total r2 k) s
  | Alt r1 r2 => m total r1 k s || m total r2 k s
  | Star r1 =>
      (fix loop (fuel : nat) (s0 : jsstring) {struct fuel} : bool :=
         match fuel with
         | O => k s0
         | S fuel' =>
             m total r1
               (fun s1 => Nat.ltb (length s1) (length s0) && loop fuel' s1) s0
             || k s0
         end) (length s) s
  | Plus r1 =>
      m total r1
        (fun s0 =>
           (fix loop (fuel : nat) (s0 : jsstring) {struct fuel} : bool :=
              match fuel with
              | O => k s0
              | S fuel' =>
                  m total r1
                    (fun s1 =>
                       Nat.ltb (length s1) (length s0) && loop fuel' s1) s0
                  || k s0
              end) (length s0) s0) s
  | Opt r1 => m total r1 k s || k s
  end.

(** The search of [test]: a match may start at any index. *)
Fixpoint search (total : nat) (r : regex) (s : jsstring) : bool :=
  m total r (fun _ => true) s
  || match s with
     | [] => false
     | _ :: s' => search total r s'
     end.

(** [regex.test(input)] *)
Definition test (r : regex) (input : jsstring) : bool :=
  search (length input) r input.

(** The loop of [Star] and [Plus], named. *)
Definition star_loop (total : nat) (r1 : regex) (k : jsstring -> bool)
  : nat -> jsstring -> bool :=
  fix loop (fuel : nat) (s0 : jsstring) {struct fuel} : bool :=
    match fuel with
    | O => k s0
    | S fuel' =>
        m total r1
          (fun s1 => Nat.ltb (length s1) (length s0) && loop fuel' s1) s0
        || k s0
    end.

(** ** What a match is

    [matches total r s s']: read from the remaining input [s], the
    expression [r] can consume a prefix and leave [s']. *)
Inductive matches (total : nat) : regex -> jsstring -> jsstring -> Prop :=
| M_Empty s : matches total Empty s s
| M_Chr c s : matches total (Chr c) (c :: s) s
| M_Any c s :
    is_line_terminator c = false -> matches total Any (c :: s) s
| M_Class neg rs c s :
    in_class neg rs c = true -> matches total (Class neg rs) (c :: s) s
| M_Bol s : length s = total -> matches total Bol s s
| M_Eol : matches total Eol [] []
| M_Seq r1 r2 s s1 s2 :
    matches total r1 s s1 -> matches total r2 s1 s2 ->
    matches total (Seq r1 r2) s s2
| M_AltL r1 r2 s s1 : matches total r1 s s1 -> matches total (Alt r1 r2) s s1
| M_AltR r1 r2 s s1 : matches total r2 s s1 -> matches total (Alt r1 r2) s s1
| M_Star0 r s : matches total (Star r) s s
| M_StarS r s s1 s2 :
    matches total r s s1 -> length s1 < length s ->
    matches total (Star r) s1 s2 -> matches total (Star r) s s2
| M_Plus r s s1 s2 :
    matches total r s s1 -> matches total (Star r) s1 s2 ->
    matches total (Plus r) s s2
| M_Opt0 r s : matches total (Opt r) s s
| M_Opt1 r s s1 : matches total r s s1 -> matches total (Opt r) s s1.

End RegExp.

(* ================================================================== *)
(** * Topic matcher (MQTTClient.matchTopic) *)
(* ================================================================== *)

Module TopicMatcher.

Definition c_plus : N := 43.
Definition c_hash : N := 35.
Definition c_slash : N := 47.

(** The three replacement texts. *)
Definition one_level : jsstring := js "[^/]+".
Definition sub_levels : jsstring := js "(/.*)?".
Definition anything : jsstring := js ".*".

(** First [replace]: every [+] becomes [one_level]. *)
Definition replacePlus (s : jsstring) : jsstring :=
  flat_map (fun c => if N.eqb c c_plus then one_level else [c]) s.

(** Second [replace]: a slash and a hash that end the text become
    [sub_levels]; the search pattern is anchored by [$], so it can match
    at the end only. *)
Fixpoint replaceTrailingHash (s : jsstring) : jsstring :=
  match s with
  | [] => []
  | c :: s' =>
      if (N.eqb c c_slash && str_eqb s' [c_hash])%bool then sub_levels
      else c :: replaceTrailingHash s'
  end.

(** Third [replace]: every remaining [#] becomes [anything]. *)
Definition replaceHash (s : jsstring) : jsstring :=
  flat_map (fun c => if N.eqb c c_hash then anything else [c]) s.

Definition regexPattern (pattern : jsstring) : jsstring :=
  replaceHash (replaceTrailingHash (replacePlus pattern)).

Definition matchTopic (pattern topic : jsstring) : result bool :=
  if str_eqb pattern (js "#") then Ok true
  else
    match RegExp.compile (js "^" ++ regexPattern pattern ++ js "$") with
    | Ok regex => Ok (RegExp.test regex topic)
    | SyntaxError => SyntaxError
    | OutsideFragment => OutsideFragment
    end.

(** ** Level-by-level reading of a pattern

    The characters that neither the replacements nor [RegExp] give a
    meaning of their own to. *)
Definition plain (c : N) : bool :=
  match RegExp.kind c with
  | RegExp.KLit => negb (N.eqb c c_hash)
  | _ => false
  end.

Definition plain_text (p : jsstring) : Prop := forallb plain p = true.

(** A pattern made of plain characters and [+] signs. *)
Definition item (c : N) : bool := (plain c || N.eqb c c_plus)%bool.

Definition item_text (p : jsstring) : Prop := forallb item p = true.

Definition free_of_terminators (s : jsstring) : Prop :=
  forallb (fun c => negb (is_line_terminator c)) s = true.

(** [wild p t]: the topic [t] is the pattern [p] with every [+] replaced
    by a text that is not empty and has no slash. *)
Fixpoint wild (p t : jsstring) : Prop :=
  match p with
  | [] => t = []
  | c :: p' =>
      if N.eqb c c_plus then
        exists seg t', seg <> [] /\ ~ In c_slash seg /\ t = seg ++ t' /\ wild p' t'
      else
        exists t', t = c :: t' /\ wild p' t'
  end.

(** What follows the levels of a pattern that ends in a slash and a hash:
    nothing, or a slash and any text without line terminator. *)
Definition sub_topic (t : jsstring) : Prop :=
  t = [] \/ exists rest, t = c_slash :: rest /\ free_of_terminators rest.

(** ** The expressions that patterns compile to *)

(** The term a pattern character turns into. *)
Definition level_class : RegExp.regex := RegExp.Class true [(47, 47)%N].

Definition term_of (c : N) : RegExp.regex * RegExp.qstate :=
  if N.eqb c c_plus then (RegExp.Plus level_class, RegExp.QQuant)
  else (RegExp.Chr c, RegExp.QAtom).

Definition pushes (f : RegExp.frame) (p : jsstring) : RegExp.frame :=
  fold_left
    (fun f c => RegExp.push_atom f (fst (term_of c)) (snd (term_of c))) p f.

(** What a pattern of plain characters and [+] signs compiles to, up to
    the closing anchor. *)
Definition body (p : jsstring) : RegExp.regex :=
  fold_left RegExp.Seq (List.map (fun c => fst (term_of c)) p)
    (RegExp.Seq (RegExp.Seq RegExp.Empty RegExp.Empty) RegExp.Bol).

(** The group that [sub_levels] compiles to. *)
Definition sub_group : RegExp.regex :=
  RegExp.Seq
    (RegExp.Seq (RegExp.Seq RegExp.Empty RegExp.Empty) (RegExp.Chr 47))
    (RegExp.Star RegExp.Any).

Definition hash_free (s : jsstring) : Prop :=
  forallb (fun c => negb (N.eqb c c_hash)) s = true.

Definition not_slash (c : N) : bool := negb (N.eqb c c_slash).

(** ** Matching as the specification words it

    A topic and a pattern are read level by level, the levels being
    separated by slashes: [+] stands for one level, a final [#] for any
    number of further levels. *)
Fixpoint levels (s : jsstring) : list jsstring :=
  match s with
  | [] => [[]]
  | c :: s' =>
      if N.eqb c c_slash then [] :: levels s'
      else
        match levels s' with
        | l :: ls => (c :: l) :: ls
        | [] => [[c]]
        end
  end.

Fixpoint levels_match (pat top : list jsstring) : bool :=
  match pat with
  | [] => match top with [] => true | _ :: _ => false end
  | p :: pat' =>
      if (str_eqb p [c_hash] && match pat' with [] => true | _ => false end)%bool
      then true
      else
        match top with
        | [] => false
        | l :: top' =>
            ((str_eqb p [c_plus] || str_eqb p l) && levels_match pat' top')%bool
        end
  end.

Definition topic_matches (pattern topic : jsstring) : bool :=
  levels_match (levels pattern) (levels topic).

(** The text of a list of levels. *)
Fixpoint join (ls : list jsstring) : jsstring :=
  match ls with
  | [] => []
  | l :: ls' =>
      match ls' with
      | [] => l
      | _ :: _ => l ++ c_slash :: join ls'
      end
  end.

(** A level of a pattern that the matcher reads as the specification
    does: a lone [+], or plain characters. *)
Definition pattern_level (l : jsstring) : bool :=
  (str_eqb l [c_plus] || forallb (fun c => plain c && not_slash c) l)%bool.

(** A pattern made of such levels, the last of which may be a lone [#]. *)
Fixpoint pattern_levels_ok (ps : list jsstring) : bool :=
  match ps with
  | [] => false
  | p :: ps' =>
      match ps' with
      | [] => (pattern_level p || str_eqb p [c_hash])%bool
      | _ :: _ => (pattern_level p && pattern_levels_ok ps')%bool
      end
  end.

Definition well_formed (pattern : jsstring) : bool :=
  pattern_levels_ok (levels pattern).

(** A level of a topic: not empty, without line terminator. *)
Definition topic_level (l : jsstring) : bool :=
  (match l with [] => false | _ :: _ => true end
   && forallb (fun c => not_slash c && negb (is_line_terminator c)) l)%bool.

Definition tidy (topic : jsstring) : bool :=
  forallb topic_level (levels topic).

(** What the matcher needs of a topic to read a pattern as the
    specification does: a level that stands against a lone [+] is not
    empty, and the levels that stand against a final [#] hold no line
    terminator. *)
Definition not_empty (l : jsstring) : bool :=
  match l with
  | [] => false
  | _ :: _ => true
  end.

Fixpoint levels_fit (pat top : list jsstring) : bool :=
  match pat with
  | [] => true
  | p :: pat' =>
      if (str_eqb p [c_hash] && match pat' with [] => true | _ => false end)%bool
      then forallb (forallb (fun c => negb (is_line_terminator c))) top
      else
        match top with
        | [] => true
        | l :: top' =>
            ((negb (str_eqb p [c_plus]) || not_empty l)
             && levels_fit pat' top')%bool
        end
  end.

Definition fits (pattern topic : jsstring) : bool :=
  levels_fit (levels pattern) (levels topic).

End TopicMatcher.

Import TopicMatcher.

(* ================================================================== *)
(** * The keys of an object *)
(* ================================================================== *)

(** The order in which the language enumerates the keys of an ordinary
    object: the array indices in ascending order, then the other keys in
    the order of their creation. *)

Module Keys.

Definition digit (c : N) : option N :=
  if (N.leb 48 c && N.leb c 57)%bool then Some (c - 48)%N else None.

Fixpoint digits_value (acc : N) (s : jsstring) : option N :=
  match s with
  | [] => Some acc
  | c :: s' =>
      match digit c with
      | Some d => digits_value (10 * acc + d)%N s'
      | None => None
      end
  end.

(** The number that a key writes, when the key is an array index: the
    decimal digits, with no leading zero, of a number below 2^32 - 1. *)
Definition array_index (key : jsstring) : option N :=
  match key with
  | [] => None
  | c :: rest =>
      if N.eqb c 48 then
        match rest with
        | [] => Some 0%N
        | _ :: _ => None
        end
      else
        match digits_value 0 key with
        | Some v => if N.ltb v 4294967295 then Some v else None
        | None => None
        end
  end.

Definition is_index (key : jsstring) : bool :=
  match array_index key with
  | Some _ => true
  | None => false
  end.

Fixpoint insert_index (x : N * jsstring) (l : list (N * jsstring))
  : list (N * jsstring) :=
  match l with
  | [] => [x]
  | y :: r => if N.leb (fst x) (fst y) then x :: l else y :: insert_index x r
  end.

Definition indexed (ks : list jsstring) : list (N * jsstring) :=
  flat_map (fun k => match array_index k with
                     | Some n => [(n, k)]
                     | None => []
                     end) ks.

(** The keys [ks] without repetition, each where it comes first. *)
Fixpoint distinct (ks : list jsstring) : list jsstring :=
  match ks with
  | [] => []
  | k :: ks' => k :: filter (fun x => negb (str_eqb x k)) (distinct ks')
  end.

(** The keys [ks], given in the order of their creation, as they are
    enumerated. *)
Definition enumerate (ks : list jsstring) : list jsstring :=
  List.map snd (fold_right insert_index [] (indexed ks))
  ++ filter (fun k => negb (is_index k)) ks.

End Keys.

Import Keys.

(* ================================================================== *)
(** * The JSON.parse built-in *)
(* ================================================================== *)

(** The values a payload can hold.  A number is a double: a finite one is
    written as the decimal [mant * 10 ^ exp10] that it is equal to, an
    integer with [exp10 = 0] and any other with the [mant] that no 10
    divides; the zero with a minus sign and the two infinities are values
    of their own.  An object is the list of its properties in the order in
    which the language enumerates them. *)

Module Json.

Inductive json : Type :=
| JNull
| JBool (b : bool)
| JNumber (mant exp10 : Z)
| JNegZero
| JInfinity (neg : bool)
| JString (s : jsstring)
| JArray (items : list json)
| JObject (members : list (jsstring * json)).

(** An array or object that is still open (newest element first). *)
Inductive ctx : Type :=
| CArr (items : list json)
| CObj (members : list (jsstring * json))
| CKey (members : list (jsstring * json)) (key : jsstring).

(** Where the reader is inside a number token. *)
Inductive num : Type :=
| NMinus
| NZero (neg : bool)
| NInt (neg : bool) (n : Z)
| NDot (neg : bool) (n : Z)
| NFrac (neg : bool) (n k : Z)
| NExp (neg : bool) (n k : Z)
| NExpSign (neg : bool) (n k : Z) (eneg : bool)
| NExpDig (neg : bool) (n k : Z) (eneg : bool) (e : Z).

Inductive jmode : Type :=
| JValue (closing : bool)   (* a value is due; [closing]: or the end of an empty array *)
| JKey (closing : bool)     (* a member name is due; [closing]: or the end of an empty object *)
| JColon
| JAfter                    (* an element of the open array or object has ended *)
| JDone (v : json)          (* the whole value has ended *)
| JStr (key : bool) (acc : list N)
| JStrEsc (key : bool) (acc : list N)
| JStrHex (key : bool) (acc : list N) (v : N) (more : nat)
| JNum (n : num)
| JLit (rest : list N) (v : json).

Record jstate : Type := mkJ { jstack : list ctx; jmd : jmode }.

Definition is_ws (c : N) : bool :=
  (N.eqb c 32 || N.eqb c 9 || N.eqb c 10 || N.eqb c 13)%bool.

Definition digit (c : N) : option Z :=
  if (N.leb 48 c && N.leb c 57)%bool then Some (Z.of_N c - 48)%Z else None.

Definition hex_digit (c : N) : option N :=
  if (N.leb 48 c && N.leb c 57)%bool then Some (c - 48)%N
  else if (N.leb 65 c && N.leb c 70)%bool then Some (c - 55)%N
  else if (N.leb 97 c && N.leb c 102)%bool then Some (c - 87)%N
  else None.

(** ** The object that the members of an object text build *)

(** A member defines the property of its name: a property that is there
    already keeps its place and takes the new value, a new one goes last. *)
Fixpoint define (obj : list (jsstring * json)) (key : jsstring) (v : json)
  : list (jsstring * json) :=
  match obj with
  | [] => [(key, v)]
  | (k, x) :: rest =>
      if str_eqb k key then (k, v) :: rest else (k, x) :: define rest key v
  end.

Fixpoint lookup (obj : list (jsstring * json)) (key : jsstring) : option json :=
  match obj with
  | [] => None
  | (k, x) :: rest => if str_eqb k key then Some x else lookup rest key
  end.

(** The object that the members [ms] build, its properties in the order
    of their creation. *)
Definition created (ms : list (jsstring * json)) : list (jsstring * json) :=
  fold_left (fun obj m => define obj (fst m) (snd m)) ms [].

(** The properties of that object as they are enumerated. *)
Definition properties (ms : list (jsstring * json)) : list (jsstring * json) :=
  let obj := created ms in
  flat_map (fun k => match lookup obj k with
                     | Some v => [(k, v)]
                     | None => []
                     end)
           (enumerate (List.map fst obj)).

(** A value has ended: it goes into the innermost open array or object. *)
Definition complete (stack : list ctx) (v : json) : option jstate :=
  match stack with
  | [] => Some (mkJ [] (JDone v))
  | CArr items :: st => Some (mkJ (CArr (v :: items) :: st) JAfter)
  | CKey ms k :: st => Some (mkJ (CObj ((k, v) :: ms) :: st) JAfter)
  | CObj _ :: _ => None
  end.

Definition value_step (stack : list ctx) (closing : bool) (c : N)
  : option jstate :=
  if is_ws c then Some (mkJ stack (JValue closing))
  else if N.eqb c 34 then Some (mkJ stack (JStr false []))          (* quote *)
  else if N.eqb c 123 then Some (mkJ (CObj [] :: stack) (JKey true))   (* { *)
  else if N.eqb c 91 then Some (mkJ (CArr [] :: stack) (JValue true))  (* [ *)
  else if N.eqb c 93 then                                              (* ] *)
    match closing, stack with
    | true, CArr [] :: st => complete st (JArray [])
    | _, _ => None
    end
  else if N.eqb c 45 then Some (mkJ stack (JNum NMinus))               (* - *)
  else if N.eqb c 48 then Some (mkJ stack (JNum (NZero false)))        (* 0 *)
  else if N.eqb c 116 then Some (mkJ stack (JLit (js "rue") (JBool true)))
  else if N.eqb c 102 then Some (mkJ stack (JLit (js "alse") (JBool false)))
  else if N.eqb c 110 then Some (mkJ stack (JLit (js "ull") JNull))
  else
    match digit c with
    | Some d => Some (mkJ stack (JNum (NInt false d)))
    | None => None
    end.

Definition key_step (stack : list ctx) (closing : bool) (c : N)
  : option jstate :=
  if is_ws c then Some (mkJ stack (JKey closing))
  else if N.eqb c 34 then Some (mkJ stack (JStr true []))
  else if N.eqb c 125 then                                             (* } *)
    match closing, stack with
    | true, CObj [] :: st => complete st (JObject [])
    | _, _ => None
    end
  else None.

Definition after_step (stack : list ctx) (c : N) : option jstate :=
  if is_ws c then Some (mkJ stack JAfter)
  else
    match stack with
    | CArr items :: st =>
        if N.eqb c 44 then Some (mkJ stack (JValue false))             (* , *)
        else if N.eqb c 93 then complete st (JArray (rev items))
        else None
    | CObj ms :: st =>
        if N.eqb c 44 then Some (mkJ stack (JKey false))
        else if N.eqb c 125 then complete st (JObject (properties (rev ms)))
        else None
    | _ => None
    end.

(** After a value: white space at top level, a separator or a closing
    bracket inside an array or object. *)
Definition rest_step (st : jstate) (c : N) : option jstate :=
  match jmd st with
  | JDone v => if is_ws c then Some st else None
  | JAfter => after_step (jstack st) c
  | _ => None
  end.

Definition string_end (stack : list ctx) (key : bool) (s : jsstring)
  : option jstate :=
  if key then
    match stack with
    | CObj ms :: st => Some (mkJ (CKey ms s :: st) JColon)
    | _ => None
    end
  else complete stack (JString s).

Definition escape_char (c : N) : option N :=
  if (N.eqb c 34 || N.eqb c 92 || N.eqb c 47)%bool then Some c
  else if N.eqb c 98 then Some 8%N
  else if N.eqb c 102 then Some 12%N
  else if N.eqb c 110 then Some 10%N
  else if N.eqb c 114 then Some 13%N
  else if N.eqb c 116 then Some 9%N
  else None.

Definition is_e (c : N) : bool := (N.eqb c 101 || N.eqb c 69)%bool.

Definition num_step (n : num) (c : N) : option num :=
  match n, digit c with
  | NMinus, Some d => Some (if Z.eqb d 0 then NZero true else NInt true d)
  | NMinus, None => None
  | NZero neg, _ =>
      if N.eqb c 46 then Some (NDot neg 0)
      else if is_e c then Some (NExp neg 0 0) else None
  | NInt neg v, Some d => Some (NInt neg (10 * v + d))
  | NInt neg v, None =>
      if N.eqb c 46 then Some (NDot neg v)
      else if is_e c then Some (NExp neg v 0) else None
  | NDot neg v, Some d => Some (NFrac neg (10 * v + d) 1)
  | NDot _ _, None => None
  | NFrac neg v k, Some d => Some (NFrac neg (10 * v + d) (k + 1))
  | NFrac neg v k, None => if is_e c then Some (NExp neg v k) else None
  | NExp neg v k, Some d => Some (NExpDig neg v k false d)
  | NExp neg v k, None =>
      if N.eqb c 43 then Some (NExpSign neg v k false)
      else if N.eqb c 45 then Some (NExpSign neg v k true) else None
  | NExpSign neg v k eneg, Some d => Some (NExpDig neg v k eneg d)
  | NExpSign _ _ _ _, None => None
  | NExpDig neg v k eneg e, Some d => Some (NExpDig neg v k eneg (10 * e + d))
  | NExpDig _ _ _ _ _, None => None
  end%Z.

Definition signed (neg : bool) (v : Z) : Z := if neg then (- v)%Z else v.

(** ** The number that a token denotes: the double nearest to its
    decimal value *)

(** The integer nearest to [n / d], and the even one of two that are
    equally near ([0 <= n] and [0 < d]). *)
Definition nearest (n d : Z) : Z :=
  let q := (n / d)%Z in
  let r := (n mod d)%Z in
  if (2 * r <? d)%Z then q
  else if (d <? 2 * r)%Z then (q + 1)%Z
  else if Z.even q then q else (q + 1)%Z.

(** The [b] with [2 ^ b <= n / d < 2 ^ (b + 1)], for [0 < d <= n]; a
    negative number for [n < d]. *)
Definition binade (n d : Z) : Z :=
  let b := (Z.log2 n - Z.log2 d)%Z in
  if (d * 2 ^ b <=? n)%Z then b else (b - 1)%Z.

(** In units of [2 ^ (- 1074)], the least of them, the doubles are the
    numbers [m * 2 ^ k] with [m < 2 ^ 53] and [0 <= k]: between
    [2 ^ (k + 52)] and [2 ^ (k + 53)] they are the multiples of [2 ^ k],
    and below [2 ^ 53] all the integers.  The exponent of those around
    [n / d]: *)
Definition exponent (n d : Z) : Z := Z.max (binade n d - 52) 0.

(** The multiple of [2 ^ k] nearest to [n / d], as a multiple. *)
Definition significand (n d k : Z) : Z := nearest n (d * 2 ^ k).

Fixpoint trailing_zeros (p : positive) : Z :=
  match p with
  | xO p' => (1 + trailing_zeros p')%Z
  | _ => 0%Z
  end.

(** The number [m * 2 ^ e], [0 < m], with the sign, as a decimal. *)
Definition dyadic (neg : bool) (m e : Z) : json :=
  if (0 <=? e)%Z then JNumber (signed neg (m * 2 ^ e)) 0
  else
    let t := Z.min (match m with Zpos p => trailing_zeros p | _ => 0 end)
                   (- e) in
    JNumber (signed neg (m / 2 ^ t * 5 ^ (- e - t))) (e + t).

Definition zero (neg : bool) : json := if neg then JNegZero else JNumber 0 0.

(** The double nearest to [n / d], with the sign ([0 <= n] and [0 < d]):
    what is nearer to [2 ^ 1024] than to the largest double is infinite. *)
Definition double (neg : bool) (n d : Z) : json :=
  let u := (n * 2 ^ 1074)%Z in
  let k := exponent u d in
  let m := significand u d k in
  if (m =? 0)%Z then zero neg
  else if (2 ^ 2098 <=? m * 2 ^ k)%Z then JInfinity neg
  else dyadic neg m (k - 1074).

(** The number that the digits [v] with the decimal exponent [x] denote. *)
Definition number (neg : bool) (v x : Z) : json :=
  if (0 <=? x)%Z then double neg (v * 10 ^ x) 1 else double neg v (10 ^ (- x)).

(** The value of a number token that may end here. *)
Definition num_value (n : num) : option json :=
  match n with
  | NZero neg => Some (number neg 0 0)
  | NInt neg v => Some (number neg v 0)
  | NFrac neg v k => Some (number neg v (- k))
  | NExpDig neg v k eneg e => Some (number neg v (signed eneg e - k))
  | _ => None
  end.

Definition jstep (st : jstate) (c : N) : option jstate :=
  match jmd st with
  | JValue closing => value_step (jstack st) closing c
  | JKey closing => key_step (jstack st) closing c
  | JColon =>
      if is_ws c then Some st
      else if N.eqb c 58 then Some (mkJ (jstack st) (JValue false))
      else None
  | JAfter | JDone _ => rest_step st c
  | JStr key acc =>
      if N.eqb c 34 then string_end (jstack st) key (rev acc)
      else if N.eqb c 92 then Some (mkJ (jstack st) (JStrEsc key acc))
      else if N.ltb c 32 then None
      else Some (mkJ (jstack st) (JStr key (c :: acc)))
  | JStrEsc key acc =>
      if N.eqb c 117 then Some (mkJ (jstack st) (JStrHex key acc 0 4))
      else
        match escape_char c with
        | Some x => Some (mkJ (jstack st) (JStr key (x :: acc)))
        | None => None
        end
  | JStrHex key acc v more =>
      match hex_digit c, more with
      | Some d, S O => Some (mkJ (jstack st) (JStr key ((16 * v + d)%N :: acc)))
      | Some d, S more' =>
          Some (mkJ (jstack st) (JStrHex key acc (16 * v + d)%N more'))
      | _, _ => None
      end
  | JNum n =>
      match num_step n c with
      | Some n' => Some (mkJ (jstack st) (JNum n'))
      | None =>
          match num_value n with
          | Some v =>
              match complete (jstack st) v with
              | Some st' => rest_step st' c
              | None => None
              end
          | None => None
          end
      end
  | JLit rest v =>
      match rest with
      | x :: rest' =>
          if N.eqb c x then
            match rest' with
            | [] => complete (jstack st) v
            | _ :: _ => Some (mkJ (jstack st) (JLit rest' v))
            end
          else None
      | [] => None
      end
  end.

Fixpoint jrun (st : jstate) (s : jsstring) : option jstate :=
  match s with
  | [] => Some st
  | c :: s' =>
      match jstep st c with
      | Some st' => jrun st' s'
      | None => None
      end
  end.

Definition jfinish (st : jstate) : option json :=
  match jmd st, jstack st with
  | JDone v, [] => Some v
  | JNum n, [] => num_value n
  | _, _ => None
  end.

(** [JSON.parse(text)]: [None] stands for the SyntaxError it throws. *)
Definition parse (text : jsstring) : option json :=
  match jrun (mkJ [] (JValue false)) text with
  | Some st => jfinish st
  | None => None
  end.

(** ** The JSON grammar, and the value that a text denotes *)

(** White space: space, tab, line feed and carriage return. *)
Definition white (s : jsstring) : Prop :=
  Forall (fun c => In c [32; 9; 10; 13]%N) s.

(** What stands for what after a backslash. *)
Inductive Escape : N -> N -> Prop :=
| Escape_quote : Escape 34 34
| Escape_backslash : Escape 92 92
| Escape_slash : Escape 47 47
| Escape_b : Escape 98 8
| Escape_f : Escape 102 12
| Escape_n : Escape 110 10
| Escape_r : Escape 114 13
| Escape_t : Escape 116 9.

(** A hexadecimal digit and its value. *)
Inductive Hex : N -> N -> Prop :=
| Hex_digit c : (48 <= c <= 57)%N -> Hex c (c - 48)
| Hex_upper c : (65 <= c <= 70)%N -> Hex c (c - 55)
| Hex_lower c : (97 <= c <= 102)%N -> Hex c (c - 87).

(** What stands between the quotes of a string, and the string: a code
    unit from U+0020 on that is no quote and no backslash stands for
    itself. *)
Inductive Chars : jsstring -> jsstring -> Prop :=
| Chars_end : Chars [] []
| Chars_char c body s :
    (32 <= c)%N -> c <> 34%N -> c <> 92%N ->
    Chars body s -> Chars (c :: body) (c :: s)
| Chars_escape c x body s :
    Escape c x -> Chars body s -> Chars (92 :: c :: body)%N (x :: s)
| Chars_unicode h1 h2 h3 h4 v1 v2 v3 v4 body s :
    Hex h1 v1 -> Hex h2 v2 -> Hex h3 v3 -> Hex h4 v4 ->
    Chars body s ->
    Chars (92 :: 117 :: h1 :: h2 :: h3 :: h4 :: body)%N
          ((4096 * v1 + 256 * v2 + 16 * v3 + v4)%N :: s).

Definition Digit (c : N) : Prop := (48 <= c <= 57)%N.

(** The number that decimal digits write. *)
Definition decimal (ds : jsstring) : Z :=
  fold_left (fun v c => (10 * v + (Z.of_N c - 48))%Z) ds 0%Z.

(** A minus sign, or none. *)
Inductive Minus : jsstring -> bool -> Prop :=
| Minus_none : Minus [] false
| Minus_sign : Minus [45%N] true.

(** The integer part: a zero, or digits that do not start with one. *)
Inductive Int : jsstring -> Prop :=
| Int_zero : Int [48%N]
| Int_digits c ds : (49 <= c <= 57)%N -> Forall Digit ds -> Int (c :: ds).

(** The fraction, if any, and its digits. *)
Inductive Frac : jsstring -> jsstring -> Prop :=
| Frac_none : Frac [] []
| Frac_digits ds : ds <> [] -> Forall Digit ds -> Frac (46%N :: ds) ds.

(** The sign of an exponent. *)
Inductive Sign : jsstring -> bool -> Prop :=
| Sign_none : Sign [] false
| Sign_plus : Sign [43%N] false
| Sign_minus : Sign [45%N] true.

(** The exponent, if any, and its value. *)
Inductive Exp : jsstring -> Z -> Prop :=
| Exp_none : Exp [] 0%Z
| Exp_digits e sign neg ds :
    (e = 101 \/ e = 69)%N -> Sign sign neg -> ds <> [] -> Forall Digit ds ->
    Exp (e :: sign ++ ds) (signed neg (decimal ds)).

(** A number token and the double that it denotes. *)
Inductive Number : jsstring -> json -> Prop :=
| Number_intro sign neg int frac digits expo x :
    Minus sign neg -> Int int -> Frac frac digits -> Exp expo x ->
    Number (sign ++ int ++ frac ++ expo)
           (number neg (decimal (int ++ digits))
                   (x - Z.of_nat (length digits))).

(** The values, the elements of an array and the members of an object. *)
Inductive Value : jsstring -> json -> Prop :=
| Value_null : Value (js "null") JNull
| Value_true : Value (js "true") (JBool true)
| Value_false : Value (js "false") (JBool false)
| Value_number s v : Number s v -> Value s v
| Value_string body s : Chars body s -> Value (34%N :: body ++ [34%N]) (JString s)
| Value_empty_array w : white w -> Value (91%N :: w ++ [93%N]) (JArray [])
| Value_array s vs : Elements s vs -> Value (91%N :: s ++ [93%N]) (JArray vs)
| Value_empty_object w : white w -> Value (123%N :: w ++ [125%N]) (JObject [])
| Value_object s ms :
    Members s ms -> Value (123%N :: s ++ [125%N]) (JObject (properties ms))
with Element : jsstring -> json -> Prop :=
| Element_intro w1 s v w2 :
    white w1 -> Value s v -> white w2 -> Element (w1 ++ s ++ w2) v
with Elements : jsstring -> list json -> Prop :=
| Elements_one s v : Element s v -> Elements s [v]
| Elements_more s vs s' v :
    Elements s vs -> Element s' v -> Elements (s ++ 44%N :: s') (vs ++ [v])
with Member : jsstring -> jsstring * json -> Prop :=
| Member_intro w1 body key w2 s v :
    white w1 -> Chars body key -> white w2 -> Element s v ->
    Member (w1 ++ 34%N :: body ++ 34%N :: w2 ++ 58%N :: s) (key, v)
with Members : jsstring -> list (jsstring * json) -> Prop :=
| Members_one s m : Member s m -> Members s [m]
| Members_more s ms s' m :
    Members s ms -> Member s' m -> Members (s ++ 44%N :: s') (ms ++ [m]).

(** A JSON text and its value. *)
Definition Text (text : jsstring) (v : json) : Prop := Element text v.

Scheme Value_rules := Minimality for Value Sort Prop
  with Element_rules := Minimality for Element Sort Prop
  with Elements_rules := Minimality for Elements Sort Prop
  with Member_rules := Minimality for Member Sort Prop
  with Members_rules := Minimality for Members Sort Prop.

Combined Scheme grammar_rules
  from Value_rules, Element_rules, Elements_rules, Member_rules, Members_rules.

(** A stack on which a value may end: its innermost entry is no object
    that waits for a member name. *)
Definition valued (stack : list ctx) : Prop :=
  match stack with
  | CObj _ :: _ => False
  | _ => True
  end.

(** What may follow a value. *)
Definition delimiter (c : N) : Prop :=
  is_ws c = true \/ In c [44; 93; 125]%N.

(** ** Where the reader is in a text *)

(** The digits of a unicode escape read so far, and their value. *)
Inductive HexRun : N -> jsstring -> N -> Prop :=
| HexRun_end v : HexRun v [] v
| HexRun_digit v c d hs v' :
    Hex c d -> HexRun (16 * v + d) hs v' -> HexRun v (c :: hs) v'.

(** The part of a string token that has been read, from the quote on. *)
Inductive Partial : jmode -> jsstring -> Prop :=
| Partial_str key acc body :
    Chars body (rev acc) -> Partial (JStr key acc) (34%N :: body)
| Partial_esc key acc body :
    Chars body (rev acc) -> Partial (JStrEsc key acc) (34%N :: body ++ [92%N])
| Partial_hex key acc body hs v more :
    Chars body (rev acc) -> HexRun 0 hs v ->
    length hs + more = 4 -> 0 < more ->
    Partial (JStrHex key acc v more) (34%N :: body ++ 92%N :: 117%N :: hs).

(** The part of a number token that has been read. *)
Inductive Numeral : num -> jsstring -> Prop :=
| Numeral_minus : Numeral NMinus [45%N]
| Numeral_zero sign neg : Minus sign neg -> Numeral (NZero neg) (sign ++ [48%N])
| Numeral_int sign neg int :
    Minus sign neg -> Int int -> int <> [48%N] ->
    Numeral (NInt neg (decimal int)) (sign ++ int)
| Numeral_dot sign neg int :
    Minus sign neg -> Int int ->
    Numeral (NDot neg (decimal int)) (sign ++ int ++ [46%N])
| Numeral_frac sign neg int ds :
    Minus sign neg -> Int int -> ds <> [] -> Forall Digit ds ->
    Numeral (NFrac neg (decimal (int ++ ds)) (Z.of_nat (length ds)))
            (sign ++ int ++ 46%N :: ds)
| Numeral_exp sign neg int frac ds e :
    Minus sign neg -> Int int -> Frac frac ds -> (e = 101 \/ e = 69)%N ->
    Numeral (NExp neg (decimal (int ++ ds)) (Z.of_nat (length ds)))
            (sign ++ int ++ frac ++ [e])
| Numeral_exp_sign sign neg int frac ds e c eneg :
    Minus sign neg -> Int int -> Frac frac ds -> (e = 101 \/ e = 69)%N ->
    Sign [c] eneg ->
    Numeral (NExpSign neg (decimal (int ++ ds)) (Z.of_nat (length ds)) eneg)
            (sign ++ int ++ frac ++ [e; c])
| Numeral_exp_digits sign neg int frac ds e esign eneg es :
    Minus sign neg -> Int int -> Frac frac ds -> (e = 101 \/ e = 69)%N ->
    Sign esign eneg -> es <> [] -> Forall Digit es ->
    Numeral (NExpDig neg (decimal (int ++ ds)) (Z.of_nat (length ds)) eneg
                     (decimal es))
            (sign ++ int ++ frac ++ e :: esign ++ es).

(** The part of an object that has been read when a member name is due:
    the brace, and the members before it with their comma. *)
Inductive KeyDue : list (jsstring * json) -> bool -> jsstring -> Prop :=
| KeyDue_first w : white w -> KeyDue [] true (123%N :: w)
| KeyDue_next s ms w :
    Members s (rev ms) -> white w -> KeyDue ms false (123%N :: s ++ 44%N :: w).

(** The part of an array or object that has been read when the value of
    an element or member is due. *)
Inductive Due : ctx -> bool -> jsstring -> Prop :=
| Due_first w : white w -> Due (CArr []) true (91%N :: w)
| Due_next s items w :
    Elements s (rev items) -> white w ->
    Due (CArr items) false (91%N :: s ++ 44%N :: w)
| Due_member ms closing p body key w w' :
    KeyDue ms closing p -> Chars body key -> white w -> white w' ->
    Due (CKey ms key) false (p ++ 34%N :: body ++ 34%N :: w ++ 58%N :: w').

(** The text that has been read when a value is due and [stack] is open. *)
Fixpoint due (stack : list ctx) (closing : bool) (s : jsstring) : Prop :=
  match stack with
  | [] => closing = false /\ white s
  | c :: stack' =>
      exists s' p closing',
        s = s' ++ p /\ due stack' closing' s' /\ Due c closing p
  end.

(** The same when a member name is due. *)
Definition key_due (stack : list ctx) (closing : bool) (s : jsstring) : Prop :=
  exists ms stack' s' p closing',
    stack = CObj ms :: stack' /\ s = s' ++ p /\
    due stack' closing' s' /\ KeyDue ms closing p.

(** The text that has been read when a token starts. *)
Definition token_due (stack : list ctx) (key : bool) (s : jsstring) : Prop :=
  exists closing,
    if key then key_due stack closing s else due stack closing s.

(** A value has ended, white space may have followed it, and [st] is
    where the reader is then. *)
Definition ended (s : jsstring) (st : jstate) : Prop :=
  exists stack closing s' t v w,
    s = s' ++ t ++ w /\ due stack closing s' /\ Value t v /\ white w /\
    complete stack v = Some st.

(** What the state of the reader says about the text read. *)
Definition reads (s : jsstring) (st : jstate) : Prop :=
  match jmd st with
  | JValue closing => due (jstack st) closing s
  | JKey closing => key_due (jstack st) closing s
  | JColon =>
      exists ms key stack' closing s' body w,
        jstack st = CKey ms key :: stack' /\
        s = s' ++ 34%N :: body ++ 34%N :: w /\
        key_due (CObj ms :: stack') closing s' /\ Chars body key /\ white w
  | JAfter | JDone _ => ended s st
  | JStr key _ | JStrEsc key _ | JStrHex key _ _ _ =>
      exists s' t,
        s = s' ++ t /\ token_due (jstack st) key s' /\ Partial (jmd st) t
  | JNum n =>
      exists s' t,
        s = s' ++ t /\ token_due (jstack st) false s' /\ Numeral n t
  | JLit rest v =>
      exists s' t,
        s = s' ++ t /\ token_due (jstack st) false s' /\
        In (t ++ rest, v)
           [(js "true", JBool true); (js "false", JBool false);
            (js "null", JNull)]
  end.

(** The state after the text of a value that started with [stack] open:
    the value has gone where it belongs, or it is a number whose token
    may go on. *)
Definition value_read (stack : list ctx) (v : json) (st : jstate) : Prop :=
  complete stack v = Some st \/
  exists n, st = mkJ stack (JNum n) /\ num_value n = Some v.

End Json.

Import Json.

(* ================================================================== *)
(** * The in-memory store (class MemStorage) *)
(* ================================================================== *)

(** A [Date] is modelled by its time value, the milliseconds since the
    epoch; [new Date()] reads a clock that the caller passes as [now]. *)

Module Storage.

(** shared/schema.ts: MQTTMessage, with its optional timestamp. *)
Record MQTTMessage : Type := mkMessage {
  topic : jsstring;
  payload : json;
  timestamp : option Z
}.

(** shared/schema.ts: a row of the topics table and its insert form. *)
Record Topic : Type := mkTopic {
  id : Z;
  path : jsstring;
  brokerId : Z
}.

Record InsertTopic : Type := mkInsertTopic {
  ipath : jsstring;
  ibrokerId : Z
}.

(** A [Map<number, V>]: the entries in insertion order, one per key. *)
Definition jsmap (V : Type) : Type := list (Z * V).

Definition map_values {V} (mp : jsmap V) : list V := List.map snd mp.

Definition map_has {V} (k : Z) (mp : jsmap V) : bool :=
  existsb (fun e => Z.eqb (fst e) k) mp.

(** [mp.set(k, v)]: a present key keeps its place, a new one goes last. *)
Fixpoint map_set {V} (k : Z) (v : V) (mp : jsmap V) : jsmap V :=
  match mp with
  | [] => [(k, v)]
  | e :: mp' => if Z.eqb (fst e) k then (k, v) :: mp' else e :: map_set k v mp'
  end.

Definition map_delete {V} (k : Z) (mp : jsmap V) : jsmap V :=
  filter (fun e => negb (Z.eqb (fst e) k)) mp.

(** [n++] on a number that holds an integer: exact below 2^53, where the
    doubles stop telling [n] and [n + 1] apart. *)
Definition incr (n : Z) : Z :=
  if Z.ltb n 9007199254740992 then (n + 1)%Z else n.

Record MemStorage : Type := mkStorage {
  topics : jsmap Topic;
  messages : list MQTTMessage;
  topicId : Z
}.

Definition maxHistorySize : nat := 10000.

(** [new MemStorage()] *)
Definition empty : MemStorage := mkStorage [] [] 1.

(** The methods run in a state monad over the store. *)
Definition M (A : Type) : Type := MemStorage -> A * MemStorage.

Definition ret {A} (a : A) : M A := fun st => (a, st).

Definition bind {A B} (c : M A) (f : A -> M B) : M B :=
  fun st => let (a, st') := c st in f a st'.

Definition get : M MemStorage := fun st => (st, st).

Definition put (st : MemStorage) : M unit := fun _ => (tt, st).

Notation "x <- c ;; k" := (bind c (fun x => k))
  (at level 61, c at next level, right associativity).

Definition getTopics : M (list Topic) :=
  st <- get ;; ret (map_values (topics st)).

Definition createTopic (topic : InsertTopic) : M Topic :=
  st <- get ;;
  match find (fun t => str_eqb (path t) (ipath topic))
             (map_values (topics st)) with
  | Some existingTopic => ret existingTopic
  | None =>
      let id := topicId st in
      let newTopic := mkTopic id (ipath topic) (ibrokerId topic) in
      _ <- put (mkStorage (map_set id newTopic (topics st)) (messages st)
                          (incr (topicId st))) ;;
      ret newTopic
  end.

Definition deleteTopic (p : jsstring) : M bool :=
  st <- get ;;
  match find (fun t => str_eqb (path t) p) (map_values (topics st)) with
  | Some topicToDelete =>
      _ <- put (mkStorage (map_delete (id topicToDelete) (topics st))
                          (messages st) (topicId st)) ;;
      ret (map_has (id topicToDelete) (topics st))
  | None => ret false
  end.

(** The timestamp [storeMessage] leaves on the message it is given. *)
Definition stamp (now : Z) (message : MQTTMessage) : MQTTMessage :=
  match timestamp message with
  | Some _ => message
  | None => mkMessage (topic message) (payload message) (Some now)
  end.

(** [array.slice(-n)] for a positive [n]: the last [n] elements. *)
Definition slice_last {A} (n : nat) (l : list A) : list A :=
  skipn (length l - n) l.

Definition storeMessage (now : Z) (message : MQTTMessage) : M unit :=
  st <- get ;;
  let pushed := messages st ++ [stamp now message] in
  let kept :=
    if Nat.ltb maxHistorySize (length pushed)
    then slice_last maxHistorySize pushed
    else pushed in
  put (mkStorage (topics st) kept (topicId st)).

Definition hour : Z := 60 * 60 * 1000.

(** The start of the window, as the [switch] computes it. *)
Definition startTime (now : Z) (timeRange : jsstring) : Z :=
  if str_eqb timeRange (js "1h") then (now - hour)%Z
  else if str_eqb timeRange (js "6h") then (now - 6 * hour)%Z
  else if str_eqb timeRange (js "24h") then (now - 24 * hour)%Z
  else if str_eqb timeRange (js "7d") then (now - 7 * 24 * hour)%Z
  else (now - hour)%Z.

Definition in_history (t : jsstring) (start : Z) (msg : MQTTMessage) : bool :=
  str_eqb (topic msg) t
  && match timestamp msg with
     | Some ts => Z.leb start ts
     | None => false
     end.

Definition getMessageHistory (now : Z) (t : jsstring) (timeRange : jsstring)
  : M (list MQTTMessage) :=
  st <- get ;;
  ret (filter (in_history t (startTime now timeRange)) (messages st)).

(** The calls a store can receive, and the store they leave. *)
Inductive call : Type :=
| GetTopics
| CreateTopic (topic : InsertTopic)
| DeleteTopic (p : jsstring)
| StoreMessage (now : Z) (message : MQTTMessage)
| GetMessageHistory (now : Z) (t : jsstring) (timeRange : jsstring).

Definition exec (st : MemStorage) (c : call) : MemStorage :=
  match c with
  | GetTopics => snd (getTopics st)
  | CreateTopic topic => snd (createTopic topic st)
  | DeleteTopic p => snd (deleteTopic p st)
  | StoreMessage now message => snd (storeMessage now message st)
  | GetMessageHistory now t timeRange =>
      snd (getMessageHistory now t timeRange st)
  end.

(** The store after a sequence of calls on a new store. *)
Definition after (calls : list call) : MemStorage := fold_left exec calls empty.

(** The messages a sequence of calls has appended, oldest first. *)
Definition appended (calls : list call) : list MQTTMessage :=
  flat_map (fun c => match c with
                     | StoreMessage now message => [stamp now message]
                     | _ => []
                     end) calls.

(** The invariant of the topic table: every entry sits under its own id,
    below the counter, and no path is stored twice. *)
Definition topics_wf (st : MemStorage) : Prop :=
  (forall k t, In (k, t) (topics st) -> id t = k /\ (k < topicId st)%Z) /\
  NoDup (List.map fst (topics st)) /\
  NoDup (List.map path (map_values (topics st))).

(** ** The query as the specification words it

    The length of a window, and membership in the closed window that
    ends at [now]. *)
Definition duration (timeRange : jsstring) : Z :=
  if str_eqb timeRange (js "6h") then 21600000
  else if str_eqb timeRange (js "24h") then 86400000
  else if str_eqb timeRange (js "7d") then 604800000
  else 3600000.

Definition in_window (now : Z) (timeRange : jsstring) (t : jsstring)
  (msg : MQTTMessage) : bool :=
  str_eqb (topic msg) t
  && match timestamp msg with
     | Some ts => Z.leb (now - duration timeRange) ts && Z.leb ts now
     | None => false
     end.

Definition recognized (timeRange : jsstring) : bool :=
  (str_eqb timeRange (js "1h") || str_eqb timeRange (js "6h")
   || str_eqb timeRange (js "24h") || str_eqb timeRange (js "7d"))%bool.

End Storage.

Import Storage.

(* ================================================================== *)
(** * The server-side bridge (class MQTTServerClient) *)
(* ================================================================== *)

(** The mqtt library is the environment of the bridge: it owns the
    [connected] flag of the client, it calls the callback of a subscribe
    or unsubscribe request when the broker has answered, and it raises
    the connect and message events. *)

Module Bridge.

(** What a [throw] hands to a [catch]: a value that has a text, which is
    what the template of a log line puts in its place, or a value whose
    conversion to a text throws in its turn (a Symbol, an object whose
    [toString] throws) and what that conversion throws. *)
Inductive exception : Type :=
| Printable (text : jsstring)
| Unprintable (raised : exception).

(** What the conversion of a Symbol to a text throws. *)
Definition symbol : exception :=
  Unprintable (Printable (js "TypeError: Cannot convert a Symbol value to a string")).

(** A registered listener: its identity, whether its call on a message
    throws, and what it throws then.  Listeners read the message they are
    given. *)
Record Listener : Type := mkThrowingListener {
  lid : nat;
  throws : MQTTMessage -> bool;
  thrown : MQTTMessage -> exception
}.

(** A listener that throws an Error, if it throws. *)
Definition mkListener (lid : nat) (throws : MQTTMessage -> bool) : Listener :=
  mkThrowingListener lid throws (fun _ => Printable (js "listener error")).

(** A request handed to the library, whose callback has not run yet. *)
Inductive request : Type :=
| ReqSubscribe (t : jsstring)
| ReqUnsubscribe (t : jsstring).

(** What an observer of the bridge sees, oldest first. *)
Inductive event : Type :=
| Stored (message : MQTTMessage)
| Delivered (listener : nat) (message : MQTTMessage)
| Logged (text : jsstring) (subject : jsstring).

Record MQTTServerClient : Type := mkBridge {
  client : option bool;             (* null, or the client and its [connected] flag *)
  messageListeners : list Listener;
  subscribedTopics : list jsstring; (* a Set: its elements in insertion order *)
  pending : list request;
  storage : MemStorage;
  trace : list event
}.

Definition initial : MQTTServerClient :=
  mkBridge None [] [] [] Storage.empty [].

(** [set.add(x)] and [set.delete(x)] on a Set of strings. *)
Definition set_add (x : jsstring) (l : list jsstring) : list jsstring :=
  if existsb (str_eqb x) l then l else l ++ [x].

Definition set_delete (x : jsstring) (l : list jsstring) : list jsstring :=
  filter (fun y => negb (str_eqb x y)) l.

(** How often a Set lists a string. *)
Definition occurrences (x : jsstring) (l : list jsstring) : nat :=
  length (filter (str_eqb x) l).

Definition isConnected (b : MQTTServerClient) : bool :=
  match client b with
  | Some connected => connected
  | None => false
  end.

Definition log (text subject : jsstring) (b : MQTTServerClient)
  : MQTTServerClient :=
  mkBridge (client b) (messageListeners b) (subscribedTopics b) (pending b)
           (storage b) (trace b ++ [Logged text subject]).

Definition subscribe (t : jsstring) (b : MQTTServerClient)
  : bool * MQTTServerClient :=
  if negb (isConnected b) then
    (false, log (js "Cannot subscribe, MQTT client not connected") [] b)
  else
    (true,
     mkBridge (client b) (messageListeners b) (subscribedTopics b)
              (pending b ++ [ReqSubscribe t]) (storage b) (trace b)).

Definition unsubscribe (t : jsstring) (b : MQTTServerClient)
  : bool * MQTTServerClient :=
  if negb (isConnected b) then
    (false, log (js "Cannot unsubscribe, MQTT client not connected") [] b)
  else
    (true,
     mkBridge (client b) (messageListeners b) (subscribedTopics b)
              (pending b ++ [ReqUnsubscribe t]) (storage b) (trace b)).

(** The callback given to [client.subscribe] or [client.unsubscribe],
    called with the error of the broker, if any. *)
Definition callback (r : request) (err : option jsstring)
  (b : MQTTServerClient) : MQTTServerClient :=
  match r, err with
  | ReqSubscribe t, Some e => log (js "Error subscribing to topic") t b
  | ReqSubscribe t, None =>
      let b' := log (js "Subscribed to topic") t b in
      mkBridge (client b') (messageListeners b')
               (set_add t (subscribedTopics b')) (pending b') (storage b')
               (trace b')
  | ReqUnsubscribe t, Some e => log (js "Error unsubscribing from topic") t b
  | ReqUnsubscribe t, None =>
      let b' := log (js "Unsubscribed from topic") t b in
      mkBridge (client b') (messageListeners b')
               (set_delete t (subscribedTopics b')) (pending b') (storage b')
               (trace b')
  end.

Fixpoint remove_nth {A} (n : nat) (l : list A) : list A :=
  match n, l with
  | _, [] => []
  | O, _ :: l' => l'
  | S n', x :: l' => x :: remove_nth n' l'
  end.

(** The library answers the [n]-th outstanding request. *)
Definition acknowledge (n : nat) (err : option jsstring)
  (b : MQTTServerClient) : MQTTServerClient :=
  match nth_error (pending b) n with
  | Some r =>
      callback r err
        (mkBridge (client b) (messageListeners b) (subscribedTopics b)
                  (remove_nth n (pending b)) (storage b) (trace b))
  | None => b
  end.

Definition addMessageListener (l : Listener) (b : MQTTServerClient)
  : MQTTServerClient :=
  mkBridge (client b) (messageListeners b ++ [l]) (subscribedTopics b)
           (pending b) (storage b) (trace b).

Definition removeMessageListener (l : nat) (b : MQTTServerClient)
  : MQTTServerClient :=
  mkBridge (client b)
           (filter (fun x => negb (Nat.eqb (lid x) l)) (messageListeners b))
           (subscribedTopics b) (pending b) (storage b) (trace b).

Definition getSubscribedTopics (b : MQTTServerClient) : list jsstring :=
  subscribedTopics b.

(** The handler of the connect event, raised by a client once the broker
    has accepted it: every topic of the set is subscribed again. *)
Definition onConnect (b : MQTTServerClient) : MQTTServerClient :=
  match client b with
  | None => b
  | Some _ =>
      let b0 :=
        log (js "Server connected to MQTT broker") []
          (mkBridge (Some true) (messageListeners b) (subscribedTopics b)
                    (pending b) (storage b) (trace b)) in
      fold_left (fun acc t => snd (subscribe t acc)) (subscribedTopics b0) b0
  end.

(** The library clears the [connected] flag when the connection drops. *)
Definition onOffline (b : MQTTServerClient) : MQTTServerClient :=
  log (js "MQTT server client offline") []
    (mkBridge (option_map (fun _ => false) (client b)) (messageListeners b)
              (subscribedTopics b) (pending b) (storage b) (trace b)).

(** The end of [disconnect]: the client is dropped. *)
Definition disconnect (b : MQTTServerClient) : MQTTServerClient :=
  match client b with
  | None => b
  | Some _ =>
      log (js "Disconnected from MQTT broker") []
        (mkBridge None (messageListeners b) (subscribedTopics b) (pending b)
                  (storage b) (trace b))
  end.

(** What [connect] does to the fields above: a connected client is closed
    first, then a new client is created, not yet connected. *)
Definition connect (b : MQTTServerClient) : MQTTServerClient :=
  let b0 := if isConnected b then disconnect b else b in
  log (js "MQTT Server connecting to") []
    (mkBridge (Some false) (messageListeners b0) (subscribedTopics b0)
              (pending b0) (storage b0) (trace b0)).

(** ** The message handler

    Its statements either complete or throw; what they did to the bridge
    before throwing stays done. *)
Inductive completion (A : Type) : Type :=
| Normal (a : A)
| Thrown (error : jsstring).

Arguments Normal {A} a.
Arguments Thrown {A} error.

(** The same for the statements of the message handler, with what is
    thrown. *)
Inductive ending (A : Type) : Type :=
| Completes (a : A)
| Raises (e : exception).

Arguments Completes {A} a.
Arguments Raises {A} e.

Definition Eff (A : Type) : Type :=
  MQTTServerClient -> ending A * MQTTServerClient.

Definition pure {A} (a : A) : Eff A := fun b => (Completes a, b).

Definition andThen {A B} (c : Eff A) (f : A -> Eff B) : Eff B :=
  fun b =>
    match c b with
    | (Completes a, b') => f a b'
    | (Raises e, b') => (Raises e, b')
    end.

(** [try { body } catch (e) { handler(e) }] *)
Definition try_catch {A} (body : Eff A) (handler : exception -> Eff A)
  : Eff A :=
  fun b =>
    match body b with
    | (Completes a, b') => (Completes a, b')
    | (Raises e, b') => handler e b'
    end.

(** [list.forEach(f)]: a call that throws ends the loop. *)
Fixpoint forEach {A} (f : A -> Eff unit) (l : list A) : Eff unit :=
  match l with
  | [] => pure tt
  | x :: l' => andThen (f x) (fun _ => forEach f l')
  end.

(** A log line whose template holds what was caught: the template
    converts it to a text before [log] is called, and throws what that
    conversion throws. *)
Definition logE (text : jsstring) (caught : exception) : Eff unit :=
  fun b =>
    match caught with
    | Printable subject => (Completes tt, log text subject b)
    | Unprintable raised => (Raises raised, b)
    end.

(** [JSON.parse(payload.toString())] *)
Definition parseE (text : jsstring) : Eff json :=
  fun b =>
    match Json.parse text with
    | Some v => (Completes v, b)
    | None => (Raises (Printable (js "SyntaxError")), b)
    end.

(** [storage.storeMessage(message).catch(...)]: the body of the async
    method has run when the call returns; the promise never rejects. *)
Definition storeE (now : Z) (message : MQTTMessage) : Eff unit :=
  fun b =>
    (Completes tt,
     mkBridge (client b) (messageListeners b) (subscribedTopics b) (pending b)
              (snd (storeMessage now message (storage b)))
              (trace b ++ [Stored message])).

(** [listener(message)] *)
Definition callE (message : MQTTMessage) (l : Listener) : Eff unit :=
  fun b =>
    (if throws l message then Raises (thrown l message) else Completes tt,
     mkBridge (client b) (messageListeners b) (subscribedTopics b) (pending b)
              (storage b) (trace b ++ [Delivered (lid l) message])).

(** The payload: the parsed JSON, or the text itself when parsing throws. *)
Definition parsePayload (text : jsstring) : Eff json :=
  try_catch (parseE text) (fun _ => pure (JString text)).

Definition getListeners : Eff (list Listener) :=
  fun b => (Completes (messageListeners b), b).

(** The handler of the message event. *)
Definition onMessageE (now : Z) (t : jsstring) (payloadText : jsstring)
  : Eff unit :=
  try_catch
    (andThen (parsePayload payloadText) (fun parsedPayload =>
     let message := mkMessage t parsedPayload (Some now) in
     andThen (storeE now message) (fun _ =>
     andThen getListeners (fun listeners =>
     forEach
       (fun listener =>
          try_catch (callE message listener)
                    (fun err => logE (js "Error in message listener") err))
       listeners))))
    (fun error => logE (js "Error processing MQTT message") error).

Definition onMessage (now : Z) (t : jsstring) (payloadText : jsstring)
  (b : MQTTServerClient) : MQTTServerClient :=
  snd (onMessageE now t payloadText b).

(** The deliveries a trace records, in order. *)
Definition deliveries (tr : list event) : list (nat * MQTTMessage) :=
  flat_map (fun e => match e with
                     | Delivered l message => [(l, message)]
                     | _ => []
                     end) tr.

(** The messages a trace records as handed to the store, in order. *)
Definition stores (tr : list event) : list MQTTMessage :=
  flat_map (fun e => match e with
                     | Stored message => [message]
                     | _ => []
                     end) tr.

(** What can happen to a bridge. *)
Inductive action : Type :=
| Subscribe (t : jsstring)
| Unsubscribe (t : jsstring)
| Acknowledge (n : nat) (err : option jsstring)
| AddListener (l : Listener)
| RemoveListener (l : nat)
| Connect
| Connected
| Offline
| Disconnect
| Message (now : Z) (t : jsstring) (payloadText : jsstring).

Definition perform (b : MQTTServerClient) (a : action) : MQTTServerClient :=
  match a with
  | Subscribe t => snd (subscribe t b)
  | Unsubscribe t => snd (unsubscribe t b)
  | Acknowledge n err => acknowledge n err b
  | AddListener l => addMessageListener l b
  | RemoveListener l => removeMessageListener l b
  | Connect => connect b
  | Connected => onConnect b
  | Offline => onOffline b
  | Disconnect => disconnect b
  | Message now t text => onMessage now t text b
  end.

Definition performs (actions : list action) (b : MQTTServerClient)
  : MQTTServerClient :=
  fold_left perform actions b.

(** What the turn of the loop for one listener adds to the trace. *)
Definition notified (message : MQTTMessage) (l : Listener) : list event :=
  Delivered (lid l) message
  :: if throws l message
     then match thrown l message with
          | Printable subject =>
              [Logged (js "Error in message listener") subject]
          | Unprintable _ => []
          end
     else [].

(** A listener that throws, on a message, a value without a text. *)
Definition unprintable (message : MQTTMessage) (l : Listener) : bool :=
  (throws l message
   && match thrown l message with
      | Printable _ => false
      | Unprintable _ => true
      end)%bool.

(** The listeners that the loop reaches: those up to the first one that
    throws a value without a text, that one included. *)
Fixpoint called (message : MQTTMessage) (ls : list Listener) : list Listener :=
  match ls with
  | [] => []
  | l :: ls' =>
      l :: if unprintable message l then [] else called message ls'
  end.

(** How the loop ends: what the conversion of such a value to a text
    throws leaves the loop. *)
Fixpoint loop_end (message : MQTTMessage) (ls : list Listener) : ending unit :=
  match ls with
  | [] => Completes tt
  | l :: ls' =>
      if throws l message then
        match thrown l message with
        | Printable _ => loop_end message ls'
        | Unprintable raised => Raises raised
        end
      else loop_end message ls'
  end.

(** What the handler adds to the trace after the message has gone to the
    store, and how it ends: what leaves the loop is caught and logged,
    unless it has no text either. *)
Definition handled (message : MQTTMessage) (ls : list Listener) : list event :=
  flat_map (notified message) (called message ls)
  ++ match loop_end message ls with
     | Raises (Printable subject) =>
         [Logged (js "Error processing MQTT message") subject]
     | _ => []
     end.

Definition handler_end (message : MQTTMessage) (ls : list Listener)
  : ending unit :=
  match loop_end message ls with
  | Raises (Unprintable raised) => Raises raised
  | _ => Completes tt
  end.

(** The JSON value of a payload text, as the specification words it. *)
Definition decoded (text : jsstring) : json :=
  match Json.parse text with
  | Some v => v
  | None => JString text
  end.

End Bridge.

Import Bridge.

(* ================================================================== *)
(** * Observations used by the further properties *)
(* ================================================================== *)

Module Observe.

(** A message that has a timestamp, not earlier than [start]. *)
Definition not_before (start : Z) (msg : MQTTMessage) : bool :=
  match timestamp msg with
  | Some ts => Z.leb start ts
  | None => false
  end.

(** The messages that a sequence of actions makes the bridge receive. *)
Definition received (actions : list action) : list MQTTMessage :=
  flat_map (fun a => match a with
                     | Message now t text =>
                         [mkMessage t (decoded text) (Some now)]
                     | _ => []
                     end) actions.

(** The messages that a trace records as delivered to one listener. *)
Definition delivered_to (l : nat) (tr : list event) : list MQTTMessage :=
  List.map snd (filter (fun d => Nat.eqb (fst d) l) (deliveries tr)).

(** How often a listener is registered. *)
Definition registrations (l : nat) (ls : list Listener) : nat :=
  length (filter (fun x => Nat.eqb (lid x) l) ls).

(** The listeners that are called before the first one with a given
    identity: those registered ahead of it. *)
Fixpoint ahead (l : nat) (ls : list Listener) : list Listener :=
  match ls with
  | [] => []
  | x :: ls' => if Nat.eqb (lid x) l then [] else x :: ahead l ls'
  end.

End Observe.

Import Observe.

(* ================================================================== *)
(** * The other tables of the store (class MemStorage) *)
(* ================================================================== *)

(** The broker and widget methods of [MemStorage] read and write the
    maps and counters of their own only; each table is modelled with
    the state it uses.  An optional text or flag is [None] when it is
    null or undefined, which [||] does not tell apart. *)

Module Tables.

(** [x || null] on a text: the empty string is falsy too. *)
Definition text_or_null (x : option jsstring) : option jsstring :=
  match x with
  | Some (c :: s) => Some (c :: s)
  | _ => None
  end.

(** [x || null] on a flag: [false] is falsy too. *)
Definition flag_or_null (x : option bool) : option bool :=
  match x with
  | Some true => Some true
  | _ => None
  end.

(** [mp.get(k)] *)
Definition map_get {V} (k : Z) (mp : jsmap V) : option V :=
  option_map snd (find (fun e => Z.eqb (fst e) k) mp).

(** shared/schema.ts: a row of the widgets table and its insert form. *)
Record Widget : Type := mkWidget {
  id : Z;
  title : jsstring;
  topic : jsstring;
  chartType : jsstring;
  jsonKeyPath : option jsstring;
  unit : option jsstring
}.

Record InsertWidget : Type := mkInsertWidget {
  ititle : jsstring;
  itopic : jsstring;
  ichartType : jsstring;
  ijsonKeyPath : option jsstring;
  iunit : option jsstring
}.

Record WidgetTable : Type := mkWidgets {
  widgets : jsmap Widget;
  widgetId : Z
}.

Definition no_widgets : WidgetTable := mkWidgets [] 1.

Definition getWidgets (st : WidgetTable) : list Widget * WidgetTable :=
  (map_values (widgets st), st).

Definition getWidget (k : Z) (st : WidgetTable)
  : option Widget * WidgetTable :=
  (map_get k (widgets st), st).

Definition createWidget (widget : InsertWidget) (st : WidgetTable)
  : Widget * WidgetTable :=
  let id := widgetId st in
  let newWidget :=
    mkWidget id (ititle widget) (itopic widget) (ichartType widget)
             (text_or_null (ijsonKeyPath widget))
             (text_or_null (iunit widget)) in
  (newWidget, mkWidgets (map_set id newWidget (widgets st)) (incr (widgetId st))).

Definition deleteWidget (k : Z) (st : WidgetTable) : bool * WidgetTable :=
  (map_has k (widgets st), mkWidgets (map_delete k (widgets st)) (widgetId st)).

(** The calls the widget table can receive, and the table they leave. *)
Inductive widget_call : Type :=
| GetWidgets
| GetWidget (k : Z)
| CreateWidget (widget : InsertWidget)
| DeleteWidget (k : Z).

Definition widget_exec (st : WidgetTable) (c : widget_call) : WidgetTable :=
  match c with
  | GetWidgets => snd (getWidgets st)
  | GetWidget k => snd (getWidget k st)
  | CreateWidget widget => snd (createWidget widget st)
  | DeleteWidget k => snd (deleteWidget k st)
  end.

Definition widgets_after (calls : list widget_call) : WidgetTable :=
  fold_left widget_exec calls no_widgets.

(** The invariant of the widget table: every widget sits under its own
    id, below the counter, with no empty text for its key path or its
    unit, and the ids increase along the table. *)
Definition widgets_wf (st : WidgetTable) : Prop :=
  (forall k w, In (k, w) (widgets st) ->
     id w = k /\ (k < widgetId st)%Z /\
     jsonKeyPath w <> Some [] /\ unit w <> Some []) /\
  StronglySorted Z.lt (List.map fst (widgets st)).

(** shared/schema.ts: a row of the brokers table and its insert form. *)
Record Broker : Type := mkBroker {
  broker_id : Z;
  url : jsstring;
  port : Z;
  username : option jsstring;
  password : option jsstring;
  clientId : option jsstring;
  useSecureWebSockets : option bool
}.

Record InsertBroker : Type := mkInsertBroker {
  iurl : jsstring;
  iport : Z;
  iusername : option jsstring;
  ipassword : option jsstring;
  iclientId : option jsstring;
  iuseSecureWebSockets : option bool
}.

Record BrokerTable : Type := mkBrokers {
  brokers : jsmap Broker;
  brokerId : Z
}.

Definition no_brokers : BrokerTable := mkBrokers [] 1.

Definition getBroker (k : Z) (st : BrokerTable)
  : option Broker * BrokerTable :=
  (map_get k (brokers st), st).

Definition createBroker (broker : InsertBroker) (st : BrokerTable)
  : Broker * BrokerTable :=
  let id := brokerId st in
  let newBroker :=
    mkBroker id (iurl broker) (iport broker)
             (text_or_null (iusername broker))
             (text_or_null (ipassword broker))
             (text_or_null (iclientId broker))
             (flag_or_null (iuseSecureWebSockets broker)) in
  (newBroker, mkBrokers (map_set id newBroker (brokers st)) (incr (brokerId st))).

End Tables.

(* ================================================================== *)
(** * The address of the broker (connect, getConnectionInfo) *)
(* ================================================================== *)

(** The fields [brokerUrl] and [clientId] of the bridge, and the text
    that [connect] hands to the mqtt library.  The text that the
    template gives for the port, and the random digits of a generated
    client id, are arguments. *)

Module Connection.

(** [s.startsWith(prefix)] *)
Fixpoint startsWith (s prefix : jsstring) {struct prefix} : bool :=
  match prefix with
  | [] => true
  | p :: prefix' =>
      match s with
      | [] => false
      | c :: s' => N.eqb c p && startsWith s' prefix'
      end
  end.

(** [s.split(sep)] for a separator that is not empty: the pieces between
    the occurrences of [sep], found from left to right.  [skip] counts
    the characters of an occurrence still to pass, [cur] holds the piece
    being read, newest character first. *)
Fixpoint split_go (sep : jsstring) (skip : nat) (cur s : jsstring)
  : list jsstring :=
  match s with
  | [] => [rev cur]
  | c :: s' =>
      match skip with
      | S k => split_go sep k cur s'
      | O =>
          if startsWith s sep
          then rev cur :: split_go sep (length sep - 1) [] s'
          else split_go sep 0 (c :: cur) s'
      end
  end.

Definition split (s sep : jsstring) : list jsstring := split_go sep 0 [] s.

Definition has_scheme (url : jsstring) : bool :=
  (startsWith url (js "mqtt://") || startsWith url (js "ws://")
   || startsWith url (js "mqtts://") || startsWith url (js "wss://"))%bool.

(** The url without its protocol prefix; a missing array element would
    be rendered by the template as the text of [undefined]. *)
Definition cleanUrl (url : jsstring) : jsstring :=
  if has_scheme url then
    match nth_error (split url (js "://")) 1 with
    | Some host => host
    | None => js "undefined"
    end
  else url.

(** [!!secureWebSockets] *)
Definition truthy (flag : option bool) : bool :=
  match flag with
  | Some true => true
  | _ => false
  end.

(** The server side: [ws://] unless the flag is true. *)
Definition serverUrl (url portText : jsstring) (secureWebSockets : option bool)
  : jsstring :=
  let useSecure := truthy secureWebSockets in
  let protocol := if useSecure then js "wss://" else js "ws://" in
  protocol ++ cleanUrl url ++ js ":" ++ portText.

(** The browser side: [wss://] unless the flag is false. *)
Definition clientUrl (url portText : jsstring) (useSecureWebSockets : option bool)
  : jsstring :=
  let protocol :=
    match useSecureWebSockets with
    | Some false => js "ws://"
    | _ => js "wss://"
    end in
  protocol ++ cleanUrl url ++ js ":" ++ portText.

Record Session : Type := mkSession {
  brokerUrl : option jsstring;
  clientId : option jsstring
}.

Definition no_session : Session := mkSession None None.

(** What a [connect] that reaches the library leaves in the two fields. *)
Definition connect (url portText : jsstring) (chosenId : option jsstring)
  (secureWebSockets : option bool) (random : jsstring) (s : Session)
  : Session :=
  let fullUrl := serverUrl url portText secureWebSockets in
  let optionsClientId :=
    match chosenId with
    | Some (c :: r) => c :: r
    | _ => js "mqtt-server-" ++ random
    end in
  mkSession (Some fullUrl)
            (match optionsClientId with
             | [] => None
             | c :: r => Some (c :: r)
             end).

(** What the callback of [disconnect] leaves, when there was a client. *)
Definition disconnect (s : Session) : Session :=
  mkSession None (clientId s).

Record ConnectionInfo : Type := mkInfo {
  info_url : option jsstring;
  info_clientId : option jsstring;
  info_useSecureWebSockets : bool
}.

Definition getConnectionInfo (s : Session) : ConnectionInfo :=
  mkInfo (brokerUrl s) (clientId s)
         (match brokerUrl s with
          | Some u => if startsWith u (js "wss://") then true else false
          | None => false
          end).

(** Whether [sep] occurs in [s]. *)
Fixpoint occurs (s sep : jsstring) : bool :=
  (startsWith s sep
   || match s with
      | [] => false
      | _ :: s' => occurs s' sep
      end)%bool.

End Connection.

(* ================================================================== *)
(** * The routes of the server (registerRoutes) *)
(* ================================================================== *)

(** The handlers work on the two singletons of the server: the bridge,
    whose [storage] field is the store, and the widget table.  What a
    handler writes to the log of the server is not modelled; the trace
    of the bridge keeps what the bridge logs. *)

Module Routes.

(** What a handler answers: [res.status(n).json(body)], a refusal
    [res.status(n).json({ message })], or the answer of its [catch],
    status 500 with the message of the error. *)
Inductive response (A : Type) : Type :=
| Json (status : nat) (body : A)
| Refused (status : nat) (message : jsstring)
| Failed.

Arguments Json {A} status body.
Arguments Refused {A} status message.
Arguments Failed {A}.

(** A query parameter as Express parses it: absent, a text, or, when the
    parameter is repeated or has sub-keys, an array or an object. *)
Inductive query : Type :=
| QAbsent
| QText (s : jsstring)
| QOther.

(** [q || '1h'] *)
Definition or_default (q : query) (d : jsstring) : query :=
  match q with
  | QAbsent => QText d
  | QText [] => QText d
  | QText (c :: s) => QText (c :: s)
  | QOther => QOther
  end.

(** [list.includes(q)]: an array or an object equals no text. *)
Definition includes (l : list jsstring) (q : query) : bool :=
  match q with
  | QText s => existsb (fun x => str_eqb x s) l
  | _ => false
  end.

(** GET /api/messages/:topic *)
Definition get_messages (now : Z) (t : jsstring) (timeRangeQuery : query)
  : M (response (list MQTTMessage)) :=
  let timeRange := or_default timeRangeQuery (js "1h") in
  if negb (includes [js "1h"; js "6h"; js "24h"; js "7d"] timeRange) then
    ret (Refused 400 (js "Invalid time range"))
  else
    match timeRange with
    | QText r =>
        messages <- getMessageHistory now t r ;;
        ret (Json 200 messages)
    | _ => ret Failed
    end.

Definition set_storage (st : MemStorage) (b : MQTTServerClient)
  : MQTTServerClient :=
  mkBridge (client b) (messageListeners b) (subscribedTopics b) (pending b)
           st (trace b).

(** POST /api/topics; [bodyPath] is [req.body.path] when it is a text,
    and the schema throws when it is not. *)
Definition post_topics (bodyPath : option jsstring) (b : MQTTServerClient)
  : response Topic * MQTTServerClient :=
  match bodyPath with
  | None => (Failed, b)
  | Some p =>
      let data := mkInsertTopic p 1 in
      let (topic, st) := createTopic data (storage b) in
      let b1 := set_storage st b in
      let b2 := if isConnected b1 then snd (subscribe (path topic) b1)
                else b1 in
      (Json 201 topic, b2)
  end.

(** DELETE /api/topics?path=...; the body of the answer with status 200
    is [{ success: true }]. *)
Definition delete_topics (queryPath : option jsstring) (b : MQTTServerClient)
  : response bool * MQTTServerClient :=
  match queryPath with
  | None => (Refused 400 (js "Topic path is required"), b)
  | Some [] => (Refused 400 (js "Topic path is required"), b)
  | Some p =>
      let b1 := if isConnected b then snd (unsubscribe p b) else b in
      let (success, st) := deleteTopic p (storage b1) in
      let b2 := set_storage st b1 in
      if success then (Json 200 true, b2)
      else (Refused 404 (js "Topic not found"), b2)
  end.

Record Server : Type := mkServer {
  bridge : MQTTServerClient;
  widgetTable : Tables.WidgetTable
}.

(** POST /api/widgets; [body] is the parsed [req.body], and the schema
    throws when it does not fit. *)
Definition post_widgets (body : option Tables.InsertWidget) (s : Server)
  : response Tables.Widget * Server :=
  match body with
  | None => (Failed, s)
  | Some data =>
      let (widget, wt) := Tables.createWidget data (widgetTable s) in
      let (topics, st0) := getTopics (storage (bridge s)) in
      if negb (existsb (fun t => str_eqb (path t) (Tables.topic widget)) topics)
      then
        let (_, st1) :=
          createTopic (mkInsertTopic (Tables.topic widget) 1) st0 in
        let b1 := set_storage st1 (bridge s) in
        let b2 := if isConnected b1
                  then snd (subscribe (Tables.topic widget) b1)
                  else b1 in
        (Json 201 widget, mkServer b2 wt)
      else (Json 201 widget, mkServer (set_storage st0 (bridge s)) wt)
  end.

(** ** Sending to the WebSocket clients *)

(** A client of the WebSocket server: whether its [readyState] is OPEN,
    and whether its [send] throws. *)
Record WsClient : Type := mkWs {
  ws_id : nat;
  ws_open : bool;
  send_throws : bool
}.

(** What a send carries: a message of the broker, or the state of the
    connection. *)
Inductive frame : Type :=
| MqttMessageFrame (message : MQTTMessage)
| ConnectionStatusFrame (status : jsstring).

(** What was sent, oldest first, and what was logged for a failed send. *)
Inductive ws_event : Type :=
| Sent (to : nat) (data : frame)
| SendLogged (to : nat).

Definition Ws (A : Type) : Type :=
  list ws_event -> completion A * list ws_event.

Definition ws_pure {A} (a : A) : Ws A := fun out => (Normal a, out).

Definition ws_then {A B} (c : Ws A) (f : A -> Ws B) : Ws B :=
  fun out =>
    match c out with
    | (Normal a, out') => f a out'
    | (Thrown e, out') => (Thrown e, out')
    end.

Definition ws_try {A} (body : Ws A) (handler : jsstring -> Ws A) : Ws A :=
  fun out =>
    match body out with
    | (Normal a, out') => (Normal a, out')
    | (Thrown e, out') => handler e out'
    end.

Fixpoint ws_forEach {A} (f : A -> Ws unit) (l : list A) : Ws unit :=
  match l with
  | [] => ws_pure tt
  | x :: l' => ws_then (f x) (fun _ => ws_forEach f l')
  end.

(** [client.send(JSON.stringify(data))] *)
Definition send (data : frame) (c : WsClient) : Ws unit :=
  fun out =>
    if send_throws c then (Thrown (js "send error"), out)
    else (Normal tt, out ++ [Sent (ws_id c) data]).

Definition ws_log (c : WsClient) : Ws unit :=
  fun out => (Normal tt, out ++ [SendLogged (ws_id c)]).

(** The listener that relays the messages of the broker (lines 47-60):
    every send is guarded. *)
Definition relay (message : MQTTMessage) (clients : list WsClient) : Ws unit :=
  ws_forEach
    (fun c =>
       if ws_open c
       then ws_try (send (MqttMessageFrame message) c) (fun _ => ws_log c)
       else ws_pure tt)
    clients.

(** The loop that announces the state of the connection (lines 89-97 and
    124-131): no send is guarded. *)
Definition broadcast (status : jsstring) (clients : list WsClient)
  : Ws unit :=
  ws_forEach
    (fun c =>
       if ws_open c then send (ConnectionStatusFrame status) c
       else ws_pure tt)
    clients.

(** The clients a trace records a send to, in order. *)
Definition reached (out : list ws_event) : list nat :=
  flat_map (fun e => match e with
                     | Sent to _ => [to]
                     | SendLogged _ => []
                     end) out.

(** An open client whose send throws, and the clients before the first
    such one. *)
Definition failing (c : WsClient) : bool := (ws_open c && send_throws c)%bool.

Fixpoint before_failure (clients : list WsClient) : list WsClient :=
  match clients with
  | [] => []
  | c :: rest => if failing c then [] else c :: before_failure rest
  end.

End Routes.

(* ================================================================== *)
(** * The data of a chart (chartUtils.ts) *)
(* ================================================================== *)

(** A point of a chart: the time value of its [Date], and its value, a
    number that the functions below pass along without reading it. *)

Module Chart.

Section Points.

Variable number : Type.
Variable zero : number.

Record ChartDataPoint : Type := mkPoint {
  timestamp : Z;
  value : number
}.

(** The start of the window, as the [switch] of [filterDataByTimeRange]
    computes it. *)
Definition startTime (now : Z) (timeRange : jsstring) : Z :=
  if str_eqb timeRange (js "1h") then (now - 60 * 60 * 1000)%Z
  else if str_eqb timeRange (js "6h") then (now - 6 * 60 * 60 * 1000)%Z
  else if str_eqb timeRange (js "24h") then (now - 24 * 60 * 60 * 1000)%Z
  else if str_eqb timeRange (js "7d") then (now - 7 * 24 * 60 * 60 * 1000)%Z
  else (now - 60 * 60 * 1000)%Z.

Definition filterDataByTimeRange (now : Z) (data : list ChartDataPoint)
  (timeRange : jsstring) : list ChartDataPoint :=
  filter (fun point => Z.leb (startTime now timeRange) (timestamp point)) data.

(** The step between two points and the number of points, as the
    [switch] of [generateEmptyChartData] sets them. *)
Definition interval (timeRange : jsstring) : Z :=
  if str_eqb timeRange (js "1h") then 5 * 60 * 1000
  else if str_eqb timeRange (js "6h") then 30 * 60 * 1000
  else if str_eqb timeRange (js "24h") then 2 * 60 * 60 * 1000
  else if str_eqb timeRange (js "7d") then 12 * 60 * 60 * 1000
  else 5 * 60 * 1000.

Definition count (timeRange : jsstring) : nat :=
  if str_eqb timeRange (js "1h") then 12
  else if str_eqb timeRange (js "6h") then 12
  else if str_eqb timeRange (js "24h") then 12
  else if str_eqb timeRange (js "7d") then 14
  else 12.

(** [for (let i = n - 1; i >= 0; i--) data.push(f(i))] *)
Fixpoint countdown {A} (n : nat) (f : nat -> A) : list A :=
  match n with
  | O => []
  | S i => f i :: countdown i f
  end.

Definition generateEmptyChartData (now : Z) (timeRange : jsstring)
  : list ChartDataPoint :=
  countdown (count timeRange)
    (fun i => mkPoint (now - Z.of_nat i * interval timeRange) zero).

End Points.

Arguments mkPoint {number} timestamp value.
Arguments timestamp {number} c.
Arguments value {number} c.
Arguments filterDataByTimeRange {number} now data timeRange.
Arguments generateEmptyChartData {number} zero now timeRange.

End Chart.

(* ================================================================== *)
(** * The client of the browser (class MQTTClient) *)
(* ================================================================== *)

(** The listeners of the browser client are kept in an object made by
    the literal [{}], under the topic or pattern they were registered
    for.  The object has the properties of its own, in the order of
    their creation, and inherits those of [Object.prototype], none of
    which is an array.  As on the server, a listener reads the message
    it is given and does not register or remove listeners itself. *)

Module Client.

(** The names that [Object.prototype] defines. *)
Definition proto_names : list jsstring :=
  [js "constructor"; js "__defineGetter__"; js "__defineSetter__";
   js "hasOwnProperty"; js "__lookupGetter__"; js "__lookupSetter__";
   js "isPrototypeOf"; js "propertyIsEnumerable"; js "toString";
   js "valueOf"; js "__proto__"; js "toLocaleString"].

Definition inherited (key : jsstring) : bool :=
  existsb (str_eqb key) proto_names.

Definition object : Type := list (jsstring * list Listener).

Fixpoint own (obj : object) (key : jsstring) : option (list Listener) :=
  match obj with
  | [] => None
  | (k, v) :: rest => if str_eqb k key then Some v else own rest key
  end.

(** What [obj[key]] gives: an array of the object's own, a function or
    object of the prototype, or undefined. *)
Inductive property : Type :=
| Array (items : list Listener)
| Inherited
| Undefined.

Definition get (obj : object) (key : jsstring) : property :=
  match own obj key with
  | Some v => Array v
  | None => if inherited key then Inherited else Undefined
  end.

(** [obj[key] = v], for a key that is the object's own or is not
    inherited: a present key keeps its place, a new one goes last. *)
Fixpoint set (obj : object) (key : jsstring) (v : list Listener) : object :=
  match obj with
  | [] => [(key, v)]
  | (k, x) :: rest =>
      if str_eqb k key then (k, v) :: rest else (k, x) :: set rest key v
  end.

(** [delete obj[key]] *)
Definition delete (obj : object) (key : jsstring) : object :=
  filter (fun e => negb (str_eqb (fst e) key)) obj.

(** [Object.keys(obj)] *)
Definition keys (obj : object) : list jsstring := enumerate (List.map fst obj).

(** ** Registering and removing listeners *)

Definition addMessageListener (t : jsstring) (listener : Listener)
  (obj : object) : completion object :=
  let obj1 :=
    match get obj t with
    | Undefined => set obj t []
    | _ => obj
    end in
  match get obj1 t with
  | Array items => Normal (set obj1 t (items ++ [listener]))
  | _ => Thrown (js "TypeError")
  end.

Definition removeMessageListener (t : jsstring) (listener : nat)
  (obj : object) : completion object :=
  match get obj t with
  | Undefined => Normal obj
  | Inherited => Thrown (js "TypeError")
  | Array items =>
      let obj1 :=
        set obj t (filter (fun l => negb (Nat.eqb (lid l) listener)) items) in
      match get obj1 t with
      | Array [] => Normal (delete obj1 t)
      | Array (_ :: _) => Normal obj1
      | _ => Thrown (js "TypeError")
      end
  end.

(** The calls that register and remove; a call that throws leaves the
    object as it was. *)
Inductive listener_call : Type :=
| Add (t : jsstring) (listener : Listener)
| Remove (t : jsstring) (listener : nat).

Definition listener_exec (obj : object) (c : listener_call) : object :=
  match match c with
        | Add t listener => addMessageListener t listener obj
        | Remove t listener => removeMessageListener t listener obj
        end with
  | Normal obj' => obj'
  | Thrown _ => obj
  end.

Definition listeners_after (calls : list listener_call) : object :=
  fold_left listener_exec calls [].

(** ** The message handler *)

(** A statement completes, throws, or meets a pattern whose regular
    expression is outside the modelled part of [RegExp]. *)
Inductive outcome (A : Type) : Type :=
| Done (a : A)
| Threw (error : jsstring)
| Beyond.

Arguments Done {A} a.
Arguments Threw {A} error.
Arguments Beyond {A}.

Definition Disp (A : Type) : Type := list event -> outcome A * list event.

Definition done {A} (a : A) : Disp A := fun tr => (Done a, tr).

Definition throw {A} (error : jsstring) : Disp A := fun tr => (Threw error, tr).

Definition next {A B} (c : Disp A) (f : A -> Disp B) : Disp B :=
  fun tr =>
    match c tr with
    | (Done a, tr') => f a tr'
    | (Threw e, tr') => (Threw e, tr')
    | (Beyond, tr') => (Beyond, tr')
    end.

Definition catch {A} (body : Disp A) (handler : jsstring -> Disp A) : Disp A :=
  fun tr =>
    match body tr with
    | (Threw e, tr') => handler e tr'
    | r => r
    end.

Fixpoint each {A} (f : A -> Disp unit) (l : list A) : Disp unit :=
  match l with
  | [] => done tt
  | x :: l' => next (f x) (fun _ => each f l')
  end.

(** [listener(message)] *)
Definition call (message : MQTTMessage) (l : Listener) : Disp unit :=
  fun tr =>
    (if throws l message then Threw (js "listener error") else Done tt,
     tr ++ [Delivered (lid l) message]).

(** [obj[key].forEach(listener => listener(message))] *)
Definition dispatch (obj : object) (key : jsstring) (message : MQTTMessage)
  : Disp unit :=
  match get obj key with
  | Array items => each (call message) items
  | _ => throw (js "TypeError")
  end.

Definition truthy (p : property) : bool :=
  match p with
  | Undefined => false
  | _ => true
  end.

Definition matchTopicD (pattern t : jsstring) : Disp bool :=
  match matchTopic pattern t with
  | Ok matched => done matched
  | SyntaxError => throw (js "SyntaxError")
  | OutsideFragment => fun tr => (Beyond, tr)
  end.

(** The payload: the parsed JSON, or the text when parsing throws. *)
Definition parsePayload (text : jsstring) : json :=
  match Json.parse text with
  | Some v => v
  | None => JString text
  end.

(** The handler of the message event. *)
Definition onMessage (now : Z) (t payloadText : jsstring) (obj : object)
  : Disp unit :=
  catch
    (let parsedPayload := parsePayload payloadText in
     let message := mkMessage t parsedPayload (Some now) in
     next (if truthy (get obj t) then dispatch obj t message else done tt)
          (fun _ =>
     each (fun pattern =>
             if negb (str_eqb pattern t) then
               next (matchTopicD pattern t) (fun matched =>
               if matched then dispatch obj pattern message else done tt)
             else done tt)
          (keys obj)))
    (fun error => fun tr =>
       (Done tt, tr ++ [Logged (js "Error processing MQTT message") error])).

(** The invariant of the object: no key twice, no inherited name as a
    key, no key without a listener. *)
Definition object_wf (obj : object) : Prop :=
  NoDup (List.map fst obj) /\
  forall k items, In (k, items) obj -> inherited k = false /\ items <> [].

(** The listeners in the order in which the handler reaches them: those
    registered for the topic, then, key by key in the order of
    [Object.keys], those registered for another key that the topic
    matches as a pattern. *)
Definition own_listeners (obj : object) (key : jsstring) : list Listener :=
  match own obj key with
  | Some items => items
  | None => []
  end.

Definition dispatch_order (obj : object) (t : jsstring) : list Listener :=
  own_listeners obj t
  ++ flat_map (fun k =>
                 if str_eqb k t then []
                 else match matchTopic k t with
                      | Ok true => own_listeners obj k
                      | _ => []
                      end) (keys obj).

(** The number of a key that is an array index. *)
Definition index_of (key : jsstring) : N :=
  match array_index key with
  | Some n => n
  | None => 0%N
  end.

(** The listeners that a message on topic [t] is for: those registered
    for [t] itself and those registered for a pattern that [t] matches. *)
Definition addressed (obj : object) (t : jsstring) : list Listener :=
  flat_map (fun e =>
              if str_eqb (fst e) t then snd e
              else match matchTopic (fst e) t with
                   | Ok true => snd e
                   | _ => []
                   end) obj.

End Client.

(* ================================================================== *)
(** * The value that a widget shows (extractValueByPath) *)
(* ================================================================== *)

(** The payload is a value that [JSON.parse] has built; a key that is
    not its own is looked up in the prototypes.  An object of the
    payload inherits from [Object.prototype]; what an array inherits
    under a name that is neither an index nor [length] is left open. *)

Module Extract.

Inductive value : Type :=
| Json (v : json)       (* a value of the payload, or null *)
| ObjectPrototype       (* [Object.prototype] itself *)
| Function              (* a method of [Object.prototype] *)
| Undefined
| Unmodelled.           (* a name that an array may inherit *)

(** The member that [JSON.parse] has kept under a name: the last one
    that the text gives. *)
Fixpoint own_member (ms : list (jsstring * json)) (key : jsstring)
  : option json :=
  match ms with
  | [] => None
  | (k, v) :: rest =>
      match own_member rest key with
      | Some w => Some w
      | None => if str_eqb k key then Some v else None
      end
  end.

Definition is_method (key : jsstring) : bool :=
  (Client.inherited key && negb (str_eqb key (js "__proto__")))%bool.

(** [value[key]] on a value whose type is object and which is not null. *)
Definition member (v : value) (key : jsstring) : value :=
  match v with
  | Json (JObject ms) =>
      match own_member ms key with
      | Some w => Json w
      | None =>
          if str_eqb key (js "__proto__") then ObjectPrototype
          else if is_method key then Function
          else Undefined
      end
  | Json (JArray items) =>
      match array_index key with
      | Some n =>
          match nth_error items (N.to_nat n) with
          | Some w => Json w
          | None => Undefined
          end
      | None =>
          if str_eqb key (js "length")
          then Json (JNumber (Z.of_nat (length items)) 0)
          else Unmodelled
      end
  | ObjectPrototype =>
      if str_eqb key (js "__proto__") then Json JNull
      else if is_method key then Function
      else Undefined
  | _ => Undefined
  end.

(** [value === null || value === undefined || typeof value !== 'object'],
    negated. *)
Definition is_object (v : value) : bool :=
  match v with
  | Json (JObject _) => true
  | Json (JArray _) => true
  | ObjectPrototype => true
  | _ => false
  end.

(** The loop over the keys. *)
Fixpoint walk (v : value) (keys : list jsstring) : value :=
  match keys with
  | [] => v
  | key :: rest =>
      match v with
      | Unmodelled => Unmodelled
      | _ => if is_object v then walk (member v key) rest else Undefined
      end
  end.

(** [path] is [None] when it is undefined. *)
Definition extractValueByPath (obj : json) (path : option jsstring) : value :=
  match path with
  | None => Json obj
  | Some [] => Json obj
  | Some p => walk (Json obj) (Connection.split p (js "."))
  end.

End Extract.

(* ================================================================== *)
(** * The WebSocket client of the browser (class WebSocketClient) *)
(* ================================================================== *)

(** The browser is the environment of the client: it numbers the
    sockets and the timers that the client creates, it owns the
    [readyState] of a socket, and it raises the open, close and error
    events of a socket and lets a timer fire.  The listeners of the
    client are called inside a [try] and read what they are given. *)

Module WebSocket.

Record WebSocketClient : Type := mkClient {
  socket : option nat;          (* null, or the socket *)
  isConnecting : bool;
  reconnectTimer : option nat;  (* null, or the timer *)
  open_sockets : list nat;      (* the sockets whose readyState is OPEN *)
  sockets : nat;                (* how many sockets have been created *)
  timers : nat;                 (* how many timers have been set *)
  scheduled : list nat          (* the timers set, not cleared, not fired *)
}.

Definition new_client : WebSocketClient := mkClient None false None [] 0 0 [].

Definition is_open (sid : nat) (c : WebSocketClient) : bool :=
  existsb (Nat.eqb sid) (open_sockets c).

Definition without (x : nat) (l : list nat) : list nat :=
  filter (fun y => negb (Nat.eqb x y)) l.

(** [connect()]; [fails] tells whether [new WebSocket(url)] throws. *)
Definition connect (fails : bool) (c : WebSocketClient) : WebSocketClient :=
  if (match socket c with
      | Some sid => is_open sid c
      | None => false
      end || isConnecting c)%bool
  then c
  else if fails then
    mkClient (socket c) false (reconnectTimer c) (open_sockets c) (sockets c)
             (timers c) (scheduled c)
  else
    mkClient (Some (sockets c)) true (reconnectTimer c) (open_sockets c)
             (S (sockets c)) (timers c) (scheduled c).

(** [disconnect()] *)
Definition disconnect (c : WebSocketClient) : WebSocketClient :=
  let c1 :=
    match reconnectTimer c with
    | Some tid =>
        mkClient (socket c) (isConnecting c) None (open_sockets c) (sockets c)
                 (timers c) (without tid (scheduled c))
    | None => c
    end in
  match socket c1 with
  | Some sid =>
      mkClient None (isConnecting c1) (reconnectTimer c1)
               (without sid (open_sockets c1)) (sockets c1) (timers c1)
               (scheduled c1)
  | None => c1
  end.

(** The handlers that [connect] gives to the socket it creates. *)
Definition onopen (c : WebSocketClient) : WebSocketClient :=
  mkClient (socket c) false (reconnectTimer c) (open_sockets c) (sockets c)
           (timers c) (scheduled c).

Definition onclose (c : WebSocketClient) : WebSocketClient :=
  mkClient None false (Some (timers c)) (open_sockets c) (sockets c)
           (S (timers c)) (scheduled c ++ [timers c]).

Definition onerror (c : WebSocketClient) : WebSocketClient :=
  mkClient (socket c) false (reconnectTimer c) (open_sockets c) (sockets c)
           (timers c) (scheduled c).

(** What can happen to the client. *)
Inductive step : Type :=
| Connect (fails : bool)
| Disconnect
| Opened (sid : nat)
| Closed (sid : nat)
| Errored (sid : nat)
| Fired (tid : nat) (fails : bool).

Definition created (sid : nat) (c : WebSocketClient) : bool :=
  Nat.ltb sid (sockets c).

Definition perform (c : WebSocketClient) (s : step) : WebSocketClient :=
  match s with
  | Connect fails => connect fails c
  | Disconnect => disconnect c
  | Opened sid =>
      if created sid c then
        onopen (mkClient (socket c) (isConnecting c) (reconnectTimer c)
                         (open_sockets c ++ [sid]) (sockets c) (timers c)
                         (scheduled c))
      else c
  | Closed sid =>
      if created sid c then
        onclose (mkClient (socket c) (isConnecting c) (reconnectTimer c)
                          (without sid (open_sockets c)) (sockets c)
                          (timers c) (scheduled c))
      else c
  | Errored sid => if created sid c then onerror c else c
  | Fired tid fails =>
      if existsb (Nat.eqb tid) (scheduled c) then
        connect fails
          (mkClient (socket c) (isConnecting c) (reconnectTimer c)
                    (open_sockets c) (sockets c) (timers c)
                    (without tid (scheduled c)))
      else c
  end.

Definition performs (steps : list step) (c : WebSocketClient)
  : WebSocketClient :=
  fold_left perform steps c.

End WebSocket.

(* ================================================================== *)
(** * Properties of the RegExp model *)
(* ================================================================== *)

Create HintDb regex.

#[local] Hint Constructors RegExp.matches : regex.

(** Runs the state monad of the store in the goal. *)
Ltac run_store :=
  unfold getTopics, createTopic, deleteTopic, storeMessage,
    getMessageHistory, bind, get, put, ret.

Section Matcher.

Import RegExp.

Variable total : nat.

Lemma m_star_unfold r k s :
  m total (Star r) k s = star_loop total r k (length s) s.
Proof. reflexivity. Qed.

Lemma m_plus_unfold r k s :
  m total (Plus r) k s =
  m total r (fun s0 => star_loop total r k (length s0) s0) s.
Proof. reflexivity. Qed.

Lemma matches_length r s s' : matches total r s s' -> length s' <= length s.
Proof.
  induction 1; simpl in *; lia.
Qed.

(** The loop of a starred expression finds exactly the iterated matches,
    given that the body does. *)
Lemma star_loop_spec r k
  (IH : forall k0 s0, m total r k0 s0 = true <->
          exists s1, matches total r s0 s1 /\ k0 s1 = true) :
  forall fuel s, length s <= fuel ->
    (star_loop total r k fuel s = true <->
     exists s', matches total (Star r) s s' /\ k s' = true).
Proof.
  induction fuel as [|fuel IHf]; intros s Hlen; simpl.
  - split.
    + intros Hk. exists s. split; [constructor | exact Hk].
    + intros [s' [Hm Hk]]. inversion Hm; subst; [exact Hk | lia].
  - rewrite orb_true_iff, IH. split.
    + intros [[s1 [H1 Hk1]] | Hk].
      * apply andb_true_iff in Hk1. destruct Hk1 as [Hlt Hloop].
        apply Nat.ltb_lt in Hlt.
        apply IHf in Hloop; [|lia].
        destruct Hloop as [s' [Hs Hk]].
        exists s'. split; [eapply M_StarS; eauto | exact Hk].
      * exists s. split; [constructor | exact Hk].
    + intros [s' [Hm Hk]]. inversion Hm; subst.
      * right. exact Hk.
      * left. exists s1. split; [assumption|].
        apply andb_true_iff. split; [apply Nat.ltb_lt; assumption|].
        apply IHf; [lia|]. exists s'. split; assumption.
Qed.

(** The matcher is sound and complete for [matches]. *)
Theorem m_spec r : forall k s,
  m total r k s = true <-> exists s', matches total r s s' /\ k s' = true.
Proof.
  induction r; intros k s.
  - simpl. split.
    + intros H. eauto with regex.
    + intros [s' [Hm Hk]]. inversion Hm; subst. exact Hk.
  - simpl. destruct s as [|x s].
    + split; [discriminate|]. intros [s' [Hm _]]. inversion Hm.
    + rewrite andb_true_iff, N.eqb_eq. split.
      * intros [-> Hk]. eauto with regex.
      * intros [s' [Hm Hk]]. inversion Hm; subst. split; [reflexivity|exact Hk].
  - simpl. destruct s as [|x s].
    + split; [discriminate|]. intros [s' [Hm _]]. inversion Hm.
    + rewrite andb_true_iff, negb_true_iff. split.
      * intros [Hx Hk]. exists s. split; [constructor; exact Hx | exact Hk].
      * intros [s' [Hm Hk]]. inversion Hm; subst. split; assumption.
  - simpl. destruct s as [|x s].
    + split; [discriminate|]. intros [s' [Hm _]]. inversion Hm.
    + rewrite andb_true_iff. split.
      * intros [Hx Hk]. exists s. split; [constructor; exact Hx | exact Hk].
      * intros [s' [Hm Hk]]. inversion Hm; subst. split; assumption.
  - simpl. rewrite andb_true_iff, Nat.eqb_eq. split.
    + intros [Hl Hk]. exists s. split; [constructor; exact Hl | exact Hk].
    + intros [s' [Hm Hk]]. inversion Hm; subst. split; [reflexivity|exact Hk].
  - simpl. destruct s as [|x s].
    + split.
      * intros Hk. exists []. split; [constructor | exact Hk].
      * intros [s' [Hm Hk]]. inversion Hm; subst. exact Hk.
    + split; [discriminate|]. intros [s' [Hm _]]. inversion Hm.
  - simpl. rewrite IHr1. split.
    + intros [s1 [H1 H2]]. apply IHr2 in H2. destruct H2 as [s2 [H2 Hk]].
      eauto with regex.
    + intros [s2 [Hm Hk]]. inversion Hm; subst.
      exists s1. split; [assumption|]. apply IHr2. exists s2. split; assumption.
  - simpl. rewrite orb_true_iff, IHr1, IHr2. split.
    + intros [[s' [Hm Hk]] | [s' [Hm Hk]]]; eauto with regex.
    + intros [s' [Hm Hk]]. inversion Hm; subst; [left | right];
        exists s'; split; assumption.
  - rewrite m_star_unfold. apply star_loop_spec; [exact IHr | lia].
  - rewrite m_plus_unfold, IHr. split.
    + intros [s1 [H1 Hl]].
      apply (star_loop_spec r k IHr) in Hl; [|lia].
      destruct Hl as [s' [Hs Hk]].
      exists s'. split; [econstructor; eauto | exact Hk].
    + intros [s' [Hm Hk]]. inversion Hm; subst.
      exists s1. split; [assumption|].
      apply (star_loop_spec r k IHr); [lia|]. exists s'. split; assumption.
  - simpl. rewrite orb_true_iff, IHr. split.
    + intros [[s' [Hm Hk]] | Hk]; eauto with regex.
    + intros [s' [Hm Hk]]. inversion Hm; subst.
      * right. exact Hk.
      * left. exists s'. split; assumption.
Qed.

End Matcher.

(** A search succeeds when the expression matches from some index on. *)
Lemma search_spec total r s :
  RegExp.search total r s = true <->
  exists pre s0 s', s = pre ++ s0 /\ RegExp.matches total r s0 s'.
Proof.
  induction s as [|c s IH]; simpl; rewrite orb_true_iff, m_spec.
  - split.
    + intros [[s' [Hm _]] | H]; [|discriminate].
      exists [], [], s'. split; [reflexivity | exact Hm].
    + intros [pre [s0 [s' [Heq Hm]]]].
      destruct pre; [|discriminate]. simpl in Heq. subst s0.
      left. exists s'. split; [exact Hm | reflexivity].
  - rewrite IH. split.
    + intros [[s' [Hm _]] | [pre [s0 [s' [Heq Hm]]]]].
      * exists [], (c :: s), s'. split; [reflexivity | exact Hm].
      * exists (c :: pre), s0, s'. split; [simpl; congruence | exact Hm].
    + intros [pre [s0 [s' [Heq Hm]]]]. destruct pre as [|x pre].
      * simpl in Heq. subst s0. left. exists s'. split; [exact Hm | reflexivity].
      * simpl in Heq. injection Heq as -> ->. right.
        exists pre, s0, s'. split; [reflexivity | exact Hm].
Qed.

(* ================================================================== *)
(** * Properties of the topic matcher *)
(* ================================================================== *)

Section Parsing.

Import RegExp.

Lemma run_app st s1 s2 :
  run st (s1 ++ s2) =
  match run st s1 with
  | Ok st' => run st' s2
  | SyntaxError => SyntaxError
  | OutsideFragment => OutsideFragment
  end.
Proof.
  revert st. induction s1 as [|c s1 IH]; intros st; simpl; [reflexivity|].
  destruct (step st c); auto.
Qed.

Lemma plain_kind c : plain c = true -> kind c = KLit.
Proof. unfold plain. destruct (kind c); intros H; try discriminate; reflexivity. Qed.

Lemma plain_not_plus c : plain c = true -> N.eqb c c_plus = false.
Proof.
  intros H. destruct (N.eqb_spec c c_plus) as [->|]; [|reflexivity].
  discriminate H.
Qed.

Lemma plain_not_hash c : plain c = true -> N.eqb c c_hash = false.
Proof.
  unfold plain. destruct (kind c); try discriminate.
  intros H. apply negb_true_iff in H. exact H.
Qed.

Lemma run_one_level stk f :
  run (mkP stk f MNormal) one_level =
  Ok (mkP stk (push_atom f (Plus level_class) QQuant) MNormal).
Proof. reflexivity. Qed.

Lemma run_items p : item_text p -> forall stk f,
  run (mkP stk f MNormal) (replacePlus p) = Ok (mkP stk (pushes f p) MNormal).
Proof.
  unfold item_text.
  induction p as [|c p IH]; intros Hp stk f; [reflexivity|].
  simpl in Hp. apply andb_true_iff in Hp. destruct Hp as [Hc Hp].
  unfold replacePlus. simpl flat_map. fold (replacePlus p).
  unfold pushes. simpl fold_left. fold (pushes (push_atom f (fst (term_of c)) (snd (term_of c))) p).
  rewrite run_app. unfold term_of.
  destruct (N.eqb c c_plus) eqn:Hplus.
  - rewrite run_one_level. apply IH. exact Hp.
  - unfold item in Hc. rewrite Hplus, orb_false_r in Hc.
    simpl. unfold step. simpl md. unfold normal_step.
    rewrite (plain_kind _ Hc). apply IH. exact Hp.
Qed.

Lemma pushes_alts p : forall f, alts (pushes f p) = alts f.
Proof.
  induction p as [|c p IH]; intros f; [reflexivity|].
  unfold pushes. simpl. fold (pushes (push_atom f (fst (term_of c)) (snd (term_of c))) p).
  rewrite IH. reflexivity.
Qed.

Lemma pushes_seq p : forall f,
  Seq (done (pushes f p)) (last (pushes f p)) =
  fold_left Seq (map (fun c => fst (term_of c)) p) (Seq (done f) (last f)).
Proof.
  induction p as [|c p IH]; intros f; [reflexivity|].
  unfold pushes. simpl. fold (pushes (push_atom f (fst (term_of c)) (snd (term_of c))) p).
  rewrite IH. reflexivity.
Qed.

Lemma run_sub_levels stk f :
  run (mkP stk f MNormal) sub_levels =
  Ok (mkP stk (push_atom f (Opt sub_group) QQuant) MNormal).
Proof. reflexivity. Qed.

Lemma compile_levels p :
  item_text p ->
  compile (js "^" ++ replacePlus p ++ js "$") = Ok (Seq (body p) Eol).
Proof.
  intros Hp. unfold compile.
  change (js "^" ++ replacePlus p ++ js "$")
    with (94%N :: (replacePlus p ++ [36%N])).
  change (run init (94%N :: (replacePlus p ++ [36%N])))
    with (run (mkP [] (push_atom empty_frame Bol QNone) MNormal)
              (replacePlus p ++ [36%N])).
  rewrite run_app, (run_items p Hp). simpl.
  unfold finish, close. simpl.
  rewrite pushes_alts, pushes_seq. reflexivity.
Qed.

Lemma compile_levels_hash p :
  item_text p ->
  compile (js "^" ++ (replacePlus p ++ sub_levels) ++ js "$") =
  Ok (Seq (Seq (body p) (Opt sub_group)) Eol).
Proof.
  intros Hp. unfold compile.
  change (js "^" ++ (replacePlus p ++ sub_levels) ++ js "$")
    with (94%N :: ((replacePlus p ++ sub_levels) ++ [36%N])).
  change (run init (94%N :: ((replacePlus p ++ sub_levels) ++ [36%N])))
    with (run (mkP [] (push_atom empty_frame Bol QNone) MNormal)
              ((replacePlus p ++ sub_levels) ++ [36%N])).
  rewrite <- app_assoc, run_app, (run_items p Hp), run_app, run_sub_levels.
  simpl. unfold finish, close. simpl.
  rewrite pushes_alts, pushes_seq. reflexivity.
Qed.

End Parsing.

Section Replacing.

Lemma str_eqb_eq a : forall b, str_eqb a b = true <-> a = b.
Proof.
  induction a as [|x a IH]; intros [|y b]; simpl; split; intros H;
    try reflexivity; try discriminate.
  - apply andb_true_iff in H. destruct H as [Hx Ha].
    apply N.eqb_eq in Hx. apply IH in Ha. congruence.
  - injection H as -> ->. rewrite N.eqb_refl. simpl. apply IH. reflexivity.
Qed.

Lemma replaceHash_id s : hash_free s -> replaceHash s = s.
Proof.
  unfold hash_free, replaceHash.
  induction s as [|c s IH]; simpl; intros H; [reflexivity|].
  apply andb_true_iff in H. destruct H as [Hc Hs].
  apply negb_true_iff in Hc. rewrite Hc. simpl. rewrite IH; auto.
Qed.

Lemma replaceTrailingHash_id s : hash_free s -> replaceTrailingHash s = s.
Proof.
  unfold hash_free.
  induction s as [|c s IH]; simpl; intros H; [reflexivity|].
  apply andb_true_iff in H. destruct H as [Hc Hs].
  destruct (str_eqb s [c_hash]) eqn:E.
  - apply str_eqb_eq in E. subst s. discriminate Hs.
  - rewrite andb_false_r. rewrite IH; auto.
Qed.

Lemma replaceTrailingHash_end s :
  replaceTrailingHash (s ++ [c_slash; c_hash]) = s ++ sub_levels.
Proof.
  induction s as [|c s IH]; [reflexivity|].
  simpl. rewrite IH.
  replace (str_eqb (s ++ [c_slash; c_hash]) [c_hash]) with false.
  - rewrite andb_false_r. reflexivity.
  - destruct s as [|x [|y s]]; simpl; try reflexivity.
    + rewrite andb_false_r. reflexivity.
    + rewrite andb_false_r. reflexivity.
Qed.

Lemma hash_free_app a b : hash_free a -> hash_free b -> hash_free (a ++ b).
Proof.
  unfold hash_free. intros Ha Hb. rewrite forallb_app, Ha, Hb. reflexivity.
Qed.

Lemma replacePlus_hash_free p : item_text p -> hash_free (replacePlus p).
Proof.
  unfold item_text.
  induction p as [|c p IH]; intros Hp; [reflexivity|].
  simpl in Hp. apply andb_true_iff in Hp. destruct Hp as [Hc Hp].
  unfold replacePlus. simpl. fold (replacePlus p).
  apply hash_free_app; [|apply IH; exact Hp].
  destruct (N.eqb c c_plus) eqn:Hplus; [reflexivity|].
  unfold item in Hc. rewrite Hplus, orb_false_r in Hc.
  unfold hash_free. simpl. rewrite (plain_not_hash _ Hc). reflexivity.
Qed.

Lemma regexPattern_levels p :
  item_text p -> regexPattern p = replacePlus p.
Proof.
  intros Hp. unfold regexPattern.
  rewrite replaceTrailingHash_id, replaceHash_id;
    auto using replacePlus_hash_free.
Qed.

Lemma regexPattern_levels_hash p :
  item_text p ->
  regexPattern (p ++ js "/#") = replacePlus p ++ sub_levels.
Proof.
  intros Hp. unfold regexPattern.
  replace (replacePlus (p ++ js "/#"))
    with (replacePlus p ++ [c_slash; c_hash]).
  - rewrite replaceTrailingHash_end. apply replaceHash_id.
    apply hash_free_app; [apply replacePlus_hash_free; exact Hp | reflexivity].
  - unfold replacePlus. rewrite flat_map_app. reflexivity.
Qed.

End Replacing.

Section Levels.

Import RegExp.

Variable total : nat.

Lemma matches_seq r1 r2 s s' :
  matches total (Seq r1 r2) s s' <->
  exists s1, matches total r1 s s1 /\ matches total r2 s1 s'.
Proof.
  split.
  - intros H. inversion H; subst. eauto.
  - intros [s1 [H1 H2]]. econstructor; eauto.
Qed.

Lemma matches_empty s s' : matches total Empty s s' <-> s' = s.
Proof.
  split.
  - intros H. inversion H; subst. reflexivity.
  - intros ->. constructor.
Qed.

Lemma matches_chr c s s' : matches total (Chr c) s s' <-> s = c :: s'.
Proof.
  split.
  - intros H. inversion H; subst. reflexivity.
  - intros ->. constructor.
Qed.

Lemma matches_bol s s' :
  matches total Bol s s' <-> s' = s /\ length s = total.
Proof.
  split.
  - intros H. inversion H; subst. auto.
  - intros [-> H]. constructor. exact H.
Qed.

Lemma matches_eol s s' : matches total Eol s s' <-> s = [] /\ s' = [].
Proof.
  split.
  - intros H. inversion H; subst. auto.
  - intros [-> ->]. constructor.
Qed.

Lemma matches_plus r s s' :
  matches total (Plus r) s s' <->
  exists s1, matches total r s s1 /\ matches total (Star r) s1 s'.
Proof.
  split.
  - intros H. inversion H; subst. eauto.
  - intros [s1 [H1 H2]]. econstructor; eauto.
Qed.

Lemma matches_opt r s s' :
  matches total (Opt r) s s' <-> s' = s \/ matches total r s s'.
Proof.
  split.
  - intros H. inversion H; subst; auto.
  - intros [-> | H]; [apply M_Opt0 | apply M_Opt1; exact H].
Qed.

(** A starred one-character expression consumes any run of characters it
    accepts. *)
Lemma matches_star_chars r (P : N -> bool)
  (Hr : forall s s1, matches total r s s1 <-> exists c, s = c :: s1 /\ P c = true) :
  forall s s', matches total (Star r) s s' <->
               exists x, forallb P x = true /\ s = x ++ s'.
Proof.
  intros s s'. split.
  - intros H. remember (Star r) as r0 eqn:E.
    induction H; try discriminate E; injection E as ->.
    + exists []. split; reflexivity.
    + apply Hr in H. destruct H as [c [-> Hc]].
      destruct (IHmatches2 eq_refl) as [x [Hx ->]].
      exists (c :: x). split; [simpl; rewrite Hc, Hx|]; reflexivity.
  - intros [x [Hx ->]]. induction x as [|c x IH]; [constructor|].
    simpl in Hx. apply andb_true_iff in Hx. destruct Hx as [Hc Hx].
    apply M_StarS with (s1 := x ++ s').
    + apply Hr. exists c. split; [reflexivity | exact Hc].
    + simpl. lia.
    + apply IH. exact Hx.
Qed.

Lemma matches_level_class s s1 :
  matches total level_class s s1 <-> exists c, s = c :: s1 /\ not_slash c = true.
Proof.
  assert (Hc : forall c, in_class true [(47, 47)%N] c = not_slash c).
  { intros c. unfold in_class, not_slash, c_slash. simpl.
    rewrite orb_false_r.
    destruct (N.eqb_spec c 47) as [->|Hne]; [reflexivity|].
    destruct (N.leb_spec 47 c), (N.leb_spec c 47); try reflexivity. lia. }
  split.
  - intros H. inversion H; subst. exists c. rewrite <- Hc. auto.
  - intros [c [-> H]]. constructor. rewrite Hc. exact H.
Qed.

Lemma matches_any s s1 :
  matches total Any s s1 <->
  exists c, s = c :: s1 /\ negb (is_line_terminator c) = true.
Proof.
  split.
  - intros H. inversion H; subst. exists c. split; [reflexivity|].
    apply negb_true_iff. assumption.
  - intros [c [-> H]]. constructor. apply negb_true_iff. exact H.
Qed.

Lemma not_slash_all seg :
  forallb not_slash seg = true <-> ~ In c_slash seg.
Proof.
  induction seg as [|c seg IH]; simpl.
  - split; auto.
  - rewrite andb_true_iff, IH. unfold not_slash.
    rewrite negb_true_iff, N.eqb_neq. split.
    + intros [Hc Hs] [Heq | Hin]; [congruence | contradiction].
    + intros H. split; [intros ->; apply H; left; reflexivity|].
      intros Hin. apply H. right. exact Hin.
Qed.

(** The term of [+]: one level, not empty. *)
Lemma matches_one_level s s' :
  matches total (Plus level_class) s s' <->
  exists seg, seg <> [] /\ ~ In c_slash seg /\ s = seg ++ s'.
Proof.
  split.
  - intros H. apply matches_plus in H. destruct H as [s1 [H1 H2]].
    apply matches_level_class in H1. destruct H1 as [c [-> Hc]].
    apply (matches_star_chars _ not_slash matches_level_class) in H2.
    destruct H2 as [x [Hx ->]].
    exists (c :: x). split; [discriminate|]. split; [|reflexivity].
    apply not_slash_all. simpl. rewrite Hc, Hx. reflexivity.
  - intros [seg [Hne [Hns ->]]]. destruct seg as [|c seg]; [congruence|].
    apply not_slash_all in Hns. simpl in Hns.
    apply andb_true_iff in Hns. destruct Hns as [Hc Hs].
    apply M_Plus with (s1 := seg ++ s').
    + apply matches_level_class. exists c. auto.
    + apply (matches_star_chars _ not_slash matches_level_class).
      exists seg. auto.
Qed.

(** The optional group at the end: nothing, or a slash and any text
    without line terminator. *)
Lemma matches_sub_group s s' :
  matches total (Opt sub_group) s s' <->
  exists t, s = t ++ s' /\ sub_topic t.
Proof.
  unfold sub_group, sub_topic, free_of_terminators. split.
  - intros H. apply matches_opt in H. destruct H as [-> | H1].
    + exists []. split; [reflexivity | left; reflexivity].
    + apply matches_seq in H1. destruct H1 as [s1 [H1 H2]].
      apply matches_seq in H1. destruct H1 as [s2 [H1 H3]].
      apply matches_seq in H1. destruct H1 as [s3 [H1 H4]].
      apply matches_empty in H1, H4. subst s3 s2.
      apply matches_chr in H3. subst s.
      apply (matches_star_chars _ _ matches_any) in H2.
      destruct H2 as [x [Hx ->]].
      exists (c_slash :: x). split; [reflexivity|]. right. exists x. auto.
  - intros [t [-> [-> | [rest [-> Hr]]]]].
    + apply M_Opt0.
    + apply M_Opt1.
      apply matches_seq. exists (rest ++ s'). split.
      * apply matches_seq. exists ((c_slash :: rest) ++ s'). split.
        -- apply matches_seq. exists ((c_slash :: rest) ++ s').
           split; constructor.
        -- constructor.
      * apply (matches_star_chars _ _ matches_any). exists rest. auto.
Qed.

Lemma matches_term c s s' :
  item c = true ->
  (matches total (fst (term_of c)) s s' <-> exists x, s = x ++ s' /\ wild [c] x).
Proof.
  intros Hc. unfold term_of. simpl wild.
  destruct (N.eqb c c_plus) eqn:E; simpl fst.
  - rewrite matches_one_level. split.
    + intros [seg [H1 [H2 ->]]]. exists seg. split; [reflexivity|].
      exists seg, []. rewrite app_nil_r. auto.
    + intros [x [-> [seg [t' [H1 [H2 [-> ->]]]]]]].
      exists seg. rewrite app_nil_r. auto.
  - rewrite matches_chr. split.
    + intros ->. exists [c]. split; [reflexivity|]. exists []. auto.
    + intros [x [-> [t' [-> ->]]]]. reflexivity.
Qed.

Lemma wild_cons c p t :
  wild (c :: p) t <-> exists x t', t = x ++ t' /\ wild [c] x /\ wild p t'.
Proof.
  simpl. destruct (N.eqb c c_plus).
  - split.
    + intros [seg [t' [H1 [H2 [-> H3]]]]]. exists seg, t'.
      split; [reflexivity|]. split; [|exact H3].
      exists seg, []. rewrite app_nil_r. auto.
    + intros [x [t' [-> [[seg [t0 [H1 [H2 [-> ->]]]]] H3]]]].
      exists seg, t'. rewrite app_nil_r. auto.
  - split.
    + intros [t' [-> H]]. exists [c], t'. split; [reflexivity|].
      split; [|exact H]. exists []. auto.
    + intros [x [t' [-> [[t0 [-> ->]] H]]]]. exists t'. auto.
Qed.

Lemma matches_terms p : item_text p -> forall r0 s s',
  matches total (fold_left Seq (map (fun c => fst (term_of c)) p) r0) s s' <->
  exists s1 x, matches total r0 s s1 /\ s1 = x ++ s' /\ wild p x.
Proof.
  unfold item_text.
  induction p as [|c p IH]; intros Hp r0 s s'.
  - simpl. split.
    + intros H. exists s', []. auto.
    + intros [s1 [x [H [-> ->]]]]. exact H.
  - simpl in Hp. apply andb_true_iff in Hp. destruct Hp as [Hc Hp].
    simpl map. simpl fold_left. rewrite (IH Hp). split.
    + intros [s2 [x [H [-> Hw]]]].
      apply matches_seq in H. destruct H as [s1 [H1 H2]].
      apply (matches_term _ _ _ Hc) in H2. destruct H2 as [y [-> Hy]].
      exists (y ++ x ++ s'), (y ++ x). split; [exact H1|].
      split; [rewrite app_assoc; reflexivity|].
      apply wild_cons. exists y, x. auto.
    + intros [s1 [x [H [-> Hw]]]].
      apply wild_cons in Hw. destruct Hw as [y [t' [-> [Hy Ht]]]].
      exists (t' ++ s'), t'. split; [|auto].
      apply matches_seq. exists ((y ++ t') ++ s'). split; [exact H|].
      apply (matches_term _ _ _ Hc). exists y. split; [|exact Hy].
      rewrite app_assoc. reflexivity.
Qed.

Lemma matches_body p s s' :
  item_text p ->
  (matches total (body p) s s' <->
   length s = total /\ exists x, s = x ++ s' /\ wild p x).
Proof.
  intros Hp. unfold body. rewrite (matches_terms p Hp). split.
  - intros [s1 [x [H [-> Hw]]]].
    apply matches_seq in H. destruct H as [s2 [H1 H2]].
    apply matches_bol in H2. destruct H2 as [E2 Hl].
    apply matches_seq in H1. destruct H1 as [s3 [H1 H3]].
    apply matches_empty in H1, H3. subst s3 s2. subst s.
    split; [exact Hl|]. exists x. auto.
  - intros [Hl [x [-> Hw]]]. exists (x ++ s'), x. split; [|auto].
    apply matches_seq. exists (x ++ s'). split; [|apply matches_bol; auto].
    apply matches_seq. exists (x ++ s'). split; constructor.
Qed.

End Levels.

Section MatchTopic.

Import RegExp.

Lemma test_anchored r t :
  (forall s s', matches (length t) r s s' ->
                length s = length t /\ s' = []) ->
  (test r t = true <-> matches (length t) r t []).
Proof.
  intros Hr. unfold test. rewrite search_spec. split.
  - intros [pre [s0 [s' [Heq Hm]]]].
    destruct (Hr _ _ Hm) as [Hl ->].
    assert (pre = []) as ->.
    { apply length_zero_iff_nil.
      apply (f_equal (@length N)) in Heq. rewrite length_app in Heq. lia. }
    simpl in Heq. subst s0. exact Hm.
  - intros Hm. exists [], t, []. auto.
Qed.

Lemma item_text_not_hash p : item_text p -> str_eqb p (js "#") = false.
Proof.
  intros Hp. destruct (str_eqb p (js "#")) eqn:E; [|reflexivity].
  apply str_eqb_eq in E. subst p. discriminate Hp.
Qed.

(** A pattern of plain characters and [+] signs. *)
Lemma matchTopic_levels p t :
  item_text p ->
  matchTopic p t = Ok (test (Seq (body p) Eol) t) /\
  (test (Seq (body p) Eol) t = true <-> wild p t).
Proof.
  intros Hp. split.
  - unfold matchTopic.
    rewrite (item_text_not_hash p Hp), (regexPattern_levels p Hp),
      (compile_levels p Hp). reflexivity.
  - rewrite test_anchored.
    + rewrite matches_seq. split.
      * intros [s1 [H1 H2]]. apply matches_eol in H2. destruct H2 as [-> _].
        apply (matches_body _ _ _ _ Hp) in H1.
        destruct H1 as [_ [x [-> Hw]]]. rewrite app_nil_r. exact Hw.
      * intros Hw. exists []. split; [|constructor].
        apply (matches_body _ _ _ _ Hp). split; [reflexivity|].
        exists t. rewrite app_nil_r. auto.
    + intros s s' H. apply matches_seq in H. destruct H as [s1 [H1 H2]].
      apply matches_eol in H2. destruct H2 as [_ ->].
      apply (matches_body _ _ _ _ Hp) in H1. tauto.
Qed.

(** The same pattern followed by a slash and a hash. *)
Lemma matchTopic_levels_hash p t :
  item_text p ->
  matchTopic (p ++ js "/#") t =
    Ok (test (Seq (Seq (body p) (Opt sub_group)) Eol) t) /\
  (test (Seq (Seq (body p) (Opt sub_group)) Eol) t = true <->
   exists t1 t2, t = t1 ++ t2 /\ wild p t1 /\ sub_topic t2).
Proof.
  intros Hp. split.
  - unfold matchTopic.
    replace (str_eqb (p ++ js "/#") (js "#")) with false.
    + rewrite (regexPattern_levels_hash p Hp), (compile_levels_hash p Hp).
      reflexivity.
    + symmetry. destruct (str_eqb (p ++ js "/#") (js "#")) eqn:E; [|reflexivity].
      apply str_eqb_eq in E. apply (f_equal (@length N)) in E.
      rewrite length_app in E. simpl in E. lia.
  - rewrite test_anchored.
    + rewrite matches_seq. split.
      * intros [s1 [H1 H2]]. apply matches_eol in H2. destruct H2 as [-> _].
        apply matches_seq in H1. destruct H1 as [s2 [H1 H2]].
        apply (matches_body _ _ _ _ Hp) in H1.
        destruct H1 as [_ [x [-> Hw]]].
        apply matches_sub_group in H2. destruct H2 as [t2 [-> Ht2]].
        rewrite app_nil_r. eauto.
      * intros [t1 [t2 [-> [Hw Ht2]]]]. exists []. split; [|constructor].
        apply matches_seq. exists t2. split.
        -- apply (matches_body _ _ _ _ Hp). split; [reflexivity|]. eauto.
        -- apply matches_sub_group. exists t2. rewrite app_nil_r. auto.
    + intros s s' H. apply matches_seq in H. destruct H as [s1 [H1 H2]].
      apply matches_eol in H2. destruct H2 as [_ ->].
      apply matches_seq in H1. destruct H1 as [s2 [H1 _]].
      apply (matches_body _ _ _ _ Hp) in H1. tauto.
Qed.

End MatchTopic.

Section Wildcards.

Lemma plain_item c : plain c = true -> item c = true.
Proof. intros H. unfold item. rewrite H. reflexivity. Qed.

Lemma plain_item_text p : plain_text p -> item_text p.
Proof.
  unfold plain_text, item_text. rewrite !forallb_forall.
  intros H c Hc. apply plain_item. auto.
Qed.

Lemma item_text_app a b : item_text a -> item_text b -> item_text (a ++ b).
Proof.
  unfold item_text. intros Ha Hb. rewrite forallb_app, Ha, Hb. reflexivity.
Qed.

Lemma wild_app_plain pre q :
  plain_text pre ->
  forall t, wild (pre ++ q) t <-> exists t', t = pre ++ t' /\ wild q t'.
Proof.
  unfold plain_text.
  induction pre as [|c pre IH]; intros Hp t.
  - simpl. split; [eauto | intros [t' [-> H]]; exact H].
  - simpl in Hp. apply andb_true_iff in Hp. destruct Hp as [Hc Hp].
    simpl. rewrite (plain_not_plus _ Hc). split.
    + intros [t' [-> H]]. apply (IH Hp) in H. destruct H as [t0 [-> H]]. eauto.
    + intros [t' [-> H]]. exists (pre ++ t'). split; [reflexivity|].
      apply (IH Hp). eauto.
Qed.

Lemma wild_plain p t : plain_text p -> (wild p t <-> t = p).
Proof.
  intros Hp. rewrite <- (app_nil_r p) at 1. rewrite (wild_app_plain _ _ Hp).
  simpl. split.
  - intros [t' [-> ->]]. apply app_nil_r.
  - intros ->. exists []. rewrite app_nil_r. auto.
Qed.

(** A pattern without special characters matches its own text only. *)
Lemma matchTopic_plain p t :
  plain_text p -> (matchTopic p t = Ok true <-> t = p).
Proof.
  intros Hp.
  destruct (matchTopic_levels p t (plain_item_text p Hp)) as [-> Ht].
  rewrite <- (wild_plain p t Hp), <- Ht. split; congruence.
Qed.

(** One [+] between two plain texts. *)
Lemma matchTopic_plus pre post t :
  plain_text pre -> plain_text post ->
  (matchTopic (pre ++ js "+" ++ post) t = Ok true <->
   exists seg, seg <> [] /\ ~ In c_slash seg /\ t = pre ++ seg ++ post).
Proof.
  intros Hpre Hpost.
  assert (Hi : item_text (pre ++ js "+" ++ post)).
  { apply item_text_app; [apply plain_item_text; exact Hpre|].
    apply item_text_app; [reflexivity | apply plain_item_text; exact Hpost]. }
  destruct (matchTopic_levels _ t Hi) as [-> Ht].
  transitivity (wild (pre ++ js "+" ++ post) t).
  { rewrite <- Ht. split; congruence. }
  rewrite (wild_app_plain _ _ Hpre). simpl. split.
  - intros [t' [-> [seg [t0 [H1 [H2 [-> H3]]]]]]].
    apply (wild_plain _ _ Hpost) in H3. subst t0. eauto.
  - intros [seg [H1 [H2 ->]]]. exists (seg ++ post). split; [reflexivity|].
    exists seg, post. repeat split; auto. apply (wild_plain _ _ Hpost).
    reflexivity.
Qed.

(** A plain text followed by a slash and a hash. *)
Lemma matchTopic_hash pre t :
  plain_text pre ->
  (matchTopic (pre ++ js "/#") t = Ok true <->
   t = pre \/
   exists rest, free_of_terminators rest /\ t = pre ++ js "/" ++ rest).
Proof.
  intros Hpre.
  destruct (matchTopic_levels_hash pre t (plain_item_text pre Hpre)) as [-> Ht].
  transitivity (exists t1 t2, t = t1 ++ t2 /\ wild pre t1 /\ sub_topic t2).
  { rewrite <- Ht. split; congruence. }
  unfold sub_topic. split.
  - intros [t1 [t2 [-> [Hw Hs]]]]. apply (wild_plain _ _ Hpre) in Hw. subst t1.
    destruct Hs as [-> | [rest [-> Hr]]].
    + left. apply app_nil_r.
    + right. exists rest. auto.
  - intros [-> | [rest [Hr ->]]].
    + exists pre, []. rewrite app_nil_r. split; [reflexivity|].
      split; [apply (wild_plain _ _ Hpre); reflexivity | left; reflexivity].
    + exists pre, (js "/" ++ rest). split; [reflexivity|].
      split; [apply (wild_plain _ _ Hpre); reflexivity |].
      right. exists rest. auto.
Qed.

End Wildcards.

Section LevelByLevel.

Lemma free_of_terminators_app a b :
  free_of_terminators (a ++ b) <->
  free_of_terminators a /\ free_of_terminators b.
Proof.
  unfold free_of_terminators. rewrite forallb_app, andb_true_iff. tauto.
Qed.

Lemma wild_app a : forall b t,
  wild (a ++ b) t <-> exists x y, t = x ++ y /\ wild a x /\ wild b y.
Proof.
  induction a as [|c a IH]; intros b t.
  - simpl. split.
    + intros H. exists [], t. auto.
    + intros [x [y [-> [-> H]]]]. exact H.
  - simpl. destruct (N.eqb c c_plus).
    + split.
      * intros [seg [t' [H1 [H2 [-> H3]]]]].
        apply IH in H3. destruct H3 as [x [y [-> [Hx Hy]]]].
        exists (seg ++ x), y. rewrite app_assoc. split; [reflexivity|].
        split; [|exact Hy]. exists seg, x. auto.
      * intros [x [y [-> [[seg [t' [H1 [H2 [-> H3]]]]] Hy]]]].
        exists seg, (t' ++ y). rewrite app_assoc. repeat split; auto.
        apply IH. exists t', y. auto.
    + split.
      * intros [t' [-> H]]. apply IH in H. destruct H as [x [y [-> [Hx Hy]]]].
        exists (c :: x), y. split; [reflexivity|]. split; [|exact Hy]. eauto.
      * intros [x [y [-> [[t' [-> Hx]] Hy]]]].
        exists (t' ++ y). split; [reflexivity|]. apply IH. eauto.
Qed.

Lemma pattern_level_cases p :
  pattern_level p = true ->
  p = [c_plus] \/
  (p <> [c_plus] /\ plain_text p /\ ~ In c_slash p).
Proof.
  unfold pattern_level. intros H. apply orb_true_iff in H.
  destruct H as [H | H]; [left; apply str_eqb_eq; exact H | right].
  assert (Hp : plain_text p /\ forallb not_slash p = true).
  { unfold plain_text. clear - H. induction p as [|c p IH]; [auto|].
    simpl in *. apply andb_true_iff in H. destruct H as [Hc Hp].
    apply andb_true_iff in Hc. destruct Hc as [-> ->].
    destruct (IH Hp) as [-> ->]. auto. }
  destruct Hp as [Hp Hs]. split; [|split; [exact Hp | apply not_slash_all; exact Hs]].
  intros ->. discriminate Hp.
Qed.

Lemma pattern_level_not_hash p :
  pattern_level p = true -> str_eqb p [c_hash] = false.
Proof.
  intros H. destruct (str_eqb p [c_hash]) eqn:E; [|reflexivity].
  apply str_eqb_eq in E. subst p. discriminate H.
Qed.

Lemma pattern_level_item p : pattern_level p = true -> item_text p.
Proof.
  intros H. destruct (pattern_level_cases p H) as [-> | [_ [Hp _]]].
  - reflexivity.
  - apply plain_item_text. exact Hp.
Qed.

(** What one level of a pattern matches. *)
Lemma wild_level p x :
  pattern_level p = true ->
  (wild p x <->
   (p = [c_plus] /\ x <> [] /\ ~ In c_slash x) \/ (p <> [c_plus] /\ x = p)).
Proof.
  intros H. destruct (pattern_level_cases p H) as [-> | [Hne [Hp _]]].
  - simpl. split.
    + intros [seg [t' [H1 [H2 [-> ->]]]]]. rewrite app_nil_r. auto.
    + intros [[_ [H1 H2]] | [Hne _]]; [|congruence].
      exists x, []. rewrite app_nil_r. auto.
  - rewrite (wild_plain p x Hp). split.
    + intros ->. auto.
    + intros [[Heq _] | [_ Heq]]; [congruence | exact Heq].
Qed.

Lemma wild_level_slash_free p x :
  pattern_level p = true -> wild p x -> ~ In c_slash x.
Proof.
  intros H Hw. destruct (pattern_level_cases p H) as [-> | [_ [Hp Hs]]].
  - apply (wild_level _ _ H) in Hw. destruct Hw as [[_ [_ Hx]] | [Hne _]];
      [exact Hx | congruence].
  - apply (wild_plain p x Hp) in Hw. subst x. exact Hs.
Qed.

Lemma topic_level_facts l :
  topic_level l = true ->
  l <> [] /\ ~ In c_slash l /\ free_of_terminators l.
Proof.
  unfold topic_level, free_of_terminators. intros H.
  apply andb_true_iff in H. destruct H as [Hne H].
  split; [destruct l; [discriminate | discriminate]|].
  assert (Hb : forallb not_slash l = true /\
               forallb (fun c => negb (is_line_terminator c)) l = true).
  { clear Hne. induction l as [|c l IH]; [auto|].
    simpl in *. apply andb_true_iff in H. destruct H as [Hc Hl].
    apply andb_true_iff in Hc. destruct Hc as [-> ->].
    destruct (IH Hl) as [-> ->]. auto. }
  destruct Hb as [Hs Ht]. split; [apply not_slash_all; exact Hs | exact Ht].
Qed.

(** The level that a text starts with is unique. *)
Lemma level_split a : forall b x y,
  ~ In c_slash a -> ~ In c_slash b ->
  a ++ c_slash :: x = b ++ c_slash :: y -> a = b /\ x = y.
Proof.
  induction a as [|c a IH]; intros [|d b] x y Ha Hb Heq; simpl in Heq.
  - injection Heq as ->. auto.
  - injection Heq as <- _. exfalso. apply Hb. left. reflexivity.
  - injection Heq as -> _. exfalso. apply Ha. left. reflexivity.
  - injection Heq as -> Heq.
    destruct (IH b x y) as [-> ->]; auto.
    + intros H. apply Ha. right. exact H.
    + intros H. apply Hb. right. exact H.
Qed.

Lemma level_no_slash l a x : ~ In c_slash l -> l <> a ++ c_slash :: x.
Proof.
  intros Hl ->. apply Hl. apply in_or_app. right. left. reflexivity.
Qed.

Lemma join_cons l l' ls :
  join (l :: l' :: ls) = l ++ c_slash :: join (l' :: ls).
Proof. reflexivity. Qed.

Lemma join_free_of_terminators ts :
  forallb topic_level ts = true -> free_of_terminators (join ts).
Proof.
  induction ts as [|l ts IH]; [reflexivity|].
  intros H. simpl in H. apply andb_true_iff in H. destruct H as [Hl Hts].
  destruct (topic_level_facts l Hl) as [_ [_ Hf]].
  destruct ts as [|l' ts]; [exact Hf|].
  rewrite join_cons. apply free_of_terminators_app. split; [exact Hf|].
  change (c_slash :: join (l' :: ts)) with ([c_slash] ++ join (l' :: ts)).
  apply free_of_terminators_app. split; [reflexivity | apply IH; exact Hts].
Qed.

(** One level of a pattern against one level of a topic. *)
Lemma level_test p l :
  pattern_level p = true -> ~ In c_slash l ->
  (negb (str_eqb p [c_plus]) || not_empty l)%bool = true ->
  ((str_eqb p [c_plus] || str_eqb p l)%bool = true <-> wild p l).
Proof.
  intros Hp Hs Hl.
  assert (Hne : p = [c_plus] -> l <> []).
  { intros -> ->. discriminate Hl. }
  rewrite (wild_level p l Hp), orb_true_iff, !str_eqb_eq. split.
  - intros [-> | ->]; [left; auto|].
    destruct (pattern_level_cases l Hp) as [-> | [Hn _]]; [left | right]; auto.
  - intros [[-> _] | [_ ->]]; auto.
Qed.

Lemma levels_fit_step p pat' top :
  pattern_level p = true ->
  levels_fit (p :: pat') top =
  match top with
  | [] => true
  | l :: top' =>
      ((negb (str_eqb p [c_plus]) || not_empty l) && levels_fit pat' top')%bool
  end.
Proof.
  intros Hp. simpl. rewrite (pattern_level_not_hash p Hp). reflexivity.
Qed.

(** The levels of a text hold no slash. *)
Lemma levels_slash_free s :
  Forall (fun l : jsstring => ~ In c_slash l) (levels s).
Proof.
  induction s as [|c s IH]; simpl.
  - constructor; [intros [] | constructor].
  - destruct (N.eqb_spec c c_slash) as [->|Hc].
    + constructor; [intros [] | exact IH].
    + destruct (levels s) as [|l ls]; [repeat constructor; intros [H | []]; auto|].
      inversion IH as [|l0 ls0 Hl Hls]; subst.
      constructor; [|exact Hls].
      intros [H | H]; [auto | exact (Hl H)].
Qed.

Lemma join_levels_free ts :
  forallb (forallb (fun c => negb (is_line_terminator c))) ts = true ->
  free_of_terminators (join ts).
Proof.
  induction ts as [|l ts IH]; [reflexivity|].
  intros H. simpl in H. apply andb_true_iff in H. destruct H as [Hl Hts].
  destruct ts as [|l' ts]; [exact Hl|].
  rewrite join_cons. apply free_of_terminators_app. split; [exact Hl|].
  change (c_slash :: join (l' :: ts)) with ([c_slash] ++ join (l' :: ts)).
  apply free_of_terminators_app. split; [reflexivity | apply IH; exact Hts].
Qed.

Lemma levels_match_step p pat' top :
  pattern_level p = true ->
  levels_match (p :: pat') top =
  match top with
  | [] => false
  | l :: top' =>
      ((str_eqb p [c_plus] || str_eqb p l) && levels_match pat' top')%bool
  end.
Proof.
  intros Hp. simpl. rewrite (pattern_level_not_hash p Hp). reflexivity.
Qed.

Lemma levels_match_none p pat' :
  pattern_levels_ok (p :: pat') = true -> pat' <> [] ->
  levels_match (p :: pat') [] = false.
Proof.
  intros H Hne. destruct pat' as [|p' pat']; [congruence|].
  simpl in H. apply andb_true_iff in H. destruct H as [Hp _].
  rewrite (levels_match_step p _ _ Hp). reflexivity.
Qed.

Lemma wild_head p q t :
  wild (p ++ c_slash :: q) t <->
  exists x t', t = x ++ c_slash :: t' /\ wild p x /\ wild q t'.
Proof.
  rewrite wild_app. split.
  - intros [x [y [-> [Hx [t' [-> Hq]]]]]]. eauto.
  - intros [x [t' [-> [Hx Hq]]]]. exists x, (c_slash :: t').
    split; [reflexivity|]. split; [exact Hx|]. exists t'. auto.
Qed.

(** A pattern of levels against a topic of levels. *)
Lemma wild_join ps :
  ps <> [] -> forallb pattern_level ps = true ->
  forall ts : list jsstring,
  ts <> [] -> Forall (fun l : jsstring => ~ In c_slash l) ts ->
  levels_fit ps ts = true ->
  (wild (join ps) (join ts) <-> levels_match ps ts = true).
Proof.
  induction ps as [|p ps IH]; [congruence|].
  intros _ Hps ts Hne Hts Hfit. simpl in Hps.
  apply andb_true_iff in Hps. destruct Hps as [Hp Hps].
  destruct ts as [|l ts]; [congruence|].
  pose proof (Forall_inv Hts) as Hls. apply Forall_inv_tail in Hts.
  cbv beta in Hls.
  rewrite (levels_fit_step p ps (l :: ts) Hp) in Hfit.
  apply andb_true_iff in Hfit. destruct Hfit as [Hl Hfit].
  rewrite (levels_match_step p ps (l :: ts) Hp), andb_true_iff,
    (level_test p l Hp Hls Hl).
  destruct ps as [|p' ps].
  - (* the last level of the pattern *)
    destruct ts as [|l' ts]; simpl join.
    + simpl. tauto.
    + split.
      * intros Hw. apply (wild_level_slash_free p _ Hp) in Hw.
        exfalso. apply Hw. apply in_or_app. right. left. reflexivity.
      * intros [_ H]. discriminate H.
  - rewrite join_cons, wild_head.
    destruct ts as [|l' ts].
    + split.
      * intros [x [t' [Heq _]]]. exfalso. exact (level_no_slash l x t' Hls Heq).
      * intros [_ H]. simpl in Hps. apply andb_true_iff in Hps.
        rewrite (levels_match_step p' ps [] (proj1 Hps)) in H. discriminate H.
    + rewrite join_cons.
      assert (IH' := IH ltac:(discriminate) Hps (l' :: ts)
                        ltac:(discriminate) Hts Hfit).
      split.
      * intros [x [t' [Heq [Hx Ht']]]].
        apply level_split in Heq;
          [|exact Hls | exact (wild_level_slash_free p x Hp Hx)].
        destruct Heq as [<- <-]. split; [exact Hx | apply IH'; exact Ht'].
      * intros [Hx Ht']. apply IH' in Ht'. eauto.
Qed.

(** The same, for a pattern that ends in a slash and a hash. *)
Lemma wild_join_hash ps :
  ps <> [] -> forallb pattern_level ps = true ->
  forall ts : list jsstring,
  ts <> [] -> Forall (fun l : jsstring => ~ In c_slash l) ts ->
  levels_fit (ps ++ [[c_hash]]) ts = true ->
  ((exists t1 t2, join ts = t1 ++ t2 /\ wild (join ps) t1 /\ sub_topic t2) <->
   levels_match (ps ++ [[c_hash]]) ts = true).
Proof.
  induction ps as [|p ps IH]; [congruence|].
  intros _ Hps ts Hne Hts Hfit. simpl in Hps.
  apply andb_true_iff in Hps. destruct Hps as [Hp Hps].
  destruct ts as [|l ts]; [congruence|].
  pose proof (Forall_inv Hts) as Hls. apply Forall_inv_tail in Hts.
  cbv beta in Hls.
  change ((p :: ps) ++ [[c_hash]]) with (p :: (ps ++ [[c_hash]])) in Hfit.
  rewrite (levels_fit_step p _ (l :: ts) Hp) in Hfit.
  apply andb_true_iff in Hfit. destruct Hfit as [Hl Hfit].
  change ((p :: ps) ++ [[c_hash]]) with (p :: (ps ++ [[c_hash]])).
  rewrite (levels_match_step p _ (l :: ts) Hp), andb_true_iff,
    (level_test p l Hp Hls Hl).
  destruct ps as [|p' ps].
  - (* the level before the hash *)
    simpl app. simpl join at 2.
    replace (levels_match [[c_hash]] ts) with true by reflexivity.
    split.
    + intros [t1 [t2 [Heq [Hw Hsub]]]]. split; [|reflexivity].
      pose proof (wild_level_slash_free p t1 Hp Hw) as Ht1.
      destruct ts as [|l' ts].
      * simpl in Heq. destruct Hsub as [-> | [rest [-> _]]].
        -- rewrite app_nil_r in Heq. subst t1. exact Hw.
        -- exfalso. exact (level_no_slash l t1 rest Hls Heq).
      * rewrite join_cons in Heq. destruct Hsub as [-> | [rest [-> _]]].
        -- rewrite app_nil_r in Heq. subst t1. exfalso. apply Ht1.
           apply in_or_app. right. left. reflexivity.
        -- apply level_split in Heq; [|exact Hls | exact Ht1].
           destruct Heq as [<- _]. exact Hw.
    + intros [Hw _]. destruct ts as [|l' ts].
      * exists l, []. simpl. rewrite app_nil_r.
        repeat split; [exact Hw | left; reflexivity].
      * exists l, (c_slash :: join (l' :: ts)). rewrite join_cons.
        repeat split; [exact Hw|]. right. exists (join (l' :: ts)).
        split; [reflexivity|].
        apply join_levels_free. exact Hfit.
  - rewrite join_cons.
    destruct ts as [|l' ts].
    + split.
      * intros [t1 [t2 [Heq [Hw _]]]]. apply wild_head in Hw.
        destruct Hw as [x [t' [-> _]]]. simpl in Heq.
        rewrite <- app_assoc in Heq. simpl in Heq.
        exfalso. exact (level_no_slash l x _ Hls Heq).
      * intros [_ H]. simpl in Hps. apply andb_true_iff in Hps.
        change ((p' :: ps) ++ [[c_hash]]) with (p' :: (ps ++ [[c_hash]])) in H.
        rewrite (levels_match_step p' _ [] (proj1 Hps)) in H. discriminate H.
    + assert (IH' := IH ltac:(discriminate) Hps (l' :: ts)
                        ltac:(discriminate) Hts Hfit).
      rewrite join_cons. split.
      * intros [t1 [t2 [Heq [Hw Hsub]]]]. apply wild_head in Hw.
        destruct Hw as [x [t' [-> [Hx Ht']]]].
        rewrite <- app_assoc in Heq. cbn [app] in Heq.
        apply level_split in Heq;
          [|exact Hls | exact (wild_level_slash_free p x Hp Hx)].
        destruct Heq as [<- Heq]. split; [exact Hx|].
        apply IH'. exists t', t2. auto.
      * intros [Hx Hm]. apply IH' in Hm.
        destruct Hm as [t1 [t2 [Heq [Hw Hsub]]]].
        exists (l ++ c_slash :: t1), t2. rewrite <- app_assoc. cbn [app].
        rewrite Heq. split; [reflexivity|]. split; [|exact Hsub].
        apply wild_head. eauto.
Qed.

Lemma levels_not_nil s : levels s <> [].
Proof.
  destruct s as [|c s]; simpl; [discriminate|].
  destruct (N.eqb c c_slash); [discriminate|].
  destruct (levels s); discriminate.
Qed.

(** A text is the text of its levels. *)
Lemma join_levels s : join (levels s) = s.
Proof.
  induction s as [|c s IH]; [reflexivity|].
  simpl levels. pose proof (levels_not_nil s) as Hne.
  destruct (N.eqb_spec c c_slash) as [->|_].
  - destruct (levels s) as [|l ls]; [congruence|].
    rewrite join_cons, IH. reflexivity.
  - destruct (levels s) as [|l ls]; [congruence|].
    destruct ls as [|l' ls].
    + simpl in IH. simpl. rewrite IH. reflexivity.
    + rewrite join_cons in IH. rewrite join_cons. cbn [app].
      rewrite IH. reflexivity.
Qed.

Lemma join_snoc ps l :
  ps <> [] -> join (ps ++ [l]) = join ps ++ c_slash :: l.
Proof.
  induction ps as [|p ps IH]; [congruence|]. intros _.
  destruct ps as [|p' ps]; [reflexivity|].
  change ((p :: p' :: ps) ++ [l]) with (p :: p' :: (ps ++ [l])).
  rewrite !join_cons.
  change (p' :: ps ++ [l]) with ((p' :: ps) ++ [l]).
  rewrite IH; [|discriminate]. rewrite <- app_assoc. reflexivity.
Qed.

Lemma item_text_join ps :
  forallb pattern_level ps = true -> item_text (join ps).
Proof.
  induction ps as [|p ps IH]; [reflexivity|].
  intros H. simpl in H. apply andb_true_iff in H. destruct H as [Hp Hps].
  destruct ps as [|p' ps]; [apply pattern_level_item; exact Hp|].
  rewrite join_cons. apply item_text_app; [apply pattern_level_item; exact Hp|].
  change (c_slash :: join (p' :: ps)) with ([c_slash] ++ join (p' :: ps)).
  apply item_text_app; [reflexivity | apply IH; exact Hps].
Qed.

(** The three shapes of a well-formed pattern. *)
Lemma pattern_levels_ok_cases ps :
  pattern_levels_ok ps = true ->
  (ps <> [] /\ forallb pattern_level ps = true) \/
  ps = [[c_hash]] \/
  (exists ps0, ps0 <> [] /\ forallb pattern_level ps0 = true /\
               ps = ps0 ++ [[c_hash]]).
Proof.
  induction ps as [|p ps IH]; [discriminate|].
  destruct ps as [|p' ps].
  - simpl. intros H. apply orb_true_iff in H. destruct H as [H | H].
    + left. split; [discriminate|]. simpl. rewrite H. reflexivity.
    + right. left. apply str_eqb_eq in H. subst p. reflexivity.
  - intros H. change (pattern_levels_ok (p :: p' :: ps))
      with (pattern_level p && pattern_levels_ok (p' :: ps))%bool in H.
    apply andb_true_iff in H. destruct H as [Hp Hps].
    destruct (IH Hps) as [[_ Hall] | [Heq | [ps0 [Hne [Hall Heq]]]]].
    + left. split; [discriminate|].
      change (forallb pattern_level (p :: p' :: ps))
        with (pattern_level p && forallb pattern_level (p' :: ps))%bool.
      rewrite Hp, Hall. reflexivity.
    + right. right. exists [p]. rewrite Heq.
      split; [discriminate|]. split; [|reflexivity].
      simpl. rewrite Hp. reflexivity.
    + right. right. exists (p :: ps0). rewrite Heq.
      split; [discriminate|]. split; [|reflexivity].
      simpl. rewrite Hp, Hall. reflexivity.
Qed.

Lemma bool_eq_iff (a b : bool) : (a = true <-> b = true) -> a = b.
Proof. destruct a, b; intros [H1 H2]; auto; symmetry; auto. Qed.

(** A topic whose levels are not empty and hold no line terminator fits
    every pattern. *)
Lemma tidy_fits pattern topic : tidy topic = true -> fits pattern topic = true.
Proof.
  unfold tidy, fits. generalize (levels topic) as ts.
  induction (levels pattern) as [|p ps IH]; intros ts Hts; [reflexivity|].
  cbn [levels_fit].
  destruct (str_eqb p [c_hash] && match ps with [] => true | _ => false end)%bool.
  - clear IH. induction ts as [|l ts IHts]; [reflexivity|].
    simpl in Hts. apply andb_true_iff in Hts. destruct Hts as [Hl Hts].
    simpl. rewrite (IHts Hts), andb_true_r.
    exact (proj2 (proj2 (topic_level_facts l Hl))).
  - destruct ts as [|l ts]; [reflexivity|].
    simpl in Hts. apply andb_true_iff in Hts. destruct Hts as [Hl Hts].
    rewrite (IH ts Hts), andb_true_r.
    destruct (topic_level_facts l Hl) as [Hne _].
    destruct l; [congruence|]. apply orb_true_r.
Qed.

(** On a well-formed pattern and a topic that fits it the matcher
    computes the level-by-level reading of the specification. *)
Lemma matchTopic_refines pattern topic :
  well_formed pattern = true -> fits pattern topic = true ->
  matchTopic pattern topic = Ok (topic_matches pattern topic).
Proof.
  unfold well_formed, fits, topic_matches. intros Hp Ht.
  rewrite <- (join_levels pattern) at 1. rewrite <- (join_levels topic) at 1.
  pose proof (levels_not_nil topic) as Hne.
  pose proof (levels_slash_free topic) as Hsl.
  destruct (pattern_levels_ok_cases _ Hp)
    as [[Hps Hall] | [Heq | [ps0 [Hps [Hall Heq]]]]].
  - destruct (matchTopic_levels (join (levels pattern)) (join (levels topic))
                (item_text_join _ Hall)) as [-> Hw].
    f_equal. apply bool_eq_iff. rewrite Hw.
    apply wild_join; assumption.
  - rewrite Heq. reflexivity.
  - rewrite Heq in Ht. rewrite Heq.
    pose proof (join_snoc ps0 [c_hash] Hps) as Hj. unfold jsstring in *.
    rewrite Hj. change [c_slash; c_hash] with (js "/#").
    destruct (matchTopic_levels_hash (join ps0) (join (levels topic))
                (item_text_join _ Hall)) as [-> Hw].
    f_equal. apply bool_eq_iff. rewrite Hw.
    apply wild_join_hash; assumption.
Qed.

End LevelByLevel.

(* ================================================================== *)
(** * The JSON.parse built-in and the JSON grammar *)
(* ================================================================== *)

Ltac lists :=
  repeat (progress (rewrite <- ?app_assoc; cbn [app]; rewrite ?app_nil_r)).

Section JsonNumbers.

Lemma digit_Digit c d : digit c = Some d <-> Digit c /\ d = (Z.of_N c - 48)%Z.
Proof.
  unfold digit, Digit.
  destruct (N.leb_spec 48 c); destruct (N.leb_spec c 57); simpl; split;
    try discriminate; try (intros [H1 _]; lia).
  - intros [= <-]. split; [lia | reflexivity].
  - intros [_ ->]. reflexivity.
Qed.

Lemma digit_none c : digit c = None <-> ~ Digit c.
Proof.
  destruct (digit c) as [d|] eqn:E.
  - apply digit_Digit in E. split; [discriminate | tauto].
  - split; [|reflexivity]. intros _ H.
    assert (digit c = Some (Z.of_N c - 48)%Z) as E' by (apply digit_Digit; auto).
    congruence.
Qed.

Lemma decimal_snoc ds c :
  decimal (ds ++ [c]) = (10 * decimal ds + (Z.of_N c - 48))%Z.
Proof. unfold decimal. rewrite fold_left_app. reflexivity. Qed.

Lemma is_e_spec c : is_e c = true <-> (c = 101 \/ c = 69)%N.
Proof.
  unfold is_e. rewrite orb_true_iff, !N.eqb_eq. tauto.
Qed.

Lemma Int_snoc int c : Int int -> int <> [48%N] -> Digit c -> Int (int ++ [c]).
Proof.
  intros [|c0 ds Hc0 Hds] Hne Hc; [congruence|].
  cbn [app]. constructor; [exact Hc0|].
  apply Forall_app. split; [exact Hds | constructor; [exact Hc | constructor]].
Qed.

Lemma Int_not_zero int c : Int int -> int ++ [c] <> [48%N].
Proof.
  intros [|c0 ds _ _]; [discriminate|]. destruct ds; discriminate.
Qed.

Lemma Numeral_eq n n' t t' : Numeral n t -> n = n' -> t = t' -> Numeral n' t'.
Proof. intros H <- <-. exact H. Qed.

Lemma Number_eq t t' v v' : Number t v -> t = t' -> v = v' -> Number t' v'.
Proof. intros H <- <-. exact H. Qed.




(** One more character of a number token. *)
Lemma Numeral_step n t c n' :
  Numeral n t -> num_step n c = Some n' -> Numeral n' (t ++ [c]).
Proof.
  intros H Hs. destruct H; cbn [num_step] in Hs.
  - (* after the minus sign *)
    destruct (digit c) as [d|] eqn:Ed; [|discriminate].
    apply digit_Digit in Ed. destruct Ed as [Hc ->]. unfold Digit in Hc.
    destruct (Z.eqb_spec (Z.of_N c - 48) 0) as [E|E]; injection Hs as <-.
    + assert (c = 48%N) as -> by lia.
      exact (Numeral_zero [45%N] true Minus_sign).
    + apply (Numeral_eq _ _ _ _ (Numeral_int [45%N] true [c] Minus_sign
               (Int_digits c [] ltac:(lia) (Forall_nil _))
               ltac:(intros [= ->]; apply E; reflexivity)));
        reflexivity.
  - (* after a zero *)
    assert (Hs' : (if N.eqb c 46 then Some (NDot neg 0)
                   else if is_e c then Some (NExp neg 0 0) else None)
                  = Some n') by (destruct (digit c); exact Hs).
    clear Hs. destruct (N.eqb_spec c 46) as [->|_].
    + injection Hs' as <-.
      apply (Numeral_eq _ _ _ _ (Numeral_dot sign neg [48%N] H Int_zero));
        [reflexivity | lists; reflexivity].
    + destruct (is_e c) eqn:Ee; [|discriminate]. injection Hs' as <-.
      apply is_e_spec in Ee.
      apply (Numeral_eq _ _ _ _
               (Numeral_exp sign neg [48%N] [] [] c H Int_zero Frac_none Ee));
        [reflexivity | lists; reflexivity].
  - (* in the integer part *)
    destruct (digit c) as [d|] eqn:Ed.
    + apply digit_Digit in Ed. destruct Ed as [Hc ->]. injection Hs as <-.
      apply (Numeral_eq _ _ _ _
               (Numeral_int sign neg (int ++ [c]) H
                  (Int_snoc int c H0 H1 Hc) (Int_not_zero int c H0)));
        [rewrite decimal_snoc; reflexivity | lists; reflexivity].
    + destruct (N.eqb_spec c 46) as [->|_].
      * injection Hs as <-.
        apply (Numeral_eq _ _ _ _ (Numeral_dot sign neg int H H0));
          [reflexivity | lists; reflexivity].
      * destruct (is_e c) eqn:Ee; [|discriminate]. injection Hs as <-.
        apply is_e_spec in Ee.
        apply (Numeral_eq _ _ _ _
                 (Numeral_exp sign neg int [] [] c H H0 Frac_none Ee));
          [rewrite app_nil_r; reflexivity | lists; reflexivity].
  - (* after the point *)
    destruct (digit c) as [d|] eqn:Ed; [|discriminate].
    apply digit_Digit in Ed. destruct Ed as [Hc ->]. injection Hs as <-.
    apply (Numeral_eq _ _ _ _
             (Numeral_frac sign neg int [c] H H0 ltac:(discriminate)
                (Forall_cons _ Hc (Forall_nil _))));
      [rewrite decimal_snoc; reflexivity | lists; reflexivity].
  - (* in the fraction *)
    destruct (digit c) as [d|] eqn:Ed.
    + apply digit_Digit in Ed. destruct Ed as [Hc ->]. injection Hs as <-.
      assert (Hds : Forall Digit (ds ++ [c])).
      { apply Forall_app. split; [assumption | exact (Forall_cons _ Hc (Forall_nil _))]. }
      apply (Numeral_eq _ _ _ _
               (Numeral_frac sign neg int (ds ++ [c]) H H0
                  ltac:(destruct ds; discriminate) Hds)).
      * rewrite app_assoc, decimal_snoc, length_app. cbn [length].
        f_equal. lia.
      * lists. reflexivity.
    + destruct (is_e c) eqn:Ee; [|discriminate]. injection Hs as <-.
      apply is_e_spec in Ee.
      apply (Numeral_eq _ _ _ _
               (Numeral_exp sign neg int (46%N :: ds) ds c H H0
                  (Frac_digits ds H1 H2) Ee));
        [reflexivity | lists; reflexivity].
  - (* after the letter of the exponent *)
    destruct (digit c) as [d|] eqn:Ed.
    + apply digit_Digit in Ed. destruct Ed as [Hc ->]. injection Hs as <-.
      apply (Numeral_eq _ _ _ _
               (Numeral_exp_digits sign neg int frac ds e [] false [c]
                  H H0 H1 H2 Sign_none ltac:(discriminate)
                  (Forall_cons _ Hc (Forall_nil _))));
        [reflexivity | lists; reflexivity].
    + destruct (N.eqb_spec c 43) as [->|_].
      * injection Hs as <-.
        apply (Numeral_eq _ _ _ _
                 (Numeral_exp_sign sign neg int frac ds e 43%N false
                    H H0 H1 H2 Sign_plus));
          [reflexivity | lists; reflexivity].
      * destruct (N.eqb_spec c 45) as [->|_]; [|discriminate].
        injection Hs as <-.
        apply (Numeral_eq _ _ _ _
                 (Numeral_exp_sign sign neg int frac ds e 45%N true
                    H H0 H1 H2 Sign_minus));
          [reflexivity | lists; reflexivity].
  - (* after the sign of the exponent *)
    destruct (digit c) as [d|] eqn:Ed; [|discriminate].
    apply digit_Digit in Ed. destruct Ed as [Hc ->]. injection Hs as <-.
    apply (Numeral_eq _ _ _ _
             (Numeral_exp_digits sign neg int frac ds e [c0] eneg [c]
                H H0 H1 H2 H3 ltac:(discriminate)
                (Forall_cons _ Hc (Forall_nil _))));
      [reflexivity | lists; reflexivity].
  - (* in the exponent *)
    destruct (digit c) as [d|] eqn:Ed; [|discriminate].
    apply digit_Digit in Ed. destruct Ed as [Hc ->]. injection Hs as <-.
    assert (Hes : Forall Digit (es ++ [c])).
    { apply Forall_app. split; [assumption | exact (Forall_cons _ Hc (Forall_nil _))]. }
    apply (Numeral_eq _ _ _ _
             (Numeral_exp_digits sign neg int frac ds e esign eneg (es ++ [c])
                H H0 H1 H2 H3 ltac:(destruct es; discriminate) Hes));
      [rewrite decimal_snoc; reflexivity | lists; reflexivity].
Qed.

(** A number token that may end is a number of the grammar. *)
Lemma Numeral_value n t v : Numeral n t -> num_value n = Some v -> Number t v.
Proof.
  intros H Hv. destruct H; cbn [num_value] in Hv; try discriminate;
    injection Hv as <-.
  - apply (Number_eq _ _ _ _
             (Number_intro sign neg [48%N] [] [] [] 0 H Int_zero
                Frac_none Exp_none)); reflexivity.
  - apply (Number_eq _ _ _ _
             (Number_intro sign neg int [] [] [] 0 H H0 Frac_none Exp_none));
      [lists; reflexivity | rewrite app_nil_r; reflexivity].
  - apply (Number_eq _ _ _ _
             (Number_intro sign neg int (46%N :: ds) ds [] 0 H H0
                (Frac_digits ds H1 H2) Exp_none));
      [lists; reflexivity | f_equal].
  - apply (Number_eq _ _ _ _
             (Number_intro sign neg int frac ds (e :: esign ++ es) _ H H0 H1
                (Exp_digits e esign eneg es H2 H3 H4 H5)));
      [lists; reflexivity | reflexivity].
Qed.

(** A number of the grammar is a number token that may end. *)
Lemma Number_Numeral t v :
  Number t v -> exists n, Numeral n t /\ num_value n = Some v.
Proof.
  intros [sign neg int frac ds expo x Hm Hi Hf He].
  destruct He as [|e esign eneg es He Hs Hne Hes].
  - destruct Hf as [|ds Hne Hds].
    + destruct (list_eq_dec N.eq_dec int [48%N]) as [->|Hnz].
      * exists (NZero neg). split; [|reflexivity].
        apply (Numeral_eq _ _ _ _ (Numeral_zero sign neg Hm));
          [reflexivity | lists; reflexivity].
      * exists (NInt neg (decimal int)). split.
        -- apply (Numeral_eq _ _ _ _ (Numeral_int sign neg int Hm Hi Hnz));
             [reflexivity | lists; reflexivity].
        -- rewrite app_nil_r. reflexivity.
    + exists (NFrac neg (decimal (int ++ ds)) (Z.of_nat (length ds))). split.
      * apply (Numeral_eq _ _ _ _ (Numeral_frac sign neg int ds Hm Hi Hne Hds));
          [reflexivity | lists; reflexivity].
      * cbn [num_value]. do 2 f_equal.
  - exists (NExpDig neg (decimal (int ++ ds)) (Z.of_nat (length ds)) eneg
                    (decimal es)).
    split; [|reflexivity].
    apply (Numeral_eq _ _ _ _
             (Numeral_exp_digits sign neg int frac ds e esign eneg es
                Hm Hi Hf He Hs Hne Hes));
      [reflexivity | lists; reflexivity].
Qed.

End JsonNumbers.
Section JsonReading.

Lemma is_ws_white c : is_ws c = true <-> white [c].
Proof.
  unfold is_ws, white. rewrite !orb_true_iff, !N.eqb_eq. split.
  - intros H. constructor; [|constructor]. simpl. intuition.
  - intros H. apply Forall_inv in H. simpl in H. intuition.
Qed.

Lemma white_app w w' : white w -> white w' -> white (w ++ w').
Proof. intros H H'. apply Forall_app. split; assumption. Qed.

Lemma white_nil : white [].
Proof. constructor. Qed.

Lemma KeyDue_white ms closing p w :
  KeyDue ms closing p -> white w -> KeyDue ms closing (p ++ w).
Proof.
  intros [w0 H0|s ms0 w0 Hs H0] Hw.
  - apply (KeyDue_first (w0 ++ w)). apply white_app; assumption.
  - replace ((123%N :: s ++ 44%N :: w0) ++ w)
      with (123%N :: s ++ 44%N :: (w0 ++ w)) by (lists; reflexivity).
    apply KeyDue_next; [exact Hs | apply white_app; assumption].
Qed.

Lemma Due_white c closing p w :
  Due c closing p -> white w -> Due c closing (p ++ w).
Proof.
  intros [w0 H0|s items w0 Hs H0|ms cl p0 body key w1 w2 Hk Hb H1 H2] Hw.
  - apply (Due_first (w0 ++ w)). apply white_app; assumption.
  - replace ((91%N :: s ++ 44%N :: w0) ++ w)
      with (91%N :: s ++ 44%N :: (w0 ++ w)) by (lists; reflexivity).
    apply Due_next; [exact Hs | apply white_app; assumption].
  - replace ((p0 ++ 34%N :: body ++ 34%N :: w1 ++ 58%N :: w2) ++ w)
      with (p0 ++ 34%N :: body ++ 34%N :: w1 ++ 58%N :: (w2 ++ w))
      by (lists; reflexivity).
    apply (Due_member ms cl); try assumption. apply white_app; assumption.
Qed.

Lemma due_white stack closing s w :
  due stack closing s -> white w -> due stack closing (s ++ w).
Proof.
  destruct stack as [|c stack]; cbn [due].
  - intros [-> Hs] Hw. split; [reflexivity | apply white_app; assumption].
  - intros [s' [p [cl [-> [Hs Hp]]]]] Hw.
    exists s', (p ++ w), cl. split; [lists; reflexivity|].
    split; [exact Hs | apply Due_white; assumption].
Qed.

Lemma key_due_white stack closing s w :
  key_due stack closing s -> white w -> key_due stack closing (s ++ w).
Proof.
  intros [ms [stack' [s' [p [cl [-> [-> [Hs Hp]]]]]]]] Hw.
  exists ms, stack', s', (p ++ w), cl.
  split; [reflexivity|]. split; [lists; reflexivity|].
  split; [exact Hs | apply KeyDue_white; assumption].
Qed.

Lemma Chars_app body s body' s' :
  Chars body s -> Chars body' s' -> Chars (body ++ body') (s ++ s').
Proof.
  intros H H'. induction H; cbn [app].
  - exact H'.
  - apply Chars_char; assumption.
  - apply Chars_escape; assumption.
  - apply Chars_unicode; assumption.
Qed.

Lemma escape_char_Escape c x : escape_char c = Some x <-> Escape c x.
Proof.
  split.
  - unfold escape_char.
    destruct (N.eqb_spec c 34) as [->|_]; [intros [= <-]; constructor|].
    destruct (N.eqb_spec c 92) as [->|_]; [intros [= <-]; constructor|].
    destruct (N.eqb_spec c 47) as [->|_]; [intros [= <-]; constructor|].
    cbn [orb].
    destruct (N.eqb_spec c 98) as [->|_]; [intros [= <-]; constructor|].
    destruct (N.eqb_spec c 102) as [->|_]; [intros [= <-]; constructor|].
    destruct (N.eqb_spec c 110) as [->|_]; [intros [= <-]; constructor|].
    destruct (N.eqb_spec c 114) as [->|_]; [intros [= <-]; constructor|].
    destruct (N.eqb_spec c 116) as [->|_]; [intros [= <-]; constructor|].
    discriminate.
  - intros []; reflexivity.
Qed.

Lemma hex_digit_Hex c d : hex_digit c = Some d <-> Hex c d.
Proof.
  unfold hex_digit. split.
  - destruct (N.leb_spec 48 c); destruct (N.leb_spec c 57); cbn [andb];
      try (intros [= <-]; apply Hex_digit; lia);
      destruct (N.leb_spec 65 c); destruct (N.leb_spec c 70); cbn [andb];
      try (intros [= <-]; apply Hex_upper; lia);
      destruct (N.leb_spec 97 c); destruct (N.leb_spec c 102); cbn [andb];
      try (intros [= <-]; apply Hex_lower; lia); discriminate.
  - intros [c0 H|c0 H|c0 H];
      destruct (N.leb_spec 48 c0); destruct (N.leb_spec c0 57); cbn [andb];
      try lia; try reflexivity;
      destruct (N.leb_spec 65 c0); destruct (N.leb_spec c0 70); cbn [andb];
      try lia; try reflexivity;
      destruct (N.leb_spec 97 c0); destruct (N.leb_spec c0 102); cbn [andb];
      try lia; reflexivity.
Qed.

Lemma HexRun_snoc v hs v' c d :
  HexRun v hs v' -> Hex c d -> HexRun v (hs ++ [c]) (16 * v' + d).
Proof.
  intros H Hc. induction H as [v|v c0 d0 hs v' H0 H IH]; cbn [app].
  - apply (HexRun_digit v c d [] _ Hc). constructor.
  - apply (HexRun_digit v c0 d0 _ _ H0). exact IH.
Qed.

Lemma HexRun_four hs v :
  HexRun 0 hs v -> length hs = 4 ->
  exists h1 h2 h3 h4 v1 v2 v3 v4,
    hs = [h1; h2; h3; h4] /\ Hex h1 v1 /\ Hex h2 v2 /\ Hex h3 v3 /\ Hex h4 v4 /\
    v = (4096 * v1 + 256 * v2 + 16 * v3 + v4)%N.
Proof.
  intros H Hlen.
  destruct hs as [|h1 [|h2 [|h3 [|h4 [|]]]]]; try discriminate.
  inversion H as [|? ? v1 ? ? H1 R1]; subst.
  inversion R1 as [|? ? v2 ? ? H2 R2]; subst.
  inversion R2 as [|? ? v3 ? ? H3 R3]; subst.
  inversion R3 as [|? ? v4 ? ? H4 R4]; subst.
  inversion R4; subst.
  exists h1, h2, h3, h4, v1, v2, v3, v4. repeat (split; [assumption|]).
  split; [reflexivity|]. repeat (split; [assumption|]). lia.
Qed.

(** The elements of an array, with the one that has just ended. *)
Lemma Due_element items closing p t v w :
  Due (CArr items) closing p -> Value t v -> white w ->
  exists s, p ++ t ++ w = 91%N :: s /\ Elements s (rev (v :: items)).
Proof.
  intros H Ht Hw. inversion H as [w0 H0|s items0 w0 Hs H0|]; subst.
  - exists (w0 ++ t ++ w). split; [reflexivity|].
    apply Elements_one. apply Element_intro; assumption.
  - exists (s ++ 44%N :: w0 ++ t ++ w). split; [lists; reflexivity|].
    cbn [rev]. apply Elements_more; [exact Hs|].
    apply Element_intro; assumption.
Qed.

(** The members of an object, with the one that has just ended. *)
Lemma Due_member_ended ms key closing p t v w :
  Due (CKey ms key) closing p -> Value t v -> white w ->
  exists s, p ++ t ++ w = 123%N :: s /\ Members s (rev ((key, v) :: ms)).
Proof.
  intros H Ht Hw.
  inversion H as [| |ms0 cl p0 body key0 w1 w2 Hk Hb H1 H2]; subst.
  inversion Hk as [w0 H0|s ms1 w0 Hs H0]; subst.
  - exists (w0 ++ 34%N :: body ++ 34%N :: w1 ++ 58%N :: w2 ++ t ++ w).
    split; [lists; reflexivity|].
    apply Members_one.
    apply (Member_intro w0 body key w1 (w2 ++ t ++ w) v);
      [exact H0 | exact Hb | exact H1|].
    apply Element_intro; assumption.
  - exists (s ++ 44%N :: w0 ++ 34%N :: body ++ 34%N :: w1 ++ 58%N
              :: w2 ++ t ++ w).
    split; [lists; reflexivity|].
    cbn [rev]. apply Members_more; [exact Hs|].
    apply (Member_intro w0 body key w1 (w2 ++ t ++ w) v);
      [exact H0 | exact Hb | exact H1|].
    apply Element_intro; assumption.
Qed.

Lemma complete_mode stack v st :
  complete stack v = Some st -> jmd st = JAfter \/ jmd st = JDone v.
Proof.
  destruct stack as [|[items|ms|ms key] stack]; cbn [complete];
    try discriminate; intros [= <-]; auto.
Qed.

Lemma ended_reads s st : ended s st -> reads s st.
Proof.
  intros H. unfold reads.
  destruct H as [stack [closing [s' [t [v [w [Hs [Hd [Ht [Hw Hc]]]]]]]]]].
  assert (He : ended s st) by (exists stack, closing, s', t, v, w; auto).
  destruct (complete_mode _ _ _ Hc) as [-> | ->]; exact He.
Qed.

Lemma ended_white s st w : ended s st -> white w -> ended (s ++ w) st.
Proof.
  intros [stack [closing [s' [t [v [w0 [-> [Hd [Ht [H0 Hc]]]]]]]]]] Hw.
  exists stack, closing, s', t, v, (w0 ++ w).
  split; [lists; reflexivity|]. repeat (split; [assumption|]).
  split; [apply white_app; assumption | exact Hc].
Qed.

(** A value that ends without white space behind it. *)
Lemma value_ended stack s t v st :
  token_due stack false s -> Value t v -> complete stack v = Some st ->
  ended (s ++ t) st.
Proof.
  intros [closing Hd] Ht Hc. exists stack, closing, s, t, v, [].
  split; [lists; reflexivity|]. repeat (split; [assumption|]).
  split; [apply white_nil | exact Hc].
Qed.

(** What may follow a value that has ended. *)
Lemma rest_reads s st c st' :
  ended s st -> rest_step st c = Some st' -> reads (s ++ [c]) st'.
Proof.
  intros He Hs.
  assert (Hws : is_ws c = true -> ended (s ++ [c]) st).
  { intros Hc. apply ended_white; [exact He | apply is_ws_white; exact Hc]. }
  destruct He as [stack [closing [s' [t [v [w [-> [Hd [Ht [Hw Hc]]]]]]]]]].
  destruct stack as [|[items|ms|ms key] stack]; cbn [complete] in Hc;
    try discriminate; injection Hc as <-;
    unfold rest_step in Hs; cbn [jmd jstack] in Hs.
  - (* the whole text *)
    destruct (is_ws c) eqn:Ew; [|discriminate]. injection Hs as <-.
    apply ended_reads. apply Hws. reflexivity.
  - (* in an array *)
    unfold after_step in Hs. destruct (is_ws c) eqn:Ew.
    { injection Hs as <-. apply ended_reads. apply Hws. reflexivity. }
    destruct Hd as [s0 [p [cl [-> [Hd Hp]]]]].
    destruct (Due_element _ _ _ _ _ _ Hp Ht Hw) as [els [Hels Hvs]].
    replace (((s0 ++ p) ++ t ++ w) ++ [c]) with (s0 ++ (p ++ t ++ w) ++ [c])
      by (lists; reflexivity).
    rewrite Hels.
    destruct (N.eqb_spec c 44) as [->|_].
    + injection Hs as <-. unfold reads. cbn [jmd jstack due].
      exists s0, (91%N :: els ++ [44%N]), cl.
      split; [lists; reflexivity|]. split; [exact Hd|].
      apply Due_next; [exact Hvs | apply white_nil].
    + destruct (N.eqb_spec c 93) as [->|_]; [|discriminate].
      apply ended_reads.
      exists stack, cl, s0, (91%N :: els ++ [93%N]), (JArray (rev (v :: items))), [].
      split; [lists; reflexivity|]. split; [exact Hd|].
      split; [apply Value_array; exact Hvs|].
      split; [apply white_nil | exact Hs].
  - (* in an object *)
    unfold after_step in Hs. destruct (is_ws c) eqn:Ew.
    { injection Hs as <-. apply ended_reads. apply Hws. reflexivity. }
    destruct Hd as [s0 [p [cl [-> [Hd Hp]]]]].
    destruct (Due_member_ended _ _ _ _ _ _ _ Hp Ht Hw) as [mems [Hmems Hms]].
    replace (((s0 ++ p) ++ t ++ w) ++ [c]) with (s0 ++ (p ++ t ++ w) ++ [c])
      by (lists; reflexivity).
    rewrite Hmems.
    destruct (N.eqb_spec c 44) as [->|_].
    + injection Hs as <-. unfold reads. cbn [jmd jstack].
      exists ((key, v) :: ms), stack, s0, (123%N :: mems ++ [44%N]), cl.
      split; [reflexivity|]. split; [lists; reflexivity|]. split; [exact Hd|].
      apply KeyDue_next; [exact Hms | apply white_nil].
    + destruct (N.eqb_spec c 125) as [->|_]; [|discriminate].
      apply ended_reads.
      exists stack, cl, s0, (123%N :: mems ++ [125%N]),
        (JObject (properties (rev ((key, v) :: ms)))), [].
      split; [lists; reflexivity|]. split; [exact Hd|].
      split; [apply Value_object; exact Hms|].
      split; [apply white_nil | exact Hs].
Qed.

(** The first character of a value. *)
Lemma value_reads stack closing s c st' :
  due stack closing s -> value_step stack closing c = Some st' ->
  reads (s ++ [c]) st'.
Proof.
  intros Hd Hs. unfold value_step in Hs.
  assert (Htok : token_due stack false s) by (exists closing; exact Hd).
  destruct (is_ws c) eqn:Ew.
  { injection Hs as <-. unfold reads. cbn [jmd jstack].
    apply due_white; [exact Hd | apply is_ws_white; exact Ew]. }
  destruct (N.eqb_spec c 34) as [->|_].
  { injection Hs as <-. unfold reads. cbn [jmd jstack].
    exists s, [34%N]. split; [reflexivity|]. split; [exact Htok|].
    apply (Partial_str false [] []). constructor. }
  destruct (N.eqb_spec c 123) as [->|_].
  { injection Hs as <-. unfold reads. cbn [jmd jstack].
    exists [], stack, s, [123%N], closing. split; [reflexivity|].
    split; [reflexivity|]. split; [exact Hd|].
    apply (KeyDue_first []). apply white_nil. }
  destruct (N.eqb_spec c 91) as [->|_].
  { injection Hs as <-. unfold reads. cbn [jmd jstack due].
    exists s, [91%N], closing. split; [reflexivity|]. split; [exact Hd|].
    apply (Due_first []). apply white_nil. }
  destruct (N.eqb_spec c 93) as [->|_].
  { destruct closing; [|discriminate].
    destruct stack as [|[[|]|?|? ?] stack]; try discriminate.
    destruct Hd as [s0 [p [cl [-> [Hd Hp]]]]].
    inversion Hp as [w Hw| |]; subst.
    apply ended_reads.
    exists stack, cl, s0, (91%N :: w ++ [93%N]), (JArray []), [].
    split; [lists; reflexivity|]. split; [exact Hd|].
    split; [apply Value_empty_array; exact Hw|].
    split; [apply white_nil | exact Hs]. }
  destruct (N.eqb_spec c 45) as [->|_].
  { injection Hs as <-. unfold reads. cbn [jmd jstack].
    exists s, [45%N]. split; [reflexivity|]. split; [exact Htok|]. constructor. }
  destruct (N.eqb_spec c 48) as [->|H48].
  { injection Hs as <-. unfold reads. cbn [jmd jstack].
    exists s, [48%N]. split; [reflexivity|]. split; [exact Htok|].
    exact (Numeral_zero [] false Minus_none). }
  destruct (N.eqb_spec c 116) as [->|_].
  { injection Hs as <-. unfold reads. cbn [jmd jstack].
    exists s, [116%N]. split; [reflexivity|]. split; [exact Htok|].
    left. reflexivity. }
  destruct (N.eqb_spec c 102) as [->|_].
  { injection Hs as <-. unfold reads. cbn [jmd jstack].
    exists s, [102%N]. split; [reflexivity|]. split; [exact Htok|].
    right. left. reflexivity. }
  destruct (N.eqb_spec c 110) as [->|_].
  { injection Hs as <-. unfold reads. cbn [jmd jstack].
    exists s, [110%N]. split; [reflexivity|]. split; [exact Htok|].
    right. right. left. reflexivity. }
  destruct (digit c) as [d|] eqn:Ed; [|discriminate].
  injection Hs as <-. unfold reads. cbn [jmd jstack].
  exists s, [c]. split; [reflexivity|]. split; [exact Htok|].
  apply digit_Digit in Ed. destruct Ed as [Hc ->]. unfold Digit in Hc.
  apply (Numeral_eq _ _ _ _
           (Numeral_int [] false [c] Minus_none
              (Int_digits c [] ltac:(lia) (Forall_nil _))
              ltac:(congruence))); reflexivity.
Qed.

(** The first character of a member. *)
Lemma key_reads stack closing s c st' :
  key_due stack closing s -> key_step stack closing c = Some st' ->
  reads (s ++ [c]) st'.
Proof.
  intros Hd Hs. unfold key_step in Hs.
  destruct (is_ws c) eqn:Ew.
  { injection Hs as <-. unfold reads. cbn [jmd jstack].
    apply key_due_white; [exact Hd | apply is_ws_white; exact Ew]. }
  destruct (N.eqb_spec c 34) as [->|_].
  { injection Hs as <-. unfold reads. cbn [jmd jstack].
    exists s, [34%N]. split; [reflexivity|].
    split; [exists closing; exact Hd|].
    apply (Partial_str true [] []). constructor. }
  destruct (N.eqb_spec c 125) as [->|_]; [|discriminate].
  destruct closing; [|discriminate].
  destruct Hd as [ms [stack' [s0 [p [cl [-> [-> [Hd Hp]]]]]]]].
  destruct ms; [|discriminate].
  inversion Hp as [w Hw|]; subst.
  apply ended_reads.
  exists stack', cl, s0, (123%N :: w ++ [125%N]), (JObject []), [].
  split; [lists; reflexivity|]. split; [exact Hd|].
  split; [apply Value_empty_object; exact Hw|].
  split; [apply white_nil | exact Hs].
Qed.

(** The end of a string token. *)
Lemma string_reads stack key s body acc st' :
  token_due stack key s -> Chars body (rev acc) ->
  string_end stack key (rev acc) = Some st' ->
  reads (s ++ 34%N :: body ++ [34%N]) st'.
Proof.
  intros [closing Hd] Hb Hs. unfold string_end in Hs. destruct key.
  - pose proof Hd as [ms [stack' [s0 [p [cl [-> [-> [Hd0 Hp]]]]]]]].
    injection Hs as <-. unfold reads. cbn [jmd jstack].
    exists ms, (rev acc), stack', closing, (s0 ++ p), body, [].
    split; [reflexivity|]. split; [lists; reflexivity|].
    split; [exact Hd|]. split; [exact Hb | apply white_nil].
  - apply ended_reads.
    apply (value_ended stack s (34%N :: body ++ [34%N]) (JString (rev acc)));
      [exists closing; exact Hd | apply Value_string; exact Hb | exact Hs].
Qed.

Lemma Chars_one c : (32 <= c)%N -> c <> 34%N -> c <> 92%N -> Chars [c] [c].
Proof. intros. apply Chars_char; try assumption. constructor. Qed.

(** One more character of the text. *)
Lemma reads_step s st c st' :
  reads s st -> jstep st c = Some st' -> reads (s ++ [c]) st'.
Proof.
  intros Hr Hs. destruct st as [stack md]. unfold reads in Hr.
  unfold jstep in Hs. cbn [jmd jstack] in *.
  destruct md as [closing|closing| | |v|key acc|key acc|key acc x more|n|rest v].
  - exact (value_reads _ _ _ _ _ Hr Hs).
  - exact (key_reads _ _ _ _ _ Hr Hs).
  - (* the colon *)
    destruct Hr as [ms [key [stack' [closing [s0 [body [w
                     [-> [-> [Hd [Hb Hw]]]]]]]]]]].
    destruct (is_ws c) eqn:Ew.
    + injection Hs as <-. unfold reads. cbn [jmd jstack].
      exists ms, key, stack', closing, s0, body, (w ++ [c]).
      split; [reflexivity|]. split; [lists; reflexivity|].
      split; [exact Hd|]. split; [exact Hb|].
      apply white_app; [exact Hw | apply is_ws_white; exact Ew].
    + destruct (N.eqb_spec c 58) as [->|_]; [|discriminate].
      injection Hs as <-. unfold reads. cbn [jmd jstack due].
      destruct Hd as [ms' [stack'' [s1 [p [cl [E [-> [Hd Hp]]]]]]]].
      injection E as <- <-.
      exists s1, (p ++ 34%N :: body ++ 34%N :: w ++ [58%N]), cl.
      split; [lists; reflexivity|]. split; [exact Hd|].
      apply (Due_member ms closing p body key w []); try assumption.
      apply white_nil.
  - exact (rest_reads _ _ _ _ Hr Hs).
  - exact (rest_reads _ _ _ _ Hr Hs).
  - (* in a string *)
    destruct Hr as [s0 [t [-> [Hd Hp]]]].
    inversion Hp as [key0 acc0 body Hb| |]; subst.
    destruct (N.eqb_spec c 34) as [->|H34].
    { replace ((s0 ++ 34%N :: body) ++ [34%N])
        with (s0 ++ 34%N :: body ++ [34%N]) by (lists; reflexivity).
      exact (string_reads _ _ _ _ _ _ Hd Hb Hs). }
    destruct (N.eqb_spec c 92) as [->|H92].
    { injection Hs as <-. unfold reads. cbn [jmd jstack].
      exists s0, (34%N :: body ++ [92%N]).
      split; [lists; reflexivity|]. split; [exact Hd|].
      apply Partial_esc. exact Hb. }
    destruct (N.ltb_spec c 32) as [|H32]; [discriminate|].
    injection Hs as <-. unfold reads. cbn [jmd jstack].
    exists s0, (34%N :: body ++ [c]).
    split; [lists; reflexivity|]. split; [exact Hd|].
    apply Partial_str. cbn [rev].
    apply Chars_app; [exact Hb | apply Chars_one; assumption].
  - (* after a backslash *)
    destruct Hr as [s0 [t [-> [Hd Hp]]]].
    inversion Hp as [|key0 acc0 body Hb|]; subst.
    destruct (N.eqb_spec c 117) as [->|_].
    { injection Hs as <-. unfold reads. cbn [jmd jstack].
      exists s0, (34%N :: body ++ 92%N :: 117%N :: []).
      split; [lists; reflexivity|]. split; [exact Hd|].
      apply Partial_hex; [exact Hb | constructor | reflexivity | lia]. }
    destruct (escape_char c) as [x|] eqn:Ex; [|discriminate].
    injection Hs as <-. unfold reads. cbn [jmd jstack].
    exists s0, (34%N :: body ++ [92%N; c]).
    split; [lists; reflexivity|]. split; [exact Hd|].
    apply Partial_str. cbn [rev].
    apply Chars_app; [exact Hb|].
    apply Chars_escape; [apply escape_char_Escape; exact Ex | constructor].
  - (* in a unicode escape *)
    destruct Hr as [s0 [t [-> [Hd Hp]]]].
    inversion Hp as [| |key0 acc0 body hs x0 more0 Hb Hh Hlen Hmore]; subst.
    destruct (hex_digit c) as [d|] eqn:Eh; [|discriminate].
    apply hex_digit_Hex in Eh.
    pose proof (HexRun_snoc _ _ _ _ _ Hh Eh) as Hh'.
    destruct more as [|[|more]]; [lia| |].
    + injection Hs as <-. unfold reads. cbn [jmd jstack].
      exists s0, (34%N :: body ++ 92%N :: 117%N :: hs ++ [c]).
      split; [lists; reflexivity|]. split; [exact Hd|].
      apply Partial_str. cbn [rev].
      destruct (HexRun_four _ _ Hh') as
        [h1 [h2 [h3 [h4 [v1 [v2 [v3 [v4 [E [H1 [H2 [H3 [H4 Ev]]]]]]]]]]]]].
      { rewrite length_app. cbn [length]. lia. }
      rewrite E.
      match goal with
      | |- Chars _ (_ ++ [?y]) =>
          replace y with (4096 * v1 + 256 * v2 + 16 * v3 + v4)%N
            by (rewrite <- Ev; reflexivity)
      end.
      apply Chars_app; [exact Hb|].
      apply Chars_unicode; try assumption. constructor.
    + injection Hs as <-. unfold reads. cbn [jmd jstack].
      exists s0, (34%N :: body ++ 92%N :: 117%N :: hs ++ [c]).
      split; [lists; reflexivity|]. split; [exact Hd|].
      apply Partial_hex; [exact Hb | exact Hh' | | lia].
      rewrite length_app. cbn [length]. lia.
  - (* in a number *)
    destruct Hr as [s0 [t [-> [Hd Hn]]]].
    destruct (num_step n c) as [n'|] eqn:En.
    + injection Hs as <-. unfold reads. cbn [jmd jstack].
      exists s0, (t ++ [c]). split; [lists; reflexivity|].
      split; [exact Hd|]. exact (Numeral_step _ _ _ _ Hn En).
    + destruct (num_value n) as [v|] eqn:Ev; [|discriminate].
      destruct (complete stack v) as [st1|] eqn:Ec; [|discriminate].
      apply (rest_reads _ st1); [|exact Hs].
      apply (value_ended stack s0 t v); [exact Hd | | exact Ec].
      apply Value_number. exact (Numeral_value _ _ _ Hn Ev).
  - (* in a literal *)
    destruct Hr as [s0 [t [-> [Hd Hl]]]].
    destruct rest as [|x rest]; [discriminate|].
    destruct (N.eqb_spec c x) as [->|_]; [|discriminate].
    match type of Hl with
    | In _ ?l =>
        assert (Hl' : In ((t ++ [x]) ++ rest, v) l)
          by (rewrite <- app_assoc; exact Hl)
    end.
    destruct rest as [|y rest].
    + apply ended_reads. rewrite <- app_assoc.
      apply (value_ended stack s0 (t ++ [x]) v); [exact Hd | | exact Hs].
      rewrite app_nil_r in Hl'.
      destruct Hl' as [E | [E | [E | []]]]; injection E as <- <-;
        [exact Value_true | exact Value_false | exact Value_null].
    + injection Hs as <-. unfold reads. cbn [jmd jstack].
      exists s0, (t ++ [x]). split; [lists; reflexivity|].
      split; [exact Hd | exact Hl'].
Qed.

Lemma jrun_app st s s' :
  jrun st (s ++ s') =
  match jrun st s with
  | Some st' => jrun st' s'
  | None => None
  end.
Proof.
  revert st. induction s as [|c s IH]; intros st; cbn [app jrun];
    [reflexivity|].
  destruct (jstep st c); [apply IH | reflexivity].
Qed.

Lemma jrun_reads text : forall st,
  jrun (mkJ [] (JValue false)) text = Some st -> reads text st.
Proof.
  induction text as [|c text IH] using rev_ind; intros st.
  - intros [= <-]. unfold reads. cbn [jmd jstack due].
    split; [reflexivity | apply white_nil].
  - rewrite jrun_app.
    destruct (jrun (mkJ [] (JValue false)) text) as [st0|]; [|discriminate].
    cbn [jrun]. destruct (jstep st0 c) as [st1|] eqn:Es; [|discriminate].
    intros [= <-]. exact (reads_step _ _ _ _ (IH st0 eq_refl) Es).
Qed.

(** What the reader accepts is a text of the grammar, and its value is
    the value of the text. *)
Lemma parse_Text text v : parse text = Some v -> Text text v.
Proof.
  unfold parse. destruct (jrun (mkJ [] (JValue false)) text) as [st|] eqn:Er;
    [|discriminate].
  apply jrun_reads in Er. intros Hf. unfold jfinish in Hf.
  destruct st as [stack md]. unfold reads in Er. cbn [jmd jstack] in *.
  destruct md; try discriminate; destruct stack; try discriminate.
  - injection Hf as ->.
    destruct Er as [stack [closing [s' [t [v' [w [-> [Hd [Ht [Hw Hc]]]]]]]]]].
    destruct stack as [|[?|?|? ?] stack]; cbn [complete] in Hc;
      try discriminate.
    injection Hc as ->. destruct Hd as [_ Hd].
    apply Element_intro; assumption.
  - destruct Er as [s0 [t [-> [[closing [_ Hd]] Hn]]]].
    rewrite <- (app_nil_r t).
    apply Element_intro; [exact Hd | | apply white_nil].
    apply Value_number. exact (Numeral_value _ _ _ Hn Hf).
Qed.

Lemma complete_valued stack v :
  valued stack -> exists st, complete stack v = Some st.
Proof.
  destruct stack as [|[?|?|? ?] stack]; cbn [valued complete]; intros H;
    [eexists; reflexivity .. | contradiction | eexists; reflexivity].
Qed.

Lemma white_cons c w : white (c :: w) <-> is_ws c = true /\ white w.
Proof.
  rewrite is_ws_white. unfold white. split.
  - intros H. split; [constructor; [exact (Forall_inv H) | constructor]|].
    exact (Forall_inv_tail H).
  - intros [H1 H2]. constructor; [exact (Forall_inv H1) | exact H2].
Qed.

(** White space where a value, a member name or a colon is due. *)
Lemma jrun_white_value stack closing w :
  white w ->
  jrun (mkJ stack (JValue closing)) w = Some (mkJ stack (JValue closing)).
Proof.
  induction w as [|c w IH]; intros H; [reflexivity|].
  apply white_cons in H. destruct H as [Hc Hw].
  cbn [jrun jstep jmd jstack]. unfold value_step. rewrite Hc. exact (IH Hw).
Qed.

Lemma jrun_white_key stack closing w :
  white w ->
  jrun (mkJ stack (JKey closing)) w = Some (mkJ stack (JKey closing)).
Proof.
  induction w as [|c w IH]; intros H; [reflexivity|].
  apply white_cons in H. destruct H as [Hc Hw].
  cbn [jrun jstep jmd jstack]. unfold key_step. rewrite Hc. exact (IH Hw).
Qed.

Lemma jrun_white_colon stack w :
  white w -> jrun (mkJ stack JColon) w = Some (mkJ stack JColon).
Proof.
  induction w as [|c w IH]; intros H; [reflexivity|].
  apply white_cons in H. destruct H as [Hc Hw].
  cbn [jrun jstep jmd jstack]. rewrite Hc. exact (IH Hw).
Qed.

(** White space behind a value. *)
Lemma rest_step_white stack v st c :
  complete stack v = Some st -> is_ws c = true -> rest_step st c = Some st.
Proof.
  intros Hc Hw.
  destruct stack as [|[?|?|? ?] stack]; cbn [complete] in Hc;
    try discriminate; injection Hc as <-;
    unfold rest_step, after_step; cbn [jmd jstack]; rewrite Hw; reflexivity.
Qed.

Lemma jstep_ended stack v st c :
  complete stack v = Some st -> jstep st c = rest_step st c.
Proof.
  intros Hc. unfold jstep.
  destruct (complete_mode _ _ _ Hc) as [-> | ->]; reflexivity.
Qed.

Lemma jrun_white_ended stack v st w :
  complete stack v = Some st -> white w -> jrun st w = Some st.
Proof.
  intros Hc. induction w as [|c w IH]; intros H; [reflexivity|].
  apply white_cons in H. destruct H as [Hw H].
  cbn [jrun]. rewrite (jstep_ended _ _ _ _ Hc).
  rewrite (rest_step_white _ _ _ _ Hc Hw). exact (IH H).
Qed.

(** No number token goes on with a character that may follow a value. *)
Lemma num_step_delimiter n c : delimiter c -> num_step n c = None.
Proof.
  intros [Hc | Hc].
  - unfold is_ws in Hc. rewrite !orb_true_iff, !N.eqb_eq in Hc.
    destruct Hc as [[[-> | ->] | ->] | ->]; destruct n; reflexivity.
  - destruct Hc as [<- | [<- | [<- | []]]]; destruct n; reflexivity.
Qed.

(** The character behind a value goes where the value belongs. *)
Lemma jstep_value_read stack v st c :
  value_read stack v st -> delimiter c ->
  jstep st c =
  match complete stack v with
  | Some st' => rest_step st' c
  | None => None
  end.
Proof.
  intros [Hc | [n [-> Hn]]] Hd.
  - rewrite Hc. exact (jstep_ended _ _ _ _ Hc).
  - unfold jstep. cbn [jmd jstack].
    rewrite (num_step_delimiter n c Hd), Hn. reflexivity.
Qed.

Lemma jrun_white_read stack v st w :
  valued stack -> value_read stack v st -> white w ->
  exists st', jrun st w = Some st' /\ value_read stack v st'.
Proof.
  intros Hv Hr Hw. destruct w as [|c w].
  - exists st. split; [reflexivity | exact Hr].
  - apply white_cons in Hw. destruct Hw as [Hc Hw].
    destruct (complete_valued stack v Hv) as [st' Hst'].
    exists st'. split; [|left; exact Hst'].
    cbn [jrun]. rewrite (jstep_value_read _ _ _ _ Hr (or_introl Hc)), Hst'.
    rewrite (rest_step_white _ _ _ _ Hst' Hc).
    exact (jrun_white_ended _ _ _ _ Hst' Hw).
Qed.

(** The reader on what stands between the quotes of a string. *)
Lemma jrun_Chars stack key body s :
  Chars body s -> forall acc,
  jrun (mkJ stack (JStr key acc)) body = Some (mkJ stack (JStr key (rev s ++ acc))).
Proof.
  induction 1 as [|c body s H32 H34 H92 _ IH|c x body s He _ IH
                  |h1 h2 h3 h4 v1 v2 v3 v4 body s H1 H2 H3 H4 _ IH]; intros acc.
  - reflexivity.
  - cbn [jrun jstep jmd jstack].
    destruct (N.eqb_spec c 34); [contradiction|].
    destruct (N.eqb_spec c 92); [contradiction|].
    destruct (N.ltb_spec c 32); [lia|].
    rewrite IH. cbn [rev]. rewrite <- app_assoc. reflexivity.
  - cbn [jrun jstep jmd jstack N.eqb Pos.eqb].
    assert (E : N.eqb c 117 = false) by (destruct He; reflexivity).
    rewrite E. apply escape_char_Escape in He. rewrite He.
    rewrite IH. cbn [rev]. rewrite <- app_assoc. reflexivity.
  - apply hex_digit_Hex in H1, H2, H3, H4.
    cbn [jrun jstep jmd jstack N.eqb Pos.eqb]. rewrite H1.
    cbn [jrun jstep jmd jstack]. rewrite H2.
    cbn [jrun jstep jmd jstack]. rewrite H3.
    cbn [jrun jstep jmd jstack]. rewrite H4.
    rewrite IH. cbn [rev]. rewrite <- app_assoc. cbn [app].
    replace (16 * (16 * (16 * (16 * 0 + v1) + v2) + v3) + v4)%N
      with (4096 * v1 + 256 * v2 + 16 * v3 + v4)%N by lia.
    reflexivity.
Qed.

Lemma jrun_snoc st s c :
  jrun st (s ++ [c]) =
  match jrun st s with
  | Some st' => jstep st' c
  | None => None
  end.
Proof.
  rewrite jrun_app. destruct (jrun st s) as [st'|]; [|reflexivity].
  cbn [jrun]. destruct (jstep st' c); reflexivity.
Qed.

Lemma jrun_then st s st' s' :
  jrun st s = Some st' -> jrun st (s ++ s') = jrun st' s'.
Proof. intros H. rewrite jrun_app, H. reflexivity. Qed.

Lemma digit_value c : Digit c -> digit c = Some (Z.of_N c - 48)%Z.
Proof. intros H. apply digit_Digit. split; [exact H | reflexivity]. Qed.

Lemma decimal_app ds ds' :
  decimal (ds ++ ds') =
  fold_left (fun v c => (10 * v + (Z.of_N c - 48))%Z) ds' (decimal ds).
Proof. unfold decimal. apply fold_left_app. Qed.

(** The reader on the digits of a number token. *)
Lemma jrun_int_digits stack neg ds : forall v,
  Forall Digit ds ->
  jrun (mkJ stack (JNum (NInt neg v))) ds =
  Some (mkJ stack (JNum (NInt neg
          (fold_left (fun v c => (10 * v + (Z.of_N c - 48))%Z) ds v)))).
Proof.
  induction ds as [|c ds IH]; intros v H; [reflexivity|].
  cbn [jrun jstep jmd jstack num_step fold_left].
  rewrite (digit_value c (Forall_inv H)). exact (IH _ (Forall_inv_tail H)).
Qed.

Lemma jrun_frac_digits stack neg ds : forall v k,
  Forall Digit ds ->
  jrun (mkJ stack (JNum (NFrac neg v k))) ds =
  Some (mkJ stack (JNum (NFrac neg
          (fold_left (fun v c => (10 * v + (Z.of_N c - 48))%Z) ds v)
          (k + Z.of_nat (length ds))))).
Proof.
  induction ds as [|c ds IH]; intros v k H.
  - cbn [jrun fold_left length]. do 4 f_equal. cbn. lia.
  - cbn [jrun jstep jmd jstack num_step fold_left].
    rewrite (digit_value c (Forall_inv H)).
    rewrite (IH _ _ (Forall_inv_tail H)). do 4 f_equal.
    cbn [length]. lia.
Qed.

Lemma jrun_exp_digits stack neg v k eneg ds : forall e,
  Forall Digit ds ->
  jrun (mkJ stack (JNum (NExpDig neg v k eneg e))) ds =
  Some (mkJ stack (JNum (NExpDig neg v k eneg
          (fold_left (fun v c => (10 * v + (Z.of_N c - 48))%Z) ds e)))).
Proof.
  induction ds as [|c ds IH]; intros e H; [reflexivity|].
  cbn [jrun jstep jmd jstack num_step fold_left].
  rewrite (digit_value c (Forall_inv H)). exact (IH _ (Forall_inv_tail H)).
Qed.

Lemma value_step_digit stack closing c :
  (49 <= c <= 57)%N ->
  value_step stack closing c =
  Some (mkJ stack (JNum (NInt false (Z.of_N c - 48)))).
Proof.
  intros H.
  assert (E : (c = 49 \/ c = 50 \/ c = 51 \/ c = 52 \/ c = 53 \/ c = 54 \/
               c = 55 \/ c = 56 \/ c = 57)%N) by lia.
  repeat (destruct E as [-> | E]; [reflexivity|]). subst c. reflexivity.
Qed.

Lemma num_step_minus_digit c :
  (49 <= c <= 57)%N ->
  num_step NMinus c = Some (NInt true (Z.of_N c - 48)).
Proof.
  intros H. cbn [num_step]. rewrite digit_value by (unfold Digit; lia).
  destruct (Z.eqb_spec (Z.of_N c - 48) 0); [lia | reflexivity].
Qed.

(** The reader on the sign and the integer part. *)
Lemma jrun_integer stack closing sign neg int :
  Minus sign neg -> Int int ->
  jrun (mkJ stack (JValue closing)) (sign ++ int) =
  Some (mkJ stack (JNum (if list_eq_dec N.eq_dec int [48%N]
                         then NZero neg else NInt neg (decimal int)))).
Proof.
  intros Hm Hi. destruct Hi as [|c ds Hc Hds].
  - destruct Hm; reflexivity.
  - destruct (list_eq_dec N.eq_dec (c :: ds) [48%N]) as [E|_];
      [injection E as -> _; lia|].
    assert (Hd : decimal (c :: ds) =
                 fold_left (fun v c => (10 * v + (Z.of_N c - 48))%Z) ds
                           (Z.of_N c - 48)%Z).
    { unfold decimal. cbn [fold_left]. f_equal. }
    rewrite Hd. destruct Hm; cbn [app jrun].
    + unfold jstep at 1. cbn [jmd jstack].
      rewrite (value_step_digit _ _ _ Hc). apply jrun_int_digits. exact Hds.
    + unfold jstep at 1. cbn [jmd jstack]. unfold value_step.
      cbn [is_ws N.eqb Pos.eqb orb jrun].
      unfold jstep at 1. cbn [jmd jstack].
      rewrite (num_step_minus_digit _ Hc). apply jrun_int_digits. exact Hds.
Qed.

(** The reader on the sign, the integer part and the fraction. *)
Lemma jrun_fraction stack closing sign neg int frac ds :
  Minus sign neg -> Int int -> Frac frac ds ->
  jrun (mkJ stack (JValue closing)) (sign ++ int ++ frac) =
  Some (mkJ stack (JNum
          match ds with
          | [] => if list_eq_dec N.eq_dec int [48%N]
                  then NZero neg else NInt neg (decimal int)
          | _ :: _ => NFrac neg (decimal (int ++ ds)) (Z.of_nat (length ds))
          end)).
Proof.
  intros Hm Hi Hf. rewrite app_assoc.
  rewrite (jrun_then _ _ _ _ (jrun_integer stack closing _ _ _ Hm Hi)).
  destruct Hf as [|ds Hne Hds]; [reflexivity|].
  destruct ds as [|d ds]; [congruence|].
  assert (Hdot : forall n,
            n = NZero neg /\ int = [48%N] \/ n = NInt neg (decimal int) ->
            jstep (mkJ stack (JNum n)) 46 =
            Some (mkJ stack (JNum (NDot neg (decimal int))))).
  { intros n [[-> ->] | ->]; reflexivity. }
  cbn [jrun]. rewrite Hdot.
  - cbn [jstep jmd jstack num_step].
    rewrite (digit_value d (Forall_inv Hds)).
    rewrite (jrun_frac_digits _ _ _ _ _ (Forall_inv_tail Hds)).
    rewrite decimal_app. cbn [fold_left length]. do 4 f_equal. lia.
  - destruct (list_eq_dec N.eq_dec int [48%N]); auto.
Qed.

(** The reader on a number token that has not ended. *)
Lemma jrun_Numeral stack closing n t :
  Numeral n t ->
  jrun (mkJ stack (JValue closing)) t = Some (mkJ stack (JNum n)).
Proof.
  assert (Hexp : forall sign neg int frac ds e,
            Minus sign neg -> Int int -> Frac frac ds ->
            (e = 101 \/ e = 69)%N ->
            jrun (mkJ stack (JValue closing)) (sign ++ int ++ frac ++ [e]) =
            Some (mkJ stack (JNum (NExp neg (decimal (int ++ ds))
                                        (Z.of_nat (length ds)))))).
  { intros sign neg int frac ds e Hm Hi Hf He.
    replace (sign ++ int ++ frac ++ [e]) with ((sign ++ int ++ frac) ++ [e])
      by (lists; reflexivity).
    rewrite (jrun_then _ _ _ _ (jrun_fraction stack closing _ _ _ _ _ Hm Hi Hf)).
    apply is_e_spec in He. cbn [jrun jstep jmd jstack].
    assert (H46 : N.eqb e 46 = false) by
      (apply is_e_spec in He; destruct He as [-> | ->]; reflexivity).
    assert (Hd : digit e = None) by
      (apply is_e_spec in He; destruct He as [-> | ->]; reflexivity).
    destruct Hf as [|ds Hne Hds].
    - rewrite app_nil_r.
      destruct (list_eq_dec N.eq_dec int [48%N]) as [-> | _];
        cbn [num_step]; rewrite ?Hd, H46, He; reflexivity.
    - destruct ds as [|d ds]; [congruence|].
      cbn [num_step]. rewrite Hd, He. reflexivity. }
  intros H. destruct H.
  - reflexivity.
  - destruct H; reflexivity.
  - rewrite (jrun_integer stack closing _ _ _ H H0).
    destruct (list_eq_dec N.eq_dec int [48%N]); [contradiction | reflexivity].
  - rewrite app_assoc.
    rewrite (jrun_then _ _ _ _ (jrun_integer stack closing _ _ _ H H0)).
    destruct (list_eq_dec N.eq_dec int [48%N]) as [-> | _]; reflexivity.
  - pose proof (jrun_fraction stack closing _ _ _ _ _ H H0
                  (Frac_digits ds H1 H2)) as R.
    destruct ds; [congruence | exact R].
  - apply Hexp; assumption.
  - replace (sign ++ int ++ frac ++ [e; c])
      with ((sign ++ int ++ frac ++ [e]) ++ [c]) by (lists; reflexivity).
    rewrite (jrun_then _ _ _ _ (Hexp _ _ _ _ _ _ H H0 H1 H2)).
    inversion H3; reflexivity.
  - replace (sign ++ int ++ frac ++ e :: esign ++ es)
      with ((sign ++ int ++ frac ++ [e]) ++ esign ++ es) by (lists; reflexivity).
    rewrite (jrun_then _ _ _ _ (Hexp _ _ _ _ _ _ H H0 H1 H2)).
    destruct es as [|d es]; [congruence|].
    assert (Hd := digit_value d (Forall_inv H5)).
    assert (He := jrun_exp_digits stack neg (decimal (int ++ ds))
                    (Z.of_nat (length ds)) eneg es (Z.of_N d - 48)
                    (Forall_inv_tail H5)).
    destruct H3; cbn [app jrun jstep jmd jstack num_step digit N.leb N.compare
                      Pos.compare Pos.compare_cont andb N.eqb Pos.eqb];
      rewrite Hd; exact He.
Qed.

(** The reader on the texts of the grammar: on a value and on an element
    it ends where the value belongs, on the elements of an array and the
    members of an object where the last of them belongs, the others
    having gone into the array or object. *)
Lemma jrun_grammar :
  (forall t v, Value t v ->
     forall stack closing, valued stack ->
     exists st, jrun (mkJ stack (JValue closing)) t = Some st /\
                value_read stack v st) /\
  (forall t v, Element t v ->
     forall stack closing, valued stack ->
     exists st, jrun (mkJ stack (JValue closing)) t = Some st /\
                value_read stack v st) /\
  (forall t vs, Elements t vs ->
     forall stack items closing,
     exists st vs' v,
       jrun (mkJ (CArr items :: stack) (JValue closing)) t = Some st /\
       vs = vs' ++ [v] /\
       value_read (CArr (rev vs' ++ items) :: stack) v st) /\
  (forall t m, Member t m ->
     forall stack ms closing,
     exists st,
       jrun (mkJ (CObj ms :: stack) (JKey closing)) t = Some st /\
       value_read (CKey ms (fst m) :: stack) (snd m) st) /\
  (forall t ms, Members t ms ->
     forall stack ms0 closing,
     exists st ms' m,
       jrun (mkJ (CObj ms0 :: stack) (JKey closing)) t = Some st /\
       ms = ms' ++ [m] /\
       value_read (CKey (rev ms' ++ ms0) (fst m) :: stack) (snd m) st).
Proof.
  apply grammar_rules.
  - (* null *)
    intros stack closing Hv.
    destruct stack as [|[?|?|? ?] stack]; try contradiction;
      (eexists; split; [reflexivity | left; reflexivity]).
  - intros stack closing Hv.
    destruct stack as [|[?|?|? ?] stack]; try contradiction;
      (eexists; split; [reflexivity | left; reflexivity]).
  - intros stack closing Hv.
    destruct stack as [|[?|?|? ?] stack]; try contradiction;
      (eexists; split; [reflexivity | left; reflexivity]).
  - (* a number *)
    intros s v Hn stack closing _.
    destruct (Number_Numeral _ _ Hn) as [n [Ht Hval]].
    exists (mkJ stack (JNum n)).
    split; [exact (jrun_Numeral stack closing n s Ht)|].
    right. exists n. split; [reflexivity | exact Hval].
  - (* a string *)
    intros body s Hb stack closing Hv.
    destruct (complete_valued stack (JString s) Hv) as [st E].
    exists st. split; [|left; exact E].
    cbn [jrun]. unfold jstep at 1. cbn [jmd jstack]. unfold value_step.
    cbn [is_ws N.eqb Pos.eqb orb].
    rewrite (jrun_then _ _ _ _ (jrun_Chars stack false body s Hb [])).
    cbn [jrun jstep jmd jstack N.eqb Pos.eqb string_end].
    rewrite app_nil_r, rev_involutive, E. reflexivity.
  - (* an empty array *)
    intros w Hw stack closing Hv.
    destruct (complete_valued stack (JArray []) Hv) as [st E].
    exists st. split; [|left; exact E].
    cbn [jrun]. unfold jstep at 1. cbn [jmd jstack]. unfold value_step.
    cbn [is_ws N.eqb Pos.eqb orb].
    rewrite (jrun_then _ _ _ _ (jrun_white_value _ true w Hw)).
    cbn [jrun]. unfold jstep at 1. cbn [jmd jstack]. unfold value_step.
    cbn [is_ws N.eqb Pos.eqb orb]. rewrite E. reflexivity.
  - (* an array *)
    intros s vs _ IH stack closing Hv.
    destruct (complete_valued stack (JArray vs) Hv) as [st E].
    exists st. split; [|left; exact E].
    cbn [jrun]. unfold jstep at 1. cbn [jmd jstack]. unfold value_step.
    cbn [is_ws N.eqb Pos.eqb orb].
    destruct (IH stack [] true) as [st1 [vs' [v [Hrun [-> Hr]]]]].
    rewrite (jrun_then _ _ _ _ Hrun). cbn [jrun].
    rewrite (jstep_value_read _ _ _ _ Hr)
      by (right; right; left; reflexivity).
    cbn [complete rest_step after_step jmd jstack is_ws N.eqb Pos.eqb orb].
    rewrite app_nil_r. cbn [rev]. rewrite rev_involutive, E. reflexivity.
  - (* an empty object *)
    intros w Hw stack closing Hv.
    destruct (complete_valued stack (JObject []) Hv) as [st E].
    exists st. split; [|left; exact E].
    cbn [jrun]. unfold jstep at 1. cbn [jmd jstack]. unfold value_step.
    cbn [is_ws N.eqb Pos.eqb orb].
    rewrite (jrun_then _ _ _ _ (jrun_white_key _ true w Hw)).
    cbn [jrun]. unfold jstep at 1. cbn [jmd jstack]. unfold key_step.
    cbn [is_ws N.eqb Pos.eqb orb]. rewrite E. reflexivity.
  - (* an object *)
    intros s ms _ IH stack closing Hv.
    destruct (complete_valued stack (JObject (properties ms)) Hv) as [st E].
    exists st. split; [|left; exact E].
    cbn [jrun]. unfold jstep at 1. cbn [jmd jstack]. unfold value_step.
    cbn [is_ws N.eqb Pos.eqb orb].
    destruct (IH stack [] true) as [st1 [ms' [m [Hrun [-> Hr]]]]].
    rewrite (jrun_then _ _ _ _ Hrun). cbn [jrun].
    rewrite (jstep_value_read _ _ _ _ Hr)
      by (right; right; right; left; reflexivity).
    cbn [complete rest_step after_step jmd jstack is_ws N.eqb Pos.eqb orb].
    rewrite app_nil_r. cbn [rev]. rewrite rev_involutive.
    destruct m as [key v]. cbn [fst snd]. rewrite E. reflexivity.
  - (* an element *)
    intros w1 s v w2 H1 _ IH H2 stack closing Hv.
    destruct (IH stack closing Hv) as [st [Hrun Hr]].
    destruct (jrun_white_read stack v st w2 Hv Hr H2) as [st' [Hrun' Hr']].
    exists st'. split; [|exact Hr'].
    rewrite (jrun_then _ _ _ _ (jrun_white_value stack closing w1 H1)).
    rewrite (jrun_then _ _ _ _ Hrun). exact Hrun'.
  - (* the first element *)
    intros s v _ IH stack items closing.
    destruct (IH (CArr items :: stack) closing I) as [st [Hrun Hr]].
    exists st, [], v. split; [exact Hrun|]. split; [reflexivity | exact Hr].
  - (* one more element *)
    intros s vs s' v _ IHs _ IH stack items closing.
    destruct (IHs stack items closing) as [st [vs' [v0 [Hrun [-> Hr]]]]].
    destruct (IH (CArr (v0 :: rev vs' ++ items) :: stack) false I)
      as [st' [Hrun' Hr']].
    exists st', (vs' ++ [v0]), v. split; [|split; [reflexivity|]].
    + rewrite (jrun_then _ _ _ _ Hrun). cbn [jrun].
      rewrite (jstep_value_read _ _ _ _ Hr) by (right; left; reflexivity).
      exact Hrun'.
    + rewrite rev_app_distr. exact Hr'.
  - (* a member *)
    intros w1 body key w2 s v H1 Hb H2 _ IH stack ms closing.
    destruct (IH (CKey ms key :: stack) false I) as [st [Hrun Hr]].
    exists st. split; [|exact Hr].
    rewrite (jrun_then _ _ _ _ (jrun_white_key _ closing w1 H1)).
    cbn [jrun]. unfold jstep at 1. cbn [jmd jstack]. unfold key_step.
    cbn [is_ws N.eqb Pos.eqb orb].
    rewrite (jrun_then _ _ _ _ (jrun_Chars _ true body key Hb [])).
    cbn [jrun]. unfold jstep at 1.
    cbn [jmd jstack N.eqb Pos.eqb string_end].
    rewrite app_nil_r, rev_involutive.
    rewrite (jrun_then _ _ _ _ (jrun_white_colon _ w2 H2)).
    cbn [jrun]. unfold jstep at 1. cbn [jmd jstack is_ws N.eqb Pos.eqb orb].
    exact Hrun.
  - (* the first member *)
    intros s m _ IH stack ms0 closing.
    destruct (IH stack ms0 closing) as [st [Hrun Hr]].
    exists st, [], m. split; [exact Hrun|]. split; [reflexivity | exact Hr].
  - (* one more member *)
    intros s ms s' m _ IHs _ IH stack ms0 closing.
    destruct (IHs stack ms0 closing) as [st [ms' [m0 [Hrun [-> Hr]]]]].
    destruct (IH stack (m0 :: rev ms' ++ ms0) false) as [st' [Hrun' Hr']].
    exists st', (ms' ++ [m0]), m. split; [|split; [reflexivity|]].
    + rewrite (jrun_then _ _ _ _ Hrun). cbn [jrun].
      rewrite (jstep_value_read _ _ _ _ Hr) by (right; left; reflexivity).
      destruct m0 as [key0 v0]. exact Hrun'.
    + rewrite rev_app_distr. exact Hr'.
Qed.

(** The reader accepts the texts of the grammar, with their values. *)
Lemma Text_parse text v : Text text v -> parse text = Some v.
Proof.
  intros H.
  destruct (proj1 (proj2 jrun_grammar) text v H [] false I) as [st [Hrun Hr]].
  unfold parse. rewrite Hrun.
  destruct Hr as [Hc | [n [-> Hn]]].
  - injection Hc as <-. reflexivity.
  - exact Hn.
Qed.

(** The reader and the grammar agree. *)
Lemma parse_iff_Text text v : parse text = Some v <-> Text text v.
Proof. split; [apply parse_Text | apply Text_parse]. Qed.

End JsonReading.

Section Doubles.

Open Scope Z_scope.

(** [nearest n d] is the integer nearest to [n / d]. *)
Lemma nearest_spec n d z :
  0 <= n -> 0 < d ->
  Z.abs (n - nearest n d * d) <= Z.abs (n - z * d) /\
  (Z.abs (n - nearest n d * d) = Z.abs (n - z * d) ->
   z = nearest n d \/ Z.even (nearest n d) = true) /\
  2 * Z.abs (n - nearest n d * d) <= d.
Proof.
  intros Hn Hd. unfold nearest.
  pose proof (Z.div_mod n d ltac:(lia)) as E.
  pose proof (Z.mod_pos_bound n d Hd) as Hr.
  set (q := n / d) in *. set (r := n mod d) in *.
  assert (Hz : z <= q - 1 \/ z = q \/ z = q + 1 \/ q + 2 <= z) by lia.
  destruct (Z.ltb_spec (2 * r) d) as [H1|H1];
    [|destruct (Z.ltb_spec d (2 * r)) as [H2|H2];
      [|destruct (Z.even q) eqn:Ev]].
  - repeat split; try (intros Heq; left); destruct Hz as [Hz|[Hz|[Hz|Hz]]]; nia.
  - repeat split; try (intros Heq; left); destruct Hz as [Hz|[Hz|[Hz|Hz]]]; nia.
  - repeat split; try (intros Heq; right; exact Ev);
      destruct Hz as [Hz|[Hz|[Hz|Hz]]]; nia.
  - assert (Ev' : Z.even (q + 1) = true).
    { rewrite Z.even_add, Ev. reflexivity. }
    repeat split; try (intros Heq; right; exact Ev');
      destruct Hz as [Hz|[Hz|[Hz|Hz]]]; nia.
Qed.

Lemma nearest_bounds n d :
  0 <= n -> 0 < d -> n / d <= nearest n d <= n / d + 1.
Proof.
  intros Hn Hd. unfold nearest.
  destruct (_ <? _); [lia|]. destruct (_ <? _); [lia|].
  destruct (Z.even _); lia.
Qed.

(** [binade n d] is the binary order of magnitude of [n / d]. *)
Lemma binade_spec n d :
  0 < d <= n ->
  0 <= binade n d /\ d * 2 ^ binade n d <= n < d * 2 ^ (binade n d + 1).
Proof.
  intros [Hd Hn]. unfold binade.
  pose proof (Z.log2_spec n ltac:(lia)) as [Ln Un].
  pose proof (Z.log2_spec d Hd) as [Ld Ud].
  pose proof (Z.log2_nonneg d) as Hld.
  pose proof (Z.log2_le_mono d n Hn) as Hle.
  set (ln := Z.log2 n) in *. set (ld := Z.log2 d) in *.
  assert (Hsplit : 2 ^ ln = 2 ^ (ln - ld) * 2 ^ ld).
  { rewrite <- Z.pow_add_r by lia. f_equal. lia. }
  assert (Hp : 0 < 2 ^ (ln - ld)) by (apply Z.pow_pos_nonneg; lia).
  assert (Hq : 0 < 2 ^ ld) by (apply Z.pow_pos_nonneg; lia).
  rewrite Z.pow_succ_r in Un, Ud by lia.
  destruct (Z.leb_spec (d * 2 ^ (ln - ld)) n) as [H|H].
  - split; [lia|]. split; [exact H|].
    replace (ln - ld + 1) with (Z.succ (ln - ld)) by lia.
    rewrite Z.pow_succ_r by lia. nia.
  - assert (Hpos : 0 < ln - ld).
    { destruct (Z.eq_dec ln ld) as [E|E]; [|lia].
      rewrite E, Z.sub_diag in H. simpl in H. lia. }
    split; [lia|].
    replace (ln - ld - 1 + 1) with (ln - ld) by lia.
    split; [|exact H].
    assert (Hh : 2 ^ (ln - ld) = 2 * 2 ^ (ln - ld - 1)).
    { rewrite <- Z.pow_succ_r by lia. f_equal. lia. }
    nia.
Qed.

Lemma binade_small n d : 0 <= n < d -> binade n d < 0.
Proof.
  intros [Hn Hd]. unfold binade.
  assert (Hle : Z.log2 n <= Z.log2 d) by (apply Z.log2_le_mono; lia).
  destruct (Z.eq_dec (Z.log2 n) (Z.log2 d)) as [E|E].
  - rewrite E, Z.sub_diag. destruct (Z.leb_spec (d * 2 ^ 0) n); simpl in *; lia.
  - destruct (_ <=? _); lia.
Qed.

(** The significand has at most 53 bits, or is [2 ^ 53]; above the
    subnormal numbers it has no fewer. *)
Lemma significand_range u d :
  0 <= u -> 0 < d ->
  0 <= significand u d (exponent u d) <= 2 ^ 53 /\
  (0 < exponent u d ->
   2 ^ 52 <= significand u d (exponent u d) /\
   d * 2 ^ (exponent u d + 52) <= u).
Proof.
  intros Hu Hd. unfold significand, exponent.
  destruct (Z.lt_ge_cases u d) as [Hlt|Hge].
  - pose proof (binade_small u d ltac:(lia)) as Hb.
    rewrite Z.max_r by lia. rewrite Z.pow_0_r, Z.mul_1_r.
    pose proof (nearest_bounds u d Hu Hd) as Hn.
    rewrite (Z.div_small u d) in Hn by lia.
    split; [|lia]. split; [lia|].
    assert (1 <= 2 ^ 53) by (apply Z.pow_le_mono_r with (b := 0); lia). lia.
  - destruct (binade_spec u d ltac:(lia)) as [Hb0 [Hlo Hhi]].
    set (b := binade u d) in *.
    destruct (Z.le_gt_cases b 52) as [Hb|Hb].
    + rewrite Z.max_r by lia. rewrite Z.pow_0_r, Z.mul_1_r.
      pose proof (nearest_bounds u d Hu Hd) as Hn.
      assert (Hp : 2 ^ (b + 1) <= 2 ^ 53) by (apply Z.pow_le_mono_r; lia).
      assert (Hq : u / d < 2 ^ (b + 1)).
      { apply Z.div_lt_upper_bound; [exact Hd | lia]. }
      pose proof (Z.div_pos u d Hu Hd). split; [lia|lia].
    + rewrite Z.max_l by lia.
      assert (Hk : 0 < 2 ^ (b - 52)) by (apply Z.pow_pos_nonneg; lia).
      assert (Hd' : 0 < d * 2 ^ (b - 52)) by nia.
      pose proof (nearest_bounds u _ Hu Hd') as Hn.
      assert (E1 : 2 ^ b = 2 ^ (b - 52) * 2 ^ 52).
      { rewrite <- Z.pow_add_r by lia. f_equal. lia. }
      assert (E2 : 2 ^ (b + 1) = 2 ^ (b - 52) * 2 ^ 53).
      { rewrite <- Z.pow_add_r by lia. f_equal. lia. }
      assert (Hq1 : 2 ^ 52 <= u / (d * 2 ^ (b - 52))).
      { apply Z.div_le_lower_bound; [exact Hd' | nia]. }
      assert (Hq2 : u / (d * 2 ^ (b - 52)) < 2 ^ 53).
      { apply Z.div_lt_upper_bound; [exact Hd' | nia]. }
      split; [lia|]. intros _. split; [lia|].
      replace (b - 52 + 52) with b by lia. exact Hlo.
Qed.

(** The double that [double] computes is nearest to [n / d] among the
    doubles, here in units of [2 ^ (- 1074)] with any exponent; of two
    multiples of [2 ^ k] that are equally near it is the even one. *)
Lemma significand_nearest u d :
  0 <= u -> 0 < d ->
  let k := exponent u d in
  let m := significand u d k in
  (forall m' k', 0 <= m' < 2 ^ 53 -> 0 <= k' ->
     Z.abs (u - m * 2 ^ k * d) <= Z.abs (u - m' * 2 ^ k' * d)) /\
  (forall z, z <> m ->
     Z.abs (u - z * 2 ^ k * d) = Z.abs (u - m * 2 ^ k * d) ->
     Z.even m = true).
Proof.
  intros Hu Hd k m.
  assert (Hk0 : 0 <= k) by (unfold k, exponent; lia).
  assert (Hk : 0 < 2 ^ k) by (apply Z.pow_pos_nonneg; lia).
  assert (Hd' : 0 < d * 2 ^ k) by nia.
  assert (Hnear : forall z,
            Z.abs (u - m * 2 ^ k * d) <= Z.abs (u - z * 2 ^ k * d) /\
            (Z.abs (u - m * 2 ^ k * d) = Z.abs (u - z * 2 ^ k * d) ->
             z = m \/ Z.even m = true)).
  { intros z. destruct (nearest_spec u (d * 2 ^ k) z Hu Hd') as [H1 [H2 _]].
    fold (significand u d k) in H1, H2. fold m in H1, H2.
    replace (m * 2 ^ k * d) with (m * (d * 2 ^ k)) by ring.
    replace (z * 2 ^ k * d) with (z * (d * 2 ^ k)) by ring.
    split; assumption. }
  split.
  - intros m' k' Hm' Hk'.
    destruct (Z.le_gt_cases k k') as [Hle|Hgt].
    + replace (m' * 2 ^ k') with (m' * 2 ^ (k' - k) * 2 ^ k).
      * apply Hnear.
      * rewrite <- Z.mul_assoc, <- Z.pow_add_r by lia. do 2 f_equal. lia.
    + destruct (significand_range u d Hu Hd) as [_ Hr].
      destruct (Hr ltac:(fold k; lia)) as [_ Hlow]. fold k in Hlow.
      destruct (Hnear (2 ^ 52)) as [H52 _].
      assert (E : 2 ^ (k + 52) = 2 ^ 52 * 2 ^ k).
      { rewrite Z.pow_add_r by lia. ring. }
      assert (Hsmall : m' * 2 ^ k' < 2 ^ (k + 52)).
      { assert (Hk1 : 2 ^ k' <= 2 ^ (k - 1)) by (apply Z.pow_le_mono_r; lia).
        assert (E' : 2 ^ (k + 52) = 2 ^ 53 * 2 ^ (k - 1)).
        { rewrite <- Z.pow_add_r by lia. f_equal. lia. }
        assert (0 < 2 ^ k') by (apply Z.pow_pos_nonneg; lia).
        nia. }
      rewrite E in Hlow, Hsmall. nia.
  - intros z Hz Heq. destruct (Hnear z) as [_ H].
    destruct (H (eq_sym Heq)) as [E|E]; [contradiction | exact E].
Qed.

Lemma trailing_zeros_spec p :
  0 <= trailing_zeros p /\
  exists o, Z.pos p = o * 2 ^ trailing_zeros p /\ Z.odd o = true.
Proof.
  induction p as [p _|p [IH0 [o [IH Ho]]]|].
  - split; [simpl; lia|]. exists (Z.pos p~1). split; [simpl; lia | reflexivity].
  - cbn [trailing_zeros]. split; [lia|]. exists o. split; [|exact Ho].
    replace (1 + trailing_zeros p) with (Z.succ (trailing_zeros p)) by lia.
    rewrite Z.pow_succ_r by lia. rewrite Pos2Z.inj_xO, IH. ring.
  - split; [simpl; lia|]. exists 1. split; reflexivity.
Qed.

(** [dyadic] writes [m * 2 ^ e] as a decimal, exactly, and in one way:
    with no exponent when the number is an integer, and else with a
    mantissa that is odd. *)
Lemma dyadic_exact neg m e :
  0 < m ->
  exists a x,
    dyadic neg m e = JNumber (signed neg a) x /\ 0 < a /\ x <= 0 /\
    a * 2 ^ Z.max 0 (- e) = m * 2 ^ Z.max 0 e * 10 ^ (- x) /\
    (x < 0 -> Z.odd a = true).
Proof.
  intros Hm. unfold dyadic. destruct (Z.leb_spec 0 e) as [He|He].
  - exists (m * 2 ^ e), 0. split; [reflexivity|].
    assert (0 < 2 ^ e) by (apply Z.pow_pos_nonneg; lia).
    split; [nia|]. split; [lia|].
    rewrite Z.max_l, Z.max_r by lia. simpl. split; [ring | lia].
  - destruct m as [|p|p]; try lia.
    destruct (trailing_zeros_spec p) as [Ht [o [Ep Ho]]].
    set (tz := trailing_zeros p) in *. set (t := Z.min tz (- e)).
    assert (Ht' : 0 <= t <= tz) by (unfold t; lia).
    assert (Hte : t <= - e) by (unfold t; lia).
    assert (E2 : 2 ^ tz = 2 ^ (tz - t) * 2 ^ t).
    { rewrite <- Z.pow_add_r by lia. f_equal. lia. }
    assert (P1 : 0 < 2 ^ t) by (apply Z.pow_pos_nonneg; lia).
    assert (P2 : 0 < 2 ^ (tz - t)) by (apply Z.pow_pos_nonneg; lia).
    assert (P3 : 0 < 5 ^ (- e - t)) by (apply Z.pow_pos_nonneg; lia).
    assert (Hdiv : Z.pos p / 2 ^ t = o * 2 ^ (tz - t)).
    { rewrite Ep, E2, Z.mul_assoc. apply Z.div_mul. lia. }
    assert (Hopos : 0 < o) by nia.
    exists (Z.pos p / 2 ^ t * 5 ^ (- e - t)), (e + t).
    split; [reflexivity|]. rewrite Hdiv.
    split; [nia|]. split; [lia|]. split.
    + rewrite Z.max_r, Z.max_l by lia. rewrite Z.pow_0_r, Z.mul_1_r.
      replace (- (e + t)) with (- e - t) by lia.
      replace (10 ^ (- e - t)) with (2 ^ (- e - t) * 5 ^ (- e - t))
        by (rewrite <- Z.pow_mul_l; reflexivity).
      replace (2 ^ (- e)) with (2 ^ (- e - t) * 2 ^ t)
        by (rewrite <- Z.pow_add_r by lia; f_equal; lia).
      rewrite Ep, E2. ring.
    + intros Hx. assert (Etz : t = tz) by (unfold t in *; lia).
      rewrite Etz, Z.sub_diag, Z.pow_0_r, Z.mul_1_r.
      rewrite Z.odd_mul, Ho. cbn [andb].
      rewrite Z.odd_pow by lia. reflexivity.
Qed.

(** An integer below [2 ^ 53] is a double: a number token that writes it
    denotes it. *)
Lemma number_integer neg v :
  0 < v < 2 ^ 53 -> number neg v 0 = JNumber (signed neg v) 0.
Proof.
  intros Hv. unfold number. cbn [Z.leb Z.compare]. rewrite Z.pow_0_r, Z.mul_1_r.
  unfold double.
  set (u := v * 2 ^ 1074). set (k := exponent u 1). set (m := significand u 1 k).
  assert (Hu : 0 <= u) by (unfold u; lia).
  destruct (significand_range u 1 Hu ltac:(lia)) as [[Hm0 Hm53] _].
  destruct (significand_nearest u 1 Hu ltac:(lia)) as [Hnear _].
  fold k in Hm0, Hm53, Hnear. fold m in Hm0, Hm53, Hnear.
  specialize (Hnear v 1074 ltac:(lia) ltac:(lia)).
  assert (Hk0 : 0 <= k) by (unfold k, exponent; lia).
  assert (Hk : 0 < 2 ^ k) by (apply Z.pow_pos_nonneg; lia).
  assert (Em : m * 2 ^ k = u) by (unfold u in *; lia).
  assert (Hmpos : 0 < m) by (unfold u in *; nia).
  destruct (Z.eqb_spec m 0) as [|_]; [lia|].
  destruct (Z.leb_spec (2 ^ 2098) (m * 2 ^ k)) as [Hover|_].
  { rewrite Em in Hover. unfold u in Hover.
    change (2 ^ 2098) with (2 ^ 1024 * 2 ^ 1074) in Hover. nia. }
  destruct (dyadic_exact neg m (k - 1074) Hmpos) as [a [x [-> [Ha [Hx [Ea Hodd]]]]]].
  assert (Hax : a = v /\ x = 0); [|destruct Hax as [-> ->]; reflexivity].
  destruct (Z.le_gt_cases 1074 k) as [Hge|Hlt].
  - rewrite Z.max_l, Z.max_r in Ea by lia. rewrite Z.pow_0_r, Z.mul_1_r in Ea.
    assert (E : 2 ^ k = 2 ^ (k - 1074) * 2 ^ 1074).
    { rewrite <- Z.pow_add_r by lia. f_equal. lia. }
    assert (Ev : m * 2 ^ (k - 1074) = v).
    { unfold u in Em. rewrite E in Em. lia. }
    rewrite Ev in Ea.
    destruct (Z.eq_dec x 0) as [->|Hx0]; [simpl in Ea; lia|].
    exfalso. specialize (Hodd ltac:(lia)).
    assert (E10 : 10 ^ (- x) = 10 * 10 ^ (- x - 1)).
    { rewrite <- Z.pow_succ_r by lia. f_equal. lia. }
    rewrite E10 in Ea. rewrite Ea in Hodd.
    replace (v * (10 * 10 ^ (- x - 1))) with (2 * (v * 5 * 10 ^ (- x - 1)))
      in Hodd by ring.
    rewrite Z.odd_mul in Hodd. discriminate.
  - rewrite Z.max_r, Z.max_l in Ea by lia. rewrite Z.pow_0_r, Z.mul_1_r in Ea.
    assert (E : 2 ^ 1074 = 2 ^ (- (k - 1074)) * 2 ^ k).
    { rewrite <- Z.pow_add_r by lia. f_equal. lia. }
    assert (Ev : m = v * 2 ^ (- (k - 1074))).
    { unfold u in Em. rewrite E in Em. nia. }
    assert (P : 0 < 2 ^ (- (k - 1074))) by (apply Z.pow_pos_nonneg; lia).
    assert (Ea' : a = v * 10 ^ (- x)) by nia.
    destruct (Z.eq_dec x 0) as [->|Hx0]; [simpl in Ea'; lia|].
    exfalso. specialize (Hodd ltac:(lia)).
    assert (E10 : 10 ^ (- x) = 10 * 10 ^ (- x - 1)).
    { rewrite <- Z.pow_succ_r by lia. f_equal. lia. }
    rewrite Ea', E10 in Hodd.
    replace (v * (10 * 10 ^ (- x - 1))) with (2 * (v * 5 * 10 ^ (- x - 1)))
      in Hodd by ring.
    rewrite Z.odd_mul in Hodd. discriminate.
Qed.

End Doubles.

Section KeyOrder.

Lemma insert_index_perm x l : Permutation (insert_index x l) (x :: l).
Proof.
  induction l as [|y l IH]; simpl; [apply Permutation_refl|].
  destruct (N.leb (fst x) (fst y)); [apply Permutation_refl|].
  apply (Permutation_trans (perm_skip y IH)). apply perm_swap.
Qed.

Lemma sort_index_perm l : Permutation (fold_right insert_index [] l) l.
Proof.
  induction l as [|x l IH]; simpl; [constructor|].
  apply (Permutation_trans (insert_index_perm x _)). constructor. exact IH.
Qed.

Lemma indexed_keys ks : List.map snd (indexed ks) = filter is_index ks.
Proof.
  unfold indexed, is_index. induction ks as [|k ks IH]; simpl; [reflexivity|].
  destruct (array_index k); simpl; rewrite IH; reflexivity.
Qed.

Lemma filter_partition {A} (P : A -> bool) (l : list A) :
  Permutation (filter P l ++ filter (fun x => negb (P x)) l) l.
Proof.
  induction l as [|x l IH]; simpl; [constructor|].
  destruct (P x); simpl.
  - constructor. exact IH.
  - apply Permutation_sym, Permutation_cons_app, Permutation_sym. exact IH.
Qed.

(** The enumeration of keys loses none and adds none. *)
Lemma enumerate_perm ks : Permutation (enumerate ks) ks.
Proof.
  unfold enumerate.
  apply (Permutation_trans
           (l' := filter is_index ks ++ filter (fun k => negb (is_index k)) ks)).
  - apply Permutation_app_tail. rewrite <- indexed_keys.
    apply Permutation_map. apply sort_index_perm.
  - apply filter_partition.
Qed.

End KeyOrder.

Section ObjectProperties.

Lemma str_eqb_refl a : str_eqb a a = true.
Proof. apply str_eqb_eq. reflexivity. Qed.

Lemma str_eqb_sym a b : str_eqb a b = str_eqb b a.
Proof.
  destruct (str_eqb a b) eqn:E; destruct (str_eqb b a) eqn:E'; try reflexivity.
  - apply str_eqb_eq in E. subst b. rewrite str_eqb_refl in E'. discriminate.
  - apply str_eqb_eq in E'. subst b. rewrite str_eqb_refl in E. discriminate.
Qed.

Lemma existsb_key k (ks : list jsstring) :
  existsb (fun x => str_eqb x k) ks = true <-> In k ks.
Proof.
  rewrite existsb_exists. split.
  - intros [x [Hx E]]. apply str_eqb_eq in E. subst x. exact Hx.
  - intros H. exists k. split; [exact H | apply str_eqb_refl].
Qed.

Lemma define_keys obj k v :
  List.map fst (define obj k v) =
  if existsb (fun x => str_eqb x k) (List.map fst obj)
  then List.map fst obj else List.map fst obj ++ [k].
Proof.
  induction obj as [|[k0 x] obj IH]; [reflexivity|].
  cbn [define List.map fst existsb]. destruct (str_eqb k0 k); [reflexivity|].
  cbn [List.map fst orb]. rewrite IH.
  destruct (existsb _ _); reflexivity.
Qed.

Lemma define_lookup obj k v key :
  lookup (define obj k v) key =
  if str_eqb k key then Some v else lookup obj key.
Proof.
  induction obj as [|[k0 x] obj IH]; [reflexivity|].
  cbn [define lookup]. destruct (str_eqb k0 k) eqn:E.
  - apply str_eqb_eq in E. subst k0. cbn [lookup].
    destruct (str_eqb k key); reflexivity.
  - cbn [lookup]. rewrite IH.
    destruct (str_eqb k0 key) eqn:E0; [|reflexivity].
    apply str_eqb_eq in E0. subst k0. rewrite str_eqb_sym, E. reflexivity.
Qed.

Lemma distinct_In k ks : In k (distinct ks) <-> In k ks.
Proof.
  induction ks as [|x ks IH]; [reflexivity|].
  cbn [distinct]. split.
  - intros [-> | H]; [left; reflexivity|].
    apply filter_In in H. right. apply IH. exact (proj1 H).
  - intros [-> | H]; [left; reflexivity|].
    destruct (str_eqb k x) eqn:E.
    + apply str_eqb_eq in E. left. symmetry. exact E.
    + right. apply filter_In. split; [apply IH; exact H|]. rewrite E. reflexivity.
Qed.

Lemma distinct_snoc ks k :
  distinct (ks ++ [k]) =
  if existsb (fun x => str_eqb x k) ks then distinct ks else distinct ks ++ [k].
Proof.
  induction ks as [|x ks IH]; [reflexivity|].
  cbn [app distinct existsb]. rewrite IH.
  destruct (existsb (fun x0 => str_eqb x0 k) ks) eqn:Ek.
  - rewrite orb_true_r. reflexivity.
  - rewrite orb_false_r, filter_app. cbn [filter].
    rewrite (str_eqb_sym k x).
    destruct (str_eqb x k); cbn [negb]; [rewrite app_nil_r|]; reflexivity.
Qed.

(** The properties of the object that members build are created in the
    order in which their names come first. *)
Lemma created_keys ms :
  List.map fst (created ms) = distinct (List.map fst ms).
Proof.
  unfold created. induction ms as [|m ms IH] using rev_ind; [reflexivity|].
  rewrite fold_left_app. cbn [fold_left]. rewrite define_keys, IH.
  rewrite map_app. cbn [List.map]. rewrite distinct_snoc.
  replace (existsb (fun x => str_eqb x (fst m)) (distinct (List.map fst ms)))
    with (existsb (fun x => str_eqb x (fst m)) (List.map fst ms));
    [reflexivity|].
  apply eq_true_iff_eq. rewrite !existsb_key. symmetry. apply distinct_In.
Qed.

(** A property has the value of the last member of its name. *)
Lemma created_lookup ms key : lookup (created ms) key = lookup (rev ms) key.
Proof.
  unfold created. induction ms as [|m ms IH] using rev_ind; [reflexivity|].
  rewrite fold_left_app. cbn [fold_left]. rewrite define_lookup, IH.
  rewrite rev_app_distr. destruct m as [k v]. reflexivity.
Qed.

Lemma lookup_keys obj key :
  lookup obj key = None <-> ~ In key (List.map fst obj).
Proof.
  induction obj as [|[k x] obj IH]; cbn [lookup List.map fst In].
  - tauto.
  - destruct (str_eqb k key) eqn:E.
    + apply str_eqb_eq in E. split; [discriminate | tauto].
    + rewrite IH. split; [|tauto]. intros H [Hk | Hin]; [|tauto].
      subst k. rewrite str_eqb_refl in E. discriminate.
Qed.

(** The object that [JSON.parse] builds from the members of an object
    text: its keys are the names of the members, each once, enumerated
    as the language enumerates them in their order of creation, and
    each has the value of the last member of its name. *)
Lemma properties_spec ms :
  List.map fst (properties ms) = enumerate (distinct (List.map fst ms)) /\
  forall key, lookup (properties ms) key = lookup (rev ms) key.
Proof.
  unfold properties. cbv zeta. rewrite <- created_keys.
  set (obj := created ms).
  set (f := fun k => match lookup obj k with
                     | Some v => [(k, v)]
                     | None => []
                     end).
  pose proof (enumerate_perm (List.map fst obj)) as Hperm.
  split.
  - assert (H : forall ks, (forall k, In k ks -> In k (List.map fst obj)) ->
                List.map fst (flat_map f ks) = ks).
    { induction ks as [|k ks IH]; intros Hin; [reflexivity|].
      cbn [flat_map]. rewrite map_app, IH by (intros; apply Hin; right; auto).
      unfold f. destruct (lookup obj k) eqn:E; [reflexivity|].
      apply lookup_keys in E. exfalso. apply E, Hin. left. reflexivity. }
    apply H. intros k Hk. exact (Permutation_in _ Hperm Hk).
  - intros key. rewrite <- created_lookup. fold obj.
    assert (H : forall ks,
                lookup (flat_map f ks) key =
                if existsb (fun x => str_eqb x key) ks
                then lookup obj key else None).
    { induction ks as [|k ks IH]; [reflexivity|].
      cbn [flat_map existsb]. unfold f at 1.
      destruct (str_eqb k key) eqn:E; cbn [orb].
      - apply str_eqb_eq in E. subst k.
        destruct (lookup obj key) eqn:El; cbn [app lookup].
        + rewrite str_eqb_refl. reflexivity.
        + rewrite IH. destruct (existsb _ ks); reflexivity.
      - destruct (lookup obj k); cbn [app lookup]; rewrite ?E; exact IH. }
    rewrite H.
    destruct (existsb (fun x => str_eqb x key)
                (enumerate (List.map fst obj))) eqn:Ex; [reflexivity|].
    symmetry. apply lookup_keys. intros Hin.
    apply (Permutation_in _ (Permutation_sym Hperm)) in Hin.
    apply existsb_key in Hin. congruence.
Qed.

End ObjectProperties.

(* ================================================================== *)
(** * Properties of the message store *)
(* ================================================================== *)

Section MessageStore.

Lemma maxHistorySize_pos : 0 < maxHistorySize.
Proof. apply Nat.ltb_lt. vm_compute. reflexivity. Qed.

Lemma storeMessage_messages now message st :
  messages (snd (storeMessage now message st)) =
  skipn (length (messages st ++ [stamp now message]) - maxHistorySize)
        (messages st ++ [stamp now message]).
Proof.
  run_store. simpl.
  destruct (Nat.ltb_spec maxHistorySize
              (length (messages st ++ [stamp now message]))) as [H|H].
  - reflexivity.
  - replace (length (messages st ++ [stamp now message]) - maxHistorySize)
      with 0 by lia.
    reflexivity.
Qed.

Lemma storeMessage_topics now message st :
  topics (snd (storeMessage now message st)) = topics st /\
  topicId (snd (storeMessage now message st)) = topicId st.
Proof. split; reflexivity. Qed.

Lemma keep_last_length {A} (n : nat) (l : list A) :
  length (skipn (length l - n) l) = Nat.min (length l) n.
Proof. rewrite length_skipn. lia. Qed.

(** Keeping the last [n] after one more element is keeping the last [n]
    of the whole history. *)
Lemma keep_last_snoc {A} (n : nat) (l : list A) (x : A) :
  0 < n ->
  skipn (length (skipn (length l - n) l ++ [x]) - n)
        (skipn (length l - n) l ++ [x]) =
  skipn (length (l ++ [x]) - n) (l ++ [x]).
Proof.
  intros Hn. rewrite !length_app, keep_last_length. simpl.
  destruct (Nat.le_gt_cases (length l) n) as [H|H].
  - replace (length l - n) with 0 by lia. simpl.
    replace (Nat.min (length l) n) with (length l) by lia. reflexivity.
  - replace (Nat.min (length l) n + 1 - n) with 1 by lia.
    rewrite !skipn_app, skipn_skipn, length_skipn.
    replace (1 + (length l - n)) with (length l + 1 - n) by lia.
    replace (1 - (length l - (length l - n))) with 0 by lia.
    replace (length l + 1 - n - length l) with 0 by lia.
    reflexivity.
Qed.

Lemma after_snoc calls c : after (calls ++ [c]) = exec (after calls) c.
Proof. unfold after. rewrite fold_left_app. reflexivity. Qed.

Lemma appended_snoc calls c :
  appended (calls ++ [c]) =
  appended calls ++ match c with
                    | StoreMessage now message => [stamp now message]
                    | _ => []
                    end.
Proof. unfold appended. rewrite flat_map_app. simpl. rewrite app_nil_r. reflexivity. Qed.

Lemma exec_messages st c :
  messages (exec st c) =
  match c with
  | StoreMessage now message => messages (snd (storeMessage now message st))
  | _ => messages st
  end.
Proof.
  destruct c; try reflexivity.
  - unfold exec. run_store. simpl.
    destruct (find _ _); reflexivity.
  - unfold exec. run_store. simpl.
    destruct (find _ _); reflexivity.
Qed.

(** The store holds the last [maxHistorySize] appended messages, in the
    order of their arrival. *)
Lemma after_messages calls :
  messages (after calls) =
  skipn (length (appended calls) - maxHistorySize) (appended calls).
Proof.
  induction calls as [|c calls IH] using rev_ind; [reflexivity|].
  rewrite after_snoc, appended_snoc, exec_messages.
  destruct c; rewrite ?app_nil_r; try exact IH.
  rewrite storeMessage_messages, IH.
  apply keep_last_snoc. exact maxHistorySize_pos.
Qed.

Lemma appended_stamped calls msg :
  In msg (appended calls) -> timestamp msg <> None.
Proof.
  unfold appended. rewrite in_flat_map. intros [c [_ Hin]].
  destruct c; simpl in Hin; try contradiction.
  destruct Hin as [<- | []]. unfold stamp.
  destruct (timestamp message) eqn:E; simpl; congruence.
Qed.

Lemma in_skipn {A} (n : nat) (l : list A) (x : A) : In x (skipn n l) -> In x l.
Proof.
  intros H. rewrite <- (firstn_skipn n l). apply in_or_app. right. exact H.
Qed.

Lemma startTime_duration now timeRange :
  startTime now timeRange = (now - duration timeRange)%Z.
Proof.
  unfold startTime, duration, hour.
  destruct (str_eqb timeRange (js "1h")) eqn:E1.
  - apply str_eqb_eq in E1. subst timeRange. reflexivity.
  - destruct (str_eqb timeRange (js "6h")); [reflexivity|].
    destruct (str_eqb timeRange (js "24h")); [reflexivity|].
    destruct (str_eqb timeRange (js "7d")); reflexivity.
Qed.

End MessageStore.

Section TopicTable.

Lemma in_map_values {V} (mp : jsmap V) (v : V) :
  In v (map_values mp) <-> exists k, In (k, v) mp.
Proof.
  unfold map_values. rewrite in_map_iff. split.
  - intros [[k v'] [<- H]]. exists k. exact H.
  - intros [k H]. exists (k, v). auto.
Qed.

Lemma map_has_in {V} k (mp : jsmap V) :
  map_has k mp = true <-> In k (List.map fst mp).
Proof.
  unfold map_has. rewrite existsb_exists, in_map_iff. split.
  - intros [e [H1 H2]]. apply Z.eqb_eq in H2. eauto.
  - intros [e [H1 H2]]. exists e. split; [exact H2 | apply Z.eqb_eq; exact H1].
Qed.

Lemma map_set_fresh {V} k (v : V) (mp : jsmap V) :
  map_has k mp = false -> map_set k v mp = mp ++ [(k, v)].
Proof.
  unfold map_has. induction mp as [|e mp IH]; simpl; [reflexivity|].
  intros H. apply orb_false_iff in H. destruct H as [He Hmp].
  rewrite He, IH; auto.
Qed.

(** Below the counter means not in the table. *)
Lemma wf_fresh st : topics_wf st -> map_has (topicId st) (topics st) = false.
Proof.
  intros [Hk _]. destruct (map_has (topicId st) (topics st)) eqn:E; [|reflexivity].
  apply map_has_in in E. apply in_map_iff in E.
  destruct E as [[k t] [Hfst Hin]]. simpl in Hfst. subst k.
  apply Hk in Hin. lia.
Qed.

Lemma NoDup_map_filter {A B} (f : A -> B) (P : A -> bool) (l : list A) :
  NoDup (List.map f l) -> NoDup (List.map f (filter P l)).
Proof.
  induction l as [|x l IH]; simpl; intros H; [constructor|].
  inversion H as [|y l' Hx Hl]; subst.
  destruct (P x); simpl; [|auto].
  constructor; [|auto].
  intros Hin. apply Hx. apply in_map_iff in Hin.
  destruct Hin as [z [Hz Hin]]. apply filter_In in Hin.
  apply in_map_iff. exists z. tauto.
Qed.

Lemma find_path_none st p :
  find (fun t => str_eqb (path t) p) (map_values (topics st)) = None <->
  forall t, In t (map_values (topics st)) -> path t <> p.
Proof.
  split.
  - intros H t Hin Hp. apply (find_none _ _ H) in Hin. simpl in Hin.
    subst p. rewrite (proj2 (str_eqb_eq _ _) eq_refl) in Hin. discriminate.
  - intros H. destruct (find _ _) as [t|] eqn:E; [|reflexivity].
    apply find_some in E. destruct E as [Hin Hp].
    apply str_eqb_eq in Hp. exfalso. exact (H t Hin Hp).
Qed.

(** Two stored topics with one path are one topic. *)
Lemma wf_path_unique st t1 t2 :
  topics_wf st ->
  In t1 (map_values (topics st)) -> In t2 (map_values (topics st)) ->
  path t1 = path t2 -> t1 = t2.
Proof.
  intros [_ [_ Hp]]. generalize dependent (map_values (topics st)).
  intros l Hnd. induction l as [|x l IH]; simpl; [contradiction|].
  inversion Hnd as [|y l' Hx Hl]; subst.
  intros [-> | H1] [-> | H2] Heq; auto.
  - exfalso. apply Hx. rewrite Heq. apply in_map. exact H2.
  - exfalso. apply Hx. rewrite <- Heq. apply in_map. exact H1.
Qed.

Lemma topics_wf_empty : topics_wf empty.
Proof.
  split; [intros k t []|]. split; constructor.
Qed.

Lemma incr_lt n : (n < 9007199254740992)%Z -> incr n = (n + 1)%Z.
Proof.
  intros H. unfold incr. destruct (Z.ltb_spec n 9007199254740992); [reflexivity | lia].
Qed.

Lemma createTopic_wf topic st :
  topics_wf st -> (topicId st < 9007199254740992)%Z ->
  topics_wf (snd (createTopic topic st)).
Proof.
  intros Hwf Hlt. run_store.
  destruct (find _ _) as [t|] eqn:E; simpl; [exact Hwf|].
  pose proof (wf_fresh st Hwf) as Hfresh.
  destruct Hwf as [Hk [Hkeys Hpaths]].
  rewrite (find_path_none st (ipath topic)) in E.
  unfold topics_wf. simpl. rewrite (map_set_fresh _ _ _ Hfresh), (incr_lt _ Hlt).
  split; [|split].
  - intros k t Hin. apply in_app_or in Hin. destruct Hin as [Hin | [Heq | []]].
    + apply Hk in Hin. lia.
    + injection Heq as <- <-. simpl. lia.
  - rewrite map_app. simpl. apply NoDup_app.
    + exact Hkeys.
    + repeat constructor. intros [].
    + intros k Hin [<- | []]. apply map_has_in in Hin. congruence.
  - unfold map_values in *. rewrite !map_app. simpl. apply NoDup_app.
    + exact Hpaths.
    + repeat constructor. intros [].
    + intros q Hin [<- | []]. apply in_map_iff in Hin.
      destruct Hin as [t [Hq Hin]]. exact (E t Hin Hq).
Qed.

Lemma deleteTopic_wf p st : topics_wf st -> topics_wf (snd (deleteTopic p st)).
Proof.
  intros Hwf. run_store.
  destruct (find _ _) as [t|] eqn:E; simpl; [|exact Hwf].
  destruct Hwf as [Hk [Hkeys Hpaths]].
  unfold topics_wf, map_delete. simpl. split; [|split].
  - intros k t0 Hin. apply filter_In in Hin. apply Hk. tauto.
  - apply NoDup_map_filter. exact Hkeys.
  - unfold map_values in *. rewrite map_map in *.
    apply NoDup_map_filter. exact Hpaths.
Qed.

Lemma exec_wf st c :
  topics_wf st -> (topicId st < 9007199254740992)%Z -> topics_wf (exec st c).
Proof.
  intros Hwf Hlt. destruct c; simpl; try exact Hwf.
  - apply createTopic_wf; assumption.
  - apply deleteTopic_wf; assumption.
Qed.

End TopicTable.

(* ================================================================== *)
(** * Properties of the bridge *)
(* ================================================================== *)

Section MessageHandler.

(** The loop over the listeners: what a listener throws is caught inside
    its own turn and logged; the loop ends early when the value caught
    has no text, for then the template of the log line throws. *)
Lemma forEach_listeners message ls : forall b,
  forEach
    (fun listener =>
       try_catch (callE message listener)
                 (fun err => logE (js "Error in message listener") err))
    ls b =
  (loop_end message ls,
   mkBridge (client b) (messageListeners b) (subscribedTopics b) (pending b)
            (storage b)
            (trace b ++ flat_map (notified message) (called message ls))).
Proof.
  induction ls as [|l ls IH]; intros b.
  - simpl. unfold pure. rewrite app_nil_r. destruct b; reflexivity.
  - cbn [forEach called loop_end flat_map].
    unfold andThen, try_catch, callE, logE, log, notified, unprintable.
    destruct (throws l message); cbn [andb].
    + destruct (thrown l message) as [subject|raised].
      * rewrite IH. cbn [client messageListeners subscribedTopics pending
          storage trace]. rewrite <- !app_assoc. reflexivity.
      * cbn [flat_map]. rewrite app_nil_r. reflexivity.
    + rewrite IH. cbn [client messageListeners subscribedTopics pending
        storage trace]. rewrite <- !app_assoc. reflexivity.
Qed.

Lemma parsePayload_decoded text b :
  parsePayload text b = (Completes (decoded text), b).
Proof.
  unfold parsePayload, try_catch, parseE, decoded, pure.
  destruct (Json.parse text); reflexivity.
Qed.

(** What the handler does, in one equation. *)
Lemma onMessageE_eq now t text b :
  onMessageE now t text b =
  let message := mkMessage t (decoded text) (Some now) in
  (handler_end message (messageListeners b),
   mkBridge (client b) (messageListeners b) (subscribedTopics b) (pending b)
            (snd (storeMessage now message (storage b)))
            (trace b ++ Stored message
               :: handled message (messageListeners b))).
Proof.
  unfold onMessageE. unfold try_catch at 1. unfold andThen at 1.
  rewrite parsePayload_decoded. unfold andThen, storeE, getListeners.
  cbv beta iota zeta. rewrite forEach_listeners. cbn [client messageListeners
    subscribedTopics pending storage trace].
  unfold handler_end, handled.
  destruct (loop_end (mkMessage t (decoded text) (Some now))
              (messageListeners b)) as [[]|[subject|raised]];
    unfold logE, log; cbn [client messageListeners subscribedTopics pending
      storage trace]; rewrite <- ?app_assoc; cbn [app];
    rewrite ?app_nil_r; reflexivity.
Qed.

Lemma deliveries_app a b : deliveries (a ++ b) = deliveries a ++ deliveries b.
Proof. unfold deliveries. apply flat_map_app. Qed.

Lemma stores_app a b : stores (a ++ b) = stores a ++ stores b.
Proof. unfold stores. apply flat_map_app. Qed.

Lemma deliveries_notified message ls :
  deliveries (flat_map (notified message) ls) =
  List.map (fun l => (lid l, message)) ls.
Proof.
  induction ls as [|l ls IH]; [reflexivity|].
  simpl. unfold deliveries in *. rewrite flat_map_app, IH.
  destruct (throws l message); [destruct (thrown l message)|]; reflexivity.
Qed.

Lemma stores_notified message ls :
  stores (flat_map (notified message) ls) = [].
Proof.
  induction ls as [|l ls IH]; [reflexivity|].
  simpl. unfold stores in *. rewrite flat_map_app, IH.
  destruct (throws l message); [destruct (thrown l message)|]; reflexivity.
Qed.

(** The handler hands the message to the listeners that the loop reaches,
    and to the store once. *)
Lemma deliveries_handled message ls :
  deliveries (handled message ls) =
  List.map (fun l => (lid l, message)) (called message ls).
Proof.
  unfold handled. rewrite deliveries_app, deliveries_notified.
  destruct (loop_end message ls) as [[]|[subject|raised]]; apply app_nil_r.
Qed.

Lemma stores_handled message ls : stores (handled message ls) = [].
Proof.
  unfold handled. rewrite stores_app, stores_notified.
  destruct (loop_end message ls) as [[]|[subject|raised]]; reflexivity.
Qed.

(** The loop stops at the first listener that throws a value without a
    text. *)
Lemma called_until message before l skipped :
  (forall x, In x before -> unprintable message x = false) ->
  unprintable message l = true ->
  called message (before ++ l :: skipped) = before ++ [l].
Proof.
  intros Hbefore Hl. induction before as [|x before IH].
  - cbn [app called]. rewrite Hl. reflexivity.
  - cbn [app called]. rewrite (Hbefore x (or_introl eq_refl)).
    rewrite IH; [reflexivity|]. intros y Hy. apply Hbefore. right. exact Hy.
Qed.

(** When no listener throws a value without a text, the loop reaches
    every listener and the handler completes. *)
Lemma called_all message ls :
  (forall l, In l ls -> unprintable message l = false) ->
  called message ls = ls /\ loop_end message ls = Completes tt.
Proof.
  induction ls as [|l ls IH]; intros H; [split; reflexivity|].
  destruct (IH (fun x Hx => H x (or_intror Hx))) as [Hc He].
  pose proof (H l (or_introl eq_refl)) as Hl. unfold unprintable in Hl.
  cbn [called loop_end]. unfold unprintable.
  destruct (throws l message); cbn [andb] in *.
  - destruct (thrown l message); [|discriminate]. rewrite Hc, He. auto.
  - rewrite Hc, He. auto.
Qed.

(** The newest message of the store is the one just stored. *)
Lemma storeMessage_newest now message st :
  exists older,
    messages (snd (storeMessage now message st)) = older ++ [stamp now message].
Proof.
  rewrite storeMessage_messages.
  exists (skipn (length (messages st ++ [stamp now message]) - maxHistorySize)
                (messages st)).
  rewrite skipn_app, length_app. simpl.
  pose proof maxHistorySize_pos.
  replace (length (messages st) + 1 - maxHistorySize - length (messages st))
    with 0 by lia.
  reflexivity.
Qed.

End MessageHandler.

Section Subscriptions.

Lemma set_add_NoDup x l : NoDup l -> NoDup (set_add x l).
Proof.
  intros H. unfold set_add. destruct (existsb (str_eqb x) l) eqn:E; [exact H|].
  apply NoDup_app; [exact H | repeat constructor; intros [] |].
  intros y Hy [Heq | []]. subst y.
  assert (existsb (str_eqb x) l = true); [|congruence].
  apply existsb_exists. exists x. split; [exact Hy|].
  apply str_eqb_eq. reflexivity.
Qed.

Lemma set_delete_NoDup x l : NoDup l -> NoDup (set_delete x l).
Proof. apply NoDup_filter. Qed.

Lemma subscribe_topics t b :
  subscribedTopics (snd (subscribe t b)) = subscribedTopics b.
Proof. unfold subscribe. destruct (negb (isConnected b)); reflexivity. Qed.

Lemma unsubscribe_topics t b :
  subscribedTopics (snd (unsubscribe t b)) = subscribedTopics b.
Proof. unfold unsubscribe. destruct (negb (isConnected b)); reflexivity. Qed.

Lemma resubscribe_topics ts : forall b,
  subscribedTopics (fold_left (fun acc t => snd (subscribe t acc)) ts b) =
  subscribedTopics b.
Proof.
  induction ts as [|t ts IH]; intros b; [reflexivity|].
  simpl. rewrite IH. apply subscribe_topics.
Qed.

(** No action but an acknowledgement touches the set, and an
    acknowledgement adds or deletes one element. *)
Lemma perform_NoDup b a :
  NoDup (subscribedTopics b) -> NoDup (subscribedTopics (perform b a)).
Proof.
  intros H. destruct a; simpl.
  - rewrite subscribe_topics. exact H.
  - rewrite unsubscribe_topics. exact H.
  - unfold acknowledge. destruct (nth_error (pending b) n) as [r|]; [|exact H].
    destruct r, err; simpl; auto using set_add_NoDup, set_delete_NoDup.
  - exact H.
  - exact H.
  - unfold connect, disconnect. destruct (isConnected b); [|exact H].
    destruct (client b); exact H.
  - unfold onConnect. destruct (client b); [|exact H].
    rewrite resubscribe_topics. exact H.
  - exact H.
  - unfold disconnect. destruct (client b); exact H.
  - unfold onMessage. rewrite onMessageE_eq. exact H.
Qed.

Lemma performs_NoDup actions : forall b,
  NoDup (subscribedTopics b) -> NoDup (subscribedTopics (performs actions b)).
Proof.
  induction actions as [|a actions IH]; intros b H; [exact H|].
  simpl. apply IH. apply perform_NoDup. exact H.
Qed.

Lemma nth_error_snoc {A} (l : list A) (x : A) :
  nth_error (l ++ [x]) (length l) = Some x.
Proof. rewrite nth_error_app2, Nat.sub_diag; [reflexivity | lia]. Qed.

Lemma remove_nth_snoc {A} (l : list A) (x : A) :
  remove_nth (length l) (l ++ [x]) = l.
Proof. induction l as [|y l IH]; simpl; [reflexivity | rewrite IH; reflexivity]. Qed.

Lemma occurrences_set_add x l :
  NoDup l -> occurrences x (set_add x l) = 1.
Proof.
  unfold occurrences, set_add. intros Hnd.
  destruct (existsb (str_eqb x) l) eqn:E.
  - apply existsb_exists in E. destruct E as [y [Hy Hxy]].
    apply str_eqb_eq in Hxy. subst y. clear - Hnd Hy.
    induction l as [|y l IH]; [contradiction|].
    inversion Hnd as [|z l' Hz Hl]; subst. simpl.
    destruct (str_eqb x y) eqn:E.
    + apply str_eqb_eq in E. subst y. simpl. f_equal.
      clear - Hz. induction l as [|y l IH]; [reflexivity|].
      simpl. destruct (str_eqb x y) eqn:E.
      * apply str_eqb_eq in E. subst y. exfalso. apply Hz. left. reflexivity.
      * apply IH. intros H. apply Hz. right. exact H.
    + destruct Hy as [-> | Hy].
      * rewrite (proj2 (str_eqb_eq x x) eq_refl) in E. discriminate.
      * apply IH; assumption.
  - rewrite filter_app, length_app. simpl.
    rewrite (proj2 (str_eqb_eq x x) eq_refl). simpl.
    replace (filter (str_eqb x) l) with (@nil jsstring); [reflexivity|].
    symmetry. clear - E. induction l as [|y l IH]; [reflexivity|].
    simpl in *. apply orb_false_iff in E. destruct E as [E1 E2].
    rewrite E1. apply IH. exact E2.
Qed.

End Subscriptions.

(* ================================================================== *)
(** * The claims of the specification *)
(* ================================================================== *)

(** ** Topic matcher *)

(** C1, as the code has it.  The lone hash matches every topic.  For a
    pattern whose levels are lone plus signs and texts without special
    characters, with a lone hash allowed as the last level, and a topic
    in which the levels that stand against a plus sign are not empty and
    the levels that stand against the final hash hold no line
    terminator, the matcher answers what the level-by-level reading
    answers: a plus sign stands for exactly one level, a final hash for
    zero or more further levels.  The other levels of the topic may be
    empty, as the one before a leading slash is, and may hold line
    terminators; a topic whose levels are all not empty and without line
    terminator is such a topic for every pattern.  On any topic, a plus sign between two texts [pre] and [post] without
    special characters matches exactly one level that is not empty: the
    topics matched are [pre], then a text with no slash and at least one
    character, then [post].  After such a [pre], a final slash and hash
    match [pre] itself and [pre] followed by a slash and anything, for
    topics without line terminator.  The four examples of the
    specification follow. *)
Theorem topic_wildcards :
  (forall t, matchTopic (js "#") t = Ok true) /\
  (forall pattern topic,
     well_formed pattern = true -> fits pattern topic = true ->
     matchTopic pattern topic = Ok (topic_matches pattern topic)) /\
  (forall pattern topic, tidy topic = true -> fits pattern topic = true) /\
  (forall pre post t, plain_text pre -> plain_text post ->
     (exists b, matchTopic (pre ++ js "+" ++ post) t = Ok b) /\
     (matchTopic (pre ++ js "+" ++ post) t = Ok true <->
      exists level,
        level <> [] /\ ~ In c_slash level /\ t = pre ++ level ++ post)) /\
  (forall pre t, plain_text pre -> free_of_terminators t ->
     (exists b, matchTopic (pre ++ js "/#") t = Ok b) /\
     (matchTopic (pre ++ js "/#") t = Ok true <->
      t = pre \/ exists rest, t = pre ++ js "/" ++ rest)) /\
  matchTopic (js "sensor/+/temp") (js "sensor/room1/temp") = Ok true /\
  matchTopic (js "sensor/+/temp") (js "sensor/room1/room2/temp") = Ok false /\
  matchTopic (js "sensor/#") (js "sensor/a/b") = Ok true /\
  matchTopic (js "sensor/#") (js "sensor") = Ok true.
Proof.
  split; [intros t; reflexivity|].
  split; [exact matchTopic_refines|].
  split; [exact tidy_fits|].
  split.
  { intros pre post t Hpre Hpost. split; [|apply matchTopic_plus; assumption].
    assert (Hi : item_text (pre ++ js "+" ++ post)).
    { apply item_text_app; [apply plain_item_text; exact Hpre|].
      apply item_text_app; [reflexivity | apply plain_item_text; exact Hpost]. }
    destruct (matchTopic_levels _ t Hi) as [-> _]. eauto. }
  split.
  { intros pre t Hpre Ht. split.
    - destruct (matchTopic_levels_hash pre t (plain_item_text pre Hpre))
        as [-> _]. eauto.
    - rewrite (matchTopic_hash pre t Hpre). split.
      + intros [-> | [rest [_ ->]]]; [left; reflexivity | right; eauto].
      + intros [-> | [rest ->]]; [left; reflexivity | right].
        exists rest. split; [|reflexivity].
        apply free_of_terminators_app in Ht. destruct Ht as [_ Ht].
        apply free_of_terminators_app in Ht. tauto. }
  repeat split; vm_compute; reflexivity.
Qed.

Lemma topic_wildcards_witness :
  (well_formed (js "home/+/state/#") = true /\
   fits (js "home/+/state/#") (js "home/kitchen/state/lamp/3") = true /\
   matchTopic (js "home/+/state/#") (js "home/kitchen/state/lamp/3") =
   Ok (topic_matches (js "home/+/state/#") (js "home/kitchen/state/lamp/3")))
  /\
  (well_formed (js "/home/+/+") = true /\
   tidy (js "/home/kitchen/temp") = false /\
   fits (js "/home/+/+") (js "/home/kitchen/temp") = true /\
   matchTopic (js "/home/+/+") (js "/home/kitchen/temp") =
   Ok (topic_matches (js "/home/+/+") (js "/home/kitchen/temp")))
  /\
  (tidy (js "home/kitchen") = true /\
   fits (js "+/+/#") (js "home/kitchen") = true)
  /\
  (plain_text (js "home/") /\ plain_text (js "/state") /\
   matchTopic (js "home/" ++ js "+" ++ js "/state") (js "home/kitchen/state")
   = Ok true) /\
  (plain_text (js "home") /\ free_of_terminators (js "home/kitchen/state") /\
   matchTopic (js "home" ++ js "/#") (js "home/kitchen/state") = Ok true).
Proof.
  split; [|split; [|split; [|split]]].
  - split; [reflexivity|]. split; [reflexivity|].
    apply (proj1 (proj2 topic_wildcards)); reflexivity.
  - split; [reflexivity|]. split; [reflexivity|]. split; [reflexivity|].
    apply (proj1 (proj2 topic_wildcards)); reflexivity.
  - split; [reflexivity|].
    apply (proj1 (proj2 (proj2 topic_wildcards))). reflexivity.
  - split; [reflexivity|]. split; [reflexivity|].
    apply (proj2 (proj1 (proj2 (proj2 (proj2 topic_wildcards))) (js "home/")
                    (js "/state") (js "home/kitchen/state") eq_refl eq_refl)).
    exists (js "kitchen"). split; [discriminate|]. split; [|reflexivity].
    vm_compute. intuition discriminate.
  - split; [reflexivity|]. split; [reflexivity|].
    apply (proj2 (proj1 (proj2 (proj2 (proj2 (proj2 topic_wildcards))))
                    (js "home") (js "home/kitchen/state") eq_refl eq_refl)).
    right. exists (js "kitchen/state"). reflexivity.
Defined.

(** C1 as the specification states it fails on a topic with an empty
    level and on a topic with a line terminator: read level by level,
    the pattern matches, and [matchTopic] answers false. *)
Lemma topic_wildcards_counterexample :
  (topic_matches (js "sensor/+/temp") (js "sensor//temp") = true /\
   matchTopic (js "sensor/+/temp") (js "sensor//temp") = Ok false) /\
  (topic_matches (js "sensor/#") (js "sensor/a" ++ [10%N] ++ js "b") = true /\
   matchTopic (js "sensor/#") (js "sensor/a" ++ [10%N] ++ js "b") = Ok false).
Proof. repeat split; vm_compute; reflexivity. Qed.

(** C2 fails on the code: the dot of a pattern is read as the wildcard
    of the regular expression, and an opening parenthesis makes the
    compilation of the pattern throw, even for the topic equal to the
    pattern. *)
Theorem matchTopic_unescaped :
  str_eqb (js "a.b") (js "axb") = false /\
  matchTopic (js "a.b") (js "axb") = Ok true /\
  matchTopic (js "a(b") (js "a(b") = SyntaxError.
Proof. repeat split; vm_compute; reflexivity. Qed.

(** ** Message store *)

(** C3.  After a call of [storeMessage] the store holds at most 10,000
    messages; an append that makes the sequence longer than that leaves
    exactly 10,000; what is kept is the end of the sequence with the new
    message, so the store after any calls holds the last 10,000 appended
    messages in the order of their arrival; after 10,001 appends on a new
    store these are all but the first. *)
Theorem store_capacity_fifo :
  (forall now message st,
     length (messages (snd (storeMessage now message st))) <= 10000) /\
  (forall now message st,
     10000 < length (messages st ++ [stamp now message]) ->
     length (messages (snd (storeMessage now message st))) = 10000) /\
  (forall now message st,
     messages (snd (storeMessage now message st)) =
     skipn (length (messages st ++ [stamp now message]) - 10000)
           (messages st ++ [stamp now message])) /\
  (forall calls,
     messages (after calls) =
     skipn (length (appended calls) - 10000) (appended calls)) /\
  (forall calls,
     length (appended calls) = 10001 ->
     messages (after calls) = tl (appended calls) /\
     length (messages (after calls)) = 10000).
Proof.
  change 10000 with maxHistorySize. change 10001 with (S maxHistorySize).
  repeat split.
  - intros. rewrite storeMessage_messages, keep_last_length. lia.
  - intros now message st H. rewrite storeMessage_messages, keep_last_length. lia.
  - intros. apply storeMessage_messages.
  - intros. apply after_messages.
  - rewrite after_messages, H.
    replace (S maxHistorySize - maxHistorySize) with 1 by lia.
    destruct (appended calls); reflexivity.
  - rewrite after_messages, keep_last_length, H. lia.
Qed.

Lemma store_capacity_fifo_witness :
  length (appended (repeat (StoreMessage 0 (mkMessage (js "t") JNull None))
                           10001)) = 10001 /\
  length (messages (after (repeat (StoreMessage 0
                                     (mkMessage (js "t") JNull None))
                                  10001))) = 10000.
Proof.
  assert (H : length (appended (repeat (StoreMessage 0
                                          (mkMessage (js "t") JNull None))
                                       10001)) = 10001).
  { vm_compute. reflexivity. }
  split; [exact H|].
  exact (proj2 (proj2 (proj2 (proj2 (proj2 store_capacity_fifo))) _ H)).
Defined.

(** C4, as the code has it.  The query returns, in the order of arrival,
    the stored messages of the topic whose timestamp is not earlier than
    [now] minus the length of the window; the code checks no upper bound,
    so this is the closed window that ends at [now] when no stored
    timestamp is later than [now].  A value that is none of the four
    windows gives the result of the one-hour window, a new store gives no
    message, and the store is left as it was. *)
Theorem history_query now t timeRange st :
  fst (getMessageHistory now t timeRange st) =
    filter (fun msg =>
              str_eqb (topic msg) t
              && match timestamp msg with
                 | Some ts => Z.leb (now - duration timeRange) ts
                 | None => false
                 end)
           (messages st) /\
  ((forall msg ts,
      In msg (messages st) -> timestamp msg = Some ts -> (ts <= now)%Z) ->
   fst (getMessageHistory now t timeRange st) =
   filter (in_window now timeRange t) (messages st)) /\
  (recognized timeRange = false ->
   fst (getMessageHistory now t timeRange st) =
   fst (getMessageHistory now t (js "1h") st)) /\
  fst (getMessageHistory now t timeRange empty) = [] /\
  snd (getMessageHistory now t timeRange st) = st.
Proof.
  run_store. unfold in_history. simpl.
  rewrite startTime_duration.
  split; [reflexivity|]. split; [|split; [|split; reflexivity]].
  - intros Hle. apply filter_ext_in. intros msg Hin. unfold in_window.
    destruct (timestamp msg) as [ts|] eqn:E; [|reflexivity].
    specialize (Hle msg ts Hin E).
    replace (Z.leb ts now) with true; [rewrite andb_true_r; reflexivity|].
    symmetry. apply Z.leb_le. exact Hle.
  - intros Hr. rewrite startTime_duration. unfold duration, recognized in *.
    apply orb_false_iff in Hr. destruct Hr as [Hr H7].
    apply orb_false_iff in Hr. destruct Hr as [Hr H24].
    apply orb_false_iff in Hr. destruct Hr as [H1 H6].
    rewrite H6, H24, H7. reflexivity.
Qed.

Lemma history_query_witness :
  fst (getMessageHistory 7200000 (js "t") (js "1h")
         (after [StoreMessage 0 (mkMessage (js "t") JNull None);
                 StoreMessage 5400000 (mkMessage (js "t") JNull None)])) =
  filter (in_window 7200000 (js "1h") (js "t"))
         (messages (after [StoreMessage 0 (mkMessage (js "t") JNull None);
                           StoreMessage 5400000
                             (mkMessage (js "t") JNull None)])).
Proof.
  apply (proj1 (proj2 (history_query 7200000 (js "t") (js "1h") _))).
  intros msg ts Hin Hts. vm_compute in Hin.
  destruct Hin as [<- | [<- | []]]; injection Hts as <-; lia.
Defined.

(** C4 as the specification states it fails on a store that holds a
    message stamped later than the time of the query: the message is
    returned, and its timestamp is not within the window. *)
Lemma history_query_counterexample :
  fst (getMessageHistory 1000 (js "t") (js "1h")
         (after [StoreMessage 0 (mkMessage (js "t") JNull (Some 2000%Z))])) =
  [mkMessage (js "t") JNull (Some 2000%Z)] /\
  filter (in_window 1000 (js "1h") (js "t"))
         (messages (after [StoreMessage 0
                             (mkMessage (js "t") JNull (Some 2000%Z))])) = [].
Proof. split; vm_compute; reflexivity. Qed.

(** The example of the specification: of two messages, two hours and
    thirty minutes old, the one-hour window returns the second and the
    six-hour window returns both. *)
Example history_query_example :
  let older := mkMessage (js "t") JNull (Some 0%Z) in
  let newer := mkMessage (js "t") JNull (Some 5400000%Z) in
  let st := after [StoreMessage 0 older; StoreMessage 5400000 newer] in
  fst (getMessageHistory 7200000 (js "t") (js "1h") st) = [newer] /\
  fst (getMessageHistory 7200000 (js "t") (js "6h") st) = [older; newer].
Proof. split; vm_compute; reflexivity. Qed.

(** C9.  [storeMessage] appends the message with the current time as its
    timestamp when it has none and with its own timestamp otherwise; so
    every message of a store has a timestamp, and the query returns what
    it would return if it let messages without timestamp through. *)
Theorem stored_messages_stamped :
  (forall now message,
     stamp now message =
     mkMessage (topic message) (payload message)
               (Some match timestamp message with
                     | Some ts => ts
                     | None => now
                     end)) /\
  (forall now message st,
     exists older,
       messages (snd (storeMessage now message st)) =
       older ++ [stamp now message]) /\
  (forall calls msg,
     In msg (messages (after calls)) -> timestamp msg <> None) /\
  (forall calls now t timeRange,
     fst (getMessageHistory now t timeRange (after calls)) =
     filter (fun msg =>
               str_eqb (topic msg) t
               && match timestamp msg with
                  | Some ts => Z.leb (startTime now timeRange) ts
                  | None => true
                  end)
            (messages (after calls))).
Proof.
  split; [|split; [|split]].
  - intros now [tp pl [ts|]]; reflexivity.
  - intros. apply storeMessage_newest.
  - intros calls msg Hin. rewrite after_messages in Hin.
    apply in_skipn in Hin. exact (appended_stamped _ _ Hin).
  - intros calls now t timeRange.
    run_store. simpl.
    apply filter_ext_in. intros msg Hin. unfold in_history.
    rewrite after_messages in Hin. apply in_skipn in Hin.
    apply appended_stamped in Hin.
    destruct (timestamp msg); [reflexivity | congruence].
Qed.

Lemma stored_messages_stamped_witness :
  In (mkMessage (js "t") JNull (Some 5%Z))
     (messages (after [StoreMessage 5 (mkMessage (js "t") JNull None)])) /\
  timestamp (mkMessage (js "t") JNull (Some 5%Z)) <> None.
Proof.
  assert (H : In (mkMessage (js "t") JNull (Some 5%Z))
                 (messages (after [StoreMessage 5
                                     (mkMessage (js "t") JNull None)]))).
  { left. reflexivity. }
  split; [exact H|].
  exact (proj1 (proj2 (proj2 stored_messages_stamped)) _ _ H).
Defined.

(** ** Topic table *)

Lemma incr_le n : (incr n <= n + 1)%Z.
Proof. unfold incr. destruct (Z.ltb n 9007199254740992); lia. Qed.

Lemma exec_topicId st c : (topicId (exec st c) <= topicId st + 1)%Z.
Proof.
  destruct c; simpl; try lia.
  - run_store.
    destruct (find _ _); simpl; [lia | apply incr_le].
  - run_store.
    destruct (find _ _); simpl; lia.
Qed.

(** The invariant holds in every store a program can build. *)
Lemma after_wf calls :
  (Z.of_nat (length calls) < 9007199254740991)%Z ->
  topics_wf (after calls) /\
  (topicId (after calls) <= 1 + Z.of_nat (length calls))%Z.
Proof.
  induction calls as [|c calls IH] using rev_ind; intros Hlen.
  - split; [apply topics_wf_empty | simpl; lia].
  - rewrite length_app in Hlen. cbn [length] in Hlen.
    destruct IH as [Hwf Hid]; [lia|].
    rewrite after_snoc, length_app. cbn [length]. split.
    + apply exec_wf; [exact Hwf | lia].
    + pose proof (exec_topicId (after calls) c). lia.
Qed.

(** C10.  In a store whose topic table is well formed, as it is in every
    store that calls have built ([after_wf], for as long as the counter
    is exact), [createTopic] with the path of a stored topic
    returns that topic and leaves the store as it was; with a path that
    no stored topic has, it returns a new topic under the value of the
    counter, which is the id of no stored topic, puts it last in the
    table and increments the counter. *)
Theorem createTopic_idempotent topic st :
  topics_wf st ->
  (forall t,
     In t (map_values (topics st)) -> path t = ipath topic ->
     createTopic topic st = (t, st)) /\
  ((forall t, In t (map_values (topics st)) -> path t <> ipath topic) ->
   fst (createTopic topic st) =
     mkTopic (topicId st) (ipath topic) (ibrokerId topic) /\
   map_has (topicId st) (topics st) = false /\
   topics (snd (createTopic topic st)) =
     topics st ++
     [(topicId st, mkTopic (topicId st) (ipath topic) (ibrokerId topic))] /\
   messages (snd (createTopic topic st)) = messages st /\
   topicId (snd (createTopic topic st)) = incr (topicId st)).
Proof.
  intros Hwf. split.
  - intros t Hin Hp. run_store.
    destruct (find _ _) as [e|] eqn:E.
    + apply find_some in E. destruct E as [He Hpe]. apply str_eqb_eq in Hpe.
      rewrite (wf_path_unique st e t Hwf He Hin); [reflexivity | congruence].
    + rewrite find_path_none in E. exfalso. exact (E t Hin Hp).
  - intros Hnone. apply find_path_none in Hnone.
    run_store. rewrite Hnone. simpl.
    pose proof (wf_fresh st Hwf) as Hfresh.
    rewrite (map_set_fresh _ _ _ Hfresh). repeat split. exact Hfresh.
Qed.

Lemma createTopic_idempotent_witness :
  topics_wf (after [CreateTopic (mkInsertTopic (js "a") 1)]) /\
  createTopic (mkInsertTopic (js "a") 7)
              (after [CreateTopic (mkInsertTopic (js "a") 1)]) =
  (mkTopic 1 (js "a") 1, after [CreateTopic (mkInsertTopic (js "a") 1)]) /\
  fst (createTopic (mkInsertTopic (js "b") 1)
                   (after [CreateTopic (mkInsertTopic (js "a") 1)])) =
  mkTopic 2 (js "b") 1.
Proof.
  assert (Hwf : topics_wf (after [CreateTopic (mkInsertTopic (js "a") 1)])).
  { apply after_wf. simpl. lia. }
  split; [exact Hwf|]. split.
  - apply (proj1 (createTopic_idempotent (mkInsertTopic (js "a") 7) _ Hwf)).
    + left. reflexivity.
    + reflexivity.
  - apply (proj2 (createTopic_idempotent (mkInsertTopic (js "b") 1) _ Hwf)).
    intros t [<- | []]. discriminate.
Defined.

(** ** Bridge *)

(** C5.  The message that the handler builds, hands to the store and
    delivers to the listeners it calls carries the value of the payload
    text when the text is a JSON text, and the text itself when it is
    none.  A JSON text is a text of the JSON grammar, and its value is the
    value that the grammar gives it: a number is the double nearest to
    what its digits write, an object has the properties that its members
    define.  The text 42 gives the number 42, the text "not json" gives
    itself; the text 9007199254740993 gives the double 9007199254740992,
    and a member that comes twice gives the property its last value. *)
Theorem payload_decoding :
  (forall now t text b,
     let message := mkMessage t (decoded text) (Some now) in
     exists older rest,
       messages (storage (onMessage now t text b)) = older ++ [message] /\
       trace (onMessage now t text b) = trace b ++ Stored message :: rest /\
       stores rest = [] /\
       deliveries rest =
         List.map (fun l => (lid l, message))
                  (called message (messageListeners b))) /\
  (forall text v, Json.Text text v -> decoded text = v) /\
  (forall text, (forall v, ~ Json.Text text v) -> decoded text = JString text) /\
  decoded (js "42") = JNumber 42 0 /\
  decoded (js "not json") = JString (js "not json") /\
  decoded (js "9007199254740993") = JNumber 9007199254740992 0 /\
  decoded (js "-0") = JNegZero /\
  decoded (js "1e400") = JInfinity false /\
  decoded (js "{" ++ quoted (js "b") ++ js ": 1, " ++ quoted (js "7")
           ++ js ": [], " ++ quoted (js "a") ++ js ": true, "
           ++ quoted (js "b") ++ js ": null }") =
    JObject [(js "7", JArray []); (js "b", JNull); (js "a", JBool true)].
Proof.
  split; [|split; [|split; [|repeat split; vm_compute; reflexivity]]].
  - intros now t text b message. unfold onMessage. rewrite onMessageE_eq.
    cbv zeta. cbn [snd storage trace]. fold message.
    destruct (storeMessage_newest now message (storage b)) as [older Holder].
    exists older. eexists. split; [exact Holder|]. split; [reflexivity|].
    split; [apply stores_handled | apply deliveries_handled].
  - intros text v H. unfold decoded. rewrite (Text_parse _ _ H). reflexivity.
  - intros text H. unfold decoded.
    destruct (Json.parse text) as [v|] eqn:E; [|reflexivity].
    exfalso. exact (H v (parse_Text _ _ E)).
Qed.

Lemma payload_decoding_witness :
  Json.Text (js " 42") (JNumber 42 0) /\
  decoded (js " 42") = JNumber 42 0 /\
  (forall v, ~ Json.Text (js "[1, 2") v) /\
  decoded (js "[1, 2") = JString (js "[1, 2").
Proof.
  assert (H42 : Json.Text (js " 42") (JNumber 42 0)).
  { apply (Element_intro [32%N] (js "42") (JNumber 42 0) []).
    - repeat constructor.
    - apply Value_number.
      apply (Number_intro [] false (js "42") [] [] [] 0 Minus_none).
      + apply Int_digits; [vm_compute; split; discriminate|].
        repeat constructor; discriminate.
      + constructor.
      + constructor.
    - constructor. }
  assert (Hnone : forall v, ~ Json.Text (js "[1, 2") v).
  { intros v H. apply Text_parse in H. vm_compute in H. discriminate. }
  split; [exact H42|]. split.
  - exact (proj1 (proj2 payload_decoding) _ _ H42).
  - split; [exact Hnone|].
    exact (proj1 (proj2 (proj2 payload_decoding)) _ Hnone).
Defined.

(** C6.  The handler hands the message to the store, where it is the
    newest message afterwards, and then calls the registered listeners in
    the order of registration.  What a listener throws is caught in its
    own turn of the loop and logged; a listener that throws a value with
    a text (an Error, a string) stops nobody, and when all do, every
    listener is called and the handler completes.  The log line is built
    from the value caught, though: for a value without a text (a Symbol)
    building it throws inside the catch block, the loop ends there, and
    the listeners registered after that one are not called.  With three
    listeners of which the second throws an Error, all three are called;
    when it throws a Symbol, the third is not called.  The message is
    stored in either case. *)
Theorem fan_out_isolation :
  (forall now t text b,
     let message := mkMessage t (decoded text) (Some now) in
     exists older rest,
       messages (storage (onMessage now t text b)) = older ++ [message] /\
       trace (onMessage now t text b) = trace b ++ Stored message :: rest /\
       stores rest = [] /\
       ((forall l, In l (messageListeners b) ->
                   unprintable message l = false) ->
        fst (onMessageE now t text b) = Completes tt /\
        deliveries rest =
          List.map (fun l => (lid l, message)) (messageListeners b)) /\
       (forall before l skipped,
          messageListeners b = before ++ l :: skipped ->
          (forall x, In x before -> unprintable message x = false) ->
          unprintable message l = true ->
          deliveries rest =
            List.map (fun l => (lid l, message)) (before ++ [l]))) /\
  (forall now t,
     let b := performs [AddListener (mkListener 1 (fun _ => false));
                        AddListener (mkListener 2 (fun _ => true));
                        AddListener (mkListener 3 (fun _ => false))] initial in
     let message := mkMessage t (JNumber 42 0) (Some now) in
     messages (storage (onMessage now t (js "42") b)) = [message] /\
     deliveries (trace (onMessage now t (js "42") b)) =
       [(1, message); (2, message); (3, message)]) /\
  (forall now t,
     let b := performs [AddListener (mkListener 1 (fun _ => false));
                        AddListener (mkThrowingListener 2 (fun _ => true)
                                                        (fun _ => symbol));
                        AddListener (mkListener 3 (fun _ => false))] initial in
     let message := mkMessage t (JNumber 42 0) (Some now) in
     messages (storage (onMessage now t (js "42") b)) = [message] /\
     deliveries (trace (onMessage now t (js "42") b)) =
       [(1, message); (2, message)] /\
     onMessageE now t (js "42") b =
       (Completes tt,
        mkBridge (client b) (messageListeners b) (subscribedTopics b)
                 (pending b) (snd (storeMessage now message (storage b)))
                 [Stored message; Delivered 1 message; Delivered 2 message;
                  Logged (js "Error processing MQTT message")
                    (js "TypeError: Cannot convert a Symbol value to a string")])).
Proof.
  split; [|split].
  - intros now t text b message. unfold onMessage. rewrite onMessageE_eq.
    cbv zeta. cbn [fst snd storage trace]. fold message.
    destruct (storeMessage_newest now message (storage b)) as [older Holder].
    exists older. eexists. split; [exact Holder|]. split; [reflexivity|].
    split; [apply stores_handled|]. split.
    + intros Hall. destruct (called_all message _ Hall) as [Hc He].
      unfold handler_end. rewrite He. split; [reflexivity|].
      rewrite deliveries_handled, Hc. reflexivity.
    + intros before l skipped Hls Hbefore Hl.
      rewrite deliveries_handled, Hls, (called_until message _ _ _ Hbefore Hl).
      reflexivity.
  - intros now t. split; reflexivity.
  - intros now t. split; [reflexivity|]. split; reflexivity.
Qed.

Lemma fan_out_isolation_witness :
  let loud := mkThrowingListener 2 (fun _ => true) (fun _ => symbol) in
  let b := performs [AddListener (mkListener 1 (fun _ => true));
                     AddListener loud;
                     AddListener (mkListener 3 (fun _ => false))] initial in
  let message := mkMessage (js "t") (JBool true) (Some 7%Z) in
  exists older rest,
    messages (storage (onMessage 7 (js "t") (js "true") b)) =
      older ++ [message] /\
    trace (onMessage 7 (js "t") (js "true") b) =
      trace b ++ Stored message :: rest /\
    deliveries rest = [(1, message); (2, message)].
Proof.
  intros loud b message.
  destruct (proj1 fan_out_isolation 7%Z (js "t") (js "true") b)
    as [older [rest [Hm [Ht [_ [_ Hskip]]]]]].
  exists older, rest. split; [exact Hm|]. split; [exact Ht|].
  apply (Hskip [mkListener 1 (fun _ => true)] loud
               [mkListener 3 (fun _ => false)]).
  - reflexivity.
  - intros x [<- | []]. reflexivity.
  - reflexivity.
Defined.

Lemma subscribe_acknowledged p b :
  isConnected b = true ->
  acknowledge (length (pending b)) None (snd (subscribe p b)) =
  mkBridge (client b) (messageListeners b) (set_add p (subscribedTopics b))
           (pending b) (storage b)
           (trace b ++ [Logged (js "Subscribed to topic") p]).
Proof.
  intros Hc. unfold subscribe, acknowledge. rewrite Hc. simpl.
  rewrite nth_error_snoc, remove_nth_snoc. reflexivity.
Qed.

Lemma subscribe_refused p e b :
  isConnected b = true ->
  acknowledge (length (pending b)) (Some e) (snd (subscribe p b)) =
  mkBridge (client b) (messageListeners b) (subscribedTopics b)
           (pending b) (storage b)
           (trace b ++ [Logged (js "Error subscribing to topic") p]).
Proof.
  intros Hc. unfold subscribe, acknowledge. rewrite Hc. simpl.
  rewrite nth_error_snoc, remove_nth_snoc. reflexivity.
Qed.

Lemma set_add_in x l : In x (set_add x l).
Proof.
  unfold set_add. destruct (existsb (str_eqb x) l) eqn:E.
  - apply existsb_exists in E. destruct E as [y [Hy Hxy]].
    apply str_eqb_eq in Hxy. subst y. exact Hy.
  - apply in_or_app. right. left. reflexivity.
Qed.

(** C7, as the code has it.  With a connection, [subscribe] hands the
    request to the library and returns true at once; the set of
    subscriptions is as it was.  The pattern enters the set when the
    broker acknowledges the request; when the broker reports an error the
    set stays as it was, the error is logged and no request is made
    again. *)
Theorem subscribe_on_acknowledgement p b :
  isConnected b = true ->
  fst (subscribe p b) = true /\
  subscribedTopics (snd (subscribe p b)) = subscribedTopics b /\
  pending (snd (subscribe p b)) = pending b ++ [ReqSubscribe p] /\
  trace (snd (subscribe p b)) = trace b /\
  subscribedTopics (acknowledge (length (pending b)) None (snd (subscribe p b)))
    = set_add p (subscribedTopics b) /\
  In p (subscribedTopics
          (acknowledge (length (pending b)) None (snd (subscribe p b)))) /\
  (forall e,
     subscribedTopics
       (acknowledge (length (pending b)) (Some e) (snd (subscribe p b)))
     = subscribedTopics b /\
     pending (acknowledge (length (pending b)) (Some e) (snd (subscribe p b)))
     = pending b /\
     trace (acknowledge (length (pending b)) (Some e) (snd (subscribe p b)))
     = trace b ++ [Logged (js "Error subscribing to topic") p]).
Proof.
  intros Hc. rewrite (subscribe_acknowledged p b Hc).
  split; [unfold subscribe; rewrite Hc; reflexivity|].
  split; [apply subscribe_topics|].
  split; [unfold subscribe; rewrite Hc; reflexivity|].
  split; [unfold subscribe; rewrite Hc; reflexivity|].
  split; [reflexivity|].
  split; [apply set_add_in|].
  intros e. rewrite (subscribe_refused p e b Hc). repeat split.
Qed.

Lemma subscribe_on_acknowledgement_witness :
  isConnected (performs [Connect; Connected] initial) = true /\
  subscribedTopics
    (acknowledge 0 None
       (snd (subscribe (js "a") (performs [Connect; Connected] initial))))
  = [js "a"].
Proof.
  split; [reflexivity|].
  exact (proj1 (proj2 (proj2 (proj2 (proj2
           (subscribe_on_acknowledgement (js "a")
              (performs [Connect; Connected] initial) eq_refl)))))).
Defined.

(** C7 as the specification states it fails: after [subscribe] has
    returned on a connected bridge the pattern is not in the set, and it
    is still not there after the broker has reported an error. *)
Lemma subscribe_on_acknowledgement_counterexample :
  isConnected (performs [Connect; Connected] initial) = true /\
  fst (subscribe (js "a") (performs [Connect; Connected] initial)) = true /\
  subscribedTopics
    (snd (subscribe (js "a") (performs [Connect; Connected] initial))) = [] /\
  subscribedTopics
    (acknowledge 0 (Some (js "refused"))
       (snd (subscribe (js "a") (performs [Connect; Connected] initial))))
  = [].
Proof. repeat split. Qed.

(** C8.  The set of subscriptions of a bridge never lists a pattern
    twice, whatever has happened to the bridge; and subscribing twice to
    a pattern, each time acknowledged by the broker, leaves the pattern
    in the set once. *)
Theorem subscribe_idempotent :
  (forall actions, NoDup (subscribedTopics (performs actions initial))) /\
  (forall actions p,
     isConnected (performs actions initial) = true ->
     occurrences p
       (subscribedTopics
          (performs
             [Subscribe p;
              Acknowledge (length (pending (performs actions initial))) None;
              Subscribe p;
              Acknowledge (length (pending (performs actions initial))) None]
             (performs actions initial))) = 1).
Proof.
  assert (Hnd : forall actions,
             NoDup (subscribedTopics (performs actions initial))).
  { intros actions. apply performs_NoDup. constructor. }
  split; [exact Hnd|].
  intros actions p Hc. specialize (Hnd actions).
  set (b := performs actions initial) in *.
  unfold performs at 1. simpl fold_left.
  rewrite (subscribe_acknowledged p b Hc).
  set (b1 := mkBridge _ _ _ _ _ _).
  change (length (pending b)) with (length (pending b1)).
  rewrite (subscribe_acknowledged p b1 Hc). simpl.
  apply occurrences_set_add. apply set_add_NoDup. exact Hnd.
Qed.

Lemma subscribe_idempotent_witness :
  isConnected (performs [Connect; Connected] initial) = true /\
  occurrences (js "a")
    (subscribedTopics
       (performs
          [Subscribe (js "a");
           Acknowledge
             (length (pending (performs [Connect; Connected] initial))) None;
           Subscribe (js "a");
           Acknowledge
             (length (pending (performs [Connect; Connected] initial))) None]
          (performs [Connect; Connected] initial))) = 1.
Proof.
  split; [reflexivity|].
  exact (proj2 subscribe_idempotent [Connect; Connected] (js "a") eq_refl).
Defined.

(* ================================================================== *)
(** * Further properties of the topic table *)
(* ================================================================== *)

Section TopicTableMore.

Lemma NoDup_key_unique {V} (mp : jsmap V) k a b :
  NoDup (List.map fst mp) -> In (k, a) mp -> In (k, b) mp -> a = b.
Proof.
  induction mp as [|e mp IH]; simpl; [contradiction|].
  intros Hnd Ha Hb. inversion Hnd as [|x l Hx Hl]; subst.
  destruct Ha as [-> | Ha], Hb as [Hb | Hb].
  - congruence.
  - exfalso. apply Hx. apply in_map_iff. exists (k, b). auto.
  - subst e. exfalso. apply Hx. apply in_map_iff. exists (k, a). auto.
  - auto.
Qed.

Lemma wf_stored st t :
  topics_wf st -> In t (map_values (topics st)) -> In (id t, t) (topics st).
Proof.
  intros [Hk _] Hin. apply in_map_values in Hin. destruct Hin as [k Hin].
  destruct (Hk k t Hin) as [-> _]. exact Hin.
Qed.

Lemma filter_all {A} (P : A -> bool) (l : list A) :
  (forall x, In x l -> P x = true) -> filter P l = l.
Proof.
  induction l as [|x l IH]; simpl; intros H; [reflexivity|].
  rewrite (H x (or_introl eq_refl)), IH; auto.
Qed.

Lemma deleteTopic_table p st :
  topics_wf st ->
  topics (snd (deleteTopic p st)) =
    filter (fun e => negb (str_eqb (path (snd e)) p)) (topics st).
Proof.
  intros Hwf.
  { run_store. destruct (find _ _) as [t|] eqn:E; simpl.
    - apply find_some in E. destruct E as [Hin Hp]. apply str_eqb_eq in Hp.
      unfold map_delete. apply filter_ext_in. intros [k t'] Hk. simpl.
      f_equal. destruct (Z.eqb_spec k (id t)) as [->|Hne].
      + rewrite (NoDup_key_unique _ _ _ _ (proj1 (proj2 Hwf)) Hk
                   (wf_stored st t Hwf Hin)).
        symmetry. apply str_eqb_eq. exact Hp.
      + destruct (str_eqb (path t') p) eqn:E'; [|reflexivity].
        apply str_eqb_eq in E'. exfalso. apply Hne.
        assert (Hin' : In t' (map_values (topics st))).
        { apply in_map_values. eauto. }
        rewrite <- (wf_path_unique st t' t Hwf Hin' Hin); [|congruence].
        symmetry. exact (proj1 (proj1 Hwf k t' Hk)).
    - symmetry. apply filter_all. intros [k t'] Hk. simpl.
      rewrite find_path_none in E.
      apply negb_true_iff. destruct (str_eqb (path t') p) eqn:E'; [|reflexivity].
      apply str_eqb_eq in E'. exfalso. apply (E t'); [|exact E'].
      apply in_map_values. eauto. }
Qed.

Lemma deleteTopic_found p st :
  topics_wf st ->
  (fst (deleteTopic p st) = true <->
   exists t, In t (map_values (topics st)) /\ path t = p).
Proof.
  intros Hwf.
  run_store. destruct (find _ _) as [t|] eqn:E; simpl.
  - apply find_some in E. destruct E as [Hin Hp]. apply str_eqb_eq in Hp.
    split; [eauto|]. intros _. apply map_has_in. apply in_map_iff.
    exists (id t, t). split; [reflexivity | apply wf_stored; assumption].
  - rewrite find_path_none in E. split; [discriminate|].
    intros [t [Hin Hp]]. exfalso. exact (E t Hin Hp).
Qed.

Lemma deleteTopic_rest p st :
  messages (snd (deleteTopic p st)) = messages st /\
  topicId (snd (deleteTopic p st)) = topicId st.
Proof. run_store. destruct (find _ _); split; reflexivity. Qed.

(** X1.  [deleteTopic] answers whether a topic had the path, and leaves the
    table without it: the other topics stay, in their order, and neither
    the messages nor the counter change. *)
Theorem deleteTopic_removes p st :
  topics_wf st ->
  (fst (deleteTopic p st) = true <->
   exists t, In t (map_values (topics st)) /\ path t = p) /\
  topics (snd (deleteTopic p st)) =
    filter (fun e => negb (str_eqb (path (snd e)) p)) (topics st) /\
  (forall t, In t (map_values (topics (snd (deleteTopic p st)))) ->
             path t <> p) /\
  messages (snd (deleteTopic p st)) = messages st /\
  topicId (snd (deleteTopic p st)) = topicId st.
Proof.
  intros Hwf.
  pose proof (deleteTopic_table p st Hwf) as Hfilter.
  split; [exact (deleteTopic_found p st Hwf)|].
  split; [exact Hfilter | split; [|exact (deleteTopic_rest p st)]].
  - rewrite Hfilter. intros t Hin Hp. apply in_map_values in Hin.
    destruct Hin as [k Hin]. apply filter_In in Hin. destruct Hin as [_ Hin].
    simpl in Hin. apply negb_true_iff in Hin.
    rewrite (proj2 (str_eqb_eq _ _) Hp) in Hin. discriminate.
Qed.

Lemma deleteTopic_removes_witness :
  topics_wf (after [CreateTopic (mkInsertTopic (js "a") 1);
                    CreateTopic (mkInsertTopic (js "b") 1)]) /\
  List.map snd
    (topics (snd (deleteTopic (js "a")
                    (after [CreateTopic (mkInsertTopic (js "a") 1);
                            CreateTopic (mkInsertTopic (js "b") 1)])))) =
  [mkTopic 2 (js "b") 1].
Proof.
  assert (Hwf : topics_wf (after [CreateTopic (mkInsertTopic (js "a") 1);
                                  CreateTopic (mkInsertTopic (js "b") 1)])).
  { apply after_wf. simpl. lia. }
  split; [exact Hwf|].
  rewrite (proj1 (proj2 (deleteTopic_removes (js "a") _ Hwf))).
  reflexivity.
Defined.

(** X2.  Creating a topic and deleting it again gives the table back, but not
    the id: the counter has moved on, and the same path created once more
    gets the next id. *)
Theorem topic_ids_not_reused topic st :
  topics_wf st -> (topicId st < 9007199254740992)%Z ->
  (forall t, In t (map_values (topics st)) -> path t <> ipath topic) ->
  fst (deleteTopic (ipath topic) (snd (createTopic topic st))) = true /\
  topics (snd (deleteTopic (ipath topic) (snd (createTopic topic st)))) =
    topics st /\
  id (fst (createTopic topic st)) = topicId st /\
  id (fst (createTopic topic
             (snd (deleteTopic (ipath topic) (snd (createTopic topic st))))))
  = (topicId st + 1)%Z.
Proof.
  intros Hwf Hlt Hnew.
  pose proof (createTopic_wf topic st Hwf Hlt) as Hwf1.
  pose proof (proj2 (find_path_none st (ipath topic)) Hnew) as Hfind.
  pose proof (wf_fresh st Hwf) as Hfresh.
  assert (H1 : createTopic topic st =
               (mkTopic (topicId st) (ipath topic) (ibrokerId topic),
                mkStorage (topics st ++
                             [(topicId st,
                               mkTopic (topicId st) (ipath topic)
                                       (ibrokerId topic))])
                          (messages st) (topicId st + 1))).
  { run_store. rewrite Hfind. simpl.
    rewrite (map_set_fresh _ _ _ Hfresh), (incr_lt _ Hlt). reflexivity. }
  pose proof (deleteTopic_found (ipath topic) _ Hwf1) as Hret.
  pose proof (deleteTopic_table (ipath topic) _ Hwf1) as Htopics.
  pose proof (proj2 (deleteTopic_rest (ipath topic) (snd (createTopic topic st))))
    as Hid.
  rewrite H1 in *. simpl in *.
  assert (Hback : filter (fun e => negb (str_eqb (path (snd e)) (ipath topic)))
                    (topics st ++
                       [(topicId st,
                         mkTopic (topicId st) (ipath topic) (ibrokerId topic))])
                  = topics st).
  { rewrite filter_app. simpl.
    rewrite (proj2 (str_eqb_eq _ _) eq_refl). simpl. rewrite app_nil_r.
    apply filter_all. intros [k t'] Hk. simpl. apply negb_true_iff.
    destruct (str_eqb (path t') (ipath topic)) eqn:E; [|reflexivity].
    apply str_eqb_eq in E. exfalso. apply (Hnew t'); [|exact E].
    apply in_map_values. eauto. }
  rewrite Hback in Htopics.
  split; [|split; [exact Htopics | split; [reflexivity|]]].
  - apply Hret.
    exists (mkTopic (topicId st) (ipath topic) (ibrokerId topic)).
    split; [|reflexivity].
    unfold map_values. rewrite map_app. apply in_or_app. right. left.
    reflexivity.
  - set (st2 := snd (deleteTopic (ipath topic) _)) in *.
    assert (Hf2 : find (fun t => str_eqb (path t) (ipath topic))
                    (map_values (topics st2)) = None).
    { apply find_path_none. rewrite Htopics. exact Hnew. }
    run_store. rewrite Hf2. simpl. exact Hid.
Qed.

Lemma topic_ids_not_reused_witness :
  id (fst (createTopic (mkInsertTopic (js "a") 1)
             (snd (deleteTopic (js "a")
                     (snd (createTopic (mkInsertTopic (js "a") 1) empty))))))
  = 2%Z.
Proof.
  apply (proj2 (proj2 (proj2
           (topic_ids_not_reused (mkInsertTopic (js "a") 1) empty
              topics_wf_empty ltac:(reflexivity)
              (fun t (H : In t []) => match H with end))))).
Defined.

End TopicTableMore.

Section TopicListing.

Lemma StronglySorted_snoc (l : list Z) (x : Z) :
  StronglySorted Z.lt l -> (forall y, In y l -> (y < x)%Z) ->
  StronglySorted Z.lt (l ++ [x]).
Proof.
  induction 1 as [|a l Hl IH Ha]; intros Hx; simpl.
  - repeat constructor.
  - constructor.
    + apply IH. intros y Hy. apply Hx. right. exact Hy.
    + apply Forall_app. split; [exact Ha|].
      constructor; [|constructor]. apply Hx. left. reflexivity.
Qed.

Lemma StronglySorted_map_filter {A} (f : A -> Z) (P : A -> bool) (l : list A) :
  StronglySorted Z.lt (List.map f l) ->
  StronglySorted Z.lt (List.map f (filter P l)).
Proof.
  induction l as [|x l IH]; simpl; intros H; [constructor|].
  inversion H as [|a l' Hl Ha]; subst.
  destruct (P x); simpl; [|auto].
  constructor; [auto|].
  rewrite Forall_forall in *. intros y Hy. apply Ha.
  apply in_map_iff in Hy. destruct Hy as [z [Hz Hin]].
  apply filter_In in Hin. apply in_map_iff. exists z. tauto.
Qed.

Lemma exec_sorted st c :
  topics_wf st ->
  StronglySorted Z.lt (List.map fst (topics st)) ->
  StronglySorted Z.lt (List.map fst (topics (exec st c))).
Proof.
  intros Hwf Hs. destruct c; simpl; try exact Hs.
  - run_store. destruct (find _ _); simpl; [exact Hs|].
    rewrite (map_set_fresh _ _ _ (wf_fresh st Hwf)), map_app. simpl.
    apply StronglySorted_snoc; [exact Hs|].
    intros y Hy. apply in_map_iff in Hy. destruct Hy as [[k t] [<- Hin]].
    exact (proj2 (proj1 Hwf k t Hin)).
  - run_store. destruct (find _ _); simpl; [|exact Hs].
    apply StronglySorted_map_filter. exact Hs.
Qed.

Lemma after_sorted calls :
  (Z.of_nat (length calls) < 9007199254740991)%Z ->
  StronglySorted Z.lt (List.map fst (topics (after calls))).
Proof.
  induction calls as [|c calls IH] using rev_ind; intros Hlen.
  - constructor.
  - rewrite length_app in Hlen. cbn [length] in Hlen.
    rewrite after_snoc. apply exec_sorted.
    + apply after_wf. lia.
    + apply IH. lia.
Qed.

Lemma wf_ids st :
  topics_wf st ->
  List.map id (map_values (topics st)) = List.map fst (topics st).
Proof.
  intros [Hk _]. unfold map_values. rewrite map_map.
  apply map_ext_in. intros [k t] Hin. exact (proj1 (Hk k t Hin)).
Qed.

(** X3.  Whatever calls have built the store, [getTopics] lists topics with
    pairwise distinct paths, in the order of their creation: the ids
    increase along the list.  It leaves the store as it was. *)
Theorem getTopics_listing calls :
  (Z.of_nat (length calls) < 9007199254740991)%Z ->
  NoDup (List.map path (fst (getTopics (after calls)))) /\
  StronglySorted Z.lt (List.map id (fst (getTopics (after calls)))) /\
  Forall (fun t => (id t < topicId (after calls))%Z)
         (fst (getTopics (after calls))) /\
  snd (getTopics (after calls)) = after calls.
Proof.
  intros Hlen. destruct (after_wf calls Hlen) as [Hwf _].
  run_store. simpl. split; [exact (proj2 (proj2 Hwf))|].
  split; [rewrite (wf_ids _ Hwf); apply after_sorted; exact Hlen|].
  split; [|reflexivity].
  apply Forall_forall. intros t Hin.
  apply (wf_stored _ _ Hwf) in Hin. exact (proj2 (proj1 Hwf _ _ Hin)).
Qed.

Lemma getTopics_listing_witness :
  StronglySorted Z.lt
    (List.map id
       (fst (getTopics
               (after [CreateTopic (mkInsertTopic (js "a") 1);
                       CreateTopic (mkInsertTopic (js "b") 1);
                       DeleteTopic (js "a");
                       CreateTopic (mkInsertTopic (js "a") 1)])))).
Proof.
  apply (getTopics_listing
           [CreateTopic (mkInsertTopic (js "a") 1);
            CreateTopic (mkInsertTopic (js "b") 1);
            DeleteTopic (js "a");
            CreateTopic (mkInsertTopic (js "a") 1)]).
  simpl. lia.
Defined.

End TopicListing.

(* ================================================================== *)
(** * Further properties of the message history *)
(* ================================================================== *)

Section HistoryMore.

Lemma history_eq now t r st :
  fst (getMessageHistory now t r st) =
  filter (in_history t (startTime now r)) (messages st).
Proof. reflexivity. Qed.

Lemma filter_narrow {A} (P Q : A -> bool) (l : list A) :
  (forall x, P x = true -> Q x = true) ->
  filter P l = filter P (filter Q l).
Proof.
  intros H. induction l as [|x l IH]; simpl; [reflexivity|].
  destruct (Q x) eqn:EQ; simpl.
  - destruct (P x); [f_equal|]; exact IH.
  - destruct (P x) eqn:EP; [|exact IH].
    apply H in EP. congruence.
Qed.

Lemma history_narrow now t r1 r2 st :
  (startTime now r2 <= startTime now r1)%Z ->
  fst (getMessageHistory now t r1 st) =
  filter (not_before (startTime now r1)) (fst (getMessageHistory now t r2 st)).
Proof.
  intros Hle. rewrite !history_eq.
  rewrite (filter_narrow (in_history t (startTime now r1))
             (in_history t (startTime now r2))).
  - apply filter_ext_in. intros msg Hin. apply filter_In in Hin.
    destruct Hin as [_ Hin]. unfold in_history, not_before in *.
    apply andb_true_iff in Hin. destruct Hin as [-> _]. reflexivity.
  - intros msg. unfold in_history. rewrite !andb_true_iff.
    intros [Ht Hs]. split; [exact Ht|].
    destruct (timestamp msg); [|discriminate].
    apply Z.leb_le. apply Z.leb_le in Hs. lia.
Qed.

Lemma duration_bounds r :
  (3600000 <= duration r <= 604800000)%Z.
Proof.
  unfold duration.
  destruct (str_eqb r (js "6h")); [lia|].
  destruct (str_eqb r (js "24h")); [lia|].
  destruct (str_eqb r (js "7d")); lia.
Qed.

(** X4.  A wider window never loses a message: whatever the value of the
    window, the one-hour history is the part of its history that is not
    older than one hour, its history is the part of the seven-day history
    that is not older than its own start, and the six-hour history is that
    part of the one-day history. *)
Theorem history_widens now t st :
  (forall r,
     fst (getMessageHistory now t (js "1h") st) =
     filter (not_before (startTime now (js "1h")))
            (fst (getMessageHistory now t r st))) /\
  fst (getMessageHistory now t (js "6h") st) =
    filter (not_before (startTime now (js "6h")))
           (fst (getMessageHistory now t (js "24h") st)) /\
  (forall r,
     fst (getMessageHistory now t r st) =
     filter (not_before (startTime now r))
            (fst (getMessageHistory now t (js "7d") st))).
Proof.
  split; [|split].
  - intros r. apply history_narrow. rewrite !startTime_duration.
    pose proof (duration_bounds r). change (duration (js "1h")) with 3600000%Z.
    lia.
  - apply history_narrow. rewrite !startTime_duration.
    change (duration (js "6h")) with 21600000%Z.
    change (duration (js "24h")) with 86400000%Z. lia.
  - intros r. apply history_narrow. rewrite !startTime_duration.
    pose proof (duration_bounds r). change (duration (js "7d")) with 604800000%Z.
    lia.
Qed.

Lemma store_pushed now message st :
  messages (snd (storeMessage now message st)) =
  skipn (length (messages st) + 1 - maxHistorySize) (messages st)
  ++ [stamp now message].
Proof.
  rewrite storeMessage_messages, skipn_app, length_app. simpl.
  pose proof maxHistorySize_pos.
  replace (length (messages st) + 1 - maxHistorySize - length (messages st))
    with 0 by lia.
  reflexivity.
Qed.

Lemma stamp_topic now message : topic (stamp now message) = topic message.
Proof. unfold stamp. destruct (timestamp message); reflexivity. Qed.

(** X5.  A message of another topic adds nothing to the history of a topic:
    the history after the append is the end of the history before it, and
    the whole of it as long as the store is not full. *)
Theorem storeMessage_other_topic now message st now' t r :
  topic message <> t ->
  exists evicted,
    fst (getMessageHistory now' t r st) =
    evicted ++
    fst (getMessageHistory now' t r (snd (storeMessage now message st))) /\
    (length (messages st) < maxHistorySize -> evicted = []).
Proof.
  intros Hne. rewrite !history_eq, store_pushed, filter_app.
  set (k := length (messages st) + 1 - maxHistorySize).
  exists (filter (in_history t (startTime now' r)) (firstn k (messages st))).
  split.
  - simpl. unfold in_history at 4. rewrite stamp_topic.
    replace (str_eqb (topic message) t) with false.
    + simpl. rewrite app_nil_r, <- filter_app, firstn_skipn. reflexivity.
    + symmetry. destruct (str_eqb (topic message) t) eqn:E; [|reflexivity].
      apply str_eqb_eq in E. contradiction.
  - intros Hlt. replace k with 0 by (unfold k; lia). reflexivity.
Qed.

Lemma storeMessage_other_topic_witness :
  js "a" <> js "b" /\
  exists evicted,
    fst (getMessageHistory 5 (js "b") (js "1h") empty) =
    evicted ++
    fst (getMessageHistory 5 (js "b") (js "1h")
           (snd (storeMessage 5 (mkMessage (js "a") JNull None) empty))) /\
    (length (messages empty) < maxHistorySize -> evicted = []).
Proof.
  assert (H : js "a" <> js "b") by discriminate.
  split; [exact H|].
  exact (storeMessage_other_topic 5 (mkMessage (js "a") JNull None) empty 5
           (js "b") (js "1h") H).
Defined.

(** X6.  What is stored can be read back: a message that arrives without a
    timestamp is the newest entry of the history of its topic, for every
    window, when the history is asked for at the time of the append; and
    so is any message whose timestamp is not before the start of the
    window asked for. *)
Theorem storeMessage_read_back now message st :
  (timestamp message = None ->
   forall r, exists older,
     fst (getMessageHistory now (topic message) r
            (snd (storeMessage now message st))) =
     older ++ [stamp now message]) /\
  (forall now' r ts,
     timestamp (stamp now message) = Some ts ->
     (startTime now' r <= ts)%Z ->
     exists older,
       fst (getMessageHistory now' (topic message) r
              (snd (storeMessage now message st))) =
       older ++ [stamp now message]).
Proof.
  assert (Hgen : forall now' r ts,
             timestamp (stamp now message) = Some ts ->
             (startTime now' r <= ts)%Z ->
             exists older,
               fst (getMessageHistory now' (topic message) r
                      (snd (storeMessage now message st))) =
               older ++ [stamp now message]).
  { intros now' r ts Hts Hle. rewrite history_eq, store_pushed, filter_app.
    eexists. f_equal. simpl. unfold in_history.
    rewrite stamp_topic, (proj2 (str_eqb_eq _ _) eq_refl), Hts. simpl.
    replace (Z.leb (startTime now' r) ts) with true; [reflexivity|].
    symmetry. apply Z.leb_le. exact Hle. }
  split; [|exact Hgen].
  intros Hnone r. apply (Hgen now r now).
  - unfold stamp. rewrite Hnone. reflexivity.
  - rewrite startTime_duration. pose proof (duration_bounds r). lia.
Qed.

Lemma storeMessage_read_back_witness :
  timestamp (mkMessage (js "t") (JNumber 1 0) None) = None /\
  exists older,
    fst (getMessageHistory 9 (js "t") (js "24h")
           (snd (storeMessage 9 (mkMessage (js "t") (JNumber 1 0) None)
                   empty))) =
    older ++ [stamp 9 (mkMessage (js "t") (JNumber 1 0) None)].
Proof.
  split; [reflexivity|].
  exact (proj1 (storeMessage_read_back 9 (mkMessage (js "t") (JNumber 1 0) None)
                  empty) eq_refl (js "24h")).
Defined.

End HistoryMore.

(* ================================================================== *)
(** * Further properties of the bridge *)
(* ================================================================== *)

Section SubscriptionsMore.

(** X7.  Only the acknowledgement of a request changes the set of
    subscriptions: no call of [subscribe] or [unsubscribe], no message, no
    listener, no loss or return of the connection and no refusal by the
    broker does. *)
Theorem subscriptions_change_only_on_ack b a :
  (forall n, a <> Acknowledge n None) ->
  subscribedTopics (perform b a) = subscribedTopics b.
Proof.
  intros Ha. destruct a; simpl.
  - apply subscribe_topics.
  - apply unsubscribe_topics.
  - destruct err as [e|]; [|exfalso; exact (Ha n eq_refl)].
    unfold acknowledge. destruct (nth_error (pending b) n) as [r|]; [|reflexivity].
    destruct r; reflexivity.
  - reflexivity.
  - reflexivity.
  - unfold connect, disconnect. destruct (isConnected b); [|reflexivity].
    destruct (client b); reflexivity.
  - unfold onConnect. destruct (client b); [|reflexivity].
    rewrite resubscribe_topics. reflexivity.
  - reflexivity.
  - unfold disconnect. destruct (client b); reflexivity.
  - unfold onMessage. rewrite onMessageE_eq. reflexivity.
Qed.

Lemma subscriptions_change_only_on_ack_witness :
  subscribedTopics
    (perform (performs [Connect; Connected; Subscribe (js "a");
                        Acknowledge 0 None] initial) Disconnect) = [js "a"].
Proof.
  rewrite (subscriptions_change_only_on_ack _ Disconnect);
    [reflexivity | discriminate].
Defined.

Lemma unsubscribe_acknowledged p b :
  isConnected b = true ->
  acknowledge (length (pending b)) None (snd (unsubscribe p b)) =
  mkBridge (client b) (messageListeners b) (set_delete p (subscribedTopics b))
           (pending b) (storage b)
           (trace b ++ [Logged (js "Unsubscribed from topic") p]).
Proof.
  intros Hc. unfold unsubscribe, acknowledge. rewrite Hc. simpl.
  rewrite nth_error_snoc, remove_nth_snoc. reflexivity.
Qed.

Lemma unsubscribe_refused p e b :
  isConnected b = true ->
  acknowledge (length (pending b)) (Some e) (snd (unsubscribe p b)) =
  mkBridge (client b) (messageListeners b) (subscribedTopics b)
           (pending b) (storage b)
           (trace b ++ [Logged (js "Error unsubscribing from topic") p]).
Proof.
  intros Hc. unfold unsubscribe, acknowledge. rewrite Hc. simpl.
  rewrite nth_error_snoc, remove_nth_snoc. reflexivity.
Qed.

Lemma set_delete_in x y l : In y (set_delete x l) <-> In y l /\ y <> x.
Proof.
  unfold set_delete. rewrite filter_In, negb_true_iff. split.
  - intros [H E]. split; [exact H|]. intros ->.
    rewrite (proj2 (str_eqb_eq x x) eq_refl) in E. discriminate.
  - intros [H Hne]. split; [exact H|].
    destruct (str_eqb x y) eqn:E; [|reflexivity].
    apply str_eqb_eq in E. congruence.
Qed.

Lemma set_delete_add x l : ~ In x l -> set_delete x (set_add x l) = l.
Proof.
  intros Hx. unfold set_add.
  assert (Hf : set_delete x l = l).
  { unfold set_delete. apply filter_all. intros y Hy. apply negb_true_iff.
    destruct (str_eqb x y) eqn:E; [|reflexivity].
    apply str_eqb_eq in E. subst y. contradiction. }
  destruct (existsb (str_eqb x) l); [exact Hf|].
  unfold set_delete in *. rewrite filter_app, Hf. simpl.
  rewrite (proj2 (str_eqb_eq x x) eq_refl). simpl. apply app_nil_r.
Qed.

(** X8.  With a connection, [unsubscribe] returns true and hands the library
    one request, behind those outstanding, without touching the set
    itself; the acknowledgement of that request takes the pattern out of
    the set, leaves every other pattern in it and leaves no request
    outstanding that was not before; a refusal leaves the set as it was;
    and subscribing to a pattern that was not in the set and
    unsubscribing from it, both acknowledged, gives the set back.
    Without a connection [unsubscribe] returns false and hands the
    library nothing. *)
Theorem unsubscribe_round_trip p b :
  isConnected b = true ->
  fst (unsubscribe p b) = true /\
  pending (snd (unsubscribe p b)) = pending b ++ [ReqUnsubscribe p] /\
  subscribedTopics (snd (unsubscribe p b)) = subscribedTopics b /\
  pending (acknowledge (length (pending b)) None (snd (unsubscribe p b)))
    = pending b /\
  ~ In p (subscribedTopics
            (acknowledge (length (pending b)) None (snd (unsubscribe p b)))) /\
  (forall q, q <> p ->
     (In q (subscribedTopics
              (acknowledge (length (pending b)) None (snd (unsubscribe p b))))
      <-> In q (subscribedTopics b))) /\
  (forall e,
     subscribedTopics
       (acknowledge (length (pending b)) (Some e) (snd (unsubscribe p b)))
     = subscribedTopics b) /\
  (~ In p (subscribedTopics b) ->
   subscribedTopics
     (performs [Subscribe p; Acknowledge (length (pending b)) None;
                Unsubscribe p; Acknowledge (length (pending b)) None] b)
   = subscribedTopics b) /\
  (forall b', isConnected b' = false ->
     fst (unsubscribe p b') = false /\
     pending (snd (unsubscribe p b')) = pending b' /\
     subscribedTopics (snd (unsubscribe p b')) = subscribedTopics b').
Proof.
  intros Hc.
  assert (Hoff : forall b', isConnected b' = false ->
     fst (unsubscribe p b') = false /\
     pending (snd (unsubscribe p b')) = pending b' /\
     subscribedTopics (snd (unsubscribe p b')) = subscribedTopics b').
  { intros b' Hb'. unfold unsubscribe. rewrite Hb'. simpl. auto. }
  split; [unfold unsubscribe; rewrite Hc; reflexivity|].
  split; [unfold unsubscribe; rewrite Hc; reflexivity|].
  split; [unfold unsubscribe; rewrite Hc; reflexivity|].
  rewrite (unsubscribe_acknowledged p b Hc). simpl.
  split; [reflexivity|].
  split; [|split; [|split; [|split; [|exact Hoff]]]].
  - intros H. apply set_delete_in in H. destruct H as [_ H]. congruence.
  - intros q Hq. rewrite set_delete_in. tauto.
  - intros e. rewrite (unsubscribe_refused p e b Hc). reflexivity.
  - intros Hp. unfold performs. simpl fold_left.
    rewrite (subscribe_acknowledged p b Hc).
    set (b1 := mkBridge _ _ _ _ _ _).
    change (length (pending b)) with (length (pending b1)).
    rewrite (unsubscribe_acknowledged p b1 Hc). simpl.
    apply set_delete_add. exact Hp.
Qed.

Lemma unsubscribe_round_trip_witness :
  isConnected (performs [Connect; Connected] initial) = true /\
  subscribedTopics
    (performs [Subscribe (js "a");
               Acknowledge
                 (length (pending (performs [Connect; Connected] initial)))
                 None;
               Unsubscribe (js "a");
               Acknowledge
                 (length (pending (performs [Connect; Connected] initial)))
                 None]
       (performs [Connect; Connected] initial)) = [].
Proof.
  split; [reflexivity|].
  apply (proj1 (proj2 (proj2 (proj2 (proj2 (proj2 (proj2 (proj2
           (unsubscribe_round_trip (js "a")
              (performs [Connect; Connected] initial) eq_refl))))))))).
  intros [].
Defined.

Lemma set_add_member x l : In x l -> set_add x l = l.
Proof.
  intros H. unfold set_add.
  replace (existsb (str_eqb x) l) with true; [reflexivity|].
  symmetry. apply existsb_exists. exists x. split; [exact H|].
  apply str_eqb_eq. reflexivity.
Qed.

Lemma resubscribe_all ts : forall b,
  isConnected b = true ->
  fold_left (fun acc t => snd (subscribe t acc)) ts b =
  mkBridge (client b) (messageListeners b) (subscribedTopics b)
           (pending b ++ List.map ReqSubscribe ts) (storage b) (trace b).
Proof.
  induction ts as [|t ts IH]; intros b Hc; simpl.
  - rewrite app_nil_r. destruct b; reflexivity.
  - rewrite IH.
    + unfold subscribe. rewrite Hc. simpl. rewrite <- app_assoc. reflexivity.
    + unfold subscribe. rewrite Hc. exact Hc.
Qed.

Lemma nth_error_middle {A} (l : list A) x r :
  nth_error (l ++ x :: r) (length l) = Some x.
Proof. rewrite nth_error_app2, Nat.sub_diag; [reflexivity | lia]. Qed.

Lemma remove_nth_middle {A} (l : list A) x r :
  remove_nth (length l) (l ++ x :: r) = l ++ r.
Proof. induction l as [|y l IH]; simpl; [reflexivity | rewrite IH; reflexivity]. Qed.

Lemma acknowledge_all pre ts : forall b,
  pending b = pre ++ List.map ReqSubscribe ts ->
  (forall t, In t ts -> In t (subscribedTopics b)) ->
  subscribedTopics
    (performs (repeat (Acknowledge (length pre) None) (length ts)) b)
  = subscribedTopics b /\
  pending (performs (repeat (Acknowledge (length pre) None) (length ts)) b)
  = pre.
Proof.
  induction ts as [|t ts IH]; intros b Hp Hin; simpl.
  - rewrite app_nil_r in Hp. auto.
  - simpl in Hp.
    change (performs (Acknowledge (length pre) None
                        :: repeat (Acknowledge (length pre) None) (length ts)) b)
      with (performs (repeat (Acknowledge (length pre) None) (length ts))
                     (acknowledge (length pre) None b)).
    assert (Hb : subscribedTopics (acknowledge (length pre) None b)
                 = subscribedTopics b /\
                 pending (acknowledge (length pre) None b)
                 = pre ++ List.map ReqSubscribe ts).
    { unfold acknowledge. rewrite Hp, nth_error_middle, remove_nth_middle.
      simpl. rewrite (set_add_member t _ (Hin t (or_introl eq_refl))). auto. }
    destruct Hb as [Hs Hq].
    destruct (IH (acknowledge (length pre) None b) Hq) as [H1 H2].
    + intros x Hx. rewrite Hs. apply Hin. right. exact Hx.
    + rewrite H1, Hs. auto.
Qed.

(** X9.  When a client connects, the bridge hands the library one subscribe
    request for each pattern of the set, in the order of the set, behind
    the requests still outstanding; the set itself stays as it is, also
    after the broker has acknowledged all these requests. *)
Theorem reconnect_resubscribes b :
  client b <> None ->
  isConnected (onConnect b) = true /\
  subscribedTopics (onConnect b) = subscribedTopics b /\
  pending (onConnect b) =
    pending b ++ List.map ReqSubscribe (subscribedTopics b) /\
  subscribedTopics
    (performs (repeat (Acknowledge (length (pending b)) None)
                      (length (subscribedTopics b))) (onConnect b))
  = subscribedTopics b /\
  pending
    (performs (repeat (Acknowledge (length (pending b)) None)
                      (length (subscribedTopics b))) (onConnect b))
  = pending b.
Proof.
  intros Hc.
  assert (Heq : onConnect b =
            mkBridge (Some true) (messageListeners b) (subscribedTopics b)
              (pending b ++ List.map ReqSubscribe (subscribedTopics b))
              (storage b)
              (trace b ++ [Logged (js "Server connected to MQTT broker") []])).
  { unfold onConnect. destruct (client b); [|congruence].
    rewrite resubscribe_all; reflexivity. }
  rewrite Heq. clear Heq. set (b1 := mkBridge _ _ _ _ _ _).
  split; [reflexivity|]. split; [reflexivity|]. split; [reflexivity|].
  exact (acknowledge_all (pending b) (subscribedTopics b) b1 eq_refl
           (fun t H => H)).
Qed.

Lemma reconnect_resubscribes_witness :
  pending
    (onConnect
       (performs [Connect; Connected; Subscribe (js "a"); Acknowledge 0 None;
                  Subscribe (js "b"); Acknowledge 0 None; Offline] initial))
  = [ReqSubscribe (js "a"); ReqSubscribe (js "b")].
Proof.
  assert (H : client
                 (performs [Connect; Connected; Subscribe (js "a");
                            Acknowledge 0 None; Subscribe (js "b");
                            Acknowledge 0 None; Offline] initial) <> None).
  { vm_compute. discriminate. }
  rewrite (proj1 (proj2 (proj2 (reconnect_resubscribes _ H)))).
  reflexivity.
Defined.

End SubscriptionsMore.

Section EndToEnd.

Lemma delivered_to_app l a b :
  delivered_to l (a ++ b) = delivered_to l a ++ delivered_to l b.
Proof.
  unfold delivered_to. rewrite deliveries_app, filter_app, map_app. reflexivity.
Qed.

(** What an action other than a message does: it leaves the store and
    the listeners' view alone and adds nothing but log entries to the
    trace. *)
Lemma perform_quiet b a :
  (forall now t text, a <> Message now t text) ->
  storage (perform b a) = storage b /\
  exists logs,
    trace (perform b a) = trace b ++ logs /\
    stores logs = [] /\ deliveries logs = [].
Proof.
  intros Ha. destruct a; simpl.
  - unfold subscribe. destruct (negb (isConnected b)); simpl;
      (split; [reflexivity|]).
    + eexists. split; [reflexivity|]. split; reflexivity.
    + exists []. rewrite app_nil_r. auto.
  - unfold unsubscribe. destruct (negb (isConnected b)); simpl;
      (split; [reflexivity|]).
    + eexists. split; [reflexivity|]. split; reflexivity.
    + exists []. rewrite app_nil_r. auto.
  - unfold acknowledge. destruct (nth_error (pending b) n) as [r|].
    + destruct r, err; simpl; (split; [reflexivity|]);
        eexists; (split; [reflexivity|]); split; reflexivity.
    + split; [reflexivity|]. exists []. rewrite app_nil_r. auto.
  - split; [reflexivity|]. exists []. rewrite app_nil_r. auto.
  - split; [reflexivity|]. exists []. rewrite app_nil_r. auto.
  - unfold connect, disconnect. destruct (isConnected b); [destruct (client b)|];
      simpl; (split; [reflexivity|]).
    + rewrite <- app_assoc. eexists. split; [reflexivity|]. split; reflexivity.
    + eexists. split; [reflexivity|]. split; reflexivity.
    + eexists. split; [reflexivity|]. split; reflexivity.
  - unfold onConnect. destruct (client b).
    + rewrite resubscribe_all by reflexivity. simpl. split; [reflexivity|].
      eexists. split; [reflexivity|]. split; reflexivity.
    + split; [reflexivity|]. exists []. rewrite app_nil_r. auto.
  - split; [reflexivity|]. eexists. split; [reflexivity|]. split; reflexivity.
  - unfold disconnect. destruct (client b); simpl; (split; [reflexivity|]).
    + eexists. split; [reflexivity|]. split; reflexivity.
    + exists []. rewrite app_nil_r. auto.
  - exfalso. exact (Ha now t payloadText eq_refl).
Qed.

Lemma performs_snoc actions a b :
  performs (actions ++ [a]) b = perform (performs actions b) a.
Proof. unfold performs. rewrite fold_left_app. reflexivity. Qed.

Lemma received_snoc actions a :
  received (actions ++ [a]) =
  received actions ++
  match a with
  | Message now t text => [mkMessage t (decoded text) (Some now)]
  | _ => []
  end.
Proof.
  unfold received. rewrite flat_map_app. simpl. rewrite app_nil_r. reflexivity.
Qed.

(** X10.  The store of the bridge follows the broker: whatever else happens to
    the bridge, it holds the last 10,000 messages received, decoded, in
    the order of their arrival, and every message received was handed to
    it. *)
Theorem bridge_store_follows_messages actions :
  messages (storage (performs actions initial)) =
    skipn (length (received actions) - 10000) (received actions) /\
  stores (trace (performs actions initial)) = received actions.
Proof.
  change 10000 with maxHistorySize.
  induction actions as [|a actions [IHm IHs]] using rev_ind.
  - split; reflexivity.
  - rewrite performs_snoc, received_snoc.
    destruct a;
      try (match goal with
           | |- context [perform ?b0 ?a0] =>
               destruct (perform_quiet b0 a0 ltac:(intros; discriminate))
                 as [Hst [logs [Htr [Hl _]]]]
           end;
           rewrite Hst, Htr, stores_app, Hl, !app_nil_r; split; assumption).
    cbn [perform]. unfold onMessage. rewrite onMessageE_eq.
    cbv zeta. cbn [snd storage trace].
    split.
    + rewrite storeMessage_messages, IHm. unfold stamp. cbn [timestamp].
      apply keep_last_snoc. exact maxHistorySize_pos.
    + rewrite stores_app.
      change (Stored ?m :: ?r) with ([Stored m] ++ r).
      rewrite stores_app, stores_handled, IHs, app_nil_r. reflexivity.
Qed.

Lemma delivered_to_handled l message ls :
  delivered_to l (handled message ls) =
  repeat message (registrations l (called message ls)).
Proof.
  unfold delivered_to, registrations. rewrite deliveries_handled.
  induction (called message ls) as [|x xs IH]; [reflexivity|].
  simpl. destruct (Nat.eqb (lid x) l); simpl; rewrite IH; reflexivity.
Qed.

Lemma onMessage_delivered l now t text b :
  delivered_to l (trace (onMessage now t text b)) =
  delivered_to l (trace b)
  ++ repeat (mkMessage t (decoded text) (Some now))
            (registrations l
               (called (mkMessage t (decoded text) (Some now))
                       (messageListeners b))).
Proof.
  unfold onMessage. rewrite onMessageE_eq. simpl.
  rewrite delivered_to_app.
  change (Stored ?m :: ?r) with ([Stored m] ++ r).
  rewrite delivered_to_app, delivered_to_handled. reflexivity.
Qed.

(** The loop reaches no listener that is not registered. *)
Lemma called_registrations l message ls :
  registrations l (called message ls) <= registrations l ls.
Proof.
  unfold registrations. induction ls as [|x ls IH]; [apply le_n|].
  cbn [called filter]. destruct (unprintable message x).
  - cbn [filter]. destruct (Nat.eqb (lid x) l); cbn [length]; lia.
  - destruct (Nat.eqb (lid x) l); cbn [length]; lia.
Qed.

(** It reaches a listener that is registered once when those ahead of it
    throw nothing without a text. *)
Lemma called_registered l message ls :
  registrations l ls = 1 ->
  (forall y, In y (ahead l ls) -> unprintable message y = false) ->
  registrations l (called message ls) = 1.
Proof.
  induction ls as [|x ls IH]; intros Hreg Hahead; [discriminate|].
  pose proof (called_registrations l message ls) as Hle.
  unfold registrations in *. cbn [called filter ahead] in *.
  destruct (Nat.eqb (lid x) l) eqn:E.
  - cbn [length] in Hreg.
    destruct (unprintable message x); cbn [filter length]; [reflexivity | lia].
  - rewrite (Hahead x (or_introl eq_refl)).
    apply IH; [exact Hreg|]. intros y Hy. apply Hahead. right. exact Hy.
Qed.

Lemma ahead_added l x ls :
  registrations l ls = 1 -> ahead l (ls ++ [x]) = ahead l ls.
Proof.
  unfold registrations. induction ls as [|y ls IH]; intros H; [discriminate|].
  cbn [app ahead filter] in *. destruct (Nat.eqb (lid y) l); [reflexivity|].
  rewrite IH; [reflexivity | exact H].
Qed.

Lemma ahead_removed l l0 ls :
  l0 <> l ->
  ahead l (filter (fun x => negb (Nat.eqb (lid x) l0)) ls) =
  filter (fun x => negb (Nat.eqb (lid x) l0)) (ahead l ls).
Proof.
  intros Hne. induction ls as [|y ls IH]; [reflexivity|].
  cbn [filter ahead].
  destruct (Nat.eqb_spec (lid y) l0) as [E0|E0]; cbn [negb].
  - destruct (Nat.eqb_spec (lid y) l) as [E|E]; [congruence|].
    cbn [filter]. destruct (Nat.eqb_spec (lid y) l0); [|contradiction].
    exact IH.
  - cbn [ahead]. destruct (Nat.eqb_spec (lid y) l) as [E|E]; [reflexivity|].
    cbn [filter]. destruct (Nat.eqb_spec (lid y) l0); [contradiction|].
    cbn [negb]. rewrite IH. reflexivity.
Qed.

Lemma registrations_removed l l0 ls :
  l0 <> l ->
  registrations l (filter (fun x => negb (Nat.eqb (lid x) l0)) ls) =
  registrations l ls.
Proof.
  intros Hne. unfold registrations.
  induction ls as [|x ls IH]; [reflexivity|].
  simpl. destruct (Nat.eqb_spec (lid x) l0) as [E|E]; simpl.
  - destruct (Nat.eqb_spec (lid x) l) as [E'|_]; [congruence | exact IH].
  - destruct (Nat.eqb (lid x) l); simpl; [f_equal|]; exact IH.
Qed.

Lemma registrations_gone l ls :
  registrations l (filter (fun x => negb (Nat.eqb (lid x) l)) ls) = 0.
Proof.
  unfold registrations. induction ls as [|x ls IH]; [reflexivity|].
  simpl. destruct (Nat.eqb (lid x) l) eqn:E; simpl; [exact IH|].
  rewrite E. exact IH.
Qed.

(** Removing listeners that throw nothing without a text does not change
    which of the others the loop reaches. *)
Lemma called_removed l message ls :
  (forall x, In x ls -> lid x = l -> unprintable message x = false) ->
  called message (filter (fun x => negb (Nat.eqb (lid x) l)) ls) =
  filter (fun x => negb (Nat.eqb (lid x) l)) (called message ls).
Proof.
  induction ls as [|x ls IH]; intros H; [reflexivity|].
  assert (IH' := IH (fun y Hy => H y (or_intror Hy))).
  cbn [filter called]. destruct (Nat.eqb_spec (lid x) l) as [E|E]; cbn [negb].
  - rewrite (H x (or_introl eq_refl) E). exact IH'.
  - cbn [called]. destruct (unprintable message x); [reflexivity|].
    rewrite IH'. reflexivity.
Qed.

Lemma perform_listeners b a :
  (forall x, a <> AddListener x) -> (forall l, a <> RemoveListener l) ->
  messageListeners (perform b a) = messageListeners b.
Proof.
  intros Hadd Hrem. destruct a; simpl; try reflexivity.
  - unfold subscribe. destruct (negb (isConnected b)); reflexivity.
  - unfold unsubscribe. destruct (negb (isConnected b)); reflexivity.
  - unfold acknowledge. destruct (nth_error (pending b) n) as [r|]; [|reflexivity].
    destruct r, err; reflexivity.
  - exfalso. exact (Hadd l eq_refl).
  - exfalso. exact (Hrem l eq_refl).
  - unfold connect, disconnect. destruct (isConnected b); [|reflexivity].
    destruct (client b); reflexivity.
  - unfold onConnect. destruct (client b); [|reflexivity].
    rewrite resubscribe_all by reflexivity. reflexivity.
  - unfold disconnect. destruct (client b); reflexivity.
  - unfold onMessage. rewrite onMessageE_eq. reflexivity.
Qed.

Lemma received_cons a actions :
  received (a :: actions) = received [a] ++ received actions.
Proof. unfold received. simpl. rewrite app_nil_r. reflexivity. Qed.

(** X11.  A listener that is registered once, and neither removed nor
    registered again, is handed every message that the bridge receives,
    once and in the order of arrival, whatever it throws itself, whatever
    the listeners registered after it throw and whatever happens to the
    connection and the subscriptions, as long as the listeners registered
    ahead of it throw, on these messages, only values that have a text:
    one that throws a Symbol ends the loop before its turn. *)
Theorem listener_receives_all l actions : forall b,
  registrations l (messageListeners b) = 1 ->
  (forall a, In a actions ->
     a <> RemoveListener l /\ forall x, a = AddListener x -> lid x <> l) ->
  (forall y message,
     In y (ahead l (messageListeners b)) -> In message (received actions) ->
     unprintable message y = false) ->
  delivered_to l (trace (performs actions b)) =
  delivered_to l (trace b) ++ received actions.
Proof.
  induction actions as [|a actions IH]; intros b Hreg Hok Hahead.
  - simpl. rewrite app_nil_r. reflexivity.
  - change (performs (a :: actions) b) with (performs actions (perform b a)).
    rewrite received_cons in Hahead |- *.
    destruct (Hok a (or_introl eq_refl)) as [Hrem Hadd].
    assert (Hreg' : registrations l (messageListeners (perform b a)) = 1).
    { destruct a;
        try (rewrite perform_listeners;
             [exact Hreg | intros; discriminate | intros; discriminate]).
      - simpl. unfold registrations in *. rewrite filter_app, length_app.
        simpl. destruct (Nat.eqb_spec (lid l0) l) as [E|_]; [|simpl; lia].
        exfalso. exact (Hadd l0 eq_refl E).
      - simpl. rewrite registrations_removed; [exact Hreg | congruence]. }
    assert (Hahead' : forall y message,
              In y (ahead l (messageListeners (perform b a))) ->
              In message (received actions) ->
              unprintable message y = false).
    { intros y message Hy Hm. apply Hahead; [|apply in_or_app; right; exact Hm].
      destruct a;
        try (rewrite perform_listeners in Hy;
             [exact Hy | intros; discriminate | intros; discriminate]).
      - simpl in Hy. rewrite ahead_added in Hy; assumption.
      - simpl in Hy. rewrite ahead_removed in Hy by congruence.
        apply filter_In in Hy. exact (proj1 Hy). }
    rewrite (IH (perform b a) Hreg' (fun x Hx => Hok x (or_intror Hx)) Hahead').
    destruct a;
      try (match goal with
           | |- context [perform b ?a0] =>
               destruct (perform_quiet b a0 ltac:(intros; discriminate))
                 as [_ [logs [Htr [_ Hd]]]]
           end;
           rewrite Htr, delivered_to_app; unfold delivered_to at 2;
           rewrite Hd; simpl; rewrite app_nil_r; reflexivity).
    simpl perform. rewrite onMessage_delivered.
    rewrite called_registered; [| exact Hreg |].
    + simpl. rewrite <- app_assoc. reflexivity.
    + intros y Hy. apply Hahead; [exact Hy|]. left. reflexivity.
Qed.

Lemma listener_receives_all_witness :
  delivered_to 7
    (trace (performs [Message 1 (js "t") (js "1"); Offline;
                      AddListener (mkThrowingListener 8 (fun _ => true)
                                                      (fun _ => symbol));
                      Message 2 (js "t") (js "x")]
              (performs [AddListener (mkListener 6 (fun _ => true));
                         AddListener (mkThrowingListener 7 (fun _ => true)
                                                         (fun _ => symbol))]
                 initial)))
  = [mkMessage (js "t") (JNumber 1 0) (Some 1%Z);
     mkMessage (js "t") (JString (js "x")) (Some 2%Z)].
Proof.
  rewrite (listener_receives_all 7
             [Message 1 (js "t") (js "1"); Offline;
              AddListener (mkThrowingListener 8 (fun _ => true)
                                              (fun _ => symbol));
              Message 2 (js "t") (js "x")]).
  - reflexivity.
  - reflexivity.
  - intros a Ha. simpl in Ha.
    destruct Ha as [<- | [<- | [<- | [<- | []]]]];
      (split; [discriminate|]); intros x Hx; try discriminate.
    injection Hx as <-. simpl. discriminate.
  - intros y message [<- | []] _. reflexivity.
Defined.

(** X12.  A listener that has been removed is handed no message any more; the
    other listeners are handed what they would have been handed, when
    the removed listener throws, on that message, nothing or a value that
    has a text (one that throws a Symbol kept the listeners after it from
    being called); and removing a listener that has just been added, and
    was not registered before, gives the list of listeners back. *)
Theorem removed_listener_silent l b :
  (forall now t text,
     delivered_to l (trace (onMessage now t text (removeMessageListener l b)))
     = delivered_to l (trace b)) /\
  (forall l' now t text, l' <> l ->
     (forall x, In x (messageListeners b) -> lid x = l ->
        unprintable (mkMessage t (decoded text) (Some now)) x = false) ->
     delivered_to l' (trace (onMessage now t text (removeMessageListener l b)))
     = delivered_to l' (trace (onMessage now t text b))) /\
  (forall x, lid x = l -> registrations l (messageListeners b) = 0 ->
     messageListeners (removeMessageListener l (addMessageListener x b))
     = messageListeners b).
Proof.
  split; [|split].
  - intros now t text. rewrite onMessage_delivered. simpl.
    match goal with
    | |- context [registrations l (called ?m ?ls)] =>
        pose proof (called_registrations l m ls) as Hle
    end.
    rewrite registrations_gone in Hle. apply Nat.le_0_r in Hle.
    rewrite Hle. simpl. apply app_nil_r.
  - intros l' now t text Hne Hquiet. rewrite !onMessage_delivered. simpl.
    rewrite (called_removed l _ _ Hquiet).
    rewrite registrations_removed by congruence. reflexivity.
  - intros x Hx Hreg. simpl. rewrite filter_app. simpl.
    rewrite Hx, Nat.eqb_refl. simpl. rewrite app_nil_r.
    apply filter_all. intros y Hy. apply negb_true_iff.
    destruct (Nat.eqb (lid y) l) eqn:E; [|reflexivity].
    unfold registrations in Hreg. exfalso.
    assert (Hin : In y (filter (fun x0 => Nat.eqb (lid x0) l)
                          (messageListeners b))).
    { apply filter_In. auto. }
    destruct (filter _ (messageListeners b)); [contradiction | discriminate].
Qed.

Lemma removed_listener_silent_witness :
  7 <> 8 /\
  delivered_to 8
    (trace (onMessage 1 (js "t") (js "1")
              (removeMessageListener 7
                 (performs [AddListener (mkListener 7 (fun _ => true));
                            AddListener (mkListener 8 (fun _ => false))]
                    initial))))
  = [mkMessage (js "t") (JNumber 1 0) (Some 1%Z)].
Proof.
  assert (H : 8 <> 7) by discriminate.
  split; [discriminate|].
  rewrite (proj1 (proj2 (removed_listener_silent 7 _)) 8 1%Z (js "t") (js "1") H).
  - reflexivity.
  - intros x [<- | [<- | []]]; [reflexivity | discriminate].
Defined.

End EndToEnd.

(* ================================================================== *)
(** * The widget table *)
(* ================================================================== *)

Section WidgetTable.

Lemma text_or_null_not_empty x : Tables.text_or_null x <> Some [].
Proof. destruct x as [[|c s]|]; simpl; discriminate. Qed.

Lemma sorted_NoDup (l : list Z) : StronglySorted Z.lt l -> NoDup l.
Proof.
  induction 1 as [|a l Hl IH Ha]; constructor; [|exact IH].
  intros Hin. rewrite Forall_forall in Ha. specialize (Ha a Hin). lia.
Qed.

Lemma map_get_in {V} k (v : V) (mp : jsmap V) :
  NoDup (List.map fst mp) ->
  (Tables.map_get k mp = Some v <-> In (k, v) mp).
Proof.
  unfold Tables.map_get. induction mp as [|[k' v'] mp IH]; simpl; intros Hnd.
  - split; [discriminate | contradiction].
  - inversion Hnd as [|x l Hx Hl]; subst.
    destruct (Z.eqb_spec k' k) as [->|Hne]; simpl.
    + split.
      * intros H. injection H as ->. left. reflexivity.
      * intros [H | H]; [congruence|].
        exfalso. apply Hx. apply in_map_iff. exists (k, v). auto.
    + rewrite (IH Hl). split; [auto|].
      intros [H | H]; [congruence | exact H].
Qed.

Lemma map_get_delete {V} k k' (mp : jsmap V) :
  Tables.map_get k' (map_delete k mp) =
  if Z.eqb k' k then None else Tables.map_get k' mp.
Proof.
  unfold Tables.map_get, map_delete.
  induction mp as [|[k0 v0] mp IH]; simpl.
  - destruct (Z.eqb k' k); reflexivity.
  - destruct (Z.eqb_spec k0 k) as [->|Hne]; simpl.
    + rewrite IH. destruct (Z.eqb_spec k' k) as [->|Hne'].
      * reflexivity.
      * destruct (Z.eqb_spec k k'); [congruence | reflexivity].
    + destruct (Z.eqb_spec k0 k') as [->|Hne']; simpl.
      * destruct (Z.eqb_spec k' k); [congruence | reflexivity].
      * exact IH.
Qed.

Lemma widgets_fresh st :
  Tables.widgets_wf st -> map_has (Tables.widgetId st) (Tables.widgets st) = false.
Proof.
  intros [Hk _].
  destruct (map_has _ _) eqn:E; [|reflexivity].
  apply map_has_in in E. apply in_map_iff in E.
  destruct E as [[k w] [Hfst Hin]]. simpl in Hfst. subst k.
  apply Hk in Hin. lia.
Qed.

Lemma widget_exec_wf st c :
  Tables.widgets_wf st -> (Tables.widgetId st < 9007199254740992)%Z ->
  Tables.widgets_wf (Tables.widget_exec st c).
Proof.
  intros Hwf Hlt. destruct c; simpl; try exact Hwf.
  - pose proof (widgets_fresh st Hwf) as Hfresh.
    destruct Hwf as [Hk Hs]. rewrite (map_set_fresh _ _ _ Hfresh).
    rewrite (incr_lt _ Hlt). split.
    + intros k0 w Hin. apply in_app_or in Hin. destruct Hin as [Hin | Hin].
      * destruct (Hk _ _ Hin) as [H1 [H2 H3]]. simpl.
        split; [exact H1|]. split; [lia | exact H3].
      * destruct Hin as [Hin | []]. injection Hin as <- <-. simpl.
        split; [reflexivity|]. split; [lia|].
        split; apply text_or_null_not_empty.
    + cbn [Tables.widgets]. rewrite map_app. simpl.
      apply StronglySorted_snoc; [exact Hs|].
      intros y Hy. apply in_map_iff in Hy. destruct Hy as [[k0 w] [<- Hin]].
      exact (proj1 (proj2 (Hk _ _ Hin))).
  - destruct Hwf as [Hk Hs]. split.
    + intros k0 w Hin. apply filter_In in Hin. exact (Hk _ _ (proj1 Hin)).
    + unfold map_delete. apply StronglySorted_map_filter. exact Hs.
Qed.

Lemma widget_exec_counter st c :
  (Tables.widgetId (Tables.widget_exec st c) <= Tables.widgetId st + 1)%Z.
Proof. destruct c; simpl; try lia. apply incr_le. Qed.

Lemma widgets_after_snoc calls c :
  Tables.widgets_after (calls ++ [c]) =
  Tables.widget_exec (Tables.widgets_after calls) c.
Proof. unfold Tables.widgets_after. rewrite fold_left_app. reflexivity. Qed.

Lemma widgets_after_wf calls :
  (Z.of_nat (length calls) < 9007199254740991)%Z ->
  Tables.widgets_wf (Tables.widgets_after calls) /\
  (Tables.widgetId (Tables.widgets_after calls)
   <= 1 + Z.of_nat (length calls))%Z.
Proof.
  induction calls as [|c calls IH] using rev_ind; intros Hlen.
  - split; [|simpl; lia]. split; [intros k w []| constructor].
  - rewrite length_app in Hlen. cbn [length] in Hlen.
    destruct IH as [Hwf Hid]; [lia|].
    rewrite widgets_after_snoc, length_app. cbn [length]. split.
    + apply widget_exec_wf; [exact Hwf | lia].
    + pose proof (widget_exec_counter (Tables.widgets_after calls) c). lia.
Qed.

(** X13.  Whatever calls have built the widget table, [getWidgets] lists the
    widgets in the order of their creation, the ids increasing along
    the list; [getWidget] finds under an id exactly the listed widget
    that carries it; and no listed widget has an empty text for its key
    path or its unit, which are stored as null. *)
Theorem getWidgets_listing calls :
  (Z.of_nat (length calls) < 9007199254740991)%Z ->
  let st := Tables.widgets_after calls in
  StronglySorted Z.lt (List.map Tables.id (fst (Tables.getWidgets st))) /\
  (forall k w, fst (Tables.getWidget k st) = Some w <->
               In w (fst (Tables.getWidgets st)) /\ Tables.id w = k) /\
  Forall (fun w => Tables.jsonKeyPath w <> Some [] /\ Tables.unit w <> Some [])
         (fst (Tables.getWidgets st)).
Proof.
  intros Hlen st. destruct (widgets_after_wf calls Hlen) as [[Hk Hs] _].
  fold st in Hk, Hs. simpl.
  assert (Hids : List.map Tables.id (map_values (Tables.widgets st)) =
                 List.map fst (Tables.widgets st)).
  { unfold map_values. rewrite map_map. apply map_ext_in.
    intros [k w] Hin. exact (proj1 (Hk k w Hin)). }
  split; [rewrite Hids; exact Hs|]. split.
  - intros k w. rewrite (map_get_in k w _ (sorted_NoDup _ Hs)), in_map_values.
    split.
    + intros Hin. split; [eauto | exact (proj1 (Hk _ _ Hin))].
    + intros [[k' Hin] Hid]. destruct (Hk _ _ Hin) as [H1 _]. congruence.
  - apply Forall_forall. intros w Hin. apply in_map_values in Hin.
    destruct Hin as [k Hin]. exact (proj2 (proj2 (Hk _ _ Hin))).
Qed.

Lemma getWidgets_listing_witness :
  List.map Tables.id
    (fst (Tables.getWidgets
            (Tables.widgets_after
               [Tables.CreateWidget
                  (Tables.mkInsertWidget (js "a") (js "t") (js "line")
                     (Some []) None);
                Tables.CreateWidget
                  (Tables.mkInsertWidget (js "b") (js "t") (js "bar")
                     None (Some (js "V")));
                Tables.DeleteWidget 1;
                Tables.CreateWidget
                  (Tables.mkInsertWidget (js "c") (js "u") (js "line")
                     None None)])))
  = [2%Z; 3%Z] /\
  Forall (fun w => Tables.jsonKeyPath w <> Some [] /\ Tables.unit w <> Some [])
    (fst (Tables.getWidgets
            (Tables.widgets_after
               [Tables.CreateWidget
                  (Tables.mkInsertWidget (js "a") (js "t") (js "line")
                     (Some []) None)]))).
Proof.
  split; [reflexivity|].
  assert (H : (Z.of_nat (length [Tables.CreateWidget
                  (Tables.mkInsertWidget (js "a") (js "t") (js "line")
                     (Some []) None)]) < 9007199254740991)%Z)
    by (simpl; lia).
  exact (proj2 (proj2 (getWidgets_listing _ H))).
Defined.

(** X14.  Creating a widget in a table that calls have built adds it at the
    end of the listing under a new id, the value of the counter; and
    deleting a widget answers whether the id was in the table, removes
    that widget alone, and answers false when repeated. *)
Theorem widget_create_delete calls widget k :
  (Z.of_nat (length calls) < 9007199254740991)%Z ->
  let st := Tables.widgets_after calls in
  (let (w, st') := Tables.createWidget widget st in
   Tables.id w = Tables.widgetId st /\
   fst (Tables.getWidgets st') = fst (Tables.getWidgets st) ++ [w] /\
   fst (Tables.getWidget (Tables.id w) st') = Some w /\
   Tables.widgetId st' = (Tables.widgetId st + 1)%Z) /\
  (let (found, st') := Tables.deleteWidget k st in
   (found = true <-> exists w, fst (Tables.getWidget k st) = Some w) /\
   fst (Tables.getWidget k st') = None /\
   (forall k', k' <> k ->
      fst (Tables.getWidget k' st') = fst (Tables.getWidget k' st)) /\
   fst (Tables.deleteWidget k st') = false).
Proof.
  intros Hlen st. destruct (widgets_after_wf calls Hlen) as [Hwf Hid].
  fold st in Hwf, Hid. split.
  - simpl. pose proof (widgets_fresh st Hwf) as Hfresh.
    rewrite (map_set_fresh _ _ _ Hfresh).
    split; [reflexivity|]. split.
    + unfold map_values. rewrite map_app. reflexivity.
    + split; [|apply incr_lt; lia].
      apply map_get_in.
      * rewrite map_app. simpl. apply sorted_NoDup.
        apply StronglySorted_snoc; [exact (proj2 Hwf)|].
        intros y Hy. apply in_map_iff in Hy. destruct Hy as [[k0 w] [<- Hin]].
        exact (proj1 (proj2 (proj1 Hwf _ _ Hin))).
      * apply in_or_app. right. left. reflexivity.
  - simpl. split; [|split; [|split]].
    + rewrite map_has_in. split.
      * intros Hin. apply in_map_iff in Hin.
        destruct Hin as [[k0 w] [Hk0 Hin]]. simpl in Hk0. subst k0.
        exists w. apply map_get_in; [apply sorted_NoDup; exact (proj2 Hwf)|].
        exact Hin.
      * intros [w Hw].
        apply map_get_in in Hw; [|apply sorted_NoDup; exact (proj2 Hwf)].
        apply in_map_iff. exists (k, w). auto.
    + rewrite map_get_delete, Z.eqb_refl. reflexivity.
    + intros k' Hne. rewrite map_get_delete.
      destruct (Z.eqb_spec k' k); [contradiction | reflexivity].
    + destruct (map_has k (map_delete k (Tables.widgets st))) eqn:E;
        [|reflexivity].
      apply map_has_in in E. apply in_map_iff in E.
      destruct E as [[k0 w] [Hk0 Hin]]. simpl in Hk0. subst k0.
      apply filter_In in Hin. destruct Hin as [_ Hneg]. simpl in Hneg.
      rewrite Z.eqb_refl in Hneg. discriminate.
Qed.

Lemma widget_create_delete_witness :
  fst (Tables.deleteWidget 1
         (Tables.widgets_after
            [Tables.CreateWidget
               (Tables.mkInsertWidget (js "a") (js "t") (js "line")
                  None None)])) = true /\
  fst (Tables.deleteWidget 1
         (snd (Tables.deleteWidget 1
            (Tables.widgets_after
               [Tables.CreateWidget
                  (Tables.mkInsertWidget (js "a") (js "t") (js "line")
                     None None)])))) = false.
Proof.
  assert (H : (Z.of_nat (length [Tables.CreateWidget
                  (Tables.mkInsertWidget (js "a") (js "t") (js "line")
                     None None)]) < 9007199254740991)%Z)
    by (simpl; lia).
  pose proof (proj2 (widget_create_delete _
                (Tables.mkInsertWidget (js "a") (js "t") (js "line") None None)
                1%Z H)) as Hd.
  split; [reflexivity|].
  exact (proj2 (proj2 (proj2 Hd))).
Defined.

End WidgetTable.

(* ================================================================== *)
(** * The address of the broker *)
(* ================================================================== *)

Section BrokerAddress.

Import Connection.

Lemma startsWith_more s x sep :
  startsWith s sep = true -> startsWith (s ++ x) sep = true.
Proof.
  revert s. induction sep as [|p sep IH]; intros s H; [reflexivity|].
  destruct s as [|c s]; simpl in *; [discriminate|].
  apply andb_true_iff in H. destruct H as [-> H]. simpl. apply IH. exact H.
Qed.

Lemma occurs_false s sep :
  occurs s sep = false <->
  forall i, i <= length s -> startsWith (skipn i s) sep = false.
Proof.
  induction s as [|c s IH].
  - simpl. rewrite orb_false_r. split.
    + intros H i _. destruct i; exact H.
    + intros H. exact (H 0 (le_n 0)).
  - cbn [occurs]. rewrite orb_false_iff, IH. split.
    + intros [H0 Hs] [|i] Hi; [exact H0|]. apply Hs. simpl in Hi. lia.
    + intros H. split; [exact (H 0 ltac:(lia))|].
      intros i Hi. apply (H (S i)). simpl. lia.
Qed.

Lemma split_go_free sep h : forall cur,
  occurs h sep = false -> split_go sep 0 cur h = [rev cur ++ h].
Proof.
  induction h as [|c h IH]; intros cur H.
  - simpl. rewrite app_nil_r. reflexivity.
  - cbn [occurs] in H. apply orb_false_iff in H. destruct H as [H0 Hh].
    cbn [split_go]. rewrite H0, (IH (c :: cur) Hh). simpl.
    rewrite <- app_assoc. reflexivity.
Qed.

Lemma split_go_pieces sep : sep <> [] -> forall s skip cur,
  (skip = 0 -> forall i, i < length cur ->
     startsWith (skipn i (rev cur) ++ s) sep = false) ->
  (skip <> 0 -> cur = []) ->
  Forall (fun p => occurs p sep = false) (split_go sep skip cur s).
Proof.
  intros Hsep. induction s as [|c s IH]; intros skip cur Hcur Hskip.
  - simpl. constructor; [|constructor].
    destruct skip as [|k].
    + apply occurs_false. intros i Hi. rewrite length_rev in Hi.
      destruct (Nat.eq_dec i (length cur)) as [->|Hne].
      * rewrite <- (length_rev cur), skipn_all.
        destruct sep; [contradiction | reflexivity].
      * specialize (Hcur eq_refl i ltac:(lia)).
        rewrite app_nil_r in Hcur. exact Hcur.
    + rewrite (Hskip ltac:(discriminate)). simpl.
      destruct sep; [contradiction | reflexivity].
  - destruct skip as [|k]; cbn [split_go].
    + destruct (startsWith (c :: s) sep) eqn:E.
      * constructor.
        -- apply occurs_false. intros i Hi. rewrite length_rev in Hi.
           destruct (Nat.eq_dec i (length cur)) as [->|Hne].
           ++ rewrite <- (length_rev cur), skipn_all.
              destruct sep; [contradiction | reflexivity].
           ++ specialize (Hcur eq_refl i ltac:(lia)).
              destruct (startsWith (skipn i (rev cur)) sep) eqn:E'; [|reflexivity].
              rewrite (startsWith_more _ (c :: s) _ E') in Hcur. discriminate.
        -- apply IH; [|reflexivity]. intros _ i Hi. simpl in Hi. lia.
      * apply IH; [|intros H; contradiction].
        intros _ i Hi. cbn [length] in Hi. cbn [rev].
        destruct (Nat.eq_dec i (length cur)) as [->|Hne].
        -- rewrite skipn_app, <- (length_rev cur), skipn_all, Nat.sub_diag.
           simpl. exact E.
        -- rewrite skipn_app.
           replace (i - length (rev cur)) with 0
             by (rewrite length_rev; lia).
           simpl. rewrite <- app_assoc. simpl.
           apply (Hcur eq_refl). lia.
    + rewrite (Hskip ltac:(discriminate)).
      apply IH; [|reflexivity].
      intros _ i Hi. simpl in Hi. lia.
Qed.

Lemma occurs_skipn sep n : forall s,
  startsWith (skipn n s) sep = true -> sep <> [] -> occurs s sep = true.
Proof.
  induction n as [|n IH]; intros s H Hsep.
  - simpl in H. destruct s; simpl in *; rewrite H; reflexivity.
  - destruct s as [|c s]; simpl in H.
    + destruct sep; [contradiction | discriminate].
    + cbn [occurs]. rewrite (IH s H Hsep). apply orb_true_r.
Qed.

Lemma startsWith_app s a b :
  startsWith s (a ++ b) = true -> startsWith (skipn (length a) s) b = true.
Proof.
  revert s. induction a as [|p a IH]; intros s H; [exact H|].
  destruct s as [|c s]; simpl in H; [discriminate|].
  apply andb_true_iff in H. simpl. apply IH. exact (proj2 H).
Qed.

Lemma has_scheme_occurs url :
  has_scheme url = true -> occurs url (js "://") = true.
Proof.
  unfold has_scheme. intros H.
  apply orb_true_iff in H. destruct H as [H | H];
    [apply orb_true_iff in H; destruct H as [H | H];
     [apply orb_true_iff in H; destruct H as [H | H]|]|].
  - apply (occurs_skipn _ 4); [|discriminate].
    exact (startsWith_app url (js "mqtt") (js "://") H).
  - apply (occurs_skipn _ 2); [|discriminate].
    exact (startsWith_app url (js "ws") (js "://") H).
  - apply (occurs_skipn _ 5); [|discriminate].
    exact (startsWith_app url (js "mqtts") (js "://") H).
  - apply (occurs_skipn _ 3); [|discriminate].
    exact (startsWith_app url (js "wss") (js "://") H).
Qed.

Lemma cleanUrl_no_scheme url : has_scheme (cleanUrl url) = false.
Proof.
  unfold cleanUrl. destruct (has_scheme url) eqn:E; [|exact E].
  destruct (nth_error (split url (js "://")) 1) as [host|] eqn:En;
    [|reflexivity].
  assert (Hfree : occurs host (js "://") = false).
  { assert (Hall : Forall (fun p => occurs p (js "://") = false)
                     (split url (js "://"))).
    { apply split_go_pieces; [discriminate| |intros H; contradiction].
      intros _ i Hi. simpl in Hi. lia. }
    rewrite Forall_forall in Hall. apply Hall.
    exact (nth_error_In _ _ En). }
  destruct (has_scheme host) eqn:Eh; [|reflexivity].
  rewrite (has_scheme_occurs host Eh) in Hfree. discriminate.
Qed.

(** X15.  A host in which [://] does not occur is what [connect] keeps of a
    url that writes it after one of the four protocol prefixes, and of
    a url that is the host alone; whatever the url, what is kept starts
    with none of the prefixes, so that cleaning it again changes
    nothing. *)
Theorem cleanUrl_strips_scheme host :
  occurs host (js "://") = false ->
  cleanUrl (js "mqtt://" ++ host) = host /\
  cleanUrl (js "ws://" ++ host) = host /\
  cleanUrl (js "mqtts://" ++ host) = host /\
  cleanUrl (js "wss://" ++ host) = host /\
  cleanUrl host = host /\
  forall url, has_scheme (cleanUrl url) = false /\
              cleanUrl (cleanUrl url) = cleanUrl url.
Proof.
  intros Hfree.
  assert (Hs : forall cur, split_go (js "://") 0 cur host = [rev cur ++ host])
    by (intros cur; apply split_go_free; exact Hfree).
  repeat split.
  - unfold cleanUrl, split. cbn. rewrite Hs. reflexivity.
  - unfold cleanUrl, split. cbn. rewrite Hs. reflexivity.
  - unfold cleanUrl, split. cbn. rewrite Hs. reflexivity.
  - unfold cleanUrl, split. cbn. rewrite Hs. reflexivity.
  - unfold cleanUrl. destruct (has_scheme host) eqn:E; [|reflexivity].
    rewrite (has_scheme_occurs host E) in Hfree. discriminate.
  - apply cleanUrl_no_scheme.
  - unfold cleanUrl at 1. rewrite cleanUrl_no_scheme. reflexivity.
Qed.

Lemma cleanUrl_strips_scheme_witness :
  cleanUrl (js "mqtts://broker.example") = js "broker.example" /\
  cleanUrl (js "ws://a://b") = js "a".
Proof.
  assert (H : occurs (js "broker.example") (js "://") = false) by reflexivity.
  split; [|reflexivity].
  exact (proj1 (proj2 (proj2 (cleanUrl_strips_scheme (js "broker.example") H)))).
Defined.

(** X16.  After a [connect] that reaches the library, [getConnectionInfo]
    reports the address that was handed to it, a client id that is not
    empty (the chosen one when there is one), and a secure connection
    exactly when the flag was true: the protocol written in the url
    plays no part, and the flag is true exactly when the broker row
    made from the same flag keeps it.  After [disconnect] the address
    is null and the connection is reported as not secure, while the
    client id stays. *)
Theorem connection_info_follows_flag url portText chosenId secure random s
  broker st :
  let s' := connect url portText chosenId secure random s in
  info_url (getConnectionInfo s') = Some (serverUrl url portText secure) /\
  info_useSecureWebSockets (getConnectionInfo s') = truthy secure /\
  (truthy secure = true <->
   Tables.useSecureWebSockets
     (fst (Tables.createBroker
             (Tables.mkInsertBroker (Tables.iurl broker) (Tables.iport broker)
                (Tables.iusername broker) (Tables.ipassword broker)
                (Tables.iclientId broker) secure) st)) = Some true) /\
  (exists c r, info_clientId (getConnectionInfo s') = Some (c :: r) /\
     forall c' r', chosenId = Some (c' :: r') -> c :: r = c' :: r') /\
  getConnectionInfo (disconnect s') =
    mkInfo None (info_clientId (getConnectionInfo s')) false.
Proof.
  intros s'. split; [reflexivity|]. split.
  - unfold s', connect, getConnectionInfo, serverUrl. cbn [brokerUrl].
    destruct (truthy secure); reflexivity.
  - split.
    + destruct secure as [[|]|]; simpl; split; intros H;
        try reflexivity; discriminate.
    + split; [|reflexivity].
      unfold s', connect, getConnectionInfo. cbn [clientId info_clientId].
      destruct chosenId as [[|c r]|].
      * simpl. eexists. eexists. split; [reflexivity|]. discriminate.
      * exists c, r. split; [reflexivity|]. intros c' r' H. congruence.
      * simpl. eexists. eexists. split; [reflexivity|]. discriminate.
Qed.

End BrokerAddress.

(* ================================================================== *)
(** * The routes of the server *)
(* ================================================================== *)

Section ServerRoutes.

Import Routes.

Lemma includes_recognized r :
  includes [js "1h"; js "6h"; js "24h"; js "7d"] (QText r) = recognized r.
Proof.
  unfold includes, recognized. cbn [existsb].
  rewrite orb_false_r, !orb_assoc.
  rewrite (str_eqb_sym (js "1h")), (str_eqb_sym (js "6h")),
    (str_eqb_sym (js "24h")), (str_eqb_sym (js "7d")).
  reflexivity.
Qed.

(** X17.  The route of the message history answers 400 to a time range that
    is a text other than the four ranges, or no text at all, and the
    history of the store otherwise, for the range asked or for one hour
    when the query names none: an answer with status 200 holds the
    messages of the topic stamped no earlier than the length of one of
    the four ranges before the call.  The store is not changed, and the
    handler never reaches its [catch]. *)
Theorem get_messages_validates now t q st :
  snd (get_messages now t q st) = st /\
  match fst (get_messages now t q st) with
  | Json status msgs =>
      status = 200 /\
      exists r,
        recognized r = true /\ or_default q (js "1h") = QText r /\
        msgs = fst (getMessageHistory now t r st) /\
        Forall (fun m => topic m = t /\
                         exists ts, timestamp m = Some ts /\
                                    (now - duration r <= ts)%Z) msgs
  | Refused status _ =>
      status = 400 /\
      (q = QOther \/ exists r, q = QText r /\ r <> [] /\ recognized r = false)
  | Failed => False
  end.
Proof.
  unfold get_messages.
  destruct (or_default q (js "1h")) as [|r|] eqn:Eq.
  - destruct q as [|[|c s]|]; discriminate.
  - rewrite includes_recognized.
    destruct (recognized r) eqn:Er; simpl.
    + split; [reflexivity|]. split; [reflexivity|].
      exists r. split; [exact Er|]. split; [reflexivity|].
      split; [reflexivity|].
      apply Forall_forall. intros m Hm. apply filter_In in Hm.
      destruct Hm as [_ Hm]. unfold in_history in Hm.
      apply andb_true_iff in Hm. destruct Hm as [Ht Hts].
      apply str_eqb_eq in Ht. split; [exact Ht|].
      destruct (timestamp m) as [ts|]; [|discriminate].
      exists ts. split; [reflexivity|].
      apply Z.leb_le in Hts. rewrite startTime_duration in Hts. exact Hts.
    + split; [reflexivity|]. split; [reflexivity|]. right.
      destruct q as [|[|c s]|]; simpl in Eq; try discriminate.
      * injection Eq as <-. vm_compute in Er. discriminate.
      * injection Eq as <-. vm_compute in Er. discriminate.
      * injection Eq as <-. exists (c :: s).
        split; [reflexivity|]. split; [discriminate | exact Er].
  - simpl. split; [reflexivity|]. split; [reflexivity|]. left.
    destruct q as [|[|c s]|]; try discriminate. reflexivity.
Qed.

Lemma map_set_in {V} k (v : V) (mp : jsmap V) : In (k, v) (map_set k v mp).
Proof.
  induction mp as [|e mp IH]; simpl; [auto|].
  destruct (Z.eqb (fst e) k); simpl; auto.
Qed.

Lemma createTopic_path topic st :
  path (fst (createTopic topic st)) = ipath topic /\
  In (fst (createTopic topic st))
     (map_values (topics (snd (createTopic topic st)))).
Proof.
  run_store. destruct (find _ _) as [t|] eqn:E; simpl.
  - apply find_some in E. destruct E as [Hin Hp].
    apply str_eqb_eq in Hp. auto.
  - split; [reflexivity|].
    apply in_map_values. exists (topicId st).
    apply map_set_in.
Qed.

(** X18.  The route that creates a topic answers 201 with a topic of the path
    asked, which the table lists from then on; it asks the broker for
    the subscription only when the bridge is connected, and does not
    touch the set of subscribed topics itself. *)
Theorem post_topics_subscription p b :
  let r := fst (post_topics (Some p) b) in
  let b' := snd (post_topics (Some p) b) in
  (exists t, r = Json 201 t /\ path t = p /\
             In t (fst (getTopics (storage b')))) /\
  subscribedTopics b' = subscribedTopics b /\
  pending b' =
    pending b ++ (if isConnected b then [ReqSubscribe p] else []) /\
  messageListeners b' = messageListeners b /\
  client b' = client b.
Proof.
  unfold post_topics.
  destruct (createTopic_path (mkInsertTopic p 1) (storage b)) as [Hp Hin].
  destruct (createTopic (mkInsertTopic p 1) (storage b)) as [t st] eqn:E.
  simpl in Hp, Hin.
  change (isConnected (set_storage st b)) with (isConnected b).
  unfold subscribe.
  change (isConnected (set_storage st b)) with (isConnected b).
  destruct (isConnected b); simpl.
  - split; [exists t; auto|]. rewrite Hp. auto.
  - split; [exists t; auto|]. rewrite app_nil_r. auto.
Qed.

(** X19.  A topic created through the route while the bridge is not connected
    is never asked of the broker: the route sends no request, and the
    next connection asks again for the topics of the set only, in which
    the route has put nothing. *)
Theorem topic_created_offline_not_subscribed p b :
  isConnected b = false ->
  let b' := snd (post_topics (Some p) b) in
  pending b' = pending b /\
  subscribedTopics b' = subscribedTopics b /\
  pending (onConnect (connect b')) =
    pending b ++ List.map ReqSubscribe (subscribedTopics b) /\
  (~ In p (subscribedTopics b) ->
   ~ In (ReqSubscribe p) (List.map ReqSubscribe (subscribedTopics b))).
Proof.
  intros Hc. cbv zeta.
  unfold post_topics.
  destruct (createTopic (mkInsertTopic p 1) (storage b)) as [t st] eqn:E.
  change (isConnected (set_storage st b)) with (isConnected b).
  rewrite Hc. simpl.
  split; [reflexivity|]. split; [reflexivity|]. split.
  - unfold connect.
    change (isConnected (set_storage st b)) with (isConnected b).
    rewrite Hc. unfold onConnect. simpl.
    rewrite resubscribe_all by reflexivity. reflexivity.
  - intros Hn Hin. apply in_map_iff in Hin. destruct Hin as [x [Hx Hin]].
    injection Hx as ->. exact (Hn Hin).
Qed.

Lemma topic_created_offline_not_subscribed_witness :
  pending (onConnect (connect (snd (post_topics (Some (js "a")) initial)))) = [].
Proof.
  assert (H : isConnected initial = false) by reflexivity.
  exact (proj1 (proj2 (proj2
           (topic_created_offline_not_subscribed (js "a") initial H)))).
Defined.

(** X20.  The route that deletes a topic answers 200 when the table had a
    topic of the path and 404 when it had none, and leaves the table
    without such a topic.  When the bridge is connected the broker is
    asked to end the subscription, whatever the table holds; when it is
    not, nothing is asked, and the set of subscribed topics is never
    touched by the route itself. *)
Theorem delete_topics_answers c p b :
  topics_wf (storage b) ->
  let r := fst (delete_topics (Some (c :: p)) b) in
  let b' := snd (delete_topics (Some (c :: p)) b) in
  ((r = Json 200 true /\
    exists t, In t (fst (getTopics (storage b))) /\ path t = c :: p) \/
   (r = Refused 404 (js "Topic not found") /\
    forall t, In t (fst (getTopics (storage b))) -> path t <> c :: p)) /\
  (forall t, In t (fst (getTopics (storage b'))) -> path t <> c :: p) /\
  subscribedTopics b' = subscribedTopics b /\
  pending b' =
    pending b ++ (if isConnected b then [ReqUnsubscribe (c :: p)] else []).
Proof.
  intros Hwf. cbv zeta. unfold delete_topics.
  assert (Hst : storage (if isConnected b then snd (unsubscribe (c :: p) b)
                         else b) = storage b).
  { unfold unsubscribe. destruct (isConnected b); reflexivity. }
  rewrite Hst.
  pose proof (deleteTopic_found (c :: p) (storage b) Hwf) as Hfound.
  pose proof (deleteTopic_table (c :: p) (storage b) Hwf) as Htable.
  destruct (deleteTopic (c :: p) (storage b)) as [success st] eqn:E.
  simpl in Hfound, Htable.
  assert (Hgone : forall t, In t (map_values (topics st)) -> path t <> c :: p).
  { rewrite Htable. intros t Hin Hp. apply in_map_values in Hin.
    destruct Hin as [k Hin]. apply filter_In in Hin. destruct Hin as [_ Hin].
    simpl in Hin. apply negb_true_iff in Hin.
    rewrite (proj2 (str_eqb_eq _ _) Hp) in Hin. discriminate. }
  assert (Hrest :
    subscribedTopics (if isConnected b then snd (unsubscribe (c :: p) b)
                      else b) = subscribedTopics b /\
    pending (if isConnected b then snd (unsubscribe (c :: p) b) else b) =
      pending b ++ (if isConnected b then [ReqUnsubscribe (c :: p)] else [])).
  { unfold unsubscribe. destruct (isConnected b); simpl.
    - auto.
    - rewrite app_nil_r. auto. }
  destruct success; simpl.
  - split; [left; split; [reflexivity | apply Hfound; reflexivity]|].
    split; [exact Hgone | exact Hrest].
  - split; [|split; [exact Hgone | exact Hrest]].
    right. split; [reflexivity|]. intros t Hin Hp.
    assert (H : false = true) by (apply Hfound; eauto). discriminate.
Qed.

Lemma delete_topics_answers_witness :
  fst (delete_topics (Some (js "a"))
         (snd (post_topics (Some (js "a")) initial))) = Json 200 true /\
  forall t,
    In t (fst (getTopics
                 (storage (snd (delete_topics (Some (js "a"))
                                  (snd (post_topics (Some (js "a")) initial)))))))
    -> path t <> js "a".
Proof.
  assert (Hwf : topics_wf (storage (snd (post_topics (Some (js "a")) initial)))).
  { apply (createTopic_wf (mkInsertTopic (js "a") 1) Storage.empty).
    - apply topics_wf_empty.
    - reflexivity. }
  split; [reflexivity|].
  exact (proj1 (proj2 (delete_topics_answers _ _ _ Hwf))).
Defined.

(** X21.  The route that creates a widget stores it and makes sure that the
    table of topics lists its topic, once: a topic that is there is
    left alone and nothing is asked of the broker, a missing one is
    created and, when the bridge is connected, subscribed. *)
Theorem post_widgets_ensures_topic data s :
  topics_wf (storage (bridge s)) ->
  (topicId (storage (bridge s)) < 9007199254740992)%Z ->
  let r := fst (post_widgets (Some data) s) in
  let s' := snd (post_widgets (Some data) s) in
  let known :=
    existsb (fun t => str_eqb (path t) (Tables.itopic data))
            (fst (getTopics (storage (bridge s)))) in
  r = Json 201 (fst (Tables.createWidget data (widgetTable s))) /\
  widgetTable s' = snd (Tables.createWidget data (widgetTable s)) /\
  topics_wf (storage (bridge s')) /\
  (exists t, In t (fst (getTopics (storage (bridge s')))) /\
             path t = Tables.itopic data) /\
  (known = true -> storage (bridge s') = storage (bridge s)) /\
  pending (bridge s') =
    pending (bridge s) ++
    (if (negb known && isConnected (bridge s))%bool
     then [ReqSubscribe (Tables.itopic data)] else []) /\
  subscribedTopics (bridge s') = subscribedTopics (bridge s).
Proof.
  intros Hwf Hlt. cbv zeta. unfold post_widgets.
  cbn [Tables.createWidget Tables.topic getTopics]. run_store.
  cbn [fst snd Tables.topic].
  destruct (existsb _ (map_values (topics (storage (bridge s))))) eqn:Ek;
    cbn [negb].
  - cbn [fst snd bridge widgetTable andb].
    split; [reflexivity|]. split; [reflexivity|].
    split; [exact Hwf|]. split.
    + apply existsb_exists in Ek. destruct Ek as [t [Hin Hp]].
      apply str_eqb_eq in Hp. exists t. auto.
    + split; [intros _; destruct (bridge s); reflexivity|].
      rewrite app_nil_r. auto.
  - pose proof (createTopic_path (mkInsertTopic (Tables.itopic data) 1)
                  (storage (bridge s))) as [Hp Hin].
    pose proof (createTopic_wf (mkInsertTopic (Tables.itopic data) 1)
                  (storage (bridge s)) Hwf Hlt) as Hwf'.
    unfold createTopic, bind, get, put, ret in Hp, Hin, Hwf'.
    destruct (find _ (map_values (topics (storage (bridge s))))) as [t0|] eqn:Ef.
    + exfalso. apply find_some in Ef. destruct Ef as [Hin0 Hp0].
      assert (Hex : existsb (fun t => str_eqb (path t) (Tables.itopic data))
                      (map_values (topics (storage (bridge s)))) = true).
      { apply existsb_exists. exists t0. auto. }
      rewrite Hex in Ek. discriminate.
    + cbn [fst snd] in *.
      change (isConnected (set_storage ?st (bridge s)))
        with (isConnected (bridge s)).
      unfold subscribe.
      change (isConnected (set_storage ?st (bridge s)))
        with (isConnected (bridge s)).
      destruct (isConnected (bridge s)); cbn [fst snd bridge widgetTable negb
        andb storage set_storage pending subscribedTopics].
      * split; [reflexivity|]. split; [reflexivity|].
        split; [exact Hwf'|]. split; [eexists; split; [exact Hin | exact Hp]|].
        split; [discriminate|]. auto.
      * split; [reflexivity|]. split; [reflexivity|].
        split; [exact Hwf'|]. split; [eexists; split; [exact Hin | exact Hp]|].
        split; [discriminate|]. rewrite app_nil_r. auto.
Qed.

Lemma post_widgets_ensures_topic_witness :
  exists t,
    In t (fst (getTopics
                 (storage (bridge (snd (post_widgets
                    (Some (Tables.mkInsertWidget (js "w") (js "a") (js "line")
                             None None))
                    (mkServer initial Tables.no_widgets))))))) /\
    path t = js "a".
Proof.
  exact (proj1 (proj2 (proj2 (proj2
           (post_widgets_ensures_topic
              (Tables.mkInsertWidget (js "w") (js "a") (js "line") None None)
              (mkServer initial Tables.no_widgets)
              topics_wf_empty ltac:(reflexivity)))))).
Defined.

Lemma reached_app a b : reached (a ++ b) = reached a ++ reached b.
Proof. unfold reached. apply flat_map_app. Qed.

Lemma relay_spec message clients : forall out,
  relay message clients out =
  (Normal tt,
   out ++ flat_map (fun c =>
             if ws_open c
             then if send_throws c then [SendLogged (ws_id c)]
                  else [Sent (ws_id c) (MqttMessageFrame message)]
             else []) clients).
Proof.
  induction clients as [|c clients IH]; intros out.
  - simpl. rewrite app_nil_r. reflexivity.
  - unfold relay in *. cbn [ws_forEach flat_map]. unfold ws_then.
    destruct (ws_open c).
    + unfold ws_try, send, ws_log. destruct (send_throws c);
        rewrite IH, <- app_assoc; reflexivity.
    + unfold ws_pure. rewrite IH. reflexivity.
Qed.

Lemma broadcast_spec status clients : forall out,
  broadcast status clients out =
  (if forallb (fun c => negb (failing c)) clients
   then Normal tt else Thrown (js "send error"),
   out ++ List.map (fun c => Sent (ws_id c) (ConnectionStatusFrame status))
            (filter ws_open (before_failure clients))).
Proof.
  induction clients as [|c clients IH]; intros out.
  - simpl. rewrite app_nil_r. reflexivity.
  - unfold broadcast in *. cbn [ws_forEach forallb before_failure].
    unfold ws_then, failing.
    destruct (ws_open c) eqn:Eo.
    + unfold send. destruct (send_throws c); simpl.
      * rewrite app_nil_r. reflexivity.
      * rewrite IH, Eo. simpl. rewrite <- app_assoc. reflexivity.
    + unfold ws_pure. rewrite IH. simpl. rewrite Eo. reflexivity.
Qed.

(** X22.  The listener that relays a message of the broker sends it to each
    open client whose send works, in the order of the clients, and
    never throws; the loop that announces the state of the connection
    stops at the first open client whose send throws, and throws then:
    it reaches the open clients before that one only.  The two reach
    the same clients when no send throws. *)
Theorem relay_reaches_every_open_client message status clients out :
  fst (relay message clients out) = Normal tt /\
  reached (snd (relay message clients out)) =
    reached out ++
    List.map ws_id
      (filter (fun c => (ws_open c && negb (send_throws c))%bool) clients) /\
  (fst (broadcast status clients out) = Normal tt <->
   forall c, In c clients -> failing c = false) /\
  reached (snd (broadcast status clients out)) =
    reached out ++
    List.map ws_id (filter ws_open (before_failure clients)) /\
  ((forall c, In c clients -> failing c = false) ->
   reached (snd (broadcast status clients out)) =
   reached (snd (relay message clients out))).
Proof.
  rewrite relay_spec, broadcast_spec. cbn [fst snd].
  assert (Hr : reached (flat_map (fun c =>
             if ws_open c
             then if send_throws c then [SendLogged (ws_id c)]
                  else [Sent (ws_id c) (MqttMessageFrame message)]
             else []) clients) =
          List.map ws_id
            (filter (fun c => (ws_open c && negb (send_throws c))%bool) clients)).
  { induction clients as [|c clients IH]; [reflexivity|].
    cbn [flat_map]. rewrite reached_app, IH. simpl.
    destruct (ws_open c), (send_throws c); reflexivity. }
  assert (Hb : reached (List.map
                  (fun c => Sent (ws_id c) (ConnectionStatusFrame status))
                  (filter ws_open (before_failure clients))) =
               List.map ws_id (filter ws_open (before_failure clients))).
  { induction (filter ws_open (before_failure clients)) as [|c l IH];
      [reflexivity|]. simpl. f_equal. exact IH. }
  split; [reflexivity|].
  split; [rewrite reached_app, Hr; reflexivity|].
  split.
  - destruct (forallb (fun c => negb (failing c)) clients) eqn:E.
    + split; [|reflexivity]. intros _ c Hc.
      rewrite forallb_forall in E. apply negb_true_iff. exact (E c Hc).
    + split; [discriminate|]. intros H. exfalso.
      assert (E' : forallb (fun c => negb (failing c)) clients = true).
      { apply forallb_forall. intros c Hc. apply negb_true_iff. exact (H c Hc). }
      rewrite E' in E. discriminate.
  - split; [rewrite reached_app, Hb; reflexivity|].
    intros Hok. rewrite !reached_app, Hb, Hr. f_equal. f_equal.
    clear Hr Hb. induction clients as [|c clients IH]; [reflexivity|].
    cbn [before_failure filter].
    pose proof (Hok c (or_introl eq_refl)) as Hc. rewrite Hc.
    unfold failing in Hc. cbn [filter].
    destruct (ws_open c), (send_throws c); try discriminate; simpl;
      rewrite IH; auto; intros c' Hc'; apply Hok; right; exact Hc'.
Qed.

End ServerRoutes.

(* ================================================================== *)
(** * The data of a chart *)
(* ================================================================== *)

Section ChartData.

Variable number : Type.
Variable zero : number.

Lemma countdown_length {A} n (f : nat -> A) :
  length (Chart.countdown n f) = n.
Proof. induction n as [|n IH]; simpl; [reflexivity | rewrite IH; reflexivity]. Qed.

Lemma countdown_in {A} n (f : nat -> A) x :
  In x (Chart.countdown n f) <-> exists i, i < n /\ x = f i.
Proof.
  induction n as [|n IH]; simpl.
  - split; [contradiction | intros [i [Hi _]]; lia].
  - rewrite IH. split.
    + intros [<- | [i [Hi ->]]]; [exists n | exists i]; split; auto; lia.
    + intros [i [Hi ->]]. destruct (Nat.eq_dec i n) as [->|Hne]; [auto|].
      right. exists i. split; [lia | reflexivity].
Qed.

Lemma countdown_sorted n (step now : Z) :
  (0 < step)%Z ->
  StronglySorted Z.lt
    (Chart.countdown n (fun i => (now - Z.of_nat i * step)%Z)).
Proof.
  intros Hstep. induction n as [|n IH]; simpl; constructor; [exact IH|].
  apply Forall_forall. intros x Hx. apply countdown_in in Hx.
  destruct Hx as [i [Hi ->]]. nia.
Qed.

Lemma countdown_map {A B} (g : A -> B) n (f : nat -> A) :
  List.map g (Chart.countdown n f) = Chart.countdown n (fun i => g (f i)).
Proof. induction n as [|n IH]; simpl; [reflexivity | rewrite IH; reflexivity]. Qed.

Lemma window_step r :
  (0 < Chart.interval r)%Z /\ 0 < Chart.count r /\
  forall now,
    (Chart.startTime now r =
     now - Z.of_nat (Chart.count r - 1) * Chart.interval r - Chart.interval r)%Z.
Proof.
  unfold Chart.interval, Chart.count, Chart.startTime.
  destruct (str_eqb r (js "1h")); [simpl; repeat split; try lia; intros; lia|].
  destruct (str_eqb r (js "6h")); [simpl; repeat split; try lia; intros; lia|].
  destruct (str_eqb r (js "24h")); [simpl; repeat split; try lia; intros; lia|].
  destruct (str_eqb r (js "7d")); simpl; repeat split; try lia; intros; lia.
Qed.

Lemma countdown_nth {A} n (f : nat -> A) d i :
  i < n -> nth i (Chart.countdown n f) d = f (n - 1 - i).
Proof.
  revert i. induction n as [|n IH]; intros i Hi; [lia|].
  destruct i as [|i]; cbn [Chart.countdown nth].
  - f_equal. lia.
  - rewrite IH by lia. f_equal. lia.
Qed.

Lemma chart_switch r :
  Chart.interval r =
    (if str_eqb r (js "6h") then 1800000
     else if str_eqb r (js "24h") then 7200000
     else if str_eqb r (js "7d") then 43200000
     else 300000)%Z /\
  Chart.count r = (if str_eqb r (js "7d") then 14 else 12).
Proof.
  unfold Chart.interval, Chart.count.
  destruct (str_eqb r (js "1h")) eqn:E1.
  - apply str_eqb_eq in E1. subst r. split; reflexivity.
  - destruct (str_eqb r (js "6h")) eqn:E6.
    + apply str_eqb_eq in E6. subst r. split; reflexivity.
    + destruct (str_eqb r (js "24h")) eqn:E24.
      * apply str_eqb_eq in E24. subst r. split; reflexivity.
      * destruct (str_eqb r (js "7d")); split; reflexivity.
Qed.

(** X23.  The empty data of a chart made at [now] for a range are twelve
    points, fourteen for seven days, all of value zero, one step apart
    with the last one at [now]; the step is five minutes for one hour,
    thirty minutes for six hours, two hours for a day and twelve hours
    for seven days.  The window of the same range is one step longer
    than they reach back, so that filtering them for that range keeps
    all of them exactly when it is done no later than one step after
    they were made.  A range that is none of the four is treated as one
    hour by both functions. *)
Theorem empty_chart_fits_window now now' r :
  let data := Chart.generateEmptyChartData zero now r in
  let times := List.map Chart.timestamp data in
  let n := if str_eqb r (js "7d") then 14 else 12 in
  let step := (if str_eqb r (js "6h") then 1800000
               else if str_eqb r (js "24h") then 7200000
               else if str_eqb r (js "7d") then 43200000
               else 300000)%Z in
  length data = n /\
  (forall i, i < n ->
     nth i times 0%Z = (now - Z.of_nat (n - 1 - i) * step)%Z) /\
  (forall i, S i < n -> (nth (S i) times 0 - nth i times 0 = step)%Z) /\
  StronglySorted Z.lt times /\
  last times 0%Z = now /\
  Forall (fun point => Chart.value point = zero) data /\
  (Chart.filterDataByTimeRange now' data r = data <->
   (now' - now <= step)%Z) /\
  (recognized r = false ->
   data = Chart.generateEmptyChartData zero now (js "1h") /\
   forall points : list (Chart.ChartDataPoint number),
     Chart.filterDataByTimeRange now' points r =
     Chart.filterDataByTimeRange now' points (js "1h")).
Proof.
  intros data times n step.
  destruct (window_step r) as [Hstep [Hcount Hstart]].
  destruct (chart_switch r) as [Hi Hc]. fold step in Hi. fold n in Hc.
  rewrite Hi in Hstep, Hstart. rewrite Hc in Hcount, Hstart.
  assert (Htimes : times =
            Chart.countdown n (fun i => (now - Z.of_nat i * step)%Z)).
  { unfold times, data, Chart.generateEmptyChartData.
    rewrite countdown_map, Hi, Hc. reflexivity. }
  assert (Hnth : forall i, i < n ->
            nth i times 0%Z = (now - Z.of_nat (n - 1 - i) * step)%Z).
  { intros i Hlt. rewrite Htimes.
    exact (countdown_nth n (fun i => (now - Z.of_nat i * step)%Z) 0%Z i Hlt). }
  split.
  { unfold data, Chart.generateEmptyChartData.
    rewrite countdown_length. exact Hc. }
  split; [exact Hnth|].
  split.
  { intros i Hlt. rewrite (Hnth (S i) Hlt), (Hnth i) by lia.
    replace (n - 1 - i) with (S (n - 1 - S i)) by lia. lia. }
  split; [rewrite Htimes; apply countdown_sorted; exact Hstep|].
  split.
  { assert (Hl : forall d, last times d = nth (n - 1) times d).
    { intros d. rewrite Htimes.
      rewrite <- (countdown_length n (fun i => (now - Z.of_nat i * step)%Z)) at 2.
      generalize (Chart.countdown n (fun i => (now - Z.of_nat i * step)%Z)).
      intros l. induction l as [|x [|y l] IH]; try reflexivity.
      change (last (x :: y :: l) d) with (last (y :: l) d).
      rewrite IH. simpl. rewrite Nat.sub_0_r. reflexivity. }
    rewrite Hl, Hnth by lia. replace (n - 1 - (n - 1)) with 0 by lia. lia. }
  split.
  { apply Forall_forall. intros x Hx. apply countdown_in in Hx.
    destruct Hx as [i [_ ->]]. reflexivity. }
  split.
  { unfold Chart.filterDataByTimeRange. rewrite Hstart.
    unfold data, Chart.generateEmptyChartData. rewrite Hi, Hc. split.
    - intros Hf.
      assert (Hin : In (Chart.mkPoint (now - Z.of_nat (n - 1) * step) zero)
                       (Chart.countdown n
                          (fun i => Chart.mkPoint
                                      (now - Z.of_nat i * step) zero))).
      { apply countdown_in. exists (n - 1). split; [lia | reflexivity]. }
      rewrite <- Hf in Hin. apply filter_In in Hin. destruct Hin as [_ Hle].
      simpl in Hle. apply Z.leb_le in Hle. lia.
    - intros Hle. apply filter_all. intros x Hx. apply countdown_in in Hx.
      destruct Hx as [i [Hlt ->]]. simpl. apply Z.leb_le. nia. }
  intros Hr. unfold recognized in Hr.
  apply orb_false_iff in Hr. destruct Hr as [Hr H7].
  apply orb_false_iff in Hr. destruct Hr as [Hr H24].
  apply orb_false_iff in Hr. destruct Hr as [H1 H6].
  split.
  - unfold data, Chart.generateEmptyChartData, Chart.interval, Chart.count.
    rewrite H1, H6, H24, H7. reflexivity.
  - intros points. unfold Chart.filterDataByTimeRange, Chart.startTime.
    rewrite H1, H6, H24, H7. reflexivity.
Qed.

End ChartData.

Lemma empty_chart_fits_window_example :
  List.map Chart.timestamp (Chart.generateEmptyChartData 0%Z 3600000 (js "1h")) =
  [300000; 600000; 900000; 1200000; 1500000; 1800000; 2100000; 2400000;
   2700000; 3000000; 3300000; 3600000]%Z.
Proof. reflexivity. Qed.

(* ================================================================== *)
(** * The client of the browser *)
(* ================================================================== *)

Section BrowserClient.

Import Client.

Lemma own_set_same obj k v : own (set obj k v) k = Some v.
Proof.
  induction obj as [|[k0 x] obj IH]; simpl.
  - rewrite (proj2 (str_eqb_eq k k) eq_refl). reflexivity.
  - destruct (str_eqb k0 k) eqn:E; simpl; rewrite E; [reflexivity | exact IH].
Qed.

Lemma own_none obj k : own obj k = None <-> ~ In k (List.map fst obj).
Proof.
  induction obj as [|[k0 x] obj IH]; simpl.
  - tauto.
  - destruct (str_eqb k0 k) eqn:E.
    + apply str_eqb_eq in E. split; [discriminate | tauto].
    + rewrite IH. split; [|tauto].
      intros H [H0 | H1]; [|tauto].
      subst k0. rewrite (proj2 (str_eqb_eq k k) eq_refl) in E. discriminate.
Qed.

Lemma own_in obj k v :
  NoDup (List.map fst obj) -> (own obj k = Some v <-> In (k, v) obj).
Proof.
  induction obj as [|[k0 x] obj IH]; simpl; intros Hnd.
  - split; [discriminate | contradiction].
  - inversion Hnd as [|a l Hx Hl]; subst.
    destruct (str_eqb k0 k) eqn:E.
    + apply str_eqb_eq in E. subst k0. split.
      * intros H. injection H as ->. left. reflexivity.
      * intros [H | H]; [congruence|].
        exfalso. apply Hx. apply in_map_iff. exists (k, v). auto.
    + rewrite (IH Hl). split; [auto|].
      intros [H | H]; [|exact H]. injection H as -> ->.
      rewrite (proj2 (str_eqb_eq k k) eq_refl) in E. discriminate.
Qed.

Lemma set_fresh obj k v : own obj k = None -> set obj k v = obj ++ [(k, v)].
Proof.
  induction obj as [|[k0 x] obj IH]; simpl; [reflexivity|].
  destruct (str_eqb k0 k); [discriminate|].
  intros H. rewrite (IH H). reflexivity.
Qed.

Lemma set_same obj k v : own obj k = Some v -> set obj k v = obj.
Proof.
  induction obj as [|[k0 x] obj IH]; simpl; [discriminate|].
  destruct (str_eqb k0 k) eqn:E.
  - intros H. injection H as ->. reflexivity.
  - intros H. rewrite (IH H). reflexivity.
Qed.

Lemma set_set obj k v w : set (set obj k v) k w = set obj k w.
Proof.
  induction obj as [|[k0 x] obj IH]; simpl.
  - rewrite (proj2 (str_eqb_eq k k) eq_refl). reflexivity.
  - destruct (str_eqb k0 k) eqn:E; simpl; rewrite E; [reflexivity|].
    rewrite IH. reflexivity.
Qed.

Lemma set_keys obj k v items :
  own obj k = Some items -> List.map fst (set obj k v) = List.map fst obj.
Proof.
  induction obj as [|[k0 x] obj IH]; simpl; [discriminate|].
  destruct (str_eqb k0 k) eqn:E; simpl; [reflexivity|].
  intros H. rewrite (IH H). reflexivity.
Qed.

Lemma set_in obj k v k' x :
  In (k', x) (set obj k v) -> (k' = k /\ x = v) \/ In (k', x) obj.
Proof.
  induction obj as [|[k0 y] obj IH]; simpl.
  - intros [H | []]. injection H as <- <-. auto.
  - destruct (str_eqb k0 k) eqn:E; simpl.
    + apply str_eqb_eq in E. subst k0.
      intros [H | H]; [injection H as <- <-; auto | auto].
    + intros [H | H]; [auto|]. destruct (IH H); auto.
Qed.

Lemma delete_fresh obj k v :
  own obj k = None -> delete (obj ++ [(k, v)]) k = obj.
Proof.
  intros H. unfold delete. rewrite filter_app. simpl.
  rewrite (proj2 (str_eqb_eq k k) eq_refl). simpl. rewrite app_nil_r.
  apply filter_all. intros [k0 x] Hin. simpl. apply negb_true_iff.
  destruct (str_eqb k0 k) eqn:E; [|reflexivity].
  apply str_eqb_eq in E. subst k0. apply own_none in H.
  exfalso. apply H. apply in_map_iff. exists (k, x). auto.
Qed.

Lemma get_own obj k items : own obj k = Some items -> get obj k = Array items.
Proof. unfold get. intros ->. reflexivity. Qed.

Lemma get_absent obj k :
  own obj k = None -> inherited k = false -> get obj k = Undefined.
Proof. unfold get. intros -> ->. reflexivity. Qed.

Lemma addMessageListener_wf t l obj obj' :
  object_wf obj -> addMessageListener t l obj = Normal obj' -> object_wf obj'.
Proof.
  intros [Hnd Hk]. unfold addMessageListener, get.
  destruct (own obj t) as [items|] eqn:Eo.
  - rewrite Eo. intros H. injection H as <-. split.
    + rewrite (set_keys _ _ _ _ Eo). exact Hnd.
    + intros k x Hin. apply set_in in Hin. destruct Hin as [[-> ->] | Hin].
      * split; [|destruct items; discriminate].
        apply (own_in _ _ _ Hnd) in Eo. exact (proj1 (Hk _ _ Eo)).
      * exact (Hk _ _ Hin).
  - destruct (inherited t) eqn:Ei.
    + rewrite Eo. discriminate.
    + rewrite own_set_same. intros H. injection H as <-.
      rewrite set_set, (set_fresh _ _ _ Eo). split.
      * rewrite map_app. simpl. apply NoDup_app; [exact Hnd | | ].
        -- constructor; [intros [] | constructor].
        -- intros k Hin [<- | []]. apply own_none in Eo. exact (Eo Hin).
      * intros k x Hin. apply in_app_or in Hin. destruct Hin as [Hin | Hin].
        -- exact (Hk _ _ Hin).
        -- destruct Hin as [Hin | []]. injection Hin as <- <-.
           split; [exact Ei | discriminate].
Qed.

Lemma removeMessageListener_wf t l obj obj' :
  object_wf obj -> removeMessageListener t l obj = Normal obj' ->
  object_wf obj'.
Proof.
  intros [Hnd Hk]. unfold removeMessageListener, get.
  destruct (own obj t) as [items|] eqn:Eo.
  - rewrite own_set_same.
    destruct (filter _ items) as [|y ys] eqn:Ef; intros H; injection H as <-.
    + split.
      * unfold delete. apply NoDup_map_filter.
        rewrite (set_keys _ _ _ _ Eo). exact Hnd.
      * intros k x Hin. apply filter_In in Hin. destruct Hin as [Hin Hne].
        apply set_in in Hin. destruct Hin as [[-> ->] | Hin].
        -- simpl in Hne. rewrite (proj2 (str_eqb_eq t t) eq_refl) in Hne.
           discriminate.
        -- exact (Hk _ _ Hin).
    + split.
      * rewrite (set_keys _ _ _ _ Eo). exact Hnd.
      * intros k x Hin. apply set_in in Hin. destruct Hin as [[-> ->] | Hin].
        -- split; [|discriminate].
           apply (own_in _ _ _ Hnd) in Eo. exact (proj1 (Hk _ _ Eo)).
        -- exact (Hk _ _ Hin).
  - destruct (inherited t); [discriminate|].
    intros H. injection H as <-. split; assumption.
Qed.

Lemma listeners_after_wf calls : object_wf (listeners_after calls).
Proof.
  unfold listeners_after.
  induction calls as [|c calls IH] using rev_ind.
  - split; [constructor | intros k items []].
  - rewrite fold_left_app. simpl. unfold listener_exec at 1.
    destruct c as [t l | t l].
    + destruct (addMessageListener t l _) as [obj'|e] eqn:E; [|exact IH].
      exact (addMessageListener_wf _ _ _ _ IH E).
    + destruct (removeMessageListener t l _) as [obj'|e] eqn:E; [|exact IH].
      exact (removeMessageListener_wf _ _ _ _ IH E).
Qed.

(** X24.  In an object that registrations and removals have built, removing a
    listener that is not registered for the topic changes nothing, and
    removing a listener right after registering it, when it was not
    registered for the topic before, gives the object back: the key of
    a topic that has lost its last listener is deleted. *)
Theorem remove_unregistered_listener calls t listener :
  inherited t = false ->
  (forall items x, own (listeners_after calls) t = Some items ->
                   In x items -> lid x <> lid listener) ->
  let obj := listeners_after calls in
  removeMessageListener t (lid listener) obj = Normal obj /\
  exists obj',
    addMessageListener t listener obj = Normal obj' /\
    own obj' t <> None /\
    removeMessageListener t (lid listener) obj' = Normal obj.
Proof.
  intros Hi Hun obj. fold obj in Hun.
  destruct (listeners_after_wf calls) as [Hnd Hk]. fold obj in Hnd, Hk.
  assert (Hkeep : forall items, own obj t = Some items ->
            filter (fun l => negb (Nat.eqb (lid l) (lid listener))) items = items).
  { intros items Ho. apply filter_all. intros x Hx. apply negb_true_iff.
    apply Nat.eqb_neq. exact (Hun items x Ho Hx). }
  destruct (own obj t) as [items|] eqn:Eo.
  - assert (Hne : items <> []).
    { apply (own_in _ _ _ Hnd) in Eo. exact (proj2 (Hk _ _ Eo)). }
    split.
    + unfold removeMessageListener. rewrite (get_own _ _ _ Eo).
      rewrite (Hkeep items eq_refl), (set_same _ _ _ Eo), (get_own _ _ _ Eo).
      destruct items; [contradiction | reflexivity].
    + exists (set obj t (items ++ [listener])). split; [|split].
      * unfold addMessageListener. rewrite (get_own _ _ _ Eo).
        rewrite (get_own _ _ _ Eo). reflexivity.
      * rewrite own_set_same. discriminate.
      * unfold removeMessageListener.
        rewrite (get_own _ _ _ (own_set_same obj t _)).
        rewrite filter_app, (Hkeep items eq_refl). simpl.
        rewrite Nat.eqb_refl. simpl. rewrite app_nil_r, set_set.
        rewrite (set_same _ _ _ Eo), (get_own _ _ _ Eo).
        destruct items; [contradiction | reflexivity].
  - split.
    + unfold removeMessageListener. rewrite (get_absent _ _ Eo Hi). reflexivity.
    + exists (obj ++ [(t, [listener])]). split; [|split].
      * unfold addMessageListener. rewrite (get_absent _ _ Eo Hi).
        rewrite (get_own _ _ _ (own_set_same obj t _)), set_set.
        rewrite (set_fresh _ _ _ Eo). reflexivity.
      * rewrite <- (set_fresh _ _ _ Eo), own_set_same. discriminate.
      * unfold removeMessageListener.
        rewrite <- (set_fresh _ _ _ Eo) at 1.
        rewrite (get_own _ _ _ (own_set_same obj t _)). simpl.
        rewrite Nat.eqb_refl. simpl.
        rewrite <- (set_fresh _ _ _ Eo), set_set.
        rewrite (get_own _ _ _ (own_set_same obj t _)).
        rewrite (set_fresh _ _ _ Eo), (delete_fresh _ _ _ Eo). reflexivity.
Qed.

Lemma remove_unregistered_listener_witness :
  removeMessageListener (js "a") 2
    (listeners_after [Add (js "a") (mkListener 1 (fun _ => false))])
  = Normal (listeners_after [Add (js "a") (mkListener 1 (fun _ => false))]).
Proof.
  assert (Hi : inherited (js "a") = false) by reflexivity.
  assert (Hun : forall items x,
            own (listeners_after [Add (js "a") (mkListener 1 (fun _ => false))])
                (js "a") = Some items ->
            In x items -> lid x <> lid (mkListener 2 (fun _ => false))).
  { intros items x Ho Hx. simpl in Ho. injection Ho as <-.
    destruct Hx as [<- | []]. simpl. discriminate. }
  exact (proj1 (remove_unregistered_listener
                  [Add (js "a") (mkListener 1 (fun _ => false))]
                  (js "a") (mkListener 2 (fun _ => false)) Hi Hun)).
Defined.

End BrowserClient.

Section ClientDispatch.

Import Client.

Lemma each_calls message ls : forall tr,
  (forall l, In l ls -> throws l message = false) ->
  each (call message) ls tr =
  (Done tt, tr ++ List.map (fun l => Delivered (lid l) message) ls).
Proof.
  induction ls as [|l ls IH]; intros tr H.
  - simpl. rewrite app_nil_r. reflexivity.
  - cbn [each]. unfold next, call at 1.
    rewrite (H l (or_introl eq_refl)), IH.
    + simpl. rewrite <- app_assoc. reflexivity.
    + intros x Hx. apply H. right. exact Hx.
Qed.

Lemma each_calls_throw message pre l post : forall tr,
  (forall x, In x pre -> throws x message = false) ->
  throws l message = true ->
  each (call message) (pre ++ l :: post) tr =
  (Threw (js "listener error"),
   tr ++ List.map (fun x => Delivered (lid x) message) (pre ++ [l])).
Proof.
  induction pre as [|x pre IH]; intros tr Hpre Hl.
  - cbn [app each]. unfold next, call at 1. rewrite Hl. reflexivity.
  - cbn [app each]. unfold next, call at 1.
    rewrite (Hpre x (or_introl eq_refl)), IH.
    + simpl. rewrite <- app_assoc. reflexivity.
    + intros y Hy. apply Hpre. right. exact Hy.
    + exact Hl.
Qed.

(** X25.  On the browser one listener that throws ends the handling of the
    message: the listeners registered for the topic before it, and it,
    are called; those after it, and every listener registered for a
    pattern, are not; the error is logged once. *)
Theorem listener_error_stops_dispatch now t text obj pre l post :
  own obj t = Some (pre ++ l :: post) ->
  throws l (mkMessage t (parsePayload text) (Some now)) = true ->
  (forall x, In x pre ->
     throws x (mkMessage t (parsePayload text) (Some now)) = false) ->
  onMessage now t text obj [] =
  (Done tt,
   List.map (fun x => Delivered (lid x)
                        (mkMessage t (parsePayload text) (Some now)))
            (pre ++ [l])
   ++ [Logged (js "Error processing MQTT message") (js "listener error")]).
Proof.
  intros Ho Hl Hpre. unfold onMessage, catch, next at 1. cbv zeta.
  rewrite (get_own _ _ _ Ho). cbn [truthy]. unfold dispatch.
  rewrite (get_own _ _ _ Ho), (each_calls_throw _ pre l post [] Hpre Hl).
  reflexivity.
Qed.

Lemma listener_error_stops_dispatch_witness :
  onMessage 5 (js "a") (js "1")
    (listeners_after [Add (js "a") (mkListener 1 (fun _ => true));
                      Add (js "a") (mkListener 2 (fun _ => false));
                      Add (js "#") (mkListener 3 (fun _ => false))]) []
  = (Done tt,
     [Delivered 1 (mkMessage (js "a") (JNumber 1 0) (Some 5%Z));
      Logged (js "Error processing MQTT message") (js "listener error")]).
Proof.
  exact (listener_error_stops_dispatch 5 (js "a") (js "1")
           (listeners_after [Add (js "a") (mkListener 1 (fun _ => true));
                             Add (js "a") (mkListener 2 (fun _ => false));
                             Add (js "#") (mkListener 3 (fun _ => false))])
           [] (mkListener 1 (fun _ => true)) [mkListener 2 (fun _ => false)]
           eq_refl eq_refl (fun x (H : In x []) => match H with end)).
Defined.

Lemma keys_perm obj : Permutation (keys obj) (List.map fst obj).
Proof. apply enumerate_perm. Qed.

(** X26.  A pattern whose regular expression does not compile ends the
    handling of every message on another topic when its turn comes: if
    no listener is registered for the topic itself and the patterns
    before it, in the order of [Object.keys], do not match, no listener
    at all is called, whatever the patterns after it are. *)
Theorem malformed_pattern_blocks_dispatch now t text obj before bad later :
  keys obj = before ++ bad :: later ->
  own obj t = None -> inherited t = false ->
  matchTopic bad t = SyntaxError ->
  (forall k, In k before -> matchTopic k t = Ok false) ->
  onMessage now t text obj [] =
  (Done tt, [Logged (js "Error processing MQTT message") (js "SyntaxError")]).
Proof.
  intros Hkeys Ho Hi Hbad Hbefore.
  assert (Hne : forall k, In k (keys obj) -> str_eqb k t = false).
  { intros k Hin. destruct (str_eqb k t) eqn:E; [|reflexivity].
    apply str_eqb_eq in E. subst k.
    apply (Permutation_in _ (keys_perm obj)) in Hin.
    apply own_none in Ho. contradiction. }
  unfold onMessage, catch, next at 1. cbv zeta.
  rewrite (get_absent _ _ Ho Hi). cbn [truthy]. unfold done at 1.
  rewrite Hkeys in *. clear Hkeys.
  induction before as [|k before IH].
  - cbn [app each]. unfold next at 1.
    rewrite (Hne bad (or_introl eq_refl)). cbn [negb].
    unfold next, matchTopicD. rewrite Hbad. reflexivity.
  - cbn [app each]. unfold next at 1.
    rewrite (Hne k (or_introl eq_refl)). cbn [negb].
    unfold next at 1, matchTopicD. rewrite (Hbefore k (or_introl eq_refl)).
    unfold done at 1 2.
    apply IH.
    + intros k' Hk'. apply Hbefore. right. exact Hk'.
    + intros k' Hk'. apply Hne. right. exact Hk'.
Qed.

Lemma malformed_pattern_blocks_dispatch_witness :
  onMessage 5 (js "a") (js "1")
    (listeners_after [Add (js "b") (mkListener 1 (fun _ => false));
                      Add (js "(") (mkListener 2 (fun _ => false));
                      Add (js "#") (mkListener 3 (fun _ => false))]) []
  = (Done tt,
     [Logged (js "Error processing MQTT message") (js "SyntaxError")]).
Proof.
  assert (Hb : forall k, In k [js "b"] -> matchTopic k (js "a") = Ok false).
  { intros k [<- | []]. reflexivity. }
  exact (malformed_pattern_blocks_dispatch 5 (js "a") (js "1")
           (listeners_after [Add (js "b") (mkListener 1 (fun _ => false));
                             Add (js "(") (mkListener 2 (fun _ => false));
                             Add (js "#") (mkListener 3 (fun _ => false))])
           [js "b"] (js "(") [js "#"] eq_refl eq_refl eq_refl eq_refl Hb).
Defined.

(** X27.  A message on a topic that bears a name of [Object.prototype] is
    handed to no listener: whatever is registered, also for the pattern
    that matches every topic, the handler logs a TypeError and ends.
    No listener can be registered for such a topic either. *)
Theorem inherited_topic_not_delivered now t text calls listener :
  inherited t = true ->
  onMessage now t text (listeners_after calls) [] =
    (Done tt, [Logged (js "Error processing MQTT message") (js "TypeError")]) /\
  addMessageListener t listener (listeners_after calls) =
    Thrown (js "TypeError").
Proof.
  intros Hi.
  assert (Ho : own (listeners_after calls) t = None).
  { destruct (own (listeners_after calls) t) as [items|] eqn:E; [|reflexivity].
    destruct (listeners_after_wf calls) as [Hnd Hk].
    apply (own_in _ _ _ Hnd) in E. apply Hk in E.
    rewrite Hi in E. destruct E. discriminate. }
  assert (Hg : get (listeners_after calls) t = Inherited).
  { unfold get. rewrite Ho, Hi. reflexivity. }
  split.
  - unfold onMessage, catch, next at 1. cbv zeta.
    rewrite Hg. cbn [truthy]. unfold dispatch. rewrite Hg. reflexivity.
  - unfold addMessageListener. rewrite Hg, Hg. reflexivity.
Qed.

Lemma inherited_topic_not_delivered_witness :
  onMessage 5 (js "toString") (js "1")
    (listeners_after [Add (js "#") (mkListener 1 (fun _ => false))]) []
  = (Done tt,
     [Logged (js "Error processing MQTT message") (js "TypeError")]).
Proof.
  exact (proj1 (inherited_topic_not_delivered 5 (js "toString") (js "1")
                  [Add (js "#") (mkListener 1 (fun _ => false))]
                  (mkListener 1 (fun _ => false)) eq_refl)).
Defined.

End ClientDispatch.

Section ClientAddressees.

Import Client.

Lemma flat_map_split {A B} (f g h : A -> list B) (l : list A) :
  (forall x, In x l -> f x = g x ++ h x) ->
  Permutation (flat_map f l) (flat_map g l ++ flat_map h l).
Proof.
  induction l as [|x l IH]; intros H; simpl; [constructor|].
  rewrite (H x (or_introl eq_refl)), <- !app_assoc.
  apply Permutation_app_head.
  apply (Permutation_trans
           (Permutation_app_head (h x) (IH (fun y Hy => H y (or_intror Hy))))).
  rewrite !app_assoc. apply Permutation_app_tail. apply Permutation_app_comm.
Qed.

Lemma flat_map_eq_in {A B} (f g : A -> list B) (l : list A) :
  (forall x, In x l -> f x = g x) -> flat_map f l = flat_map g l.
Proof.
  induction l as [|x l IH]; intros H; simpl; [reflexivity|].
  rewrite (H x (or_introl eq_refl)), IH; [reflexivity|].
  intros y Hy. apply H. right. exact Hy.
Qed.

Lemma flat_map_keys {A B C} (f : B -> list C) (g : A -> B) (l : list A) :
  flat_map f (List.map g l) = flat_map (fun x => f (g x)) l.
Proof.
  induction l as [|x l IH]; simpl; [reflexivity | rewrite IH; reflexivity].
Qed.

Lemma own_first obj t :
  NoDup (List.map fst obj) ->
  flat_map (fun e : jsstring * list Listener =>
              if str_eqb (fst e) t then snd e else []) obj =
  match own obj t with
  | Some items => items
  | None => []
  end.
Proof.
  induction obj as [|[k x] obj IH]; simpl; intros Hnd; [reflexivity|].
  inversion Hnd as [|a l Hx Hl]; subst.
  destruct (str_eqb k t) eqn:E.
  - apply str_eqb_eq in E. subst k. rewrite (IH Hl).
    replace (own obj t) with (@None (list Listener)).
    + apply app_nil_r.
    + symmetry. apply own_none. exact Hx.
  - simpl. exact (IH Hl).
Qed.

Lemma patterns_loop now t text obj :
  NoDup (List.map fst obj) ->
  (forall k, In k (List.map fst obj) -> k <> t ->
     exists matched, matchTopic k t = Ok matched) ->
  (forall k items l, In (k, items) obj -> In l items ->
     throws l (mkMessage t (parsePayload text) (Some now)) = false) ->
  forall ks tr,
  (forall k, In k ks -> In k (List.map fst obj)) ->
  each (fun pattern =>
          if negb (str_eqb pattern t) then
            next (matchTopicD pattern t) (fun matched =>
            if matched
            then dispatch obj pattern (mkMessage t (parsePayload text) (Some now))
            else done tt)
          else done tt) ks tr =
  (Done tt,
   tr ++ List.map (fun l => Delivered (lid l)
                              (mkMessage t (parsePayload text) (Some now)))
           (flat_map (fun k =>
                        if str_eqb k t then []
                        else match matchTopic k t with
                             | Ok true =>
                                 match own obj k with
                                 | Some items => items
                                 | None => []
                                 end
                             | _ => []
                             end) ks)).
Proof.
  intros Hnd Hmatch Hquiet.
  induction ks as [|k ks IH]; intros tr Hks.
  - simpl. rewrite app_nil_r. reflexivity.
  - cbn [each flat_map]. unfold next at 1.
    assert (Hrest : forall k', In k' ks -> In k' (List.map fst obj))
      by (intros k' Hk'; apply Hks; right; exact Hk').
    destruct (str_eqb k t) eqn:E; cbn [negb].
    + unfold done at 1. rewrite (IH _ Hrest). reflexivity.
    + assert (Hkt : k <> t).
      { intros ->. rewrite (proj2 (str_eqb_eq t t) eq_refl) in E. discriminate. }
      destruct (Hmatch k (Hks k (or_introl eq_refl)) Hkt) as [matched Hm].
      unfold next at 1, matchTopicD. rewrite Hm. unfold done at 1.
      destruct matched.
      * destruct (own obj k) as [items|] eqn:Eo.
        -- unfold dispatch. rewrite (get_own _ _ _ Eo).
           rewrite each_calls.
           ++ rewrite (IH _ Hrest), map_app, app_assoc. reflexivity.
           ++ intros l Hl. apply (Hquiet k items l); [|exact Hl].
              apply own_in; assumption.
        -- exfalso. apply own_none in Eo. apply Eo.
           apply Hks. left. reflexivity.
      * unfold done at 1. rewrite (IH _ Hrest). reflexivity.
Qed.

Lemma insert_index_sorted x l :
  StronglySorted (fun a b => (fst a <= fst b)%N) l ->
  StronglySorted (fun a b => (fst a <= fst b)%N) (insert_index x l).
Proof.
  induction 1 as [|y l Hl IH Hy]; simpl.
  - repeat constructor.
  - destruct (N.leb_spec (fst x) (fst y)) as [Hle|Hgt].
    + constructor; [constructor; assumption|].
      constructor; [exact Hle|].
      rewrite Forall_forall in *. intros z Hz. specialize (Hy z Hz). lia.
    + constructor; [exact IH|].
      rewrite Forall_forall in *. intros z Hz.
      apply (Permutation_in _ (insert_index_perm x l)) in Hz.
      destruct Hz as [<- | Hz]; [lia | exact (Hy z Hz)].
Qed.

Lemma indexed_index ks :
  Forall (fun e => array_index (snd e) = Some (fst e)) (indexed ks).
Proof.
  unfold indexed. induction ks as [|k ks IH]; simpl; [constructor|].
  destruct (array_index k) eqn:E; simpl; [constructor; [exact E | exact IH]|].
  exact IH.
Qed.

(** [Object.keys] lists the keys that are array indices first, by
    ascending index, and the other keys after them in the order of
    their creation. *)
Lemma keys_order obj :
  exists idx,
    keys obj = idx ++ filter (fun k => negb (is_index k)) (List.map fst obj) /\
    Forall (fun k => is_index k = true) idx /\
    Permutation idx (filter is_index (List.map fst obj)) /\
    StronglySorted (fun a b => (index_of a <= index_of b)%N) idx.
Proof.
  unfold keys, enumerate.
  set (sorted := fold_right insert_index [] (indexed (List.map fst obj))).
  exists (List.map snd sorted). split; [reflexivity|].
  assert (Hperm : Permutation sorted (indexed (List.map fst obj)))
    by apply sort_index_perm.
  assert (Hall : Forall (fun e => array_index (snd e) = Some (fst e)) sorted).
  { apply Forall_forall. intros e He.
    apply (Permutation_in _ Hperm) in He.
    pose proof (indexed_index (List.map fst obj)) as H.
    rewrite Forall_forall in H. exact (H e He). }
  split; [|split].
  - apply Forall_forall. intros k Hk. apply in_map_iff in Hk.
    destruct Hk as [e [<- He]]. rewrite Forall_forall in Hall.
    unfold is_index. rewrite (Hall e He). reflexivity.
  - rewrite <- indexed_keys. apply Permutation_map. exact Hperm.
  - assert (Hs : StronglySorted (fun a b => (fst a <= fst b)%N) sorted).
    { clear Hperm Hall. unfold sorted. clear sorted.
      induction (indexed (List.map fst obj)) as [|x l IH].
      - apply SSorted_nil.
      - cbn [fold_right]. apply insert_index_sorted. exact IH. }
    clear Hperm. induction Hs as [|e l Hl IH He]; simpl; [constructor|].
    inversion Hall as [|e' l' He' Hall']; subst.
    constructor; [exact (IH Hall')|].
    apply Forall_forall. intros k Hk. apply in_map_iff in Hk.
    destruct Hk as [e2 [<- He2]].
    rewrite Forall_forall in He, Hall'.
    unfold index_of. rewrite He', (Hall' e2 He2). exact (He e2 He2).
Qed.

(** X28.  When the topic of a message bears no inherited name, the patterns
    registered are regular expressions that compile, and no listener
    throws, the handler of the browser calls exactly the listeners that
    the message is for, each as often as it is registered for the topic
    or for a pattern that the topic matches, and logs nothing: a
    listener registered for the topic itself is not called a second
    time because the topic matches itself as a pattern.  The calls come
    in this order: first the listeners registered for the topic itself,
    then the listeners of each matching pattern, the patterns taken in
    the order of [Object.keys], array indices first by ascending index
    and then the other keys in the order of their creation; under one
    key the listeners are called in the order of their registration. *)
Theorem dispatch_reaches_addressed now t text obj :
  object_wf obj ->
  inherited t = false ->
  (forall k, In k (List.map fst obj) -> k <> t ->
     exists matched, matchTopic k t = Ok matched) ->
  (forall k items l, In (k, items) obj -> In l items ->
     throws l (mkMessage t (parsePayload text) (Some now)) = false) ->
  onMessage now t text obj [] =
    (Done tt,
     List.map (fun l => Delivered (lid l)
                          (mkMessage t (parsePayload text) (Some now)))
              (dispatch_order obj t)) /\
  Permutation (dispatch_order obj t) (addressed obj t) /\
  (forall k items, In (k, items) obj -> own_listeners obj k = items) /\
  exists idx,
    keys obj = idx ++ filter (fun k => negb (is_index k)) (List.map fst obj) /\
    Forall (fun k => is_index k = true) idx /\
    Permutation idx (filter is_index (List.map fst obj)) /\
    StronglySorted (fun a b => (index_of a <= index_of b)%N) idx.
Proof.
  intros [Hnd _] Hi Hmatch Hquiet.
  set (G := fun k => if str_eqb k t then []
                     else match matchTopic k t with
                          | Ok true => match own obj k with
                                       | Some items => items
                                       | None => []
                                       end
                          | _ => []
                          end).
  assert (Hord : dispatch_order obj t =
                 match own obj t with Some items => items | None => [] end
                 ++ flat_map G (keys obj)) by reflexivity.
  rewrite Hord. clear Hord.
  split; [|split; [|split; [|apply keys_order]]].
  - unfold onMessage, catch, next at 1. cbv zeta.
    assert (Hkeys : forall k, In k (keys obj) -> In k (List.map fst obj)).
    { intros k Hk. exact (Permutation_in _ (keys_perm obj) Hk). }
    destruct (own obj t) as [items|] eqn:Eo.
    + rewrite (get_own _ _ _ Eo). cbn [truthy]. unfold dispatch.
      rewrite (get_own _ _ _ Eo), each_calls.
      * rewrite (patterns_loop now t text obj Hnd Hmatch Hquiet _ _ Hkeys).
        rewrite map_app. reflexivity.
      * intros l Hl. apply (Hquiet t items l); [|exact Hl].
        apply own_in; assumption.
    + rewrite (get_absent _ _ Eo Hi). cbn [truthy]. unfold done at 1.
      rewrite (patterns_loop now t text obj Hnd Hmatch Hquiet _ _ Hkeys).
      reflexivity.
  - unfold addressed.
    apply Permutation_sym.
    assert (Hsplit : forall e : jsstring * list Listener, In e obj ->
              (if str_eqb (fst e) t then snd e
               else match matchTopic (fst e) t with
                    | Ok true => snd e
                    | _ => []
                    end) =
              (if str_eqb (fst e) t then snd e else []) ++ G (fst e)).
    { intros [k items] Hin. unfold G. cbn [fst snd].
      destruct (str_eqb k t); [rewrite app_nil_r; reflexivity|].
      rewrite (proj2 (own_in obj k items Hnd) Hin).
      destruct (matchTopic k t) as [[|]| |]; reflexivity. }
    apply (Permutation_trans (flat_map_split _ _ _ obj Hsplit)).
    rewrite (own_first obj t Hnd). apply Permutation_app_head.
    rewrite <- (flat_map_keys G fst obj).
    apply Permutation_flat_map. apply Permutation_sym. apply keys_perm.
  - intros k items Hin. unfold own_listeners.
    rewrite (proj2 (own_in obj k items Hnd) Hin). reflexivity.
Qed.

Lemma dispatch_reaches_addressed_witness :
  onMessage 5 (js "a/b") (js "1")
    (listeners_after [Add (js "c") (mkListener 3 (fun _ => false));
                      Add (js "#") (mkListener 4 (fun _ => false));
                      Add (js "a/+") (mkListener 1 (fun _ => false));
                      Add (js "a/b") (mkListener 2 (fun _ => false))]) []
  = (Done tt,
     List.map (fun l => Delivered (lid l)
                 (mkMessage (js "a/b") (parsePayload (js "1")) (Some 5%Z)))
              [mkListener 2 (fun _ => false); mkListener 4 (fun _ => false);
               mkListener 1 (fun _ => false)]).
Proof.
  assert (Hm : forall k,
            In k (List.map fst
                    (listeners_after
                       [Add (js "c") (mkListener 3 (fun _ => false));
                        Add (js "#") (mkListener 4 (fun _ => false));
                        Add (js "a/+") (mkListener 1 (fun _ => false));
                        Add (js "a/b") (mkListener 2 (fun _ => false))])) ->
            k <> js "a/b" -> exists matched, matchTopic k (js "a/b") = Ok matched).
  { intros k [<- | [<- | [<- | [<- | []]]]] _; eexists; vm_compute; reflexivity. }
  assert (Hq : forall k items l,
            In (k, items)
               (listeners_after
                  [Add (js "c") (mkListener 3 (fun _ => false));
                   Add (js "#") (mkListener 4 (fun _ => false));
                   Add (js "a/+") (mkListener 1 (fun _ => false));
                   Add (js "a/b") (mkListener 2 (fun _ => false))]) ->
            In l items ->
            throws l (mkMessage (js "a/b") (parsePayload (js "1")) (Some 5%Z))
            = false).
  { intros k items l [H | [H | [H | [H | []]]]] Hl; injection H as <- <-;
      destruct Hl as [<- | []]; reflexivity. }
  exact (proj1 (dispatch_reaches_addressed 5 (js "a/b") (js "1") _
                  (listeners_after_wf _) eq_refl Hm Hq)).
Defined.

End ClientAddressees.

(* ================================================================== *)
(** * The value that a widget shows *)
(* ================================================================== *)

Section ValueByPath.

Import Extract.

Lemma split_dot p q : forall cur,
  Connection.split_go (js ".") 0 cur (p ++ js "." ++ q) =
  Connection.split_go (js ".") 0 cur p ++ Connection.split (q) (js ".").
Proof.
  induction p as [|x p IH]; intros cur.
  - reflexivity.
  - cbn [app Connection.split_go].
    change (Connection.startsWith (x :: ?s) (js "."))
      with (N.eqb x 46 && true)%bool.
    destruct (N.eqb x 46); cbn [andb length Nat.sub].
    + rewrite IH. reflexivity.
    + apply IH.
Qed.

Lemma walk_undefined keys : walk Undefined keys = Undefined.
Proof. destruct keys; reflexivity. Qed.

Lemma walk_unmodelled keys : walk Unmodelled keys = Unmodelled.
Proof. destruct keys; reflexivity. Qed.

Lemma walk_app keys1 keys2 : forall v,
  walk v (keys1 ++ keys2) = walk (walk v keys1) keys2.
Proof.
  induction keys1 as [|k keys1 IH]; intros v; [reflexivity|].
  cbn [app walk].
  destruct v as [j| | | |]; try (rewrite ?walk_undefined, ?walk_unmodelled;
                                 reflexivity); try apply IH.
  destruct j; cbn [is_object]; try (rewrite walk_undefined; reflexivity);
    apply IH.
Qed.

Lemma split_not_nil p : forall cur skip,
  Connection.split_go (js ".") skip cur p <> [].
Proof.
  induction p as [|x p IH]; intros cur skip; simpl; [discriminate|].
  destruct skip; [|apply IH].
  destruct (N.eqb x 46 && true)%bool; [discriminate | apply IH].
Qed.

(** X29.  A path is read key by key: the value at a path followed by a dot
    and more keys is what the further keys find in the value at the
    path.  A path of one name that an object of the payload has as a
    member gives that member, the last one that the text of the payload
    gives under the name; when the value at a path is no object, or is
    null, every longer path gives undefined; no path at all, or the
    empty one, gives the payload itself. *)
Theorem extract_path_composes obj c p q :
  let path := c :: p in
  extractValueByPath obj (Some (path ++ js "." ++ q)) =
    walk (extractValueByPath obj (Some path)) (Connection.split q (js ".")) /\
  (forall ms w,
     extractValueByPath obj (Some path) = Json (JObject ms) ->
     Connection.occurs q (js ".") = false ->
     own_member ms q = Some w ->
     extractValueByPath obj (Some (path ++ js "." ++ q)) = Json w) /\
  (is_object (extractValueByPath obj (Some path)) = false ->
   extractValueByPath obj (Some path) <> Unmodelled ->
   extractValueByPath obj (Some (path ++ js "." ++ q)) = Undefined) /\
  extractValueByPath obj None = Json obj /\
  extractValueByPath obj (Some []) = Json obj.
Proof.
  intros path.
  assert (Hc : extractValueByPath obj (Some (path ++ js "." ++ q)) =
               walk (extractValueByPath obj (Some path))
                    (Connection.split q (js "."))).
  { unfold path. cbn [app extractValueByPath].
    change (c :: p ++ js "." ++ q) with ((c :: p) ++ js "." ++ q).
    unfold Connection.split at 1. rewrite split_dot, walk_app. reflexivity. }
  split; [exact Hc|]. split; [|split; [|split; reflexivity]].
  - intros ms w Hv Hq Hw. rewrite Hc, Hv.
    unfold Connection.split. rewrite (split_go_free _ _ [] Hq).
    cbn [rev app walk is_object member]. rewrite Hw. reflexivity.
  - intros Hno Hun. rewrite Hc.
    destruct (Connection.split q (js ".")) as [|k ks] eqn:E.
    + exfalso. exact (split_not_nil q [] 0 E).
    + cbn [walk]. rewrite Hno.
      destruct (extractValueByPath obj (Some path)); try reflexivity.
      contradiction.
Qed.

Lemma extract_path_composes_example :
  extractValueByPath
    (JObject [(js "a", JObject [(js "b", JNumber 1 0); (js "b", JNumber 2 0)]);
              (js "l", JArray [JNull; JBool true])])
    (Some (js "a.b")) = Json (JNumber 2 0) /\
  extractValueByPath
    (JObject [(js "l", JArray [JNull; JBool true])]) (Some (js "l.1"))
  = Json (JBool true) /\
  extractValueByPath (JObject [(js "a.b", JNull)]) (Some (js "a.b")) = Undefined.
Proof. repeat split. Qed.

End ValueByPath.

(* ================================================================== *)
(** * The WebSocket client of the browser *)
(* ================================================================== *)

Section WebSocketReconnect.

Import WebSocket.

Lemma mem_snoc x l : existsb (Nat.eqb x) (l ++ [x]) = true.
Proof.
  rewrite existsb_app. simpl. rewrite Nat.eqb_refl. apply orb_true_r.
Qed.

(** X30.  Calling [disconnect] does not keep the client disconnected: when
    the close event of the socket it has closed arrives, the handler
    sets the timer anew, and when that timer fires the client creates a
    socket again.  Only a second [disconnect], after the close event,
    clears that timer.  And when the client has connected again before
    the close event of the old socket arrives, the handler makes the
    client forget the socket it has just created, and the timer makes
    it create one more. *)
Theorem disconnect_is_followed_by_reconnect c sid :
  socket c = Some sid -> created sid c = true -> isConnecting c = false ->
  let again := performs [Disconnect; Closed sid; Fired (timers c) false] c in
  let stopped :=
    performs [Disconnect; Closed sid; Disconnect; Fired (timers c) false] c in
  let twice :=
    performs [Disconnect; Connect false; Closed sid; Fired (timers c) false] c in
  (socket again = Some (sockets c) /\ isConnecting again = true) /\
  (socket stopped = None /\ isConnecting stopped = false /\
   sockets stopped = sockets c) /\
  (socket (performs [Disconnect; Connect false] c) = Some (sockets c) /\
   socket twice = Some (S (sockets c)) /\ sockets twice = S (S (sockets c))).
Proof.
  intros Hs Hcr Hic. unfold performs. cbn [fold_left].
  assert (Hd : disconnect c =
               mkClient None false None (without sid (open_sockets c))
                 (sockets c) (timers c)
                 (match reconnectTimer c with
                  | Some tid => without tid (scheduled c)
                  | None => scheduled c
                  end)).
  { unfold disconnect. destruct (reconnectTimer c) eqn:Et; cbn [socket];
      rewrite Hs; cbn; rewrite Hic, ?Et; reflexivity. }
  cbn [perform]. rewrite Hd. clear Hd.
  set (sch := match reconnectTimer c with
              | Some tid => without tid (scheduled c)
              | None => scheduled c
              end).
  unfold created in *. cbn [sockets]. rewrite Hcr.
  split; [|split].
  - unfold onclose. cbn [timers scheduled sockets open_sockets].
    rewrite mem_snoc. unfold connect. cbn. auto.
  - unfold onclose, disconnect. cbn.
    unfold connect. cbn.
    assert (Hgone : existsb (Nat.eqb (timers c))
                      (without (timers c) (sch ++ [timers c])) = false).
    { destruct (existsb _ _) eqn:E; [|reflexivity].
      apply existsb_exists in E. destruct E as [y [Hy Hty]].
      apply Nat.eqb_eq in Hty. subst y. unfold without in Hy.
      apply filter_In in Hy. rewrite Nat.eqb_refl in Hy.
      destruct Hy. discriminate. }
    unfold without in Hgone. rewrite Hgone. cbn. auto.
  - unfold connect at 2. cbn.
    assert (Hlt : Nat.leb sid (sockets c) = true).
    { apply Nat.leb_le. apply Nat.ltb_lt in Hcr. lia. }
    split; [unfold connect; cbn; reflexivity|].
    unfold connect at 1. cbn. rewrite Hlt.
    unfold onclose. cbn. rewrite mem_snoc. unfold connect. cbn. auto.
Qed.

Lemma disconnect_is_followed_by_reconnect_witness :
  socket (performs [Connect false; Opened 0; Disconnect; Closed 0;
                    Fired 0 false] new_client) = Some 1.
Proof.
  exact (proj1 (proj1 (disconnect_is_followed_by_reconnect
                         (performs [Connect false; Opened 0] new_client) 0
                         eq_refl eq_refl eq_refl))).
Defined.

End WebSocketReconnect.
